(** * Cross-run deduplication and incremental delivery of the RSS workers

    A shallow embedding of the state protocol shared by the feed workers of
    this repository, and the properties of its specification settled
    against it.

    Three workers are covered:
    - the FFXIV RSS worker ([processRSS] with a capacity-pruned sent map),
    - the multi-source RSS worker (same protocol, age-pruned sent map),
    - the FFXIV news monitor ([processFFXIVNews], snapshot based).

    The second part of the development adds the code around them: the
    loading and saving of the sent map, [limitPlainText] and
    [processAllRSS] of the RSS workers, the capped sent map of the news
    monitor, the PTT Lifeismoney worker ([mergeState],
    [selectArticlesToSend], [processLifeismoney]), and the two earlier RSS
    workers that remember links rather than articles, one in a [Map] kept
    in memory ([isRecentlyProcessed]), one by marks in the KV namespace
    ([hasProcessedLink], [markLinkProcessed]); and the news API worker,
    whose [processData] makes the categories the news monitor reads and
    whose [filterByCategory] answers the requests.

    The helpers [getArticleIdentity], [hashIdentifier], [setSentEntry],
    [loadDailyState], [mergeArticles] and [markPreviouslySentArticles] have
    the same text in both RSS workers and are embedded once.

    Conventions of the embedding.
    - A JavaScript primitive is a [Val]; a number is an integer or NaN
      (epoch milliseconds are integers, and JSON carries no infinity).
    - A JavaScript string is a [string] whose characters are UTF-16 code
      units below 256.
    - A [Map] is an association list in insertion order with unique keys.
    - An array of objects mutated through references is a list, and a
      reference is an index into it.
    - [Date.parse], [Date.prototype.toISOString] and
      [String.prototype.localeCompare] belong to the runtime: they are
      parameters of the sections that use them. [localeCompare] is taken
      to be a consistent comparator (total and transitive); it is not
      taken to tell all strings apart, since the collation of the runtime
      ignores some characters.
    - [Array.prototype.sort] with a consistent comparator is the stable
      sorted permutation, [sortBy]. The comparator of the news monitor is
      not consistent when a date does not parse; the order is then the
      engine's own, and the sort of the monitor is a parameter of which
      only that much is assumed.
    - [sendToDiscord] is the delivery sink, an oracle asked at each call.
      In the news monitor and the Lifeismoney worker it catches its
      errors and answers [true] or [false]. In the RSS workers it does
      not: besides [Accepted] and [Refused] a call has the outcome
      [Threw] (a rejected [fetch]), which ends the loop that made the
      call; in a cycle of [processRSS] the enclosing [catch] is then
      reached and the two writes are skipped.
    - A write to the KV namespace at the end of a run is taken to
      succeed.
    - An object used as a dictionary is an association list as well. A
      plain object also answers the names [Object.prototype] defines.
      Where the code tests what it reads or calls a method on it
      ([processData], [filterByCategory]) the oracle [protoHas] tells
      these names. The other dictionaries are written under hashes, or
      read with a fallback to the empty object, which an inherited value
      equals in every field asked of it; the key [__proto__] is not
      considered there.
    - The category names of the news API worker lie beyond code unit
      255. They are constants that are only compared, and are written
      in UTF-8. *)

From Stdlib Require Import ZArith Lia Ascii String.
From stdpp Require Import base list strings sorting.

(** ** JavaScript primitives *)

Inductive Val : Type :=
  | VUndef
  | VNull
  | VBool (b : bool)
  | VNum (n : Z)
  | VNaN
  | VStr (s : string).

Global Instance Val_eq_dec : EqDecision Val.
Proof. solve_decision. Defined.

Definition nonEmpty (s : string) : bool :=
  match s with EmptyString => false | String _ _ => true end.

(** ToBoolean. *)
Definition truthy (v : Val) : bool :=
  match v with
  | VUndef | VNull | VNaN => false
  | VBool b => b
  | VNum n => negb (n =? 0)%Z
  | VStr s => nonEmpty s
  end.

(** [a || b]. *)
Definition js_or (a b : Val) : Val := if truthy a then a else b.

(** [a !== b]: NaN differs from itself. *)
Definition strictNe (a b : Val) : bool :=
  match a, b with
  | VNaN, _ | _, VNaN => true
  | _, _ => negb (bool_decide (a = b))
  end.

(** [typeof v === 'string']. *)
Definition isString (v : Val) : bool :=
  match v with VStr _ => true | _ => false end.

(** [Number.isFinite(v)]. *)
Definition Number_isFinite (v : Val) : bool :=
  match v with VNum _ => true | _ => false end.

(** [Boolean(v)]. *)
Definition Boolean (v : Val) : Val := VBool (truthy v).

(** A number produced by the runtime: [None] is NaN. *)
Definition ofNumber (o : option Z) : Val :=
  match o with Some n => VNum n | None => VNaN end.

(** ** Strings: [trim] *)

(** WhiteSpace and LineTerminator code units below 256. *)
Definition isWhiteSpace (c : ascii) : bool :=
  match N_of_ascii c with
  | 9 | 10 | 11 | 12 | 13 | 32 | 160 => true
  | _ => false
  end%N.

Fixpoint trimStart (s : string) : string :=
  match s with
  | EmptyString => EmptyString
  | String c r => if isWhiteSpace c then trimStart r else s
  end.

Fixpoint trimEnd (s : string) : string :=
  match s with
  | EmptyString => EmptyString
  | String c r =>
      let r' := trimEnd r in
      if isWhiteSpace c && negb (nonEmpty r') then EmptyString else String c r'
  end.

Definition trim (s : string) : string := trimEnd (trimStart s).

(** ** Maps in insertion order *)

Abbreviation JsMap V := (list (string * V)).

Section JsMap.
Context {V : Type}.

Fixpoint map_get (k : string) (m : list (string * V)) : option V :=
  match m with
  | [] => None
  | (k', v) :: r => if bool_decide (k' = k) then Some v else map_get k r
  end.

(** [m.set(k, v)]: an existing key keeps its place, a new key goes last. *)
Fixpoint map_set (k : string) (v : V) (m : list (string * V)) : list (string * V) :=
  match m with
  | [] => [(k, v)]
  | (k', v') :: r =>
      if bool_decide (k' = k) then (k', v) :: r else (k', v') :: map_set k v r
  end.

Fixpoint map_delete (k : string) (m : list (string * V)) : list (string * V) :=
  match m with
  | [] => []
  | (k', v') :: r =>
      if bool_decide (k' = k) then r else (k', v') :: map_delete k r
  end.

Definition map_keys (m : list (string * V)) : list string := m.*1.
Definition map_values (m : list (string * V)) : list V := m.*2.
Definition map_size (m : list (string * V)) : nat := length m.
End JsMap.

(** ** Articles and the sent map *)

Record Article : Type := mkArticle {
  link : string;
  title : Val;
  description : Val;
  thumbnail : Val;
  guid : Val;
  publishedAt : Val;
  publishedAtMs : Val;
  sent : Val;
  sentAt : Val
}.

Global Instance Article_eq_dec : EqDecision Article.
Proof. solve_decision. Defined.

Record SentEntry : Type := mkSentEntry {
  entry_sentAt : string;
  entry_identity : option string
}.

Global Instance SentEntry_eq_dec : EqDecision SentEntry.
Proof. solve_decision. Defined.

Abbreviation SentMap := (JsMap SentEntry).

(** ** Identity and its hash *)

(** The part of [getArticleIdentity] that reads one field:
    [v && typeof v === 'string' && v.trim()] followed by [v.trim()]. *)
Definition identityOf (v : Val) : option string :=
  match v with
  | VStr s => if nonEmpty s && nonEmpty (trim s) then Some (trim s) else None
  | _ => None
  end.

(** [getArticleIdentity] on the two fields it reads. *)
Definition getIdentity (guid_ link_ : Val) : option string :=
  match identityOf guid_ with
  | Some i => Some i
  | None => identityOf link_
  end.

Definition getArticleIdentity (article : Article) : option string :=
  getIdentity (guid article) (VStr (link article)).

Definition to_uint32 (z : Z) : Z := (z mod 2 ^ 32)%Z.

Definition to_int32 (z : Z) : Z :=
  let u := to_uint32 z in
  if (2 ^ 31 <=? u)%Z then (u - 2 ^ 32)%Z else u.

(** [a ^ b] on 32-bit integers. *)
Definition xor32 (a b : Z) : Z := to_int32 (Z.lxor (to_uint32 a) (to_uint32 b)).

Definition Math_imul (a b : Z) : Z := to_int32 (to_uint32 a * to_uint32 b).

(** [x >>> 0]. *)
Definition ushr0 (x : Z) : Z := to_uint32 x.

Definition charCode (c : ascii) : Z := Z.of_N (N_of_ascii c).

Definition hexDigit (d : Z) : ascii :=
  if (d <? 10)%Z
  then ascii_of_N (Z.to_N (48 + d))
  else ascii_of_N (Z.to_N (87 + d)).

(** [n.toString(16)] for [0 <= n < 16 ^ fuel]. *)
Fixpoint toString16_aux (fuel : nat) (n : Z) (acc : string) : string :=
  match fuel with
  | O => acc
  | S fuel' =>
      let acc' := String (hexDigit (n mod 16)) acc in
      if (n / 16 =? 0)%Z then acc' else toString16_aux fuel' (n / 16) acc'
  end.

Definition toString16 (n : Z) : string := toString16_aux 8 n EmptyString.

Fixpoint repeatChar (n : nat) (c : ascii) : string :=
  match n with O => EmptyString | S n' => String c (repeatChar n' c) end.

Definition padStart (width : nat) (c : ascii) (s : string) : string :=
  String.append (repeatChar (width - String.length s) c) s.

Fixpoint hashLoop (value : string) (hash : Z) : Z :=
  match value with
  | EmptyString => hash
  | String c r =>
      let hash1 := xor32 hash (charCode c) in
      let hash2 := Math_imul hash1 16777619 in
      hashLoop r (ushr0 hash2)
  end.

Definition hashIdentifier (input : string) : string :=
  padStart 8 "0" (toString16 (hashLoop input 2166136261)).

(** [setSentEntry(sentMap, article)] with the clock reading [now]. *)
Definition setSentEntry (now : string) (sentMap : SentMap) (article : Article)
  : SentMap * bool :=
  match getArticleIdentity article with
  | None => (sentMap, false)
  | Some identity =>
      let hash := hashIdentifier identity in
      let sentAt_ := match sentAt article with VStr s => s | _ => now end in
      let unchanged :=
        match map_get hash sentMap with
        | Some prev => bool_decide (entry_sentAt prev = sentAt_)
        | None => false
        end in
      if unchanged then (sentMap, false)
      else (map_set hash (mkSentEntry sentAt_ (Some identity)) sentMap, true)
  end.

(** ** Ledger reconciliation *)

Definition setSent (article : Article) (sent_ sentAt_ : Val) : Article :=
  mkArticle (link article) (title article) (description article)
    (thumbnail article) (guid article) (publishedAt article)
    (publishedAtMs article) sent_ sentAt_.

(** The body of the loop of [markPreviouslySentArticles]: the article after
    the iteration, and whether the iteration set [mutated]. *)
Definition markArticle (sentMap : SentMap) (article : Article) : Article * bool :=
  if truthy (sent article) then (article, false)
  else
    match getArticleIdentity article with
    | None => (article, false)
    | Some identity =>
        match map_get (hashIdentifier identity) sentMap with
        | None => (article, false)
        | Some entry =>
            let sentAt_ :=
              if negb (truthy (sentAt article)) && nonEmpty (entry_sentAt entry)
              then VStr (entry_sentAt entry)
              else sentAt article in
            (setSent article (VBool true) sentAt_, true)
        end
    end.

(** [markPreviouslySentArticles(articles, sentMap)]: the array after the
    in-place updates, and the returned flag. *)
Fixpoint markLoop (sentMap : SentMap) (articles : list Article) (mutated : bool)
  : list Article * bool :=
  match articles with
  | [] => ([], mutated)
  | article :: rest =>
      let '(article', hit) := markArticle sentMap article in
      let '(rest', mutated') :=
        markLoop sentMap rest (if hit then true else mutated) in
      (article' :: rest', mutated')
  end.

Definition markPreviouslySentArticles (articles : list Article) (sentMap : SentMap)
  : list Article * bool :=
  markLoop sentMap articles false.

(** ** [Array.prototype.sort]

    A stable sort: with a consistent comparator the result is the stable
    sorted permutation, computed here by insertion. Only the sign of the
    comparator's result is used. *)

Section Sort.
Context {A : Type} (cmp : A → A → Z).

Fixpoint insertBy (x : A) (l : list A) : list A :=
  match l with
  | [] => [x]
  | y :: r => if (cmp x y <=? 0)%Z then x :: y :: r else y :: insertBy x r
  end.

Fixpoint sortBy (l : list A) : list A :=
  match l with
  | [] => []
  | x :: r => insertBy x (sortBy r)
  end.
End Sort.

(** ** The reconciler *)

Definition setTitle (a : Article) (v : Val) : Article :=
  mkArticle (link a) v (description a) (thumbnail a) (guid a)
    (publishedAt a) (publishedAtMs a) (sent a) (sentAt a).

Definition setDescription (a : Article) (v : Val) : Article :=
  mkArticle (link a) (title a) v (thumbnail a) (guid a)
    (publishedAt a) (publishedAtMs a) (sent a) (sentAt a).

Definition setThumbnail (a : Article) (v : Val) : Article :=
  mkArticle (link a) (title a) (description a) v (guid a)
    (publishedAt a) (publishedAtMs a) (sent a) (sentAt a).

Definition setGuid (a : Article) (v : Val) : Article :=
  mkArticle (link a) (title a) (description a) (thumbnail a) v
    (publishedAt a) (publishedAtMs a) (sent a) (sentAt a).

Definition setPublished (a : Article) (at_ ms : Val) : Article :=
  mkArticle (link a) (title a) (description a) (thumbnail a) (guid a)
    at_ ms (sent a) (sentAt a).

(** The sort key [Number.isFinite(a.publishedAtMs) ? a.publishedAtMs :
    Number.POSITIVE_INFINITY]; [None] is positive infinity. *)
Definition sortTime (a : Article) : option Z :=
  match publishedAtMs a with VNum n => Some n | _ => None end.

Section Reconciler.
(** [Date.parse(v)]; [None] is NaN. *)
Variable Date_parse : Val → option Z.
(** [new Date(v).toISOString()]; [None] is the RangeError of an invalid
    date. *)
Variable Date_toISOString : Val → option string.
(** [a.localeCompare(b)]. *)
Variable localeCompare : string → string → Z.

(** The object literal stored for an existing article. *)
Definition normalizeArticle (article : Article) : option Article :=
  let sent_ := Boolean (sent article) in
  let sentAt_ := js_or (sentAt article) VNull in
  let guid_ := if isString (guid article) then guid article else VNull in
  let ms_ :=
    if Number_isFinite (publishedAtMs article) then publishedAtMs article
    else if truthy (publishedAt article)
         then ofNumber (Date_parse (publishedAt article))
         else VNull in
  let at_ :=
    if truthy (publishedAt article) then Some (publishedAt article)
    else if truthy (publishedAtMs article)
         then VStr <$> Date_toISOString (publishedAtMs article)
         else Some VNull in
  match at_ with
  | None => None
  | Some at_ =>
      Some (mkArticle (link article) (title article) (description article)
              (thumbnail article) guid_ at_ ms_ sent_ sentAt_)
  end.

(** First loop of [mergeArticles]. *)
Fixpoint seedMap (existingArticles : list Article) (articleMap : JsMap Article)
  : option (JsMap Article) :=
  match existingArticles with
  | [] => Some articleMap
  | article :: rest =>
      if negb (nonEmpty (link article)) then seedMap rest articleMap
      else
        match normalizeArticle article with
        | None => None
        | Some stored => seedMap rest (map_set (link article) stored articleMap)
        end
  end.

(** The five guarded assignments on [next], with the [updated] flag. *)
Definition refresh (existing item : Article) : Article * bool :=
  let next := existing in
  let updated := false in
  let '(next, updated) :=
    if truthy (title item) && strictNe (title item) (title existing)
    then (setTitle next (title item), true) else (next, updated) in
  let '(next, updated) :=
    if truthy (description item) && strictNe (description item) (description existing)
    then (setDescription next (description item), true) else (next, updated) in
  let '(next, updated) :=
    if truthy (thumbnail item) && strictNe (thumbnail item) (thumbnail existing)
    then (setThumbnail next (thumbnail item), true) else (next, updated) in
  let '(next, updated) :=
    if truthy (guid item) && strictNe (guid item) (guid existing)
    then (setGuid next (guid item), true) else (next, updated) in
  let '(next, updated) :=
    if truthy (publishedAt item) && strictNe (publishedAt item) (publishedAt existing)
    then (setPublished next (publishedAt item) (publishedAtMs item), true)
    else (next, updated) in
  (next, updated).

(** The object stored for a link seen for the first time. *)
Definition newArticle (item : Article) : Article :=
  mkArticle (link item) (title item) (description item) (thumbnail item)
    (js_or (guid item) VNull) (publishedAt item) (publishedAtMs item)
    (VBool false) VNull.

(** One iteration of the second loop, on [(articleMap, hasChanges)]. *)
Definition mergeItem (st : JsMap Article * bool) (item : Article)
  : JsMap Article * bool :=
  let '(articleMap, hasChanges) := st in
  if negb (nonEmpty (link item)) then st
  else
    match map_get (link item) articleMap with
    | Some existing =>
        let '(next, updated) := refresh existing item in
        if updated then (map_set (link item) next articleMap, true)
        else (articleMap, hasChanges)
    | None => (map_set (link item) (newArticle item) articleMap, true)
    end.

Definition mergeItems (newItems : list Article) (st : JsMap Article * bool)
  : JsMap Article * bool :=
  foldl mergeItem st newItems.

(** The comparator of the final sort; only its sign matters, so the
    infinite differences are given as [1] and [-1]. *)
Definition compareArticles (a b : Article) : Z :=
  match sortTime a, sortTime b with
  | Some aTime, Some bTime =>
      if bool_decide (aTime ≠ bTime) then (aTime - bTime)%Z
      else localeCompare (link a) (link b)
  | Some _, None => (-1)%Z
  | None, Some _ => 1%Z
  | None, None => localeCompare (link a) (link b)
  end.

(** [mergeArticles(existingArticles, newItems)]; [None] when the first
    loop throws. *)
Definition mergeArticles (existingArticles newItems : list Article)
  : option (list Article * bool) :=
  match seedMap existingArticles [] with
  | None => None
  | Some articleMap0 =>
      let '(articleMap, hasChanges) := mergeItems newItems (articleMap0, false) in
      Some (sortBy compareArticles (map_values articleMap), hasChanges)
  end.
End Reconciler.

(** ** The state loader *)

(** What [JSON.parse] returned, as far as [loadDailyState] looks at it. A
    stored entry is [null] ([None]) or an object; its [link], when present,
    is a string, and the empty string also stands for an absent link. *)
Inductive Doc : Type :=
  | DocNull
  | DocNoArticles
  | DocArticles (entries : list (option Article)).

(** What [kv.get(key)] did: it threw, or it returned [null] or a string. *)
Inductive KvRead : Type :=
  | KvThrows
  | KvValue (raw : option string).

Section Loader.
Variable Date_parse : Val → option Z.
Variable Date_toISOString : Val → option string.
(** [JSON.parse(raw)]; [None] is a SyntaxError. *)
Variable JSON_parse : string → option Doc.

(** The callback of [rawArticles.map]: [Some None] is the [null] that
    [filter(Boolean)] drops, [None] is an exception. *)
Definition loadEntry (entry : option Article) : option (option Article) :=
  match entry with
  | None => Some None
  | Some entry =>
      if negb (nonEmpty (link entry)) then Some None
      else
        let ms :=
          if Number_isFinite (publishedAtMs entry) then publishedAtMs entry
          else if truthy (publishedAt entry)
               then ofNumber (Date_parse (publishedAt entry))
               else VNull in
        let at_ :=
          if isString (publishedAt entry) then Some (publishedAt entry)
          else if truthy ms then VStr <$> Date_toISOString ms
               else Some VNull in
        match at_ with
        | None => None
        | Some at_ =>
            Some (Some (mkArticle (link entry)
              (js_or (title entry) (VStr "No Title"))
              (js_or (description entry) (VStr EmptyString))
              (js_or (thumbnail entry) VNull)
              (if isString (guid entry) then guid entry else VNull)
              at_
              (if Number_isFinite ms then ms else VNull)
              (Boolean (sent entry))
              (if isString (sentAt entry) then sentAt entry else VNull)))
        end
  end.

Fixpoint loadEntries (entries : list (option Article)) : option (list Article) :=
  match entries with
  | [] => Some []
  | entry :: rest =>
      match loadEntry entry with
      | None => None
      | Some loaded =>
          match loadEntries rest with
          | None => None
          | Some rest' =>
              Some (match loaded with Some a => a :: rest' | None => rest' end)
          end
      end
  end.

(** The [try] block: [(exists, state.articles)], or [None] when it
    throws. *)
Definition loadDailyState_try (read : KvRead) : option (bool * list Article) :=
  match read with
  | KvThrows => None
  | KvValue None => Some (false, [])
  | KvValue (Some raw) =>
      if negb (nonEmpty raw) then Some (false, [])
      else
        match JSON_parse raw with
        | None => None
        | Some DocNull => None
        | Some DocNoArticles => Some (true, [])
        | Some (DocArticles entries) =>
            match loadEntries entries with
            | None => None
            | Some articles => Some (true, articles)
            end
        end
  end.

(** [loadDailyState]: the [catch] block returns the empty state. *)
Definition loadDailyState (read : KvRead) : bool * list Article :=
  match loadDailyState_try read with
  | Some r => r
  | None => (false, [])
  end.
End Loader.

(** ** Pruning the sent map *)

Definition MAX_SENT_MAP_SIZE : nat := 500.
Definition MAX_ITEMS_PER_SEND : nat := 5.

Section Prune.
Variable Date_parse : Val → option Z.

Definition entryTime (e : SentEntry) : option Z := Date_parse (VStr (entry_sentAt e)).

(** One iteration of the clean-up loop of the FFXIV RSS worker. The test
    [typeof entry.sentAt !== 'string'] never holds on a [SentEntry]. *)
Definition cleanStep (st : SentMap * bool) (he : string * SentEntry)
  : SentMap * bool :=
  let '(sentMap, mutated) := st in
  match entryTime he.2 with
  | None => (map_delete he.1 sentMap, true)
  | Some _ => st
  end.

(** [Date.parse(a[1].sentAt) - Date.parse(b[1].sentAt)]; NaN counts as
    zero in a sort. *)
Definition compareSentAt (a b : string * SentEntry) : Z :=
  match entryTime a.2, entryTime b.2 with
  | Some x, Some y => (x - y)%Z
  | _, _ => 0%Z
  end.

Definition deleteAll (hashes : list string) (sentMap : SentMap) : SentMap :=
  foldl (λ m h, map_delete h m) sentMap hashes.

(** [pruneSentMap] of the FFXIV RSS worker: the map after the call and the
    returned flag. *)
Definition pruneSentMap (sentMap0 : SentMap) : SentMap * bool :=
  let '(sentMap, mutated) := foldl cleanStep (sentMap0, false) sentMap0 in
  if bool_decide (MAX_SENT_MAP_SIZE < map_size sentMap) then
    let sorted := sortBy compareSentAt sentMap in
    let toDelete := take (map_size sentMap - MAX_SENT_MAP_SIZE) sorted in
    (deleteAll toDelete.*1 sentMap, true)
  else (sentMap, mutated).

(** [pruneSentMap] of the multi-source RSS worker, where
    [SENT_MAP_TTL_SECONDS] is two days; [nowMs] is [Date.now()]. *)
Definition SENT_MAP_TTL_SECONDS_multi : Z := 2 * 24 * 60 * 60.

Definition ageStep (cutoffMs : Z) (st : SentMap * bool) (he : string * SentEntry)
  : SentMap * bool :=
  let '(sentMap, mutated) := st in
  match entryTime he.2 with
  | None => (map_delete he.1 sentMap, true)
  | Some timestamp =>
      if (timestamp <? cutoffMs)%Z then (map_delete he.1 sentMap, true) else st
  end.

Definition pruneSentMap_multi (nowMs : Z) (sentMap0 : SentMap) : SentMap * bool :=
  let cutoffMs := (nowMs - SENT_MAP_TTL_SECONDS_multi * 1000)%Z in
  foldl (ageStep cutoffMs) (sentMap0, false) sentMap0.
End Prune.

(** ** A sink that can throw *)

(** What a call of a [sendToDiscord] that does not catch its errors comes
    to: [true], [false], or an exception (a rejected [fetch]), which ends
    the loop that made the call. *)
Inductive Outcome : Type :=
  | Accepted
  | Refused
  | Threw.

(** ** One cycle of [processRSS] for one source *)

(** The references of [articles.filter(article => !article.sent)]. *)
Fixpoint unsentFrom (i : nat) (articles : list Article) : list nat :=
  match articles with
  | [] => []
  | article :: rest =>
      if negb (truthy (sent article)) then i :: unsentFrom (S i) rest
      else unsentFrom (S i) rest
  end.

Definition unsentQueue (articles : list Article) : list nat := unsentFrom 0 articles.

Record LoopState : Type := mkLoopState {
  ls_articles : list Article;
  ls_sentMap : SentMap;
  ls_sentMapDirty : bool;
  ls_successCount : nat;
  ls_sendSuccess : bool;
  (** the references passed to the sink so far, oldest call first *)
  ls_calls : list nat;
  (** a call has thrown: the loop is left *)
  ls_threw : bool
}.

Record CycleResult : Type := mkCycleResult {
  (** the articles passed to the sink, in call order *)
  cr_calls : list nat;
  (** the array and the sent map in memory when the cycle ends *)
  cr_articles : list Article;
  cr_sentMap : SentMap;
  (** the value written under the daily key, if any *)
  cr_dailyWrite : option (list Article);
  (** the value written under the sent key, if any *)
  cr_sentWrite : option SentMap
}.

Section Cycle.
Variable Date_parse : Val → option Z.
Variable Date_toISOString : Val → option string.
Variable localeCompare : string → string → Z.
(** What [sendToDiscord] comes to at its [k]-th call of the cycle. *)
Variable sink : nat → Article → Outcome.
(** [new Date().toISOString()] read after the [k]-th call. *)
Variable clock : nat → string.

(** One iteration of the delivery loop on the article referenced by [ref]. *)
Definition deliverStep (st : LoopState) (ref : nat) : LoopState :=
  match ls_articles st !! ref with
  | None => st
  | Some article =>
      let k := length (ls_calls st) in
      match sink k article with
      | Accepted =>
          let article' := setSent article (VBool true) (VStr (clock k)) in
          let '(sentMap', changed) := setSentEntry (clock k) (ls_sentMap st) article' in
          mkLoopState (<[ref := article']> (ls_articles st)) sentMap'
            (if changed then true else ls_sentMapDirty st)
            (S (ls_successCount st)) true (ls_calls st ++ [ref]) (ls_threw st)
      | Refused =>
          mkLoopState (ls_articles st) (ls_sentMap st) (ls_sentMapDirty st)
            (ls_successCount st) (ls_sendSuccess st) (ls_calls st ++ [ref])
            (ls_threw st)
      | Threw =>
          mkLoopState (ls_articles st) (ls_sentMap st) (ls_sentMapDirty st)
            (ls_successCount st) (ls_sendSuccess st) (ls_calls st ++ [ref]) true
      end
  end.

(** The loop runs its body until a call throws. *)
Definition deliverNext (st : LoopState) (ref : nat) : LoopState :=
  if ls_threw st then st else deliverStep st ref.

Definition deliverLoop (toSend : list nat) (st : LoopState) : LoopState :=
  foldl deliverNext st toSend.

Definition sendLimitOf (testMode : bool) : nat :=
  if testMode then 1 else MAX_ITEMS_PER_SEND.

(** The part of [processRSS] from [mergeArticles] to the writes, shared
    by both RSS workers. [sentMap] is the pruned map and [sentMapDirty0]
    the flag [pruneSentMap] returned. [None] when [mergeArticles] throws:
    the enclosing [catch] logs and nothing is written. When a call of the
    sink throws, the same [catch] is reached from inside the loop: the two
    writes are skipped, and what the loop did to the array and the map in
    memory is lost. *)
Definition processSource (testMode exists_ : bool) (stateArticles : list Article)
    (sentMap : SentMap) (sentMapDirty0 : bool) (parsedItems : list Article)
  : option CycleResult :=
  let sendLimit := sendLimitOf testMode in
  match mergeArticles Date_parse Date_toISOString localeCompare
          stateArticles parsedItems with
  | None => None
  | Some (merged, hasChanges) =>
      let '(articles, alreadySentUpdated) :=
        markPreviouslySentArticles merged sentMap in
      let toSend := take sendLimit (unsentQueue articles) in
      let st :=
        deliverLoop toSend
          (mkLoopState articles sentMap sentMapDirty0 0 false [] false) in
      Some (mkCycleResult (ls_calls st) (ls_articles st) (ls_sentMap st)
        (if ls_threw st then None
         else if hasChanges || ls_sendSuccess st || alreadySentUpdated || negb exists_
         then Some (ls_articles st) else None)
        (if ls_threw st then None
         else if ls_sentMapDirty st then Some (ls_sentMap st) else None))
  end.

(** [processRSS] of the FFXIV RSS worker for its source, after the two
    loads and the fetch. *)
Definition processRSS (testMode exists_ : bool) (stateArticles : list Article)
    (sentMap0 : SentMap) (parsedItems : list Article) : option CycleResult :=
  let '(sentMap, sentMapDirty) := pruneSentMap Date_parse sentMap0 in
  processSource testMode exists_ stateArticles sentMap sentMapDirty parsedItems.

(** The body of the loop over [RSS_SOURCES] of the multi-source worker. *)
Definition processRSS_multi (nowMs : Z) (testMode exists_ : bool)
    (stateArticles : list Article) (sentMap0 : SentMap)
    (parsedItems : list Article) : option CycleResult :=
  let '(sentMap, sentMapDirty) := pruneSentMap_multi Date_parse nowMs sentMap0 in
  processSource testMode exists_ stateArticles sentMap sentMapDirty parsedItems.
End Cycle.

(** ** The FFXIV news monitor *)

Module NewsMonitor.

Record NewsArticle : Type := mkNewsArticle {
  id : string;
  date : string;
  category : string;
  news_title : Val
}.

Global Instance NewsArticle_eq_dec : EqDecision NewsArticle.
Proof. solve_decision. Defined.

Record MonitorEntry : Type := mkMonitorEntry {
  m_sentAt : string;
  m_category : string;
  m_title : Val
}.

Record MonitorState : Type := mkMonitorState {
  ms_sentMap : JsMap MonitorEntry;
  ms_successCount : nat;
  (** the articles passed to the sink, oldest call first *)
  ms_calls : list NewsArticle
}.

Record MonitorResult : Type := mkMonitorResult {
  mr_processed : list NewsArticle;
  mr_calls : list NewsArticle;
  mr_sentMap : JsMap MonitorEntry;
  (** the id list written as the snapshot, if any *)
  mr_snapshotWrite : option (list string)
}.

Section Monitor.
(** [new Date(s).getTime()]; [None] is NaN. *)
Variable Date_getTime : string → option Z.
(** [newArticles.sort(...)] with the comparator below, as the engine
    performs it. While every date parses the comparator is consistent and
    the result is the stable sorted permutation, [sortBy]; with a date
    that does not parse it is not, and the order is the engine's own. *)
Variable sortByDate : list NewsArticle → list NewsArticle.
Variable sink : nat → NewsArticle → bool.
Variable clock : nat → string.

(** The comparator of that sort, [new Date(a.date) - new Date(b.date)];
    NaN counts as zero in a sort. *)
Definition compareDate (a b : NewsArticle) : Z :=
  match Date_getTime (date a), Date_getTime (date b) with
  | Some x, Some y => (x - y)%Z
  | _, _ => 0%Z
  end.

Definition includes (ids : list string) (x : string) : bool :=
  bool_decide (x ∈ ids).

Definition record (k : nat) (article : NewsArticle) (m : JsMap MonitorEntry)
  : JsMap MonitorEntry :=
  map_set (id article)
    (mkMonitorEntry (clock k) (category article) (news_title article)) m.

(** One iteration of the processing loop; [k] counts the iterations. *)
Definition processStep (isFirstRun : bool) (st : MonitorState * nat)
    (article : NewsArticle) : MonitorState * nat :=
  let '(s, k) := st in
  if isFirstRun then
    (mkMonitorState (record k article (ms_sentMap s))
       (S (ms_successCount s)) (ms_calls s), S k)
  else if sink (length (ms_calls s)) article then
    (mkMonitorState (record k article (ms_sentMap s))
       (S (ms_successCount s)) (ms_calls s ++ [article]), S k)
  else
    (mkMonitorState (ms_sentMap s) (ms_successCount s)
       (ms_calls s ++ [article]), S k).

(** [processFFXIVNews(env, testMode)] once the webhook, the news data,
    the snapshot and the sent map are read. [None] is the early return
    taken when nothing is new. The sent map written by [saveSentMap]
    is [mr_sentMap] cut to its capacity. *)
Definition processFFXIVNews (testMode : bool) (allArticles : list NewsArticle)
    (previousIds : list string) (sentMap0 : JsMap MonitorEntry)
  : option MonitorResult :=
  let currentIds := id <$> allArticles in
  let isFirstRun := bool_decide (length previousIds = 0) in
  let newIds := List.filter (λ x, negb (includes previousIds x)) currentIds in
  let newArticles := List.filter (λ a, includes newIds (id a)) allArticles in
  if bool_decide (length newArticles = 0) then None
  else
    let newArticles := sortByDate newArticles in
    let articlesToProcess :=
      if testMode && bool_decide (0 < length newArticles)
      then match last newArticles with Some a => [a] | None => [] end
      else newArticles in
    let '(s, _) :=
      foldl (processStep isFirstRun)
        (mkMonitorState sentMap0 0 [], 0) articlesToProcess in
    Some (mkMonitorResult articlesToProcess (ms_calls s) (ms_sentMap s)
      (if isFirstRun || negb testMode then Some currentIds else None)).
End Monitor.

End NewsMonitor.

(** * More of the workers *)

(** ** Objects and the order of their keys *)

(** [Object.keys], [Object.entries] and [JSON.stringify] list the keys
    that are array indices first, in ascending numeric order, and then the
    other keys in the order they were created. An object is kept as the
    list of its properties in creation order; assigning to a property is
    [map_set]. *)

Definition isDigit (c : ascii) : bool :=
  let n := N_of_ascii c in (48 <=? n)%N && (n <=? 57)%N.

Fixpoint allChars (p : ascii → bool) (s : string) : bool :=
  match s with
  | EmptyString => true
  | String c r => p c && allChars p r
  end.

Fixpoint decimalValue (s : string) (acc : Z) : Z :=
  match s with
  | EmptyString => acc
  | String c r => decimalValue r (10 * acc + (Z.of_N (N_of_ascii c) - 48))
  end.

(** The array index a key denotes, if it is the canonical decimal form of
    an integer from 0 to 2^32 - 2. *)
Definition arrayIndex (key : string) : option Z :=
  match key with
  | EmptyString => None
  | String c r =>
      if allChars isDigit key
         && (negb (bool_decide (c = "0"%char)) || negb (nonEmpty r))
         && (decimalValue key 0 <? 2 ^ 32 - 1)%Z
      then Some (decimalValue key 0)
      else None
  end.

Definition compareIndex {V : Type} (a b : string * V) : Z :=
  match arrayIndex a.1, arrayIndex b.1 with
  | Some x, Some y => (x - y)%Z
  | _, _ => 0%Z
  end.

(** [Object.entries(o)], also the order in which [JSON.stringify] writes
    the properties of [o]: the array-index keys in ascending order, then
    the other keys in the order of their creation. *)
Definition Object_entries {V : Type} (o : list (string * V)) : list (string * V) :=
  sortBy compareIndex (filter (λ kv, is_Some (arrayIndex kv.1)) o)
  ++ filter (λ kv, ¬ is_Some (arrayIndex kv.1)) o.

(** ** Loading and saving the sent map *)

(** An entry of the parsed sent-map document: [None] when it is falsy or
    not an object. *)
Record RawSent : Type := mkRawSent {
  raw_sentAt : Val;
  raw_identity : Val
}.

(** What [JSON.parse] returned, as far as [loadSentMap] looks at it: a
    value that is falsy or not an object, or the entries of an object. *)
Inductive SentDoc : Type :=
  | SentNotObject
  | SentObject (entries : list (string * option RawSent)).

(** One iteration of the loop of [loadSentMap]. *)
Definition loadSentStep (map : SentMap) (he : string * option RawSent) : SentMap :=
  match he.2 with
  | None => map
  | Some entry =>
      match raw_sentAt entry with
      | VStr sentAt_ =>
          if nonEmpty sentAt_
          then map_set he.1
                 (mkSentEntry sentAt_
                    (match raw_identity entry with
                     | VStr i => Some i
                     | _ => None
                     end)) map
          else map
      | _ => map
      end
  end.

Section LoadSentMap.
(** [JSON.parse(raw)] on the sent-map document; [None] is a SyntaxError. *)
Variable JSON_parse_sent : string → option SentDoc.

(** [loadSentMap]: the map it returns. The [catch] block returns the map
    built so far, which is empty wherever an exception can arise. *)
Definition loadSentMap (read : KvRead) : SentMap :=
  match read with
  | KvThrows => []
  | KvValue None => []
  | KvValue (Some raw) =>
      if negb (nonEmpty raw) then []
      else
        match JSON_parse_sent raw with
        | None => []
        | Some SentNotObject => []
        | Some (SentObject entries) => foldl loadSentStep [] entries
        end
  end.
End LoadSentMap.

(** The object [serializable] that [saveSentMap] builds and stringifies. *)
Definition saveSentMap_object (sentMap : SentMap) : list (string * SentEntry) :=
  foldl (λ o he, map_set he.1 he.2 o) [] sentMap.

(** The entry as [JSON.parse] gives it back. *)
Definition rawOfEntry (e : SentEntry) : RawSent :=
  mkRawSent (VStr (entry_sentAt e))
    (match entry_identity e with Some i => VStr i | None => VNull end).

(** The entries [loadSentMap] iterates over when it reads back what
    [saveSentMap] wrote: [JSON.stringify] writes the properties of
    [serializable] in their order, [JSON.parse] creates them in the order
    of the text, and [Object.entries] lists the parsed object. *)
Definition savedEntries (sentMap : SentMap) : list (string * option RawSent) :=
  let text := Object_entries (saveSentMap_object sentMap) in
  let data := foldl (λ o he, map_set he.1 (Some (rawOfEntry he.2)) o) [] text in
  Object_entries data.

(** ** [limitPlainText] *)

(** [s.slice(0, n)] for [0 <= n]. *)
Fixpoint sliceTo (n : nat) (s : string) : string :=
  match n, s with
  | S n', String c r => String c (sliceTo n' r)
  | _, _ => EmptyString
  end.

Definition limitPlainText (text : string) (maxLength : Val) : string :=
  match maxLength with
  | VNum n =>
      if (n <=? 0)%Z then text
      else if (Z.of_nat (String.length text) <=? n)%Z then text
      else if (n <=? 3)%Z then repeatChar (Z.to_nat (Z.max 1 n)) "."
      else String.append (trimEnd (sliceTo (Z.to_nat (n - 3)) text)) "..."
  | _ => text
  end.

(** ** [processAllRSS] *)

(** The comparator of [processAllRSS]: two missing times give
    [Infinity - Infinity], which is NaN and counts as zero. *)
Definition compareTime (a b : Article) : Z :=
  match sortTime a, sortTime b with
  | Some x, Some y => (x - y)%Z
  | Some _, None => (-1)%Z
  | None, Some _ => 1%Z
  | None, None => 0%Z
  end.

(** ** [processAllRSS] *)

(** One iteration of the loop of [processAllRSS], on the items passed to
    the sink so far, [successCount], and whether a call has thrown. *)
Definition sendAllStep (sink : nat → Article → Outcome)
    (st : list Article * nat * bool) (item : Article) : list Article * nat * bool :=
  let '(calls, successCount, stopped) := st in
  if stopped then st
  else
    match sink (length calls) item with
    | Accepted => (calls ++ [item], S successCount, false)
    | Refused => (calls ++ [item], successCount, false)
    | Threw => (calls ++ [item], successCount, true)
    end.

(** [processAllRSS] once the feed is parsed: the answers of the sink are
    only counted. The result is the list of the items passed to the sink
    and [successCount]. *)
Definition processAllRSS (sink : nat → Article → Outcome) (parsedItems : list Article)
  : list Article * nat :=
  let sortedItems := sortBy compareTime parsedItems in
  (foldl (sendAllStep sink) ([], 0, false) sortedItems).1.

(** ** The sent map of the news monitor *)

Module MonitorStore.
Import NewsMonitor.

Section Store.
Variable Date_getTime : string → option Z.

(** [timeB - timeA]; NaN counts as zero in a sort. *)
Definition compareNewestFirst (a b : string * MonitorEntry) : Z :=
  match Date_getTime (m_sentAt a.2), Date_getTime (m_sentAt b.2) with
  | Some timeA, Some timeB => (timeB - timeA)%Z
  | _, _ => 0%Z
  end.

(** [pruneSentMap(sentMap)]: the map after the deletions. *)
Definition pruneSentMap (sentMap : JsMap MonitorEntry) : JsMap MonitorEntry :=
  let entries := sortBy compareNewestFirst sentMap in
  let toDelete := drop MAX_SENT_MAP_SIZE entries in
  foldl (λ m id_, map_delete id_ m) sentMap toDelete.*1.

(** [saveSentMap(env, sentMap)]: the map after the call, whose entries
    are what is written. *)
Definition saveSentMap (sentMap : JsMap MonitorEntry) : JsMap MonitorEntry :=
  if bool_decide (MAX_SENT_MAP_SIZE < map_size sentMap)
  then pruneSentMap sentMap
  else sentMap.
End Store.

End MonitorStore.

(** ** The PTT Lifeismoney worker *)

Module Lifeismoney.

Definition PUSH_THRESHOLD : Z := 30.

(** An entry of the board index as [parseLifeismoneyEntries] pushes it. *)
Record Entry : Type := mkEntry {
  e_id : string;
  e_url : Val;
  e_title : Val;
  e_author : Val;
  e_push : Val
}.

(** A value of [state.items]. A stored value that is not an object reads
    as an item whose fields are all [undefined]. *)
Record Item : Type := mkItem {
  i_id : string;
  i_url : Val;
  i_title : Val;
  i_author : Val;
  i_push : Val;
  i_sent : Val;
  i_sentAt : Val
}.

Global Instance Item_eq_dec : EqDecision Item.
Proof. solve_decision. Defined.

(** [items[entry.id] || {}]. *)
Definition emptyItem : Item :=
  mkItem EmptyString VUndef VUndef VUndef VUndef VUndef VUndef.

(** One iteration of the loop of [mergeState]. *)
Definition mergeEntry (items : JsMap Item) (entry : Entry) : JsMap Item :=
  let existing := default emptyItem (map_get (e_id entry) items) in
  map_set (e_id entry)
    (mkItem (e_id entry) (e_url entry) (e_title entry) (e_author entry)
       (e_push entry)
       (VBool (bool_decide (i_sent existing = VBool true)))
       (js_or (i_sentAt existing) VNull))
    items.

(** [mergeState(state, entries).items]. *)
Definition mergeState (items : JsMap Item) (entries : list Entry) : JsMap Item :=
  foldl mergeEntry items entries.

(** The three tests an item passes to become a candidate. *)
Definition isCandidate (item : Item) : bool :=
  negb (truthy (i_sent item))
  && match i_push item with
     | VNum n => negb (n <? PUSH_THRESHOLD)%Z
     | _ => false
     end.

Section Select.
Variable localeCompare : string → string → Z.

(** The comparator of [candidates.sort]; candidates have a finite
    [push]. *)
Definition comparePush (a b : string * Item) : Z :=
  match i_push a.2, i_push b.2 with
  | VNum x, VNum y =>
      if bool_decide (x ≠ y) then (y - x)%Z
      else localeCompare (i_id a.2) (i_id b.2)
  | _, _ => 0%Z
  end.

(** [selectArticlesToSend(state, testMode)]: each selected item with the
    key it is stored under, which stands for the reference to it. *)
Definition selectArticlesToSend (items : JsMap Item) (testMode : bool)
  : list (string * Item) :=
  let candidates :=
    List.filter (λ kv, isCandidate kv.2) (Object_entries items) in
  let candidates := sortBy comparePush candidates in
  if testMode && bool_decide (0 < length candidates)
  then take 1 candidates
  else candidates.

Variable sink : nat → Item → bool.
Variable clock : nat → string.

Definition markSent (item : Item) (sentAt_ : string) : Item :=
  mkItem (i_id item) (i_url item) (i_title item) (i_author item) (i_push item)
    (VBool true) (VStr sentAt_).

(** One iteration of the sending loop, on the items and the calls made so
    far. *)
Definition sendStep (st : JsMap Item * list (string * Item)) (kv : string * Item)
  : JsMap Item * list (string * Item) :=
  let k := length st.2 in
  if sink k kv.2
  then (map_set kv.1 (markSent kv.2 (clock k)) st.1, st.2 ++ [kv])
  else (st.1, st.2 ++ [kv]).

(** [processLifeismoney(env, testMode)] from [mergeState] on: the items
    written under the daily key and the calls made to the sink. *)
Definition processLifeismoney (testMode : bool) (items : JsMap Item)
    (allEntries : list Entry) : JsMap Item * list (string * Item) :=
  let mergedItems := mergeState items allEntries in
  let toSend := selectArticlesToSend mergedItems testMode in
  foldl sendStep (mergedItems, []) toSend.
End Select.

End Lifeismoney.

(** ** The in-memory link cache of the stateless RSS worker *)

Module RecentLinks.

Definition RECENT_LINK_TTL_MS : Z := 10 * 60 * 1000.

(** The loop that clears the expired links. *)
Definition purge (now : Z) (cache : JsMap Z) : JsMap Z :=
  foldl (λ c kv, if (RECENT_LINK_TTL_MS <? now - kv.2)%Z
                 then map_delete kv.1 c else c)
        cache cache.

(** [isRecentlyProcessed(link)] at the time [now]: the answer and
    [RECENT_LINK_CACHE] after the call. *)
Definition isRecentlyProcessed (now : Z) (link_ : string) (cache : JsMap Z)
  : bool * JsMap Z :=
  if negb (nonEmpty link_) then (false, cache)
  else
    let cache := purge now cache in
    match map_get link_ cache with
    | Some _ => (true, cache)
    | None => (false, map_set link_ now cache)
    end.

(** [items.filter(...)] of [processRSS]: the fresh items and the cache
    after the filter; [clock k] is [Date.now()] at the [k]-th call of
    [isRecentlyProcessed]. *)
Definition freshStep (clock : nat → Z)
    (st : list Article * JsMap Z * nat) (item : Article)
  : list Article * JsMap Z * nat :=
  let '(fresh, cache, k) := st in
  if negb (nonEmpty (link item)) then st
  else
    let '(recent, cache') := isRecentlyProcessed (clock k) (link item) cache in
    if recent then (fresh, cache', S k) else (fresh ++ [item], cache', S k).

Definition freshItems (clock : nat → Z) (items : list Article) (cache : JsMap Z)
  : list Article * JsMap Z :=
  (foldl (freshStep clock) ([], cache, 0) items).1.

(** The sending loop of [processRSS]: [throws k item] tells whether the
    [k]-th call of [sendToDiscord] throws, which ends the loop; what the
    call returns is not looked at. The result is the list of the items
    passed to it. *)
Definition sendFresh (throws : nat → Article → bool) (freshItems_ : list Article)
  : list Article :=
  (foldl (λ st item,
            if st.2 : bool then st
            else (st.1 ++ [item], throws (length st.1) item))
         ([], false) freshItems_).1.

(** [processRSS] of the stateless worker for one source, once the feed is
    parsed: the items passed to [sendToDiscord] and the cache
    afterwards. *)
Definition processRSS (clock : nat → Z) (throws : nat → Article → bool)
    (testMode : bool) (items : list Article) (cache : JsMap Z)
  : list Article * JsMap Z :=
  let items :=
    if testMode && bool_decide (1 < length items) then take 1 items else items in
  let '(fresh, cache') := freshItems clock items cache in
  (sendFresh throws fresh, cache').
End RecentLinks.

(** ** The link marks of the first RSS worker *)

Module LinkMarks.

Section Marks.
(** [encodeURIComponent]. *)
Variable encodeURIComponent : string → string.
(** Whether [kv.get] and [kv.put] succeed on a key. *)
Variable get_ok : string → bool.
Variable put_ok : string → bool.

Definition buildCacheKey (link_ : string) : string :=
  String.append "link:" (encodeURIComponent link_).

(** [hasProcessedLink(env, link)] on the content of the namespace. *)
Definition hasProcessedLink (kv : JsMap string) (link_ : string) : bool :=
  if get_ok (buildCacheKey link_) then
    match map_get (buildCacheKey link_) kv with
    | Some cached => nonEmpty cached
    | None => false
    end
  else false.

(** [markLinkProcessed(env, link)]: the namespace afterwards. *)
Definition markLinkProcessed (kv : JsMap string) (link_ : string) : JsMap string :=
  if put_ok (buildCacheKey link_) then map_set (buildCacheKey link_) "1" kv else kv.

Variable sink : nat → Article → Outcome.

(** One iteration of the sending loop, on the calls made so far, the
    namespace, and whether a call has thrown. *)
Definition sendStep (st : list Article * JsMap string * bool) (item : Article)
  : list Article * JsMap string * bool :=
  let '(calls, kv, stopped) := st in
  if stopped then st
  else
    match sink (length calls) item with
    | Accepted => (calls ++ [item], markLinkProcessed kv (link item), false)
    | Refused => (calls ++ [item], kv, false)
    | Threw => (calls ++ [item], kv, true)
    end.

(** [processRSS] of the first worker for one source, once the feed is
    parsed: the items passed to the sink and the namespace afterwards. *)
Definition processRSS (testMode : bool) (items : list Article) (kv : JsMap string)
  : list Article * JsMap string :=
  let items :=
    if testMode && bool_decide (1 < length items) then take 1 items else items in
  let freshItems :=
    List.filter
      (λ item, nonEmpty (link item) && negb (hasProcessedLink kv (link item)))
      items in
  (foldl sendStep ([], kv, false) freshItems).1.
End Marks.

End LinkMarks.

(** ** The news API worker: [processData] and [filterByCategory] *)

Module NewsApi.

(** An item as [parseHtml] returns it. *)
Record RawItem : Type := mkRawItem {
  r_id : string;
  r_category : string;
  r_title : string;
  r_url : string;
  r_date : string;
  r_views : string;
  r_isTop : bool
}.

(** An item after the first loop of [processData]. *)
Record NewsItem : Type := mkNewsItem {
  n_id : string;
  n_category : string;
  n_title : string;
  n_url : string;
  n_date : string;
  n_views : Z;
  n_isTop : bool
}.

Global Instance NewsItem_eq_dec : EqDecision NewsItem.
Proof. solve_decision. Defined.

(** [s.split(sep)] for a separator of one character. *)
Fixpoint splitOn (sep : ascii) (s : string) : list string :=
  match s with
  | EmptyString => [EmptyString]
  | String c r =>
      if bool_decide (c = sep) then EmptyString :: splitOn sep r
      else
        match splitOn sep r with
        | part :: parts => String c part :: parts
        | [] => [String c EmptyString]
        end
  end.

(** [s.replace(/,/g, ...)]: every comma is removed. *)
Fixpoint removeCommas (s : string) : string :=
  match s with
  | EmptyString => EmptyString
  | String c r =>
      if bool_decide (c = ","%char) then removeCommas r
      else String c (removeCommas r)
  end.

(** The date normalisation: [2025/1/5] becomes [2025-01-05]. *)
Definition normalizeDate (date_ : string) : string :=
  if nonEmpty date_ then
    match splitOn "/" date_ with
    | [year; month; day] =>
        String.append year
          (String.append "-"
             (String.append (padStart 2 "0" month)
                (String.append "-" (padStart 2 "0" day))))
    | _ => date_
    end
  else date_.

Definition MAX_ITEMS : nat := 500.

Section Process.
(** [parseInt(s)]; [None] is NaN. *)
Variable parseInt : string → option Z.
(** The category given to an item that has none. *)
Variable defaultCategory : string.

(** The assignments of the first loop to one item. *)
Definition cleanItem (item : RawItem) : NewsItem :=
  let category_ := trim (r_category item) in
  mkNewsItem (trim (r_id item))
    (if nonEmpty category_ then category_ else defaultCategory)
    (trim (r_title item))
    (r_url item)
    (normalizeDate (trim (r_date item)))
    (match parseInt (removeCommas (trim (r_views item))) with
     | Some n => n
     | None => 0%Z
     end)
    (r_isTop item).

(** One iteration of the first loop on [uniqueMap]. *)
Definition uniqueStep (uniqueMap : JsMap NewsItem) (item : RawItem) : JsMap NewsItem :=
  let cleaned := cleanItem item in
  match map_get (n_id cleaned) uniqueMap with
  | Some _ => uniqueMap
  | None => map_set (n_id cleaned) cleaned uniqueMap
  end.

(** The comparator of the sort; NaN counts as zero. *)
Definition compareNews (a b : NewsItem) : Z :=
  if n_isTop a && negb (n_isTop b) then (-1)%Z
  else if negb (n_isTop a) && n_isTop b then 1%Z
  else
    match parseInt (n_id b), parseInt (n_id a) with
    | Some idB, Some idA => (idB - idA)%Z
    | _, _ => 0%Z
    end.

(** [sortedTimeline] after the capacity cut. *)
Definition timelineOf (rawItems : list RawItem) : list NewsItem :=
  let uniqueItems := map_values (foldl uniqueStep [] rawItems) in
  let sortedTimeline := sortBy compareNews uniqueItems in
  if bool_decide (MAX_ITEMS < length sortedTimeline)
  then take MAX_ITEMS sortedTimeline
  else sortedTimeline.
End Process.

Section Grouping.
(** The names a plain object answers without having been given them,
    those [Object.prototype] defines, such as [constructor]. *)
Variable protoHas : string → bool.

(** One iteration of the grouping loop on [grouped]. What is read under
    an inherited name is not an array: the call of [push] throws a
    [TypeError], which is [None]. *)
Definition groupStep (grouped : JsMap (list NewsItem)) (item : NewsItem)
  : option (JsMap (list NewsItem)) :=
  match map_get (n_category item) grouped with
  | Some items => Some (map_set (n_category item) (items ++ [item]) grouped)
  | None =>
      if protoHas (n_category item) then None
      else Some (map_set (n_category item) [item] grouped)
  end.

Fixpoint groupLoop (grouped : JsMap (list NewsItem)) (timeline : list NewsItem)
  : option (JsMap (list NewsItem)) :=
  match timeline with
  | [] => Some grouped
  | item :: rest =>
      match groupStep grouped item with
      | Some grouped' => groupLoop grouped' rest
      | None => None
      end
  end.
End Grouping.

Record Meta : Type := mkMeta {
  m_last_updated : string;
  m_total_count : nat;
  m_source : string;
  m_version : string
}.

Record NewsData : Type := mkNewsData {
  d_meta : Meta;
  d_categories : JsMap (list NewsItem);
  d_timeline : list NewsItem
}.

(** [processData(rawItems)] at the clock reading [now]; [None] when the
    grouping throws. *)
Definition processData (parseInt : string → option Z) (defaultCategory : string)
    (protoHas : string → bool) (now : string) (rawItems : list RawItem)
  : option NewsData :=
  let sortedTimeline := timelineOf parseInt defaultCategory rawItems in
  match groupLoop protoHas [] sortedTimeline with
  | Some grouped =>
      Some (mkNewsData
              (mkMeta now (length sortedTimeline) "FFXIV Taiwan Official News" "v3")
              grouped sortedTimeline)
  | None => None
  end.

(** What [filterByCategory] is given: the answer of [fetchAndStoreNews],
    which is the processed data or, when no item was fetched, an object
    with the field [error] alone; or the processed data read back from
    the KV namespace. *)
Inductive Fetched : Type :=
  | FetchedNothing
  | FetchedData (data : NewsData).

(** The names are compared, never measured or trimmed; they are written
    in UTF-8. *)
Definition CATEGORY_MAP : JsMap string :=
  [("event", "活動"); ("other", "其他"); ("maintain", "維護"); ("update", "更新")].

(** What [CATEGORY_MAP[cat]] reads. *)
Inductive Property : Type :=
  | Own (name : string)
  | Inherited
  | Missing.

(** The answers of [filterByCategory]; the fields [available_categories]
    and [tip] of the two errors are constants and left out. *)
Record Selection : Type := mkSelection {
  f_last_updated : string;
  f_total_count : nat;
  f_filtered_from : nat;
  f_source : string;
  f_version : string;
  f_categories : list string;
  f_data : list NewsItem
}.

Inductive Answer : Type :=
  | InvalidParameter
  | InvalidCategory (requested : list string)
  | Selected (selection : Selection).

Section Filter.
(** [String.prototype.toLowerCase]. *)
Variable toLowerCase : string → string.
Variable protoHas : string → bool.

Definition readCategory (cat : string) : Property :=
  match map_get cat CATEGORY_MAP with
  | Some name => Own name
  | None => if protoHas cat then Inherited else Missing
  end.

Definition propertyTruthy (p : Property) : bool :=
  match p with
  | Own name => nonEmpty name
  | Inherited => true
  | Missing => false
  end.

(** [chineseCategories.includes(category)]: a category is a string and
    equals no inherited value. *)
Definition includesName (chineseCategories : list Property) (category_ : string) : bool :=
  existsb (λ p, match p with
                | Own name => bool_decide (name = category_)
                | _ => false
                end) chineseCategories.

Definition requestedCategoriesOf (categoryParam : string) : list string :=
  List.filter nonEmpty ((λ c, toLowerCase (trim c)) <$> splitOn "," categoryParam).

(** [filterByCategory(data, categoryParam)]; [None] is the [TypeError] of
    reading [data.meta.last_updated] when there is no [meta]. *)
Definition filterByCategory (data : Fetched) (categoryParam : string) : option Answer :=
  let requestedCategories := requestedCategoriesOf categoryParam in
  if bool_decide (length requestedCategories = 0) then Some InvalidParameter
  else
    let invalidCategories :=
      List.filter (λ cat, negb (propertyTruthy (readCategory cat))) requestedCategories in
    if bool_decide (0 < length invalidCategories)
    then Some (InvalidCategory invalidCategories)
    else
      let chineseCategories := readCategory <$> requestedCategories in
      let filteredItems :=
        List.filter (λ item, includesName chineseCategories (n_category item))
          (match data with
           | FetchedData d => d_timeline d
           | FetchedNothing => []
           end) in
      match data with
      | FetchedData d =>
          Some (Selected
                  (mkSelection (m_last_updated (d_meta d)) (length filteredItems)
                     (m_total_count (d_meta d)) (m_source (d_meta d))
                     (m_version (d_meta d)) requestedCategories filteredItems))
      | FetchedNothing => None
      end.
End Filter.

(** [collectAllArticles(categories)] of the news monitor, on the stored
    [categories]. *)
Definition collectAllArticles (categories : JsMap (list NewsItem))
  : list NewsMonitor.NewsArticle :=
  concat ((λ ci : string * list NewsItem,
             (λ item, NewsMonitor.mkNewsArticle (n_id item) (n_date item) ci.1
                        (VStr (n_title item))) <$> ci.2)
          <$> Object_entries categories).
End NewsApi.

(** * Vocabulary of the properties *)

(** The field is absent, is not a string, or is blank once trimmed. *)
Definition lacksIdentity (v : Val) : Prop :=
  match v with VStr s => trim s = EmptyString | _ => True end.

(** [x] may stand before [y] for the comparator. *)
Definition leBy {A : Type} (cmp : A → A → Z) (x y : A) : Prop := (cmp x y ≤ 0)%Z.

(** [a] may stand before [b]: by time, a missing time last, and by
    [localeCompare] of the links when the times agree. *)
Definition mayPrecede (localeCompare : string → string → Z) (a b : Article) : Prop :=
  match sortTime a, sortTime b with
  | Some x, Some y => (x < y ∨ (x = y ∧ localeCompare (link a) (link b) ≤ 0))%Z
  | Some _, None => True
  | None, Some _ => False
  | None, None => (localeCompare (link a) (link b) ≤ 0)%Z
  end.

(** [localeCompare] sets the links of the articles apart: it holds no
    two different links among them equal. *)
Definition linksSetApart (localeCompare : string → string → Z)
    (articles : list Article) : Prop :=
  ∀ a b, a ∈ articles → b ∈ articles →
    (localeCompare (link a) (link b) ≤ 0)%Z →
    (localeCompare (link b) (link a) ≤ 0)%Z → link a = link b.



(** Some call of the cycle threw: [calls] lists the references passed to
    the sink and [articles] is the array they refer to. *)
Definition someCallThrew (sink : nat → Article → Outcome) (articles : list Article)
    (calls : list nat) : Prop :=
  ∃ k ref a, calls !! k = Some ref ∧ articles !! ref = Some a ∧ sink k a = Threw.

(** The guard of an assignment in [refresh]: the candidate's value is
    truthy and differs from the stored one. *)
Definition differs (f : Article → Val) (existing item : Article) : bool :=
  truthy (f item) && strictNe (f item) (f existing).

Definition pick (f : Article → Val) (existing item : Article) : Val :=
  if differs f existing item then f item else f existing.




(** Every key is a non-empty link, held once, and is the link of its
    article. *)
Definition keyed (m : JsMap Article) : Prop :=
  NoDup m.*1 ∧ Forall (λ kv, link kv.2 = kv.1 ∧ nonEmpty kv.1 = true) m.

(** [publishedAtMs] is a finite number or a falsy value, as the loader and
    the reconciler leave it. *)
Definition msOk (a : Article) : Prop :=
  Number_isFinite (publishedAtMs a) = true ∨ truthy (publishedAtMs a) = false.

(** A candidate as the feed parser builds it: [guid] is a string,
    [publishedAt] a non-empty string and [publishedAtMs] a finite number. *)
Definition wfCandidate (c : Article) : Prop :=
  isString (guid c) = true ∧ truthy (publishedAt c) = true ∧
  Number_isFinite (publishedAtMs c) = true.

(** The first loop of [mergeArticles] stores the article as it is. *)
Definition stable (Date_parse : Val → option Z)
    (Date_toISOString : Val → option string) (a : Article) : Prop :=
  normalizeArticle Date_parse Date_toISOString a = Some a.

Definition stableMap (Date_parse : Val → option Z)
    (Date_toISOString : Val → option string) (m : JsMap Article) : Prop :=
  Forall (λ kv, stable Date_parse Date_toISOString kv.2) m.

(** [refresh] finds nothing to assign. *)
Definition settled (e item : Article) : Prop := (refresh e item).2 = false.

(** No non-empty link occurs twice among the candidates, as the feed
    parser guarantees with its set of seen links. *)
Definition distinctLinks (items : list Article) : Prop :=
  NoDup (filter (λ s, nonEmpty s = true) (link <$> items)).

(** The entry's [sentAt] parses to a finite time. *)
Definition validEntry (Date_parse : Val → option Z) (he : string * SentEntry) : Prop :=
  is_Some (entryTime Date_parse he.2).

Global Instance validEntry_dec Date_parse he : Decision (validEntry Date_parse he).
Proof. unfold validEntry. apply _. Defined.

(** [a] was sent no later than [b]. *)
Definition sentNoLater (Date_parse : Val → option Z) (a b : string * SentEntry) : Prop :=
  ∃ x y, entryTime Date_parse a.2 = Some x ∧ entryTime Date_parse b.2 = Some y ∧
         (x ≤ y)%Z.

(** The entry's time is at or after the cutoff. *)
Definition freshEntry (Date_parse : Val → option Z) (cutoffMs : Z)
    (he : string * SentEntry) : Prop :=
  ∃ t, entryTime Date_parse he.2 = Some t ∧ (cutoffMs ≤ t)%Z.

Global Instance freshEntry_dec Date_parse cutoffMs he :
  Decision (freshEntry Date_parse cutoffMs he).
Proof.
  unfold freshEntry. destruct (entryTime Date_parse he.2) as [t|].
  - destruct (decide (cutoffMs ≤ t)%Z) as [H|H].
    + left. by exists t.
    + right. intros (? & [= <-] & ?). done.
  - right. by intros (? & ? & _).
Defined.

(** [a] is dated no later than [b]. *)
Definition datedNoLater (Date_getTime : string → option Z)
    (a b : NewsMonitor.NewsArticle) : Prop :=
  ∃ x y, Date_getTime (NewsMonitor.date a) = Some x ∧
         Date_getTime (NewsMonitor.date b) = Some y ∧ (x ≤ y)%Z.

Definition validDate (Date_getTime : string → option Z)
    (a : NewsMonitor.NewsArticle) : Prop :=
  is_Some (Date_getTime (NewsMonitor.date a)).

(** The array [newArticles] of [processFFXIVNews] before it is sorted. *)
Definition newArticlesOf (allArticles : list NewsMonitor.NewsArticle)
    (previousIds : list string) : list NewsMonitor.NewsArticle :=
  let newIds :=
    List.filter (λ x, negb (NewsMonitor.includes previousIds x))
      (NewsMonitor.id <$> allArticles) in
  List.filter (λ a, NewsMonitor.includes newIds (NewsMonitor.id a)) allArticles.

(** * Sample data *)

Definition blankArticle : Article :=
  mkArticle "  " (VStr "t") (VStr "d") VNull (VStr EmptyString) (VStr "2024-01-01T00:00:00.000Z")
    (VNum 1704067200000) (VBool false) VNull.

(** A finite excerpt of [Date.parse], enough for the sample inputs; every
    other argument is taken as unparsable. *)
Definition sampleParse (v : Val) : option Z :=
  match v with
  | VStr s =>
      if bool_decide (s = "2024-01-01T00:00:00.000Z") then Some 1704067200000%Z
      else if bool_decide (s = "2024-01-02T00:00:00.000Z") then Some 1704153600000%Z
      else if bool_decide (s = "2024-01-03T00:00:00.000Z") then Some 1704240000000%Z
      else if bool_decide (s = "2024-01-05T00:00:00.000Z") then Some 1704412800000%Z
      else None
  | _ => None
  end.

(** The matching excerpt of [toISOString]. *)
Definition sampleISO (v : Val) : option string :=
  match v with
  | VNum 1704067200000 => Some "2024-01-01T00:00:00.000Z"
  | VNum 1704153600000 => Some "2024-01-02T00:00:00.000Z"
  | VNum 1704240000000 => Some "2024-01-03T00:00:00.000Z"
  | VNum 1704412800000 => Some "2024-01-05T00:00:00.000Z"
  | _ => None
  end.

Definition sampleGetTime (s : string) : option Z := sampleParse (VStr s).

(** Comparison by code units, a total order on strings. *)
Definition codeUnitCompare (s t : string) : Z :=
  match String.compare s t with
  | Lt => (-1)%Z
  | Eq => 0%Z
  | Gt => 1%Z
  end.

(** The soft hyphen U+00AD, which [localeCompare] ignores. *)
Definition softHyphen : ascii := ascii_of_nat 173.

Fixpoint dropSoftHyphens (s : string) : string :=
  match s with
  | EmptyString => EmptyString
  | String c r =>
      if bool_decide (c = softHyphen) then dropSoftHyphens r
      else String c (dropSoftHyphens r)
  end.

(** An excerpt of [localeCompare]: soft hyphens are ignored, as the
    collation of the runtime does; on the links of the samples, which
    differ in one lower-case letter, the rest is the order of the code
    units. *)
Definition sampleLocaleCompare (s t : string) : Z :=
  codeUnitCompare (dropSoftHyphens s) (dropSoftHyphens t).

(** A finite excerpt of [JSON.parse]. *)
Definition sampleJSON (raw : string) : option Doc :=
  if bool_decide (raw = "null") then Some DocNull
  else if bool_decide (raw = "{}") then Some DocNoArticles
  else if bool_decide (raw = "[]") then Some DocNoArticles
  else None.

Definition acceptAll {A : Type} (k : nat) (a : A) : bool := true.

(** A sink that refuses its first call and accepts the others. *)
Definition refuseFirst {A : Type} (k : nat) (a : A) : bool :=
  match k with O => false | S _ => true end.



(** A sink that accepts its first call and throws at the second. *)
Definition throwSecond (k : nat) (a : Article) : Outcome :=
  match k with 1 => Threw | _ => Accepted end.

Definition acceptEach (k : nat) (a : Article) : Outcome := Accepted.
Definition refuseEach (k : nat) (a : Article) : Outcome := Refused.

Definition sampleClock (k : nat) : string := "2024-01-05T00:00:00.000Z".

Definition candidate (link_ title_ at_ : string) (ms : Z) : Article :=
  mkArticle link_ (VStr title_) (VStr "text") VNull (VStr EmptyString) (VStr at_) (VNum ms)
    VUndef VUndef.

Definition tracked (link_ title_ at_ : string) (ms : Z) (sent_ sentAt_ : Val)
  : Article :=
  mkArticle link_ (VStr title_) (VStr "text") VNull VNull (VStr at_) (VNum ms)
    sent_ sentAt_.

Definition candA : Article :=
  candidate "https://example.com/a" "A" "2024-01-01T00:00:00.000Z" 1704067200000.
Definition candB : Article :=
  candidate "https://example.com/b" "B" "2024-01-02T00:00:00.000Z" 1704153600000.
Definition candC : Article :=
  candidate "https://example.com/c" "C" "2024-01-03T00:00:00.000Z" 1704240000000.

(** A link late in the alphabet on the earliest article. *)
Definition candZ : Article :=
  candidate "https://example.com/z" "Z" "2024-01-01T00:00:00.000Z" 1704067200000.

(** The link of [candA] followed by a soft hyphen, published at the same
    time. *)
Definition candAshy : Article :=
  candidate (String.append "https://example.com/a" (String softHyphen EmptyString))
    "A" "2024-01-01T00:00:00.000Z" 1704067200000.

(** The same link reported twice with two titles. *)
Definition candA' : Article :=
  candidate "https://example.com/a" "A2" "2024-01-01T00:00:00.000Z" 1704067200000.

Definition unsentA : Article :=
  tracked "https://example.com/a" "A" "2024-01-01T00:00:00.000Z" 1704067200000
    (VBool false) VNull.
Definition unsentB : Article :=
  tracked "https://example.com/b" "B" "2024-01-02T00:00:00.000Z" 1704153600000
    (VBool false) VNull.
Definition unsentC : Article :=
  tracked "https://example.com/c" "C" "2024-01-03T00:00:00.000Z" 1704240000000
    (VBool false) VNull.
Definition unsentZ : Article :=
  tracked "https://example.com/z" "Z" "2024-01-01T00:00:00.000Z" 1704067200000
    (VBool false) VNull.
Definition unsentAshy : Article :=
  tracked (String.append "https://example.com/a" (String softHyphen EmptyString))
    "A" "2024-01-01T00:00:00.000Z" 1704067200000 (VBool false) VNull.
Definition sentA : Article :=
  tracked "https://example.com/a" "A" "2024-01-01T00:00:00.000Z" 1704067200000
    (VBool true) (VStr "2024-01-05T00:00:00.000Z").
Definition sentB : Article :=
  tracked "https://example.com/b" "B" "2024-01-02T00:00:00.000Z" 1704153600000
    (VBool true) (VStr "2024-01-05T00:00:00.000Z").

(** The sent map after [unsentA] was delivered at the sample clock. *)
Definition ledgerA : SentMap :=
  [(hashIdentifier "https://example.com/a",
    mkSentEntry "2024-01-05T00:00:00.000Z" (Some "https://example.com/a"))].

(** [n] entries under distinct keys, all sent at the same parsable time. *)
Definition ledgerOf (n : nat) : SentMap :=
  (λ i, (repeatChar (S i) "k", mkSentEntry "2024-01-03T00:00:00.000Z" None))
    <$> seq 0 n.

Definition staleLedger : SentMap :=
  [("0badc0de", mkSentEntry "2024-01-01T00:00:00.000Z" None)].

Definition garbledLedger : SentMap :=
  [("0badc0de", mkSentEntry "yesterday" None)].

Definition news1 : NewsMonitor.NewsArticle :=
  NewsMonitor.mkNewsArticle "101" "2024-01-01T00:00:00.000Z" "news" (VStr "one").
Definition news2 : NewsMonitor.NewsArticle :=
  NewsMonitor.mkNewsArticle "102" "2024-01-02T00:00:00.000Z" "news" (VStr "two").

(** The sort of the news monitor on the samples, whose dates all parse. *)
Definition sampleSortByDate (l : list NewsMonitor.NewsArticle)
  : list NewsMonitor.NewsArticle :=
  sortBy (NewsMonitor.compareDate sampleGetTime) l.

(** * Vocabulary and sample data of the further properties *)

(** A lower-case hexadecimal digit. *)
Definition lowerHexDigit (c : ascii) : bool :=
  let n := N_of_ascii c in
  ((48 <=? n)%N && (n <=? 57)%N) || ((97 <=? n)%N && (n <=? 102)%N).

Definition hexDigitValue (c : ascii) : Z :=
  let n := Z.of_N (N_of_ascii c) in
  if (n <=? 57)%Z then (n - 48)%Z else (n - 87)%Z.

(** The number a string of hexadecimal digits denotes, continuing from
    [acc]. *)
Fixpoint fromHex (s : string) (acc : Z) : Z :=
  match s with
  | EmptyString => acc
  | String c r => fromHex r (16 * acc + hexDigitValue c)
  end.

(** The record [loadSentMap] makes of one listed property, when it keeps
    it. *)
Definition wellFormedRecord (r : RawSent) (e : SentEntry) : Prop :=
  raw_sentAt r = VStr (entry_sentAt e) ∧
  nonEmpty (entry_sentAt e) = true ∧
  entry_identity e = match raw_identity r with VStr i => Some i | _ => None end.

(** What [loadSentMap] stores for one listed property: nothing when the
    value is not an object or its [sentAt] is not a non-empty string. *)
Definition keptRecord (entry : option RawSent) : option SentEntry :=
  match entry with
  | Some r =>
      match raw_sentAt r with
      | VStr s =>
          if nonEmpty s
          then Some (mkSentEntry s
                       (match raw_identity r with VStr i => Some i | _ => None end))
          else None
      | _ => None
      end
  | None => None
  end.

Definition keptEntry (he : string * option RawSent) : option (string * SentEntry) :=
  (λ e, (he.1, e)) <$> keptRecord he.2.

Definition hasSentAt (he : string * SentEntry) : Prop :=
  nonEmpty (entry_sentAt he.2) = true.

Global Instance hasSentAt_dec he : Decision (hasSentAt he).
Proof. unfold hasSentAt. apply _. Defined.

(** A stored sent map for the sample runs: the text is not inspected. *)
Definition sampleSentJSON (entries : list (string * option RawSent)) (raw : string)
  : option SentDoc :=
  if bool_decide (raw = "{") then None
  else if bool_decide (raw = "[]") then Some SentNotObject
  else Some (SentObject entries).

(** What [JSON.parse] makes of one stored record. *)
Definition rawOfPair (he : string * SentEntry) : string * option RawSent :=
  (he.1, Some (rawOfEntry he.2)).

Definition mixedLedger : SentMap :=
  [("0badc0de", mkSentEntry "2024-01-01T00:00:00.000Z" None);
   ("12345678", mkSentEntry "2024-01-02T00:00:00.000Z" (Some "https://example.com/b"))].

(** The record's [sentAt] parses to a time. *)
Definition validRecord (Date_getTime : string → option Z)
    (he : string * NewsMonitor.MonitorEntry) : Prop :=
  is_Some (Date_getTime (NewsMonitor.m_sentAt he.2)).

(** [a] was recorded no later than [b]. *)
Definition recordedNoLater (Date_getTime : string → option Z)
    (a b : string * NewsMonitor.MonitorEntry) : Prop :=
  ∃ x y, Date_getTime (NewsMonitor.m_sentAt a.2) = Some x ∧
         Date_getTime (NewsMonitor.m_sentAt b.2) = Some y ∧ (x ≤ y)%Z.

(** The item stored under [key], read as [items[key] || {}]. *)
Definition storedItem (items : JsMap Lifeismoney.Item) (key : string)
  : Lifeismoney.Item :=
  default Lifeismoney.emptyItem (map_get key items).

(** [item] carries what [entry] reports, and the sent state of
    [existing]. *)
Definition refreshedFrom (existing : Lifeismoney.Item) (entry : Lifeismoney.Entry)
    (item : Lifeismoney.Item) : Prop :=
  Lifeismoney.i_id item = Lifeismoney.e_id entry ∧
  Lifeismoney.i_url item = Lifeismoney.e_url entry ∧
  Lifeismoney.i_title item = Lifeismoney.e_title entry ∧
  Lifeismoney.i_author item = Lifeismoney.e_author entry ∧
  Lifeismoney.i_push item = Lifeismoney.e_push entry ∧
  Lifeismoney.i_sent item
    = VBool (bool_decide (Lifeismoney.i_sent existing = VBool true)) ∧
  Lifeismoney.i_sentAt item = js_or (Lifeismoney.i_sentAt existing) VNull.

(** [a] has at least the push count of [b]. *)
Definition pushNoLess (a b : string * Lifeismoney.Item) : Prop :=
  ∃ x y, Lifeismoney.i_push a.2 = VNum x ∧ Lifeismoney.i_push b.2 = VNum y ∧
         (y ≤ x)%Z.

(** The cached link has not expired at the time [now]. *)
Definition live (now : Z) (kv : string * Z) : Prop :=
  (now - kv.2 ≤ RecentLinks.RECENT_LINK_TTL_MS)%Z.

Global Instance live_dec now kv : Decision (live now kv).
Proof. unfold live. apply _. Defined.

(** [a] stands before [b] in the order of [processAllRSS]: by time, the
    items without a finite time last. *)
Definition timeNoLater (a b : Article) : Prop :=
  match sortTime a, sortTime b with
  | Some x, Some y => (x ≤ y)%Z
  | Some _, None => True
  | None, Some _ => False
  | None, None => True
  end.

(** Three listed properties of a stored sent map: a well-formed record, a
    value that is not an object, and a record whose [sentAt] is a
    number. *)
Definition sampleStored : list (string * option RawSent) :=
  [("0badc0de", Some (mkRawSent (VStr "2024-01-01T00:00:00.000Z") VNull));
   ("feedf00d", None);
   ("c0ffee00", Some (mkRawSent (VNum 5) (VStr "https://example.com/c")))].

Definition monitorLedger : JsMap NewsMonitor.MonitorEntry :=
  [("101", NewsMonitor.mkMonitorEntry "2024-01-01T00:00:00.000Z" "news" (VStr "one"))].

Definition refuseAll {A : Type} (k : nat) (a : A) : bool := false.

(** A stored item that was sent, and two entries of the board index: the
    item again, and a new one with 45 pushes. *)
Definition itemOld : Lifeismoney.Item :=
  Lifeismoney.mkItem "M.1.A.001" (VStr "https://www.ptt.cc/bbs/Lifeismoney/M.1.A.001.html")
    (VStr "old") (VStr "amy") (VNum 60) (VBool true) (VStr "2024-01-01T00:00:00.000Z").
Definition entryOld : Lifeismoney.Entry :=
  Lifeismoney.mkEntry "M.1.A.001" (VStr "https://www.ptt.cc/bbs/Lifeismoney/M.1.A.001.html")
    (VStr "old") (VStr "amy") (VNum 75).
Definition entryNew : Lifeismoney.Entry :=
  Lifeismoney.mkEntry "M.2.A.002" (VStr "https://www.ptt.cc/bbs/Lifeismoney/M.2.A.002.html")
    (VStr "new") (VStr "bob") (VNum 45).
Definition itemNew : Lifeismoney.Item :=
  Lifeismoney.mkItem "M.2.A.002" (VStr "https://www.ptt.cc/bbs/Lifeismoney/M.2.A.002.html")
    (VStr "new") (VStr "bob") (VNum 45) (VBool false) VNull.

(** A clock that stands still, and a cache that saw one link. *)
Definition sampleTicks (k : nat) : Z := 1000%Z.
Definition sampleCache : JsMap Z := [("https://example.com/a", 400%Z)].

Definition neverThrows (k : nat) (a : Article) : bool := false.
Definition acceptEvery (k : nat) (a : Article) : Outcome := Accepted.
Definition always (k : string) : bool := true.
Definition sampleEncode (s : string) : string := s.
Definition sampleMarks : JsMap string := [("link:https://example.com/a", "1")].

(** [a] stands before [b] in the timeline: pinned items first, then the
    higher number first. *)
Definition newsBefore (parseInt : string → option Z) (a b : NewsApi.NewsItem) : Prop :=
  (NewsApi.n_isTop b = true → NewsApi.n_isTop a = true) ∧
  (NewsApi.n_isTop a = NewsApi.n_isTop b →
   ∃ x y, parseInt (NewsApi.n_id a) = Some x ∧
          parseInt (NewsApi.n_id b) = Some y ∧ (y ≤ x)%Z).

(** The string holds no [/]. *)
Definition noSlash (s : string) : bool :=
  allChars (λ c, negb (bool_decide (c = "/"%char))) s.

(** The category of [item] is the name [CATEGORY_MAP] gives to one of the
    requested parameters. *)
Definition inRequested (requested : list string) (item : NewsApi.NewsItem) : Prop :=
  Exists (λ c, map_get c NewsApi.CATEGORY_MAP = Some (NewsApi.n_category item))
    requested.

Global Instance inRequested_dec requested item : Decision (inRequested requested item).
Proof. unfold inRequested. apply _. Defined.

(** A requested parameter that neither [CATEGORY_MAP] nor the prototype
    knows. *)
Definition unknownName (protoHas : string → bool) (c : string) : Prop :=
  (c ∉ NewsApi.CATEGORY_MAP.*1) ∧ protoHas c = false.

Global Instance unknownName_dec protoHas c : Decision (unknownName protoHas c).
Proof. unfold unknownName. apply _. Defined.

(** A finite excerpt of [parseInt]. *)
Definition sampleParseInt (s : string) : option Z :=
  if bool_decide (s = "101") then Some 101%Z
  else if bool_decide (s = "102") then Some 102%Z
  else if bool_decide (s = "103") then Some 103%Z
  else if bool_decide (s = "1,204") then Some 1%Z
  else if bool_decide (s = "1204") then Some 1204%Z
  else if bool_decide (s = "104") then Some 104%Z
  else if bool_decide (s = "7") then Some 7%Z
  else if bool_decide (s = "9") then Some 9%Z
  else None.

(** Two of the names [Object.prototype] defines. *)
Definition sampleProto (s : string) : bool :=
  bool_decide (s = "constructor") || bool_decide (s = "__proto__").

(** [toLowerCase] on the letters A to Z. *)
Definition lowerChar (c : ascii) : ascii :=
  let n := nat_of_ascii c in
  if (65 <=? n)%nat && (n <=? 90)%nat then ascii_of_nat (n + 32) else c.

Fixpoint sampleLower (s : string) : string :=
  match s with
  | EmptyString => EmptyString
  | String c r => String (lowerChar c) (sampleLower r)
  end.

Definition raw101 : NewsApi.RawItem :=
  NewsApi.mkRawItem " 101" "活動" "one " "https://www.ffxiv.com.tw/web/news/1"
    "2025/1/5" "1,204" false.
Definition raw102 : NewsApi.RawItem :=
  NewsApi.mkRawItem "102" "更新" "two" "https://www.ffxiv.com.tw/web/news/2"
    "2025/11/21" "n/a" false.
Definition raw103 : NewsApi.RawItem :=
  NewsApi.mkRawItem "103" EmptyString "three" "https://www.ffxiv.com.tw/web/news/3"
    "2025/10/02" "7" true.
(** [raw101] seen again on the next page, with another title. *)
Definition raw101' : NewsApi.RawItem :=
  NewsApi.mkRawItem "101" "活動" "one again" "https://www.ffxiv.com.tw/web/news/1"
    "2025/1/5" "1,204" false.
(** An item whose category is a name of the prototype. *)
Definition raw104 : NewsApi.RawItem :=
  NewsApi.mkRawItem "104" "constructor" "four" "https://www.ffxiv.com.tw/web/news/4"
    "2025/10/03" "9" false.

(** Two pages of the news list; the second repeats an item of the first. *)
Definition samplePages : list NewsApi.RawItem := [raw101; raw102; raw103; raw101'].

Definition item101 : NewsApi.NewsItem :=
  NewsApi.mkNewsItem "101" "活動" "one" "https://www.ffxiv.com.tw/web/news/1"
    "2025-01-05" 1204 false.
Definition item102 : NewsApi.NewsItem :=
  NewsApi.mkNewsItem "102" "更新" "two" "https://www.ffxiv.com.tw/web/news/2"
    "2025-11-21" 0 false.
Definition item103 : NewsApi.NewsItem :=
  NewsApi.mkNewsItem "103" "公告" "three" "https://www.ffxiv.com.tw/web/news/3"
    "2025-10-02" 7 true.

Definition sampleNow : string := "2025-11-21T00:00:00.000Z".

(** What [processData] makes of [samplePages]. *)
Definition sampleNews : NewsApi.NewsData :=
  NewsApi.mkNewsData
    (NewsApi.mkMeta sampleNow 3 "FFXIV Taiwan Official News" "v3")
    [("公告", [item103]); ("更新", [item102]); ("活動", [item101])]
    [item103; item102; item101].

(** The categories of [sampleNews] as another object may list them. *)
Definition sampleStoredCategories : JsMap (list NewsApi.NewsItem) :=
  [("活動", [item101]); ("公告", [item103]); ("更新", [item102])].

(** * Properties *)

(** ** Sample evaluations of the helpers *)

Example hashIdentifier_empty : hashIdentifier EmptyString = "811c9dc5"%string.
Proof. reflexivity. Qed.

Example hashIdentifier_a : hashIdentifier "a" = "e40c292c"%string.
Proof. reflexivity. Qed.

Example hashIdentifier_foobar : hashIdentifier "foobar" = "bf9cf968"%string.
Proof. reflexivity. Qed.

Example trim_example : trim "  a b  " = "a b"%string.
Proof. reflexivity. Qed.

(** ** Ledger reconciliation, article by article *)

Lemma markLoop_spec sentMap articles mutated :
  markLoop sentMap articles mutated =
    ((λ a, (markArticle sentMap a).1) <$> articles,
     mutated || existsb (λ a, (markArticle sentMap a).2) articles).
Proof.
  revert mutated. induction articles as [|a rest IH]; intros mutated; simpl.
  - by rewrite orb_false_r.
  - destruct (markArticle sentMap a) as [a' hit] eqn:Ha; simpl.
    rewrite IH. f_equal. by destruct hit, mutated.
Qed.

Lemma mark_articles articles sentMap :
  (markPreviouslySentArticles articles sentMap).1 =
    (λ a, (markArticle sentMap a).1) <$> articles.
Proof. unfold markPreviouslySentArticles. by rewrite markLoop_spec. Qed.

Lemma mark_flag articles sentMap :
  (markPreviouslySentArticles articles sentMap).2 =
    existsb (λ a, (markArticle sentMap a).2) articles.
Proof. unfold markPreviouslySentArticles. by rewrite markLoop_spec. Qed.

Lemma mark_lookup articles sentMap i :
  (markPreviouslySentArticles articles sentMap).1 !! i =
    (λ a, (markArticle sentMap a).1) <$> (articles !! i).
Proof. by rewrite mark_articles, list_lookup_fmap. Qed.

(** An iteration sets [mutated] exactly when it turns an unsent article
    into a sent one. *)
Lemma markArticle_hit sentMap a :
  (markArticle sentMap a).2 = true ↔
    truthy (sent a) = false ∧ sent (markArticle sentMap a).1 = VBool true.
Proof.
  unfold markArticle.
  destruct (truthy (sent a)) eqn:Hs; simpl.
  - split; [done | intros [? _]; done].
  - destruct (getArticleIdentity a) as [identity|]; simpl.
    + destruct (map_get (hashIdentifier identity) sentMap) as [entry|]; simpl.
      * done.
      * split; [done|]. intros [_ H]. rewrite H in Hs. done.
    + split; [done|]. intros [_ H]. rewrite H in Hs. done.
Qed.

Lemma markArticle_sent_truthy sentMap a :
  truthy (sent a) = true → markArticle sentMap a = (a, false).
Proof. unfold markArticle. by intros ->. Qed.

Lemma markArticle_found sentMap a identity entry :
  truthy (sent a) = false →
  getArticleIdentity a = Some identity →
  map_get (hashIdentifier identity) sentMap = Some entry →
  markArticle sentMap a =
    (setSent a (VBool true)
       (if negb (truthy (sentAt a)) && nonEmpty (entry_sentAt entry)
        then VStr (entry_sentAt entry) else sentAt a), true).
Proof. unfold markArticle. by intros -> -> ->. Qed.

(** ** The unsent queue and the delivery loop *)

Lemma unsentFrom_elem articles start i :
  i ∈ unsentFrom start articles ↔
    ∃ j a, i = start + j ∧ articles !! j = Some a ∧ truthy (sent a) = false.
Proof.
  revert start. induction articles as [|a rest IH]; intros start; simpl.
  - split; [by intros ?%elem_of_nil | by intros (j & ? & _ & ? & _)].
  - destruct (truthy (sent a)) eqn:Hs; simpl.
    + rewrite IH. split.
      * intros (j & b & -> & Hj & Hb). exists (S j), b. split; [lia | done].
      * intros (j & b & -> & Hj & Hb). destruct j as [|j]; simpl in Hj.
        { simplify_eq. congruence. }
        exists j, b. split; [lia | done].
    + rewrite elem_of_cons, IH. split.
      * intros [-> | (j & b & -> & Hj & Hb)].
        { exists 0, a. split; [lia | done]. }
        exists (S j), b. split; [lia | done].
      * intros (j & b & -> & Hj & Hb). destruct j as [|j]; simpl in Hj.
        { left. lia. }
        right. exists j, b. split; [lia | done].
Qed.

Lemma unsentQueue_elem articles i :
  i ∈ unsentQueue articles ↔
    ∃ a, articles !! i = Some a ∧ truthy (sent a) = false.
Proof.
  unfold unsentQueue. rewrite unsentFrom_elem. split.
  - intros (j & a & -> & ? & ?). by exists a.
  - intros (a & ? & ?). by exists i, a.
Qed.

Lemma unsentFrom_lower articles start :
  Forall (λ i, start ≤ i) (unsentFrom start articles).
Proof.
  apply Forall_forall. intros i (j & ? & -> & _)%unsentFrom_elem. lia.
Qed.

(** The queue lists the references in ascending order: it keeps the order
    of the merged array. *)
Lemma unsentFrom_sorted articles start :
  StronglySorted lt (unsentFrom start articles).
Proof.
  revert start. induction articles as [|a rest IH]; intros start; simpl.
  - constructor.
  - destruct (truthy (sent a)); simpl; [apply IH|].
    constructor; [apply IH|].
    eapply Forall_impl; [apply (unsentFrom_lower rest (S start))|].
    simpl. intros; lia.
Qed.

Lemma unsentQueue_sorted articles : StronglySorted lt (unsentQueue articles).
Proof. apply unsentFrom_sorted. Qed.

Lemma StronglySorted_lt_NoDup (l : list nat) : StronglySorted lt l → NoDup l.
Proof.
  induction 1 as [|x l _ IH Hx]; constructor; [|done].
  intros Hin. rewrite Forall_forall in Hx. specialize (Hx _ Hin). lia.
Qed.

Lemma unsentQueue_NoDup articles : NoDup (unsentQueue articles).
Proof. apply StronglySorted_lt_NoDup, unsentQueue_sorted. Qed.

Lemma unsentQueue_bound articles i :
  i ∈ unsentQueue articles → i < length articles.
Proof. intros (a & Ha & _)%unsentQueue_elem. by eapply lookup_lt_Some. Qed.

Section MapFacts.
Context {V : Type}.
Implicit Types (m : list (string * V)) (k : string) (v : V).

Lemma map_get_set_eq m k v : map_get k (map_set k v m) = Some v.
Proof.
  induction m as [|[k' v'] r IH]; simpl.
  - by rewrite bool_decide_eq_true_2.
  - destruct (bool_decide (k' = k)) eqn:E; simpl; rewrite E; done.
Qed.

Lemma map_get_set_ne m k k' v : k ≠ k' → map_get k' (map_set k v m) = map_get k' m.
Proof.
  intros Hne. induction m as [|[k0 v0] r IH]; simpl.
  - by rewrite bool_decide_eq_false_2.
  - destruct (bool_decide (k0 = k)) eqn:E; simpl.
    + apply bool_decide_eq_true_1 in E as ->.
      by rewrite bool_decide_eq_false_2.
    + by rewrite IH.
Qed.

Lemma map_get_None m k : map_get k m = None ↔ k ∉ m.*1.
Proof.
  induction m as [|[k' v'] r IH]; simpl.
  - split; [intros _; apply not_elem_of_nil | done].
  - rewrite not_elem_of_cons. destruct (bool_decide (k' = k)) eqn:E.
    + apply bool_decide_eq_true_1 in E. subst k'.
      split; [done | intros [? _]; done].
    + apply bool_decide_eq_false_1 in E. rewrite IH.
      split; [intros ?; split; [congruence | done] | by intros [_ ?]].
Qed.

Lemma map_get_Some_elem m k v : map_get k m = Some v → (k, v) ∈ m.
Proof.
  induction m as [|[k' v'] r IH]; simpl; [done|].
  destruct (bool_decide (k' = k)) eqn:E.
  - apply bool_decide_eq_true_1 in E as ->. intros [= ->]. left.
  - intros ?. right. auto.
Qed.

Lemma map_get_elem m k v : NoDup m.*1 → (k, v) ∈ m → map_get k m = Some v.
Proof.
  induction m as [|[k' v'] r IH]; simpl; [by intros _ ?%elem_of_nil|].
  intros [Hk Hr]%NoDup_cons [Heq | Hin]%elem_of_cons.
  - simplify_eq. by rewrite bool_decide_eq_true_2.
  - rewrite bool_decide_eq_false_2; [auto|].
    intros ->. apply Hk. apply list_elem_of_fmap. by exists (k, v).
Qed.

Lemma map_set_keys_present m k v :
  k ∈ m.*1 → (map_set k v m).*1 = m.*1.
Proof.
  induction m as [|[k' v'] r IH]; simpl; [by intros ?%elem_of_nil|].
  destruct (bool_decide (k' = k)) eqn:E; simpl; [done|].
  apply bool_decide_eq_false_1 in E.
  intros [? | ?]%elem_of_cons; [congruence|]. f_equal. by apply IH.
Qed.

Lemma map_set_absent m k v : k ∉ m.*1 → map_set k v m = m ++ [(k, v)].
Proof.
  induction m as [|[k' v'] r IH]; simpl; [done|].
  intros [Hne Hr]%not_elem_of_cons.
  rewrite bool_decide_eq_false_2 by congruence. by rewrite IH.
Qed.

Lemma map_set_NoDup m k v : NoDup m.*1 → NoDup (map_set k v m).*1.
Proof.
  intros Hm. destruct (decide (k ∈ m.*1)) as [Hin | Hout].
  - by rewrite map_set_keys_present.
  - rewrite map_set_absent by done. rewrite fmap_app. simpl.
    apply NoDup_app. split; [done|]. split; [|apply NoDup_singleton].
    intros x Hx ->%list_elem_of_singleton. done.
Qed.
End MapFacts.

Lemma getArticleIdentity_setSent a s sa :
  getArticleIdentity (setSent a s sa) = getArticleIdentity a.
Proof. done. Qed.


Lemma setSentEntry_no_identity now sentMap a :
  getArticleIdentity a = None → setSentEntry now sentMap a = (sentMap, false).
Proof. unfold setSentEntry. by intros ->. Qed.

Section LoopFacts.
Variable sink : nat → Article → Outcome.
Variable clock : nat → string.

Local Abbreviation step := (deliverStep sink clock).
Local Abbreviation next := (deliverNext sink clock).
Local Abbreviation loop := (deliverLoop sink clock).

Lemma deliverStep_accept st ref article :
  ls_articles st !! ref = Some article →
  sink (length (ls_calls st)) article = Accepted →
  let k := length (ls_calls st) in
  let article' := setSent article (VBool true) (VStr (clock k)) in
  step st ref =
    mkLoopState (<[ref := article']> (ls_articles st))
      (setSentEntry (clock k) (ls_sentMap st) article').1
      (if (setSentEntry (clock k) (ls_sentMap st) article').2
       then true else ls_sentMapDirty st)
      (S (ls_successCount st)) true (ls_calls st ++ [ref]) (ls_threw st).
Proof.
  intros Ha Hs. unfold deliverStep. rewrite Ha, Hs.
  by destruct (setSentEntry _ _ _).
Qed.

Lemma deliverStep_reject st ref article :
  ls_articles st !! ref = Some article →
  sink (length (ls_calls st)) article = Refused →
  step st ref =
    mkLoopState (ls_articles st) (ls_sentMap st) (ls_sentMapDirty st)
      (ls_successCount st) (ls_sendSuccess st) (ls_calls st ++ [ref])
      (ls_threw st).
Proof. intros Ha Hs. unfold deliverStep. by rewrite Ha, Hs. Qed.

Lemma deliverStep_threw st ref article :
  ls_articles st !! ref = Some article →
  sink (length (ls_calls st)) article = Threw →
  step st ref =
    mkLoopState (ls_articles st) (ls_sentMap st) (ls_sentMapDirty st)
      (ls_successCount st) (ls_sendSuccess st) (ls_calls st ++ [ref]) true.
Proof. intros Ha Hs. unfold deliverStep. by rewrite Ha, Hs. Qed.

(** The four ways of an iteration. *)
Lemma deliverStep_cases st ref :
  (ls_articles st !! ref = None ∧ step st ref = st) ∨
  (∃ article, ls_articles st !! ref = Some article ∧
     sink (length (ls_calls st)) article = Refused ∧
     step st ref =
       mkLoopState (ls_articles st) (ls_sentMap st) (ls_sentMapDirty st)
         (ls_successCount st) (ls_sendSuccess st) (ls_calls st ++ [ref])
         (ls_threw st)) ∨
  (∃ article, ls_articles st !! ref = Some article ∧
     sink (length (ls_calls st)) article = Accepted ∧
     let k := length (ls_calls st) in
     let article' := setSent article (VBool true) (VStr (clock k)) in
     step st ref =
       mkLoopState (<[ref := article']> (ls_articles st))
         (setSentEntry (clock k) (ls_sentMap st) article').1
         (if (setSentEntry (clock k) (ls_sentMap st) article').2
          then true else ls_sentMapDirty st)
         (S (ls_successCount st)) true (ls_calls st ++ [ref]) (ls_threw st)) ∨
  (∃ article, ls_articles st !! ref = Some article ∧
     sink (length (ls_calls st)) article = Threw ∧
     step st ref =
       mkLoopState (ls_articles st) (ls_sentMap st) (ls_sentMapDirty st)
         (ls_successCount st) (ls_sendSuccess st) (ls_calls st ++ [ref]) true).
Proof.
  destruct (ls_articles st !! ref) as [article|] eqn:Ha.
  - destruct (sink (length (ls_calls st)) article) eqn:Hs.
    + right. right. left. exists article. split; [done|]. split; [done|].
      exact (deliverStep_accept st ref article Ha Hs).
    + right. left. exists article. split; [done|]. split; [done|].
      exact (deliverStep_reject st ref article Ha Hs).
    + right. right. right. exists article. split; [done|]. split; [done|].
      exact (deliverStep_threw st ref article Ha Hs).
  - left. split; [done|]. unfold deliverStep. by rewrite Ha.
Qed.

Lemma deliverStep_calls st ref :
  ref < length (ls_articles st) →
  ls_calls (step st ref) = ls_calls st ++ [ref].
Proof.
  intros [article Ha]%lookup_lt_is_Some.
  destruct (deliverStep_cases st ref)
    as [[Hn _] | [(a & _ & _ & ->) | [(a & _ & _ & ->) | (a & _ & _ & ->)]]];
    [congruence | done..].
Qed.

Lemma deliverStep_length st ref :
  length (ls_articles (step st ref)) = length (ls_articles st).
Proof.
  destruct (deliverStep_cases st ref)
    as [[_ ->] | [(a & _ & _ & ->) | [(a & _ & _ & ->) | (a & _ & _ & ->)]]];
    try done.
  simpl. by rewrite length_insert.
Qed.

Lemma deliverStep_other st ref i :
  i ≠ ref → ls_articles (step st ref) !! i = ls_articles st !! i.
Proof.
  intros Hne.
  destruct (deliverStep_cases st ref)
    as [[_ ->] | [(a & _ & _ & ->) | [(a & _ & _ & ->) | (a & _ & _ & ->)]]];
    try done.
  simpl. by rewrite list_lookup_insert_ne.
Qed.

(** A call never takes back that an earlier one threw. *)
Lemma deliverStep_threw_mono st ref :
  ls_threw st = true → ls_threw (step st ref) = true.
Proof.
  intros Ht.
  destruct (deliverStep_cases st ref)
    as [[_ ->] | [(a & _ & _ & ->) | [(a & _ & _ & ->) | (a & _ & _ & ->)]]];
    done.
Qed.

Lemma deliverNext_length st ref :
  length (ls_articles (next st ref)) = length (ls_articles st).
Proof.
  unfold deliverNext. destruct (ls_threw st); [done | apply deliverStep_length].
Qed.

Lemma deliverNext_other st ref i :
  i ≠ ref → ls_articles (next st ref) !! i = ls_articles st !! i.
Proof.
  intros Hne. unfold deliverNext.
  destruct (ls_threw st); [done | by apply deliverStep_other].
Qed.

Lemma deliverNext_running st ref :
  ls_threw (next st ref) = false → ls_threw st = false ∧ next st ref = step st ref.
Proof.
  unfold deliverNext. destruct (ls_threw st) eqn:Ht; [by rewrite Ht | done].
Qed.

Lemma deliverLoop_cons ref rest st : loop (ref :: rest) st = loop rest (next st ref).
Proof. done. Qed.

Lemma deliverLoop_app pre post st :
  loop (pre ++ post) st = loop post (loop pre st).
Proof. unfold deliverLoop. by rewrite foldl_app. Qed.

Lemma deliverLoop_snoc pre ref st :
  loop (pre ++ [ref]) st = next (loop pre st) ref.
Proof. by rewrite deliverLoop_app. Qed.

(** Once a call has thrown the loop does nothing more. *)
Lemma deliverLoop_stopped toSend st :
  ls_threw st = true → loop toSend st = st.
Proof.
  intros Ht. induction toSend as [|ref rest IH]; [done|].
  rewrite deliverLoop_cons. unfold deliverNext. by rewrite Ht.
Qed.

Lemma deliverLoop_running toSend st :
  ls_threw (loop toSend st) = false → ls_threw st = false.
Proof.
  destruct (ls_threw st) eqn:Ht; [|done].
  by rewrite deliverLoop_stopped, Ht.
Qed.

Lemma deliverLoop_length toSend st :
  length (ls_articles (loop toSend st)) = length (ls_articles st).
Proof.
  revert st. induction toSend as [|ref rest IH]; intros st; [done|].
  rewrite deliverLoop_cons, IH. apply deliverNext_length.
Qed.

Lemma deliverLoop_other toSend st i :
  i ∉ toSend →
  ls_articles (loop toSend st) !! i = ls_articles st !! i.
Proof.
  revert st. induction toSend as [|ref rest IH]; intros st Hi; [done|].
  apply not_elem_of_cons in Hi as [Hne Hi]. rewrite deliverLoop_cons.
  rewrite IH by done. by apply deliverNext_other.
Qed.

(** While no call has thrown, every selected reference is passed to the
    sink in turn. *)
Lemma deliverLoop_calls toSend st :
  Forall (λ ref, ref < length (ls_articles st)) toSend →
  ls_threw (loop toSend st) = false →
  ls_calls (loop toSend st) = ls_calls st ++ toSend.
Proof.
  revert st. induction toSend as [|ref rest IH]; intros st Hb Hrun.
  - by rewrite app_nil_r.
  - apply Forall_cons in Hb as [Href Hrest]. rewrite deliverLoop_cons in Hrun |- *.
    pose proof (deliverLoop_running _ _ Hrun) as Hnext.
    apply deliverNext_running in Hnext as [_ Hnext].
    rewrite IH.
    + rewrite Hnext, deliverStep_calls by done. by rewrite <-app_assoc.
    + eapply Forall_impl; [done|]. simpl. intros.
      by rewrite deliverNext_length.
    + done.
Qed.

(** In any case the calls are the first selected references, in turn. *)
Lemma deliverLoop_calls_take toSend st :
  Forall (λ ref, ref < length (ls_articles st)) toSend →
  ∃ n, ls_calls (loop toSend st) = ls_calls st ++ take n toSend.
Proof.
  revert st. induction toSend as [|ref rest IH]; intros st Hb.
  - exists 0. by rewrite app_nil_r.
  - apply Forall_cons in Hb as [Href Hrest]. rewrite deliverLoop_cons.
    unfold deliverNext. destruct (ls_threw st) eqn:Ht.
    + exists 0. rewrite deliverLoop_stopped by done. by rewrite app_nil_r.
    + destruct (IH (step st ref)) as [n Hn].
      { eapply Forall_impl; [done|]. simpl. intros.
        by rewrite deliverStep_length. }
      exists (S n). rewrite Hn, deliverStep_calls by done.
      by rewrite <-app_assoc.
Qed.

Lemma deliverLoop_calls_elem toSend st ref :
  ref ∈ ls_calls (loop toSend st) → ref ∈ ls_calls st ∨ ref ∈ toSend.
Proof.
  revert st. induction toSend as [|x rest IH]; intros st Hin; [by left|].
  rewrite deliverLoop_cons in Hin. apply IH in Hin as [Hin | Hin].
  - unfold deliverNext in Hin. destruct (ls_threw st); [by left|].
    destruct (deliverStep_cases st x)
      as [[_ Hs] | [(a & _ & _ & Hs) | [(a & _ & _ & Hs) | (a & _ & _ & Hs)]]];
      rewrite Hs in Hin; simpl in Hin; [by left | ..];
      (apply elem_of_app in Hin as [? | ->%list_elem_of_singleton];
        [by left | right; left]).
  - right. by right.
Qed.

(** The calls made so far stay where they are. *)
Lemma deliverLoop_calls_prefix toSend st k ref :
  ls_calls st !! k = Some ref → ls_calls (loop toSend st) !! k = Some ref.
Proof.
  revert st. induction toSend as [|x l IH]; intros st Hk; [done|].
  rewrite deliverLoop_cons. apply IH. unfold deliverNext.
  destruct (ls_threw st); [done|].
  destruct (deliverStep_cases st x)
    as [[_ ->] | [(? & _ & _ & ->) | [(? & _ & _ & ->) | (? & _ & _ & ->)]]];
    [done | ..]; simpl; by apply lookup_app_l_Some.
Qed.

(** An article no call was made for is left as it was. *)
Lemma deliverLoop_untouched toSend st i :
  i ∉ ls_calls (loop toSend st) →
  ls_articles (loop toSend st) !! i = ls_articles st !! i.
Proof.
  revert st. induction toSend as [|ref rest IH]; intros st Hi; [done|].
  rewrite deliverLoop_cons in Hi |- *. rewrite IH by done.
  destruct (decide (i = ref)) as [-> | Hne]; [|by apply deliverNext_other].
  unfold deliverNext in Hi |- *. destruct (ls_threw st); [done|].
  destruct (ls_articles st !! ref) as [a|] eqn:Ha.
  - exfalso. apply Hi.
    apply (list_elem_of_lookup_2 _ (length (ls_calls st))).
    apply deliverLoop_calls_prefix.
    rewrite deliverStep_calls by (by eapply lookup_lt_Some).
    rewrite lookup_app_r by lia. by rewrite Nat.sub_diag.
  - unfold deliverStep. by rewrite Ha.
Qed.

(** With a sink that never throws the loop runs to its end. *)
Lemma deliverLoop_never_threw toSend st :
  (∀ k a, sink k a ≠ Threw) → ls_threw st = false →
  ls_threw (loop toSend st) = false.
Proof.
  intros Hsink. revert st. induction toSend as [|ref rest IH]; intros st Ht; [done|].
  rewrite deliverLoop_cons. apply IH. unfold deliverNext. rewrite Ht.
  destruct (deliverStep_cases st ref)
    as [[_ ->] | [(a & _ & _ & ->) | [(a & _ & _ & ->) | (a & _ & Hs & ->)]]];
    try done.
  by apply Hsink in Hs.
Qed.
End LoopFacts.

(** ** Articles without identity *)

Lemma identityOf_lacks v : lacksIdentity v → identityOf v = None.
Proof.
  destruct v as [| | | | |s]; simpl; try done.
  intros ->. simpl. by rewrite andb_false_r.
Qed.

(** C10. An article whose [guid] and [link] are both absent, not a string,
    or blank after trimming has no identity: [getArticleIdentity] returns
    [null], [setSentEntry] returns [false] and leaves the sent map as it
    was, [markPreviouslySentArticles] leaves the article as it was, and a
    successful delivery of the article marks it sent but records nothing in
    the sent map. *)
Theorem identityless_article_leaves_no_ledger_record (g l : Val) :
  lacksIdentity g → lacksIdentity l →
  getIdentity g l = None ∧
  ∀ article, guid article = g → VStr (link article) = l →
    getArticleIdentity article = None ∧
    (∀ now sentMap, setSentEntry now sentMap article = (sentMap, false)) ∧
    (∀ articles sentMap i, articles !! i = Some article →
       (markPreviouslySentArticles articles sentMap).1 !! i = Some article) ∧
    (∀ sink clock st ref,
       ls_articles st !! ref = Some article →
       sink (length (ls_calls st)) article = Accepted →
       let st' := deliverStep sink clock st ref in
       ls_sentMap st' = ls_sentMap st ∧
       ls_sentMapDirty st' = ls_sentMapDirty st ∧
       ∃ article', ls_articles st' !! ref = Some article' ∧
                   sent article' = VBool true).
Proof.
  intros Hg Hl.
  assert (Hnone : getIdentity g l = None).
  { unfold getIdentity. by rewrite !identityOf_lacks. }
  split; [done|]. intros article <- <-.
  assert (Hid : getArticleIdentity article = None) by exact Hnone.
  split; [done|]. split; [|split].
  - intros now sentMap. by apply setSentEntry_no_identity.
  - intros articles sentMap i Hi. rewrite mark_lookup, Hi. simpl. f_equal.
    unfold markArticle. rewrite Hid. by destruct (truthy (sent article)).
  - intros sink clock st ref Ha Hs. simpl.
    rewrite (deliverStep_accept _ _ _ _ _ Ha Hs). simpl.
    rewrite setSentEntry_no_identity by done. simpl.
    split; [done|]. split; [done|]. eexists. split.
    + apply list_lookup_insert_eq. by eapply lookup_lt_Some.
    + done.
Qed.

Lemma identityless_article_witness :
  lacksIdentity (VStr EmptyString) ∧ lacksIdentity (VStr "  ") ∧
  getArticleIdentity blankArticle = None ∧
  setSentEntry "2024-01-02T00:00:00.000Z" [] blankArticle = ([], false).
Proof.
  split; [reflexivity|]. split; [reflexivity|].
  destruct (identityless_article_leaves_no_ledger_record (VStr EmptyString) (VStr "  "))
    as [_ H]; [reflexivity | reflexivity |].
  destruct (H blankArticle) as (H1 & H2 & _); [reflexivity | reflexivity |].
  split; [exact H1 | apply H2].
Defined.

(** ** The delivery loop, call by call *)

Section DeliveryFacts.
Variable sink : nat → Article → Outcome.
Variable clock : nat → string.

Local Abbreviation loop := (deliverLoop sink clock).

Lemma toSend_NoDup (articles : list Article) limit :
  NoDup (take limit (unsentQueue articles)).
Proof. eapply sublist_NoDup; [apply unsentQueue_NoDup | apply sublist_take]. Qed.

Lemma toSend_unsent (articles : list Article) limit ref :
  ref ∈ take limit (unsentQueue articles) →
  ∃ a, articles !! ref = Some a ∧ truthy (sent a) = false.
Proof. intros Hin. apply unsentQueue_elem. by eapply subseteq_take. Qed.

Lemma toSend_bound (articles : list Article) limit :
  Forall (λ ref, ref < length articles) (take limit (unsentQueue articles)).
Proof.
  apply Forall_forall. intros ref (a & Ha & _)%toSend_unsent.
  by eapply lookup_lt_Some.
Qed.

End DeliveryFacts.

(** ** Selection and reconciliation inside a cycle *)

Section LoopTrace.
Variable sink : nat → Article → Outcome.
Variable clock : nat → string.

Local Abbreviation loop := (deliverLoop sink clock).

(** What the loop did, read off the state it started from: its calls are
    selected references in their places; an accepted article ends marked,
    a refused one as it was; a call that threw is the last one. *)
Lemma deliverLoop_trace toSend st0 :
  NoDup toSend →
  Forall (λ ref, ref < length (ls_articles st0)) toSend →
  ls_calls st0 = [] → ls_threw st0 = false →
  let final := loop toSend st0 in
  (∀ k ref, ls_calls final !! k = Some ref → toSend !! k = Some ref) ∧
  (∀ k ref, ls_calls final !! k = Some ref →
     ∃ a, ls_articles st0 !! ref = Some a ∧
       match sink k a with
       | Accepted =>
           ls_articles final !! ref =
             Some (setSent a (VBool true) (VStr (clock k)))
       | Refused => ls_articles final !! ref = Some a
       | Threw =>
           ls_articles final !! ref = Some a ∧ ls_threw final = true ∧
           S k = length (ls_calls final)
       end) ∧
  (ls_threw final = true →
     ∃ k ref a, ls_calls final !! k = Some ref ∧
                ls_articles st0 !! ref = Some a ∧ sink k a = Threw).
Proof.
  intros Hnd Hb Hc0 Ht0. induction toSend as [|x l IH] using rev_ind.
  { simpl. rewrite Hc0, Ht0. split; [done|]. split; [done|]. done. }
  apply NoDup_app in Hnd as (Hndl & Hdisj & _).
  apply Forall_app in Hb as [Hbl Hbx]. apply Forall_cons in Hbx as [Hbx _].
  specialize (IH Hndl Hbl). cbv zeta in IH |- *.
  destruct IH as (IH1 & IH2 & IH3).
  rewrite deliverLoop_snoc. set (mid := loop l st0) in *.
  unfold deliverNext.
  assert (Hcase : ls_threw mid = true ∨ ls_threw mid = false)
    by (destruct (ls_threw mid); auto).
  destruct Hcase as [Hmid | Hmid].
  { replace (if ls_threw mid then mid else deliverStep sink clock mid x)
      with mid by (by rewrite Hmid).
    split; [|split; [done | done]].
    intros k ref Hk. apply lookup_app_l_Some. by apply IH1. }
  replace (if ls_threw mid then mid else deliverStep sink clock mid x)
    with (deliverStep sink clock mid x) by (by rewrite Hmid).
  assert (Hx : x ∉ l).
  { intros Hin. apply (Hdisj _ Hin). left. }
  assert (Hcalls : ls_calls mid = l).
  { unfold mid. rewrite deliverLoop_calls by done. by rewrite Hc0. }
  destruct (lookup_lt_is_Some_2 _ _ Hbx) as [a Ha].
  assert (Hmx : ls_articles mid !! x = Some a).
  { unfold mid. by rewrite deliverLoop_other. }
  assert (Hstep : ls_calls (deliverStep sink clock mid x) = l ++ [x]).
  { rewrite deliverStep_calls, Hcalls; [done|].
    unfold mid. by rewrite deliverLoop_length. }
  assert (Hold : ∀ k ref, l !! k = Some ref →
            ls_articles (deliverStep sink clock mid x) !! ref
            = ls_articles mid !! ref).
  { intros k ref Hk. apply deliverStep_other. intros ->.
    apply Hx. by eapply list_elem_of_lookup_2. }
  split; [by rewrite Hstep|]. split.
  - intros k ref. rewrite Hstep. intros Hk.
    apply lookup_app_Some in Hk as [Hk | [Hlen Hk]].
    + destruct (IH2 k ref) as (b & Hb0 & Hout); [by rewrite Hcalls|].
      exists b. split; [done|]. rewrite (Hold k ref Hk).
      destruct (sink k b); [done | done |].
      destruct Hout as (_ & Hthrew & _). congruence.
    + assert (k = length l) as ->.
      { apply lookup_lt_Some in Hk. simpl in Hk. lia. }
      rewrite Nat.sub_diag in Hk. simpl in Hk. simplify_eq.
      exists a. split; [by rewrite <-Hmx; unfold mid; rewrite deliverLoop_other|].
      rewrite <-Hcalls.
      destruct (sink (length (ls_calls mid)) a) eqn:Hs.
      * rewrite (deliverStep_accept _ _ _ _ _ Hmx Hs). simpl.
        apply list_lookup_insert_eq. by eapply lookup_lt_Some.
      * by rewrite (deliverStep_reject _ _ _ _ _ Hmx Hs).
      * rewrite (deliverStep_threw _ _ _ _ _ Hmx Hs). simpl.
        split; [done|]. split; [done|]. rewrite length_app. simpl. lia.
  - intros Hthrew. exists (length l), x, a.
    rewrite Hstep. split; [by rewrite lookup_app_r, Nat.sub_diag by lia|].
    split; [by rewrite <-Hmx; unfold mid; rewrite deliverLoop_other|].
    rewrite <-Hcalls.
    destruct (sink (length (ls_calls mid)) a) eqn:Hs; [| |done].
    + rewrite (deliverStep_accept _ _ _ _ _ Hmx Hs) in Hthrew. simpl in Hthrew.
      congruence.
    + rewrite (deliverStep_reject _ _ _ _ _ Hmx Hs) in Hthrew. simpl in Hthrew.
      congruence.
Qed.

End LoopTrace.

Section CycleFacts.
Variable Date_parse : Val → option Z.
Variable Date_toISOString : Val → option string.
Variable localeCompare : string → string → Z.
Variable sink : nat → Article → Outcome.
Variable clock : nat → string.

Local Abbreviation merge := (mergeArticles Date_parse Date_toISOString localeCompare).
Local Abbreviation cycle :=
  (processSource Date_parse Date_toISOString localeCompare sink clock).
Local Abbreviation loop := (deliverLoop sink clock).

Lemma processSource_unfold testMode exists_ stateArticles sentMap dirty
    parsedItems merged hasChanges :
  merge stateArticles parsedItems = Some (merged, hasChanges) →
  let marked := (markPreviouslySentArticles merged sentMap).1 in
  let toSend := take (sendLimitOf testMode) (unsentQueue marked) in
  let st := loop toSend (mkLoopState marked sentMap dirty 0 false [] false) in
  ∃ r, cycle testMode exists_ stateArticles sentMap dirty parsedItems = Some r ∧
       cr_calls r = ls_calls st ∧ cr_articles r = ls_articles st ∧
       cr_sentMap r = ls_sentMap st.
Proof.
  intros Hm. unfold processSource. rewrite Hm.
  destruct (markPreviouslySentArticles merged sentMap) as [marked flag].
  simpl. eexists. split; [done|]. done.
Qed.

End CycleFacts.

Section LedgerFacts.
Variable Date_parse : Val → option Z.
Variable Date_toISOString : Val → option string.
Variable localeCompare : string → string → Z.
Variable sink : nat → Article → Outcome.
Variable clock : nat → string.

Local Abbreviation merge := (mergeArticles Date_parse Date_toISOString localeCompare).
Local Abbreviation cycle :=
  (processSource Date_parse Date_toISOString localeCompare sink clock).

(** An article whose identity hash is in the sent map is sent after the
    reconciliation, whatever it was before. *)
Lemma mark_known_is_sent sentMap a identity entry :
  getArticleIdentity a = Some identity →
  map_get (hashIdentifier identity) sentMap = Some entry →
  truthy (sent (markArticle sentMap a).1) = true.
Proof.
  intros Hid He. destruct (truthy (sent a)) eqn:Hs.
  - by rewrite markArticle_sent_truthy.
  - by rewrite (markArticle_found _ _ _ _ Hs Hid He).
Qed.

(** C1. [markPreviouslySentArticles] sets [sent = true] on every unsent
    article that has an identity whose hash is a key of the sent map,
    keeps a [sentAt] the article already had and otherwise takes the one
    of the entry, and changes nothing else; it returns [true] exactly
    when some unsent article became sent. In a cycle no article whose
    identity hash is in the sent map is handed to the sink, and it ends
    the cycle sent: an article recorded under an earlier bucket is not
    delivered again under a new one. *)
Theorem ledger_reconciliation_marks_without_delivery
    (articles : list Article) (sentMap : SentMap) :
  let marked := (markPreviouslySentArticles articles sentMap).1 in
  let mutated := (markPreviouslySentArticles articles sentMap).2 in
  (∀ i a identity entry,
     articles !! i = Some a →
     truthy (sent a) = false →
     getArticleIdentity a = Some identity →
     map_get (hashIdentifier identity) sentMap = Some entry →
     ∃ a', marked !! i = Some a' ∧
           sent a' = VBool true ∧
           (truthy (sentAt a) = true → sentAt a' = sentAt a) ∧
           (truthy (sentAt a) = false → nonEmpty (entry_sentAt entry) = true →
              sentAt a' = VStr (entry_sentAt entry)) ∧
           setSent a' (sent a) (sentAt a) = a) ∧
  (mutated = true ↔
     ∃ i a a', articles !! i = Some a ∧ truthy (sent a) = false ∧
               marked !! i = Some a' ∧ sent a' = VBool true) ∧
  (∀ testMode exists_ stateArticles dirty parsedItems hasChanges,
     merge stateArticles parsedItems = Some (articles, hasChanges) →
     ∃ r, cycle testMode exists_ stateArticles sentMap dirty parsedItems = Some r ∧
          ∀ i a identity entry,
            articles !! i = Some a →
            getArticleIdentity a = Some identity →
            map_get (hashIdentifier identity) sentMap = Some entry →
            (i ∉ cr_calls r) ∧
            ∃ a', cr_articles r !! i = Some a' ∧ truthy (sent a') = true).
Proof.
  intros marked mutated. split; [|split].
  - intros i a identity entry Hi Hs Hid He.
    unfold marked. rewrite mark_lookup, Hi. simpl.
    rewrite (markArticle_found _ _ _ _ Hs Hid He). simpl.
    eexists. split; [done|]. simpl. split; [done|].
    split; [by intros ->|]. split; [by intros -> ->|].
    by destruct a.
  - unfold mutated, marked. rewrite mark_flag, existsb_exists. split.
    + intros (a & Hin & Hhit). apply list_elem_of_In in Hin.
      apply list_elem_of_lookup in Hin as [i Hi].
      apply markArticle_hit in Hhit as [Hs Hs'].
      exists i, a, (markArticle sentMap a).1.
      rewrite mark_lookup, Hi. done.
    + intros (i & a & a' & Hi & Hs & Hi' & Hs').
      rewrite mark_lookup, Hi in Hi'. simpl in Hi'. simplify_eq.
      exists a. split.
      * apply list_elem_of_In. by eapply list_elem_of_lookup_2.
      * by apply markArticle_hit.
  - intros testMode exists_ stateArticles dirty parsedItems hasChanges Hm.
    destruct (processSource_unfold _ _ _ sink clock testMode exists_ _ sentMap
                dirty _ _ _ Hm) as (r & Hr & Hcalls & Harts & _).
    fold marked in Hcalls, Harts.
    exists r. split; [done|]. intros i a identity entry Hi Hid He.
    assert (Hmi : marked !! i = Some (markArticle sentMap a).1).
    { unfold marked. by rewrite mark_lookup, Hi. }
    pose proof (mark_known_is_sent _ _ _ _ Hid He) as Hsent.
    assert (Hout : i ∉ take (sendLimitOf testMode) (unsentQueue marked)).
    { intros (b & Hb & Hunsent)%toSend_unsent.
      rewrite Hmi in Hb. simplify_eq. by rewrite Hsent in Hunsent. }
    split.
    + rewrite Hcalls. intros [Hin | Hin]%deliverLoop_calls_elem; [|done].
      by apply elem_of_nil in Hin.
    + exists (markArticle sentMap a).1. split; [|done].
      rewrite Harts, deliverLoop_other by done. done.
Qed.
End LedgerFacts.

(** ** The sort *)

Section SortFacts.
Context {A : Type} (cmp : A → A → Z).

Local Abbreviation leq := (leBy cmp).

Lemma insertBy_Permutation x l : insertBy cmp x l ≡ₚ x :: l.
Proof.
  induction l as [|y r IH]; simpl; [done|].
  destruct (cmp x y <=? 0)%Z; [done|].
  rewrite IH. apply Permutation_swap.
Qed.

Lemma sortBy_Permutation l : sortBy cmp l ≡ₚ l.
Proof.
  induction l as [|x r IH]; simpl; [done|].
  by rewrite insertBy_Permutation, IH.
Qed.

Lemma sortBy_sorted_fixed l : Sorted leq l → sortBy cmp l = l.
Proof.
  induction 1 as [|x r Hr IH Hx]; simpl; [done|].
  rewrite IH. destruct Hx as [|y r' Hxy]; simpl; [done|].
  unfold leBy in Hxy. by rewrite (proj2 (Z.leb_le _ _) Hxy).
Qed.

Section Total.
Hypothesis cmp_total : ∀ x y, (cmp x y ≤ 0 ∨ cmp y x ≤ 0)%Z.

Lemma insertBy_HdRel a x l :
  leq a x → HdRel leq a l → HdRel leq a (insertBy cmp x l).
Proof.
  intros Hax Hal. destruct l as [|y r]; simpl; [by constructor|].
  destruct (cmp x y <=? 0)%Z; constructor; [done|]. by inv Hal.
Qed.

Lemma insertBy_Sorted x l : Sorted leq l → Sorted leq (insertBy cmp x l).
Proof.
  induction 1 as [|y r Hr IH Hy]; simpl.
  - repeat constructor.
  - destruct (cmp x y <=? 0)%Z eqn:E.
    + apply Z.leb_le in E. repeat constructor; done.
    + apply Z.leb_gt in E. constructor; [done|].
      apply insertBy_HdRel; [|done].
      unfold leBy. destruct (cmp_total x y); lia.
Qed.

Lemma sortBy_Sorted l : Sorted leq (sortBy cmp l).
Proof.
  induction l as [|x r IH]; simpl; [constructor|]. by apply insertBy_Sorted.
Qed.

Lemma sortBy_idempotent l : sortBy cmp (sortBy cmp l) = sortBy cmp l.
Proof. apply sortBy_sorted_fixed, sortBy_Sorted. Qed.
End Total.
End SortFacts.

(** ** The order of the merged array *)

Lemma timeNoLater_trans : Transitive timeNoLater.
Proof.
  intros a b c. unfold timeNoLater.
  destruct (sortTime a), (sortTime b), (sortTime c); try done. lia.
Qed.


Section OrderFacts.
Variable localeCompare : string → string → Z.

Local Abbreviation cmpA := (compareArticles localeCompare).
Local Abbreviation precedes := (mayPrecede localeCompare).

Lemma compareArticles_mayPrecede a b : leBy cmpA a b ↔ precedes a b.
Proof.
  unfold leBy, compareArticles, mayPrecede.
  destruct (sortTime a) as [x|], (sortTime b) as [y|].
  - case_bool_decide; [lia|]. subst. split; [right; split; [done|lia] | lia].
  - split; [done | lia].
  - split; [lia | done].
  - done.
Qed.

Section TotalOrder.
Hypothesis lc_total : ∀ s t, (localeCompare s t ≤ 0 ∨ localeCompare t s ≤ 0)%Z.

Lemma compareArticles_total a b : (cmpA a b ≤ 0 ∨ cmpA b a ≤ 0)%Z.
Proof.
  unfold compareArticles.
  destruct (sortTime a) as [x|], (sortTime b) as [y|]; try lia; [|apply lc_total].
  repeat case_bool_decide; try lia. apply lc_total.
Qed.

Hypothesis lc_trans : ∀ s t u,
  (localeCompare s t ≤ 0 → localeCompare t u ≤ 0 → localeCompare s u ≤ 0)%Z.

Lemma mayPrecede_trans a b c : precedes a b → precedes b c → precedes a c.
Proof.
  unfold mayPrecede.
  destruct (sortTime a) as [x|], (sortTime b) as [y|], (sortTime c) as [z|];
    try done; [|by apply lc_trans].
  intros [?|[-> ?]] [?|[-> ?]]; [left; lia..|].
  right. split; [done|]. by eapply lc_trans.
Qed.

Lemma leBy_compareArticles_trans : Transitive (leBy cmpA).
Proof.
  intros a b c. rewrite !compareArticles_mayPrecede. apply mayPrecede_trans.
Qed.

End TotalOrder.

(** Two articles each of which may stand before the other have links
    that [localeCompare] holds equal. *)
Lemma mayPrecede_both a b :
  precedes a b → precedes b a →
  (localeCompare (link a) (link b) ≤ 0 ∧ localeCompare (link b) (link a) ≤ 0)%Z.
Proof.
  unfold mayPrecede.
  destruct (sortTime a) as [x|], (sortTime b) as [y|]; try done.
  intros [?|[-> ?]] [?|[? ?]]; lia.
Qed.

End OrderFacts.

(** ** The reconciler: what one candidate does *)

Lemma refresh_eq existing item :
  refresh existing item =
    (mkArticle (link existing)
       (pick title existing item) (pick description existing item)
       (pick thumbnail existing item) (pick guid existing item)
       (pick publishedAt existing item)
       (if differs publishedAt existing item
        then publishedAtMs item else publishedAtMs existing)
       (sent existing) (sentAt existing),
     differs title existing item || differs description existing item ||
     differs thumbnail existing item || differs guid existing item ||
     differs publishedAt existing item).
Proof.
  unfold refresh, pick, differs.
  destruct (truthy (title item) && strictNe (title item) (title existing));
  destruct (truthy (description item) && strictNe (description item) (description existing));
  destruct (truthy (thumbnail item) && strictNe (thumbnail item) (thumbnail existing));
  destruct (truthy (guid item) && strictNe (guid item) (guid existing));
  destruct (truthy (publishedAt item) && strictNe (publishedAt item) (publishedAt existing));
  by destruct existing.
Qed.

Lemma strictNe_same v : truthy v = true → strictNe v v = false.
Proof.
  destruct v; simpl; try done; intros _; by rewrite bool_decide_eq_true_2.
Qed.







(** ** The reconciler: the map *)

Lemma map_set_Forall {V} (P : string * V → Prop) m k v :
  Forall P m → P (k, v) → Forall P (map_set k v m).
Proof.
  intros Hm Hkv. induction Hm as [|[k' v'] r Hh Hr IH]; simpl.
  - by repeat constructor.
  - destruct (bool_decide (k' = k)) eqn:E.
    + apply bool_decide_eq_true_1 in E. subst. by constructor.
    + by constructor.
Qed.

Lemma map_set_keyed m a :
  keyed m → nonEmpty (link a) = true → keyed (map_set (link a) a m).
Proof.
  intros [Hnd Hall] Hl. split; [by apply map_set_NoDup|].
  by apply map_set_Forall.
Qed.

Lemma keyed_nil : keyed [].
Proof. split; constructor. Qed.

Lemma keyed_links m : keyed m → link <$> map_values m = m.*1.
Proof.
  intros [_ Hall]. unfold map_values.
  induction Hall as [|[k v] r [Hk _] _ IH]; [done|].
  simpl in Hk. rewrite !fmap_cons. simpl. by rewrite Hk, IH.
Qed.

Lemma keyed_lookup m k e : keyed m → map_get k m = Some e → link e = k ∧ nonEmpty k = true.
Proof.
  intros [_ Hall] Hg. apply map_get_Some_elem in Hg.
  rewrite Forall_forall in Hall. by apply (Hall (k, e)).
Qed.

Lemma map_get_values {V} (m : list (string * V)) k v :
  map_get k m = Some v → v ∈ map_values m.
Proof.
  intros Hg%map_get_Some_elem. apply list_elem_of_fmap. by exists (k, v).
Qed.

Section MapOfArticles.
Variable Date_parse : Val → option Z.
Variable Date_toISOString : Val → option string.

Local Abbreviation normalize := (normalizeArticle Date_parse Date_toISOString).
Local Abbreviation seed := (seedMap Date_parse Date_toISOString).

Lemma normalizeArticle_fields a e :
  normalize a = Some e →
  link e = link a ∧ title e = title a ∧ description e = description a ∧
  thumbnail e = thumbnail a ∧
  sent e = Boolean (sent a) ∧ sentAt e = js_or (sentAt a) VNull.
Proof.
  unfold normalizeArticle.
  destruct (if truthy (publishedAt a) then _ else _); [|done].
  by intros [= <-].
Qed.

Lemma seedMap_keyed l m m' : seed l m = Some m' → keyed m → keyed m'.
Proof.
  revert m. induction l as [|a r IH]; intros m; simpl.
  - by intros [= ->].
  - destruct (nonEmpty (link a)) eqn:Hl; simpl; [|apply IH].
    destruct (normalize a) as [e|] eqn:Hn; [|done].
    intros Hs Hm. apply (IH _ Hs).
    apply normalizeArticle_fields in Hn as (He & _).
    rewrite <-He. apply map_set_keyed; [done|]. by rewrite He.
Qed.

Lemma seedMap_lookup_other l m m' k :
  seed l m = Some m' → (∀ a, a ∈ l → link a ≠ k) → map_get k m' = map_get k m.
Proof.
  revert m. induction l as [|a r IH]; intros m; simpl.
  - by intros [= ->].
  - intros Hs Hk.
    assert (Hr : ∀ b, b ∈ r → link b ≠ k) by (intros b Hb; apply Hk; by right).
    destruct (nonEmpty (link a)); simpl in Hs; [|by apply IH].
    destruct (normalize a) as [e|]; [|done].
    rewrite (IH _ Hs Hr). apply map_get_set_ne. apply Hk. left.
Qed.

(** With distinct links, the map seeded from the stored articles holds
    each of them, normalized, under its link. *)
Lemma seedMap_lookup l m m' a :
  seed l m = Some m' → NoDup (link <$> l) → a ∈ l →
  nonEmpty (link a) = true →
  ∃ e, normalize a = Some e ∧ map_get (link a) m' = Some e.
Proof.
  revert m. induction l as [|b r IH]; intros m Hs Hnd Hin Hl.
  { by apply elem_of_nil in Hin. }
  simpl in Hs. rewrite fmap_cons in Hnd. apply NoDup_cons in Hnd as [Hb Hr].
  apply elem_of_cons in Hin as [-> | Hin].
  - rewrite Hl in Hs. simpl in Hs.
    destruct (normalize b) as [e|]; [|done].
    exists e. split; [done|].
    rewrite (seedMap_lookup_other _ _ _ _ Hs).
    + apply map_get_set_eq.
    + intros c Hc Heq. apply Hb. rewrite <-Heq.
      apply list_elem_of_fmap. by exists c.
  - destruct (nonEmpty (link b)); simpl in Hs; [|by eapply IH].
    destruct (normalize b) as [e|]; [|done]. by eapply IH.
Qed.
End MapOfArticles.

Lemma refresh_link existing item : link (refresh existing item).1 = link existing.
Proof. by rewrite refresh_eq. Qed.

Lemma mergeItem_keyed st item : keyed st.1 → keyed (mergeItem st item).1.
Proof.
  destruct st as [m c]. simpl. intros Hm. unfold mergeItem.
  destruct (nonEmpty (link item)) eqn:Hl; simpl; [|done].
  destruct (map_get (link item) m) as [existing|] eqn:Hg.
  - destruct (refresh existing item) as [next updated] eqn:Hr.
    destruct updated; simpl; [|done].
    destruct (keyed_lookup _ _ _ Hm Hg) as [He _].
    assert (Hn : link next = link item).
    { rewrite <-He. change next with (next, true).1. rewrite <-Hr. apply refresh_link. }
    rewrite <-Hn. apply map_set_keyed; [done|]. by rewrite Hn.
  - simpl. change (link item) with (link (newArticle item)) at 1.
    by apply map_set_keyed.
Qed.

Lemma mergeItems_keyed items st : keyed st.1 → keyed (mergeItems items st).1.
Proof.
  revert st. induction items as [|item r IH]; intros st Hm; [done|].
  change (mergeItems (item :: r) st) with (mergeItems r (mergeItem st item)).
  apply IH. by apply mergeItem_keyed.
Qed.

Lemma mergeItem_lookup_other m c item k :
  link item ≠ k → map_get k (mergeItem (m, c) item).1 = map_get k m.
Proof.
  intros Hne. unfold mergeItem.
  destruct (nonEmpty (link item)); simpl; [|done].
  destruct (map_get (link item) m) as [existing|].
  - destruct (refresh existing item) as [next [|]]; simpl; [|done].
    by apply map_get_set_ne.
  - simpl. by apply map_get_set_ne.
Qed.

(** What one candidate does to the article stored under a link: nothing to
    [sent] and [sentAt]. *)
Lemma mergeItem_sent m c item k e :
  map_get k m = Some e →
  ∃ e', map_get k (mergeItem (m, c) item).1 = Some e' ∧
        sent e' = sent e ∧ sentAt e' = sentAt e.
Proof.
  intros Hg. destruct (decide (link item = k)) as [Heq | Hne].
  - unfold mergeItem. destruct (nonEmpty (link item)); simpl; [|by exists e].
    rewrite Heq, Hg.
    destruct (refresh e item) as [next updated] eqn:Hr.
    destruct updated; simpl; [|by exists e].
    exists next. rewrite map_get_set_eq. split; [done|].
    change next with (next, true).1. rewrite <-Hr, refresh_eq. done.
  - exists e. by rewrite mergeItem_lookup_other.
Qed.

Lemma mergeItems_sent items m c k e :
  map_get k m = Some e →
  ∃ e', map_get k (mergeItems items (m, c)).1 = Some e' ∧
        sent e' = sent e ∧ sentAt e' = sentAt e.
Proof.
  revert m c e. induction items as [|item r IH]; intros m c e Hg.
  - by exists e.
  - change (mergeItems (item :: r) (m, c))
      with (mergeItems r (mergeItem (m, c) item)).
    destruct (mergeItem_sent m c item k e Hg) as (e1 & H1 & Hs1 & Ha1).
    destruct (mergeItem (m, c) item) as [m1 c1]. simpl in H1.
    destruct (IH m1 c1 e1 H1) as (e2 & H2 & Hs2 & Ha2).
    exists e2. split; [done|]. split; congruence.
Qed.



Section MergeFacts.
Variable Date_parse : Val → option Z.
Variable Date_toISOString : Val → option string.
Variable localeCompare : string → string → Z.

Local Abbreviation merge := (mergeArticles Date_parse Date_toISOString localeCompare).
Local Abbreviation seed := (seedMap Date_parse Date_toISOString).
Local Abbreviation cmpA := (compareArticles localeCompare).

Lemma mergeArticles_unfold existingArticles newItems merged hasChanges :
  merge existingArticles newItems = Some (merged, hasChanges) ↔
  ∃ seeded, seed existingArticles [] = Some seeded ∧
    merged = sortBy cmpA (map_values (mergeItems newItems (seeded, false)).1) ∧
    hasChanges = (mergeItems newItems (seeded, false)).2.
Proof.
  unfold mergeArticles. destruct (seed existingArticles []) as [seeded|].
  - destruct (mergeItems newItems (seeded, false)) as [m c] eqn:E. split.
    + intros [= <- <-]. exists seeded. by rewrite E.
    + intros (? & [= <-] & -> & ->). by rewrite E.
  - split; [done|]. by intros (? & ? & _).
Qed.

End MergeFacts.

Lemma NoDup_fmap_elem_inj {A B} (f : A → B) (l : list A) x y :
  NoDup (f <$> l) → x ∈ l → y ∈ l → f x = f y → x = y.
Proof.
  induction l as [|a r IH]; [by intros _ ?%elem_of_nil|].
  rewrite fmap_cons. intros [Ha Hr]%NoDup_cons Hx Hy Heq.
  apply elem_of_cons in Hx as [-> | Hx]; apply elem_of_cons in Hy as [-> | Hy].
  - done.
  - exfalso. apply Ha. rewrite Heq. apply list_elem_of_fmap. by exists y.
  - exfalso. apply Ha. rewrite <-Heq. apply list_elem_of_fmap. by exists x.
  - by apply IH.
Qed.

Lemma StronglySorted_iff {A} (R S : relation A) l :
  (∀ x y, R x y ↔ S x y) → StronglySorted R l → StronglySorted S l.
Proof.
  intros HRS. induction 1 as [|x l _ IH Hx]; constructor; [done|].
  eapply Forall_impl; [done|]. intros y. apply HRS.
Qed.

Section OrderOfMerge.
Variable Date_parse : Val → option Z.
Variable Date_toISOString : Val → option string.
Variable localeCompare : string → string → Z.

Hypothesis lc_total : ∀ s t, (localeCompare s t ≤ 0 ∨ localeCompare t s ≤ 0)%Z.

Local Abbreviation merge := (mergeArticles Date_parse Date_toISOString localeCompare).
Local Abbreviation cmpA := (compareArticles localeCompare).
Local Abbreviation precedes := (mayPrecede localeCompare).

Lemma merge_links_NoDup existingArticles newItems merged hasChanges :
  merge existingArticles newItems = Some (merged, hasChanges) →
  NoDup (link <$> merged).
Proof.
  intros (seeded & Hseed & -> & _)%mergeArticles_unfold.
  rewrite sortBy_Permutation.
  assert (Hk : keyed (mergeItems newItems (seeded, false)).1).
  { apply mergeItems_keyed. simpl.
    eapply seedMap_keyed; [done | apply keyed_nil]. }
  rewrite keyed_links by done. apply Hk.
Qed.



Section Transitive.
Hypothesis lc_trans : ∀ s t u,
  (localeCompare s t ≤ 0 → localeCompare t u ≤ 0 → localeCompare s u ≤ 0)%Z.

Lemma sortBy_articles_sorted l : StronglySorted precedes (sortBy cmpA l).
Proof.
  apply (StronglySorted_iff (leBy cmpA)).
  - apply compareArticles_mayPrecede.
  - apply (@Sorted_StronglySorted _ _ (leBy_compareArticles_trans _ lc_trans)).
    apply sortBy_Sorted, compareArticles_total, lc_total.
Qed.

(** Two arrays holding the same articles, whose links [localeCompare]
    sets apart, sort to the same sequence. *)
Lemma sortBy_articles_unique l1 l2 :
  l1 ≡ₚ l2 → NoDup (link <$> l1) → linksSetApart localeCompare l1 →
  sortBy cmpA l1 = sortBy cmpA l2.
Proof.
  intros Hp Hnd Hapart.
  apply (StronglySorted_unique_strong precedes).
  - intros x y Hx Hy Hxy Hyx.
    rewrite sortBy_Permutation in Hx, Hy. rewrite <-Hp in Hy.
    apply (NoDup_fmap_elem_inj link l1); [done..|].
    destruct (mayPrecede_both _ _ _ Hxy Hyx). by apply Hapart.
  - apply sortBy_articles_sorted.
  - apply sortBy_articles_sorted.
  - by rewrite !sortBy_Permutation.
Qed.

(** C4, amended. With [localeCompare] a consistent comparator, the array
    returned by [mergeArticles] is sorted: an article stands before every
    later one by ascending [publishedAtMs], one without a finite
    [publishedAtMs] after all that have one, and by [localeCompare] of
    the links where the times agree. No link occurs twice. When
    [localeCompare] sets the links of the merged articles apart, the
    sequence is fixed by the set of merged articles alone: whatever the
    order in which the map lists them, and whatever inputs led to them,
    the same articles come out in the same order. *)
Theorem merged_order_is_total_and_deterministic :
  (∀ existingArticles newItems merged hasChanges,
     merge existingArticles newItems = Some (merged, hasChanges) →
     StronglySorted precedes merged ∧
     NoDup (link <$> merged) ∧
     (∀ i j a b, i < j → merged !! i = Some a → merged !! j = Some b →
        match publishedAtMs a, publishedAtMs b with
        | VNum x, VNum y =>
            (x < y ∨ (x = y ∧ localeCompare (link a) (link b) ≤ 0))%Z
        | VNum _, _ => True
        | _, VNum _ => False
        | _, _ => (localeCompare (link a) (link b) ≤ 0)%Z
        end)) ∧
  (∀ l1 l2, l1 ≡ₚ l2 → NoDup (link <$> l1) → linksSetApart localeCompare l1 →
            sortBy cmpA l1 = sortBy cmpA l2) ∧
  (∀ existing1 items1 merged1 changed1 existing2 items2 merged2 changed2,
     merge existing1 items1 = Some (merged1, changed1) →
     merge existing2 items2 = Some (merged2, changed2) →
     merged1 ≡ₚ merged2 → linksSetApart localeCompare merged1 →
     merged1 = merged2).
Proof.
  assert (Hsorted : ∀ existingArticles newItems merged hasChanges,
    merge existingArticles newItems = Some (merged, hasChanges) →
    StronglySorted precedes merged).
  { intros ???? (seeded & _ & -> & _)%mergeArticles_unfold.
    apply sortBy_articles_sorted. }
  split; [|split].
  - intros existingArticles newItems merged hasChanges Hm.
    split; [by eapply Hsorted|]. split; [by eapply merge_links_NoDup|].
    intros i j a b Hij Ha Hb.
    apply Hsorted in Hm.
    assert (Hsplit : merged = take j merged ++ b :: drop (S j) merged).
    { by rewrite <-drop_S, take_drop. }
    rewrite Hsplit in Hm.
    apply StronglySorted_app in Hm as (Hcross & _ & _).
    assert (Hab : precedes a b).
    { apply (Hcross a b); [|left]. apply elem_of_take. eauto. }
    unfold mayPrecede, sortTime in Hab.
    by destruct (publishedAtMs a), (publishedAtMs b).
  - apply sortBy_articles_unique.
  - intros ???????? H1 H2 Hp Hapart.
    pose proof (merge_links_NoDup _ _ _ _ H1) as Hnd.
    apply Hsorted in H1. apply Hsorted in H2.
    apply (StronglySorted_unique_strong precedes); [|done..].
    intros x y Hx Hy Hxy Hyx. rewrite <-Hp in Hy.
    apply (NoDup_fmap_elem_inj link merged1); [done..|].
    destruct (mayPrecede_both _ _ _ Hxy Hyx). by apply Hapart.
Qed.
End Transitive.
End OrderOfMerge.

(** ** What a cycle selects *)


Section Selection.
Variable Date_parse : Val → option Z.
Variable Date_toISOString : Val → option string.
Variable localeCompare : string → string → Z.
Variable sink : nat → Article → Outcome.
Variable clock : nat → string.

Hypothesis lc_total : ∀ s t, (localeCompare s t ≤ 0 ∨ localeCompare t s ≤ 0)%Z.

Local Abbreviation merge := (mergeArticles Date_parse Date_toISOString localeCompare).
Local Abbreviation cycle :=
  (processSource Date_parse Date_toISOString localeCompare sink clock).
Local Abbreviation loop := (deliverLoop sink clock).

End Selection.

(** ** The reconciler run twice *)

Lemma js_or_null_idem v : js_or (js_or v VNull) VNull = js_or v VNull.
Proof. unfold js_or. by destruct (truthy v) eqn:E; [rewrite E|]. Qed.

Section Twice.
Variable Date_parse : Val → option Z.
Variable Date_toISOString : Val → option string.

Local Abbreviation normalize := (normalizeArticle Date_parse Date_toISOString).
Local Abbreviation seed := (seedMap Date_parse Date_toISOString).

Lemma normalize_stable a e :
  msOk a → normalize a = Some e → stable Date_parse Date_toISOString e.
Proof.
  unfold stable, normalizeArticle, msOk.
  destruct a as [l t d th g p ms s sa]. simpl.
  intros Hok Hn.
  destruct (truthy p) eqn:Hp.
  - injection Hn as <-. simpl. rewrite Hp.
    rewrite js_or_null_idem.
    assert (Hg : (if isString (if isString g then g else VNull)
                  then (if isString g then g else VNull) else VNull) =
                 (if isString g then g else VNull)).
    { by destruct g. }
    rewrite Hg.
    destruct (Number_isFinite ms) eqn:Hms; simpl; [by rewrite Hms|].
    by destruct (Number_isFinite (ofNumber (Date_parse p))).
  - destruct Hok as [Hfin | Hfalsy].
    + destruct ms as [| | |n| |]; try done. simpl in *.
      destruct (n =? 0)%Z eqn:Hn0; simpl in *.
      * injection Hn as <-. simpl. rewrite Hn0. simpl.
        rewrite js_or_null_idem. by destruct g.
      * destruct (Date_toISOString (VNum n)) as [iso|] eqn:Hiso; [|done].
        simpl in Hn. injection Hn as <-. simpl. rewrite Hn0, Hiso. simpl.
        rewrite js_or_null_idem. destruct (nonEmpty iso); by destruct g.
    + rewrite Hfalsy in Hn.
      assert (Hnf : Number_isFinite ms = false ∨ ms = VNum 0).
      { destruct ms as [| | |n| |]; simpl in *; auto.
        right. f_equal. apply negb_false_iff, Z.eqb_eq in Hfalsy. done. }
      destruct Hnf as [Hnf | ->].
      * rewrite Hnf in Hn. injection Hn as <-. simpl.
        rewrite js_or_null_idem. by destruct g.
      * simpl in Hn. injection Hn as <-. simpl.
        rewrite js_or_null_idem. by destruct g.
Qed.
End Twice.

Section TwiceMore.
Variable Date_parse : Val → option Z.
Variable Date_toISOString : Val → option string.

Local Abbreviation normalize := (normalizeArticle Date_parse Date_toISOString).
Local Abbreviation seed := (seedMap Date_parse Date_toISOString).
Local Abbreviation stableA := (stable Date_parse Date_toISOString).
Local Abbreviation stableM := (stableMap Date_parse Date_toISOString).

Lemma stable_iff a :
  stableA a ↔
    Boolean (sent a) = sent a ∧
    js_or (sentAt a) VNull = sentAt a ∧
    (if isString (guid a) then guid a else VNull) = guid a ∧
    (if Number_isFinite (publishedAtMs a) then publishedAtMs a
     else if truthy (publishedAt a)
          then ofNumber (Date_parse (publishedAt a)) else VNull)
      = publishedAtMs a ∧
    (if truthy (publishedAt a) then Some (publishedAt a)
     else if truthy (publishedAtMs a)
          then VStr <$> Date_toISOString (publishedAtMs a) else Some VNull)
      = Some (publishedAt a).
Proof.
  unfold stable, normalizeArticle. destruct a as [l t d th g p ms s sa]. simpl.
  split.
  - destruct (if truthy p then _ else _) as [at_|]; [|done].
    intros [= Hg Hat Hms Hs Hsa]. rewrite Hg, Hms, Hs, Hsa, Hat. done.
  - intros (Hs & Hsa & Hg & Hms & ->). by rewrite Hs, Hsa, Hg, Hms.
Qed.

Lemma newArticle_stable c : wfCandidate c → stableA (newArticle c).
Proof.
  intros (Hg & Hp & Hms). apply stable_iff. unfold newArticle. simpl.
  rewrite Hp, Hms. split; [done|]. split; [done|]. split; [|done].
  destruct (guid c) as [| | | | |s]; try done. unfold js_or. simpl.
  by destruct (nonEmpty s).
Qed.

Lemma refresh_stable e c : stableA e → wfCandidate c → stableA (refresh e c).1.
Proof.
  intros (Hs & Hsa & Hg & Hms & Hat)%stable_iff (Hcg & Hcp & Hcms).
  apply stable_iff. rewrite refresh_eq. simpl.
  split; [done|]. split; [done|]. split; [|split].
  - unfold pick. destruct (differs guid e c); [by rewrite Hcg | done].
  - unfold pick. destruct (differs publishedAt e c); [by rewrite Hcms | done].
  - unfold pick. destruct (differs publishedAt e c); [by rewrite Hcp | done].
Qed.

Lemma seedMap_stable l m m' :
  Forall msOk l → seed l m = Some m' → stableM m → stableM m'.
Proof.
  revert m. induction l as [|a r IH]; intros m Hok; simpl.
  - by intros [= ->].
  - apply Forall_cons in Hok as [Ha Hr].
    destruct (nonEmpty (link a)); simpl; [|by apply IH].
    destruct (normalize a) as [e|] eqn:Hn; [|done].
    intros Hseed Hm. apply (IH _ Hr Hseed).
    apply map_set_Forall; [done|]. simpl. by eapply normalize_stable.
Qed.

Lemma mergeItem_stable m c item :
  wfCandidate item → stableM m → stableM (mergeItem (m, c) item).1.
Proof.
  intros Hwf Hm. unfold mergeItem.
  destruct (nonEmpty (link item)); simpl; [|done].
  destruct (map_get (link item) m) as [existing|] eqn:Hg.
  - destruct (refresh existing item) as [next updated] eqn:Hr.
    destruct updated; simpl; [|done].
    apply map_set_Forall; [done|]. simpl.
    change next with (next, true).1. rewrite <-Hr.
    apply refresh_stable; [|done].
    apply map_get_Some_elem in Hg. unfold stableMap in Hm.
    rewrite Forall_forall in Hm. apply (Hm _ Hg).
  - simpl. apply map_set_Forall; [done|]. simpl. by apply newArticle_stable.
Qed.

Lemma mergeItems_stable items m c :
  Forall wfCandidate items → stableM m →
  stableM (mergeItems items (m, c)).1.
Proof.
  revert m c. induction items as [|item r IH]; intros m c Hwf Hm; [done|].
  apply Forall_cons in Hwf as [Hi Hr].
  change (mergeItems (item :: r) (m, c))
    with (mergeItems r (mergeItem (m, c) item)).
  pose proof (mergeItem_stable m c item Hi Hm) as H1.
  destruct (mergeItem (m, c) item) as [m1 c1]. by apply IH.
Qed.

(** Seeding from articles that are stable and carry distinct non-empty
    links appends them in order. *)
Lemma seedMap_clean l m :
  Forall (λ a, nonEmpty (link a) = true ∧ stableA a) l →
  NoDup (m.*1 ++ (link <$> l)) →
  seed l m = Some (m ++ ((λ a, (link a, a)) <$> l)).
Proof.
  revert m. induction l as [|a r IH]; intros m Hall Hnd; simpl.
  - by rewrite app_nil_r.
  - apply Forall_cons in Hall as [[Hl Hst] Hr].
    rewrite Hl. simpl. unfold stable in Hst. rewrite Hst.
    assert (Hout : link a ∉ m.*1).
    { apply NoDup_app in Hnd as (_ & Hd & _). intros Hin.
      apply (Hd _ Hin). rewrite fmap_cons. left. }
    rewrite map_set_absent by done.
    rewrite IH; [by rewrite <-app_assoc | done |].
    rewrite fmap_app. simpl. rewrite <-app_assoc. done.
Qed.
End TwiceMore.

Lemma settle_val s c :
  truthy c && strictNe c (if truthy c && strictNe c s then c else s) = false.
Proof.
  destruct (truthy c) eqn:Hc; simpl; [|done].
  destruct (strictNe c s) eqn:Hn; [by apply strictNe_same | done].
Qed.

Lemma refresh_settled e item : settled (refresh e item).1 item.
Proof.
  unfold settled. rewrite (refresh_eq (refresh e item).1).
  rewrite (refresh_eq e item). simpl. unfold differs, pick. simpl.
  unfold differs. by rewrite !settle_val.
Qed.

Lemma newArticle_settled item : settled (newArticle item) item.
Proof.
  unfold settled. rewrite refresh_eq. simpl. unfold differs, newArticle. simpl.
  assert (H : ∀ v, truthy v && strictNe v v = false).
  { intros v. destruct (truthy v) eqn:E; [by rewrite strictNe_same | done]. }
  rewrite !H. simpl. unfold js_or.
  destruct (truthy (guid item)) eqn:E; [by rewrite strictNe_same | done].
Qed.

Lemma mergeItem_settles m c item :
  nonEmpty (link item) = true →
  ∃ e, map_get (link item) (mergeItem (m, c) item).1 = Some e ∧ settled e item.
Proof.
  intros Hl. unfold mergeItem. rewrite Hl. simpl.
  destruct (map_get (link item) m) as [existing|] eqn:Hg.
  - destruct (refresh existing item) as [next updated] eqn:Hr.
    destruct updated; simpl.
    + exists next. rewrite map_get_set_eq. split; [done|].
      change next with (next, true).1. rewrite <-Hr. apply refresh_settled.
    + exists existing. split; [done|]. unfold settled. by rewrite Hr.
  - simpl. exists (newArticle item). rewrite map_get_set_eq. split; [done|].
    apply newArticle_settled.
Qed.

Lemma mergeItems_lookup_other items m c k :
  (∀ b, b ∈ items → link b ≠ k) →
  map_get k (mergeItems items (m, c)).1 = map_get k m.
Proof.
  revert m c. induction items as [|item r IH]; intros m c Hk; [done|].
  change (mergeItems (item :: r) (m, c))
    with (mergeItems r (mergeItem (m, c) item)).
  pose proof (mergeItem_lookup_other m c item k) as H1.
  destruct (mergeItem (m, c) item) as [m1 c1]. simpl in H1.
  rewrite IH; [apply H1, Hk; left|]. intros b Hb. apply Hk. by right.
Qed.

(** After the second loop, every candidate with a link finds its article
    settled, provided no link came twice. *)
Lemma mergeItems_settled items m c item :
  distinctLinks items → item ∈ items → nonEmpty (link item) = true →
  ∃ e, map_get (link item) (mergeItems items (m, c)).1 = Some e ∧ settled e item.
Proof.
  unfold distinctLinks.
  revert m c. induction items as [|x r IH]; intros m c Hnd Hin Hl.
  { by apply elem_of_nil in Hin. }
  change (mergeItems (x :: r) (m, c)) with (mergeItems r (mergeItem (m, c) x)).
  rewrite fmap_cons in Hnd.
  destruct (decide (item ∈ r)) as [Hr | Hr].
  - destruct (mergeItem (m, c) x) as [m1 c1]. apply IH; [|done..].
    destruct (decide (nonEmpty (link x) = true)) as [Hx | Hx].
    + rewrite filter_cons_True in Hnd by done. by apply NoDup_cons in Hnd as [_ ?].
    + by rewrite filter_cons_False in Hnd.
  - apply elem_of_cons in Hin as [-> | ?]; [|done].
    rewrite filter_cons_True in Hnd by done. apply NoDup_cons in Hnd as [Hx _].
    destruct (mergeItem_settles m c x Hl) as (e & He & Hs).
    destruct (mergeItem (m, c) x) as [m1 c1]. simpl in He.
    exists e. split; [|done]. rewrite mergeItems_lookup_other; [done|].
    intros b Hb Heq. apply Hx. apply list_elem_of_filter. split; [done|].
    rewrite <-Heq. apply list_elem_of_fmap. by exists b.
Qed.

Lemma mergeItems_noop items m c :
  (∀ item, item ∈ items → nonEmpty (link item) = true →
     ∃ e, map_get (link item) m = Some e ∧ settled e item) →
  mergeItems items (m, c) = (m, c).
Proof.
  induction items as [|item r IH]; intros Hall; [done|].
  change (mergeItems (item :: r) (m, c))
    with (mergeItems r (mergeItem (m, c) item)).
  assert (Hstep : mergeItem (m, c) item = (m, c)).
  { unfold mergeItem. destruct (nonEmpty (link item)) eqn:Hl; simpl; [|done].
    destruct (Hall item) as (e & He & Hs); [left | done |].
    rewrite He. unfold settled in Hs.
    destruct (refresh e item) as [next updated]. simpl in Hs. by subst. }
  rewrite Hstep. apply IH. intros b Hb. apply Hall. by right.
Qed.

Lemma map_get_Permutation {V} (m m' : list (string * V)) k :
  NoDup m.*1 → m' ≡ₚ m → map_get k m' = map_get k m.
Proof.
  intros Hnd Hp.
  assert (Hnd' : NoDup m'.*1) by (by rewrite Hp).
  destruct (map_get k m) as [v|] eqn:Hg.
  - apply map_get_elem; [done|]. rewrite Hp. by apply map_get_Some_elem.
  - apply map_get_None. rewrite Hp. by apply map_get_None.
Qed.

Lemma keyed_pairs m : keyed m → (λ a, (link a, a)) <$> map_values m = m.
Proof.
  intros [_ Hall]. unfold map_values.
  induction Hall as [|[k v] r [Hk _] _ IH]; [done|].
  simpl in Hk. rewrite !fmap_cons. simpl. by rewrite Hk, IH.
Qed.

Section Idempotence.
Variable Date_parse : Val → option Z.
Variable Date_toISOString : Val → option string.
Variable localeCompare : string → string → Z.

Hypothesis lc_total : ∀ s t, (localeCompare s t ≤ 0 ∨ localeCompare t s ≤ 0)%Z.

Local Abbreviation merge := (mergeArticles Date_parse Date_toISOString localeCompare).
Local Abbreviation seed := (seedMap Date_parse Date_toISOString).
Local Abbreviation cmpA := (compareArticles localeCompare).
Local Abbreviation stableA := (stable Date_parse Date_toISOString).

(** C2, amended. With [localeCompare] total, stored articles whose
    [publishedAtMs] is a finite number or falsy, and candidates as the
    feed parser builds them, no non-empty link twice: merging the same
    candidates into the result of a merge returns that result again, in
    the same order, with [hasChanges = false]. *)
Theorem merge_idempotent_for_distinct_links
    (existingArticles newItems merged : list Article) (hasChanges : bool) :
  Forall msOk existingArticles →
  Forall wfCandidate newItems →
  distinctLinks newItems →
  merge existingArticles newItems = Some (merged, hasChanges) →
  merge merged newItems = Some (merged, false).
Proof.
  intros Hok Hwf Hdl (seeded & Hseed & -> & _)%mergeArticles_unfold.
  set (m1 := (mergeItems newItems (seeded, false)).1).
  assert (Hk : keyed m1).
  { apply mergeItems_keyed. simpl.
    eapply seedMap_keyed; [done | apply keyed_nil]. }
  assert (Hst : stableMap Date_parse Date_toISOString m1).
  { apply mergeItems_stable; [done|].
    eapply seedMap_stable; [done.. | constructor]. }
  set (merged := sortBy cmpA (map_values m1)).
  assert (Hp : merged ≡ₚ map_values m1) by apply sortBy_Permutation.
  assert (Hclean : Forall (λ a, nonEmpty (link a) = true ∧ stableA a) merged).
  { rewrite Hp. unfold map_values. apply Forall_fmap.
    destruct Hk as [_ Hk]. unfold stableMap in Hst.
    rewrite Forall_forall in Hk, Hst. apply Forall_forall.
    intros [k v] Hin. simpl. destruct (Hk _ Hin) as [Hl Hne]. simpl in *.
    split; [by rewrite Hl | by apply (Hst _ Hin)]. }
  assert (Hnd : NoDup (link <$> merged)).
  { rewrite Hp, keyed_links by done. apply Hk. }
  set (m2 := ((λ a, (link a, a)) <$> merged) : JsMap Article).
  assert (Hseed2 : seed merged [] = Some m2).
  { rewrite (seedMap_clean _ _ merged []); [done | done | by simpl]. }
  assert (Hlook : ∀ k, map_get k m2 = map_get k m1).
  { intros k. apply map_get_Permutation; [apply Hk|].
    unfold m2. rewrite Hp. by rewrite keyed_pairs. }
  assert (Hnoop : mergeItems newItems (m2, false) = (m2, false)).
  { apply mergeItems_noop. intros item Hin Hl. rewrite Hlook.
    by apply mergeItems_settled. }
  apply mergeArticles_unfold. exists m2. split; [done|].
  rewrite Hnoop. simpl. split; [|done].
  assert (Hv : map_values m2 = merged).
  { unfold m2, map_values. rewrite <-list_fmap_compose.
    rewrite <-(list_fmap_id merged) at 2. done. }
  rewrite Hv. symmetry. apply sortBy_idempotent.
  apply compareArticles_total, lc_total.
Qed.
End Idempotence.

(** ** Pruning *)

Section FilterFacts.
Context {A : Type}.

Lemma filter_all (P : A → Prop) `{!∀ x, Decision (P x)} (l : list A) :
  Forall P l → filter P l = l.
Proof.
  induction 1 as [|x r Hx _ IH]; [done|].
  by rewrite filter_cons_True, IH.
Qed.

Lemma filter_ext_elem (P Q : A → Prop)
    `{!∀ x, Decision (P x), !∀ x, Decision (Q x)} (l : list A) :
  (∀ x, x ∈ l → P x ↔ Q x) → filter P l = filter Q l.
Proof.
  induction l as [|x r IH]; intros Hpq; [done|].
  assert (Hr : filter P r = filter Q r).
  { apply IH. intros y Hy. apply Hpq. by right. }
  destruct (decide (P x)) as [Hp | Hp].
  - rewrite !filter_cons_True; [by rewrite Hr | by apply Hpq; [left|] | done].
  - rewrite !filter_cons_False; [done | | done].
    intros Hq. apply Hp. apply Hpq; [left | done].
Qed.
End FilterFacts.

Section DeleteFacts.
Context {V : Type}.
Implicit Types (m : list (string * V)).

Lemma filter_keys_NoDup (P : string * V → Prop) `{!∀ x, Decision (P x)} m :
  NoDup m.*1 → NoDup (filter P m).*1.
Proof.
  intros Hnd. eapply sublist_NoDup; [done|].
  apply fmap_sublist, sublist_filter.
Qed.

Lemma map_delete_filter m k :
  NoDup m.*1 → map_delete k m = filter (λ he, he.1 ≠ k) m.
Proof.
  induction m as [|[k' v] r IH]; [done|].
  rewrite fmap_cons. intros [Hk Hr]%NoDup_cons. simpl in *.
  destruct (bool_decide (k' = k)) eqn:E.
  - apply bool_decide_eq_true_1 in E. subst k'.
    rewrite filter_cons_False by (simpl; auto).
    symmetry. apply filter_all. apply Forall_forall. intros [k2 v2] Hin.
    simpl. intros ->. apply Hk. apply list_elem_of_fmap. by exists (k, v2).
  - apply bool_decide_eq_false_1 in E.
    rewrite filter_cons_True by done. by rewrite IH.
Qed.

Lemma deleteKeys_filter ks m :
  NoDup m.*1 →
  foldl (λ m h, map_delete h m) m ks = filter (λ he, he.1 ∉ ks) m.
Proof.
  revert m. induction ks as [|k ks IH]; intros m Hnd; simpl.
  - symmetry. apply filter_all, Forall_forall. intros ? _. apply not_elem_of_nil.
  - rewrite IH, map_delete_filter by
      (rewrite ?map_delete_filter by done; by try apply filter_keys_NoDup).
    rewrite list_filter_filter. apply list_filter_iff.
    intros he. rewrite not_elem_of_cons. tauto.
Qed.
End DeleteFacts.

Section PruneFacts.
Variable Date_parse : Val → option Z.

Local Abbreviation time := (entryTime Date_parse).
Local Abbreviation cmpS := (compareSentAt Date_parse).
Local Abbreviation valid := (validEntry Date_parse).
Local Abbreviation fresh := (freshEntry Date_parse).
Local Abbreviation noLater := (sentNoLater Date_parse).

(** A loop that deletes the entries of [l] picked by [bad]. *)
Lemma drop_loop (step : SentMap * bool → string * SentEntry → SentMap * bool)
    (bad : string * SentEntry → Prop) `{!∀ x, Decision (bad x)} :
  (∀ m c he, step (m, c) he = if decide (bad he) then (map_delete he.1 m, true) else (m, c)) →
  ∀ l (m : SentMap) c, NoDup m.*1 →
    (foldl step (m, c) l).1 = filter (λ he, he.1 ∉ (filter bad l).*1) m ∧
    ((foldl step (m, c) l).2 = true ↔ c = true ∨ Exists bad l).
Proof.
  intros Hstep. induction l as [|he l IH]; intros m c Hnd; simpl.
  - split.
    + symmetry. apply filter_all, Forall_forall. intros ? _. apply not_elem_of_nil.
    + rewrite Exists_nil. tauto.
  - rewrite Hstep. destruct (decide (bad he)) as [Hb | Hb]; cbv iota.
    + rewrite filter_cons_True by done. rewrite fmap_cons.
      destruct (IH (map_delete he.1 m) true) as [H1 H2].
      { rewrite map_delete_filter by done. by apply filter_keys_NoDup. }
      rewrite H1, H2. split.
      * rewrite map_delete_filter by done. rewrite list_filter_filter.
        apply list_filter_iff. intros x. rewrite not_elem_of_cons. tauto.
      * rewrite Exists_cons. tauto.
    + rewrite filter_cons_False by done.
      destruct (IH m c Hnd) as [H1 H2]. rewrite H1, H2. split; [done|].
      rewrite Exists_cons. tauto.
Qed.

Lemma drop_loop_self step (bad : string * SentEntry → Prop)
    `{!∀ x, Decision (bad x)} (m : SentMap) :
  (∀ m c he, step (m, c) he = if decide (bad he) then (map_delete he.1 m, true) else (m, c)) →
  NoDup m.*1 →
  (foldl step (m, false) m).1 = filter (λ he, ¬ bad he) m ∧
  ((foldl step (m, false) m).2 = true ↔ Exists bad m).
Proof.
  intros Hstep Hnd.
  destruct (drop_loop step bad Hstep m m false Hnd) as [H1 H2].
  split.
  - rewrite H1. apply filter_ext_elem. intros x Hx. split.
    + intros Hout Hb. apply Hout. apply list_elem_of_fmap. exists x.
      split; [done|]. by apply list_elem_of_filter.
    + intros Hg (y & Hy1 & [Hyb Hy]%list_elem_of_filter)%list_elem_of_fmap.
      assert (x = y) by (by apply (NoDup_fmap_elem_inj fst m)).
      by subst.
  - rewrite H2. split; [by intros [?|?] | by right].
Qed.

Lemma cleanStep_eq m c he :
  cleanStep Date_parse (m, c) he =
    if decide (¬ valid he) then (map_delete he.1 m, true) else (m, c).
Proof.
  unfold cleanStep. destruct (time he.2) as [t|] eqn:E.
  - rewrite decide_False; [done|]. intros H. apply H. by exists t.
  - rewrite decide_True; [done|]. unfold validEntry. rewrite E. by intros [? ?].
Qed.

Lemma ageStep_eq cutoffMs m c he :
  ageStep Date_parse cutoffMs (m, c) he =
    if decide (¬ fresh cutoffMs he) then (map_delete he.1 m, true) else (m, c).
Proof.
  unfold ageStep. destruct (time he.2) as [t|] eqn:E.
  - destruct (t <? cutoffMs)%Z eqn:Ht.
    + apply Z.ltb_lt in Ht. rewrite decide_True; [done|].
      unfold freshEntry. rewrite E. intros (? & [= <-] & ?). lia.
    + apply Z.ltb_ge in Ht. rewrite decide_False; [done|].
      intros H. apply H. by exists t.
  - rewrite decide_True; [done|].
    unfold freshEntry. rewrite E. by intros (? & ? & _).
Qed.

Lemma filter_not_not (P : string * SentEntry → Prop) `{!∀ x, Decision (P x)}
    (m : SentMap) :
  filter (λ he, ¬ ¬ P he) m = filter P m.
Proof. apply list_filter_iff. intros x. split; [apply dec_stable | auto]. Qed.

Lemma compareSentAt_total a b : (cmpS a b ≤ 0 ∨ cmpS b a ≤ 0)%Z.
Proof.
  unfold compareSentAt. destruct (time a.2), (time b.2); lia.
Qed.

Lemma sorted_valid_strongly l :
  Forall valid l → Sorted (leBy cmpS) l → StronglySorted noLater l.
Proof.
  intros Hv Hs. induction Hs as [|a l Hl IH Ha]; [constructor|].
  apply Forall_cons in Hv as [[x Hx] Hv].
  specialize (IH Hv). constructor; [done|].
  destruct Ha as [|b l Hab]; [constructor|].
  apply Forall_cons in Hv as [[y Hy] Hv].
  assert (Hxy : (x ≤ y)%Z).
  { unfold leBy, compareSentAt in Hab. rewrite Hx, Hy in Hab. lia. }
  constructor; [by exists x, y|].
  apply StronglySorted_inv in IH as [_ Hb].
  eapply Forall_impl; [done|]. simpl.
  intros c (y' & z & Hy' & Hz & Hyz). exists x, z.
  rewrite Hy in Hy'. simplify_eq. split; [done|]. split; [done|]. lia.
Qed.
End PruneFacts.

Section PruneTheorem.
Variable Date_parse : Val → option Z.

Local Abbreviation time := (entryTime Date_parse).
Local Abbreviation cmpS := (compareSentAt Date_parse).
Local Abbreviation valid := (validEntry Date_parse).

Lemma clean_loop (sentMap : SentMap) :
  NoDup sentMap.*1 →
  (foldl (cleanStep Date_parse) (sentMap, false) sentMap).1 = filter valid sentMap ∧
  ((foldl (cleanStep Date_parse) (sentMap, false) sentMap).2 = true ↔
     Exists (λ he, ¬ valid he) sentMap).
Proof.
  intros Hnd.
  destruct (drop_loop_self (cleanStep Date_parse) (λ he, ¬ valid he) sentMap
              (cleanStep_eq Date_parse) Hnd) as [H1 H2].
  split; [|done]. rewrite H1. apply filter_not_not.
Qed.

Lemma pruneSentMap_small (sentMap : SentMap) :
  NoDup sentMap.*1 →
  map_size (filter valid sentMap) ≤ MAX_SENT_MAP_SIZE →
  (pruneSentMap Date_parse sentMap).1 = filter valid sentMap ∧
  ((pruneSentMap Date_parse sentMap).2 = true ↔ Exists (λ he, ¬ valid he) sentMap).
Proof.
  intros Hnd Hsize. destruct (clean_loop sentMap Hnd) as [H1 H2].
  unfold pruneSentMap.
  destruct (foldl (cleanStep Date_parse) (sentMap, false) sentMap) as [m c].
  simpl in H1, H2. subst m.
  rewrite bool_decide_eq_false_2 by (unfold map_size in *; lia). done.
Qed.

Lemma pruneSentMap_large (sentMap : SentMap) :
  NoDup sentMap.*1 →
  let cleaned := filter valid sentMap in
  MAX_SENT_MAP_SIZE < map_size cleaned →
  let sorted := sortBy cmpS cleaned in
  let n := map_size cleaned - MAX_SENT_MAP_SIZE in
  (pruneSentMap Date_parse sentMap).1 =
    filter (λ he, he.1 ∉ (take n sorted).*1) cleaned.
Proof.
  intros Hnd cleaned Hsize sorted n.
  destruct (clean_loop sentMap Hnd) as [H1 _].
  unfold pruneSentMap.
  destruct (foldl (cleanStep Date_parse) (sentMap, false) sentMap) as [m c].
  simpl in H1. subst m. fold cleaned.
  rewrite bool_decide_eq_true_2 by done. simpl.
  unfold deleteAll. apply deleteKeys_filter. by apply filter_keys_NoDup.
Qed.

(** C6, amended. On a sent map with distinct keys, [pruneSentMap] of the
    FFXIV RSS worker first drops the entries whose [sentAt] does not
    parse. If more than 500 entries are left it removes the ones sent
    earliest until exactly 500 remain, each of them sent no earlier than
    any entry removed, in the order they had; 550 valid entries are cut
    to 500. A map of at most 500 valid entries is returned as it is,
    with the flag [false]. [pruneSentMap] of the multi-source worker
    keeps the entries sent within the last two days, however many. *)
Theorem ledger_pruning_by_capacity_or_age (sentMap : SentMap) :
  NoDup sentMap.*1 →
  let cleaned := filter valid sentMap in
  let pruned := (pruneSentMap Date_parse sentMap).1 in
  (map_size cleaned ≤ MAX_SENT_MAP_SIZE → pruned = cleaned) ∧
  (MAX_SENT_MAP_SIZE < map_size cleaned →
     map_size pruned = MAX_SENT_MAP_SIZE ∧
     pruned `sublist_of` cleaned ∧
     ∀ gone kept, gone ∈ cleaned → gone ∉ pruned → kept ∈ pruned →
                  sentNoLater Date_parse gone kept) ∧
  (Forall valid sentMap → map_size sentMap = MAX_SENT_MAP_SIZE + 50 →
     map_size pruned = MAX_SENT_MAP_SIZE) ∧
  (Forall valid sentMap → map_size sentMap ≤ MAX_SENT_MAP_SIZE →
     pruneSentMap Date_parse sentMap = (sentMap, false)) ∧
  (∀ nowMs,
     (pruneSentMap_multi Date_parse nowMs sentMap).1 =
       filter (freshEntry Date_parse (nowMs - 172800000)) sentMap).
Proof.
  intros Hnd cleaned pruned.
  assert (Hlarge : MAX_SENT_MAP_SIZE < map_size cleaned →
     map_size pruned = MAX_SENT_MAP_SIZE ∧
     pruned `sublist_of` cleaned ∧
     ∀ gone kept, gone ∈ cleaned → gone ∉ pruned → kept ∈ pruned →
                  sentNoLater Date_parse gone kept).
  { intros Hsize.
    pose proof (pruneSentMap_large sentMap Hnd Hsize) as Hp.
    fold cleaned pruned in Hp. simpl in Hp.
    set (sorted := sortBy cmpS cleaned) in *.
    set (n := map_size cleaned - MAX_SENT_MAP_SIZE) in *.
    assert (Hperm : sorted ≡ₚ cleaned) by apply sortBy_Permutation.
    assert (Hck : NoDup cleaned.*1) by (by apply filter_keys_NoDup).
    assert (Hsk : NoDup sorted.*1) by (by rewrite Hperm).
    assert (Hsn : NoDup sorted) by (by eapply NoDup_fmap_1).
    assert (Hin : ∀ x, x ∈ pruned ↔ x ∈ drop n sorted).
    { intros x. rewrite Hp, list_elem_of_filter.
      rewrite <-(take_drop n sorted) in Hsn.
      apply NoDup_app in Hsn as (_ & Hdisj & _).
      split.
      - intros [Hout Hx]. rewrite <-Hperm, <-(take_drop n sorted) in Hx.
        apply elem_of_app in Hx as [Hx | Hx]; [|done].
        exfalso. apply Hout. apply list_elem_of_fmap. by exists x.
      - intros Hx. split.
        + intros (y & Hy1 & Hy)%list_elem_of_fmap.
          assert (x = y).
          { apply (NoDup_fmap_elem_inj fst sorted); [done | | | done].
            - by eapply subseteq_drop.
            - by eapply subseteq_take. }
          subst y. by apply (Hdisj x).
        + rewrite <-Hperm. by eapply subseteq_drop. }
    assert (Hpp : pruned ≡ₚ drop n sorted).
    { apply NoDup_Permutation; [| |done].
      - apply (NoDup_fmap_1 fst). rewrite Hp. by apply filter_keys_NoDup.
      - eapply sublist_NoDup; [|apply sublist_drop].
        by eapply NoDup_fmap_1. }
    split; [|split].
    - unfold map_size. rewrite Hpp, length_drop, Hperm.
      unfold n, map_size in *. lia.
    - rewrite Hp. apply sublist_filter.
    - intros gone kept Hg Hgone Hkept.
      assert (Hsorted : StronglySorted (sentNoLater Date_parse) sorted).
      { apply sorted_valid_strongly.
        - rewrite Hperm. apply Forall_forall.
          by intros x [? _]%list_elem_of_filter.
        - apply sortBy_Sorted, compareSentAt_total. }
      rewrite <-(take_drop n sorted) in Hsorted.
      eapply StronglySorted_app_1_elem_of; [done| |by apply Hin].
      rewrite <-Hperm, <-(take_drop n sorted) in Hg.
      apply elem_of_app in Hg as [?|Hg]; [done|].
      by apply Hin in Hg. }
  split; [|split; [done|split; [|split]]].
  - intros Hsize. by apply pruneSentMap_small.
  - intros Hall Hsize.
    assert (Hc : cleaned = sentMap) by (by apply filter_all).
    apply Hlarge. rewrite Hc. lia.
  - intros Hall Hsize.
    assert (Hc : cleaned = sentMap) by (by apply filter_all).
    destruct (pruneSentMap_small sentMap Hnd) as [H1 H2].
    { fold cleaned. by rewrite Hc. }
    fold cleaned in H1. rewrite Hc in H1.
    destruct (pruneSentMap Date_parse sentMap) as [m c]. simpl in *. subst m.
    f_equal. destruct c; [|done]. exfalso.
    assert (He : Exists (λ he, ¬ valid he) sentMap) by (by apply H2).
    apply Exists_exists in He as (x & Hx & Hbad).
    rewrite Forall_forall in Hall. by apply Hbad, Hall.
  - intros nowMs. unfold pruneSentMap_multi.
    destruct (drop_loop_self
                (ageStep Date_parse (nowMs - SENT_MAP_TTL_SECONDS_multi * 1000))
                (λ he, ¬ freshEntry Date_parse
                           (nowMs - SENT_MAP_TTL_SECONDS_multi * 1000) he)
                sentMap (ageStep_eq Date_parse _) Hnd) as [H1 _].
    rewrite H1. apply filter_not_not.
Qed.
End PruneTheorem.

(** ** The state loader *)

Section LoaderFacts.
Variable Date_parse : Val → option Z.
Variable Date_toISOString : Val → option string.
Variable JSON_parse : string → option Doc.

Local Abbreviation load := (loadDailyState Date_parse Date_toISOString JSON_parse).
Local Abbreviation load_try :=
  (loadDailyState_try Date_parse Date_toISOString JSON_parse).
Local Abbreviation entryOf := (loadEntry Date_parse Date_toISOString).
Local Abbreviation entriesOf := (loadEntries Date_parse Date_toISOString).

Lemma loadEntry_kept entry a :
  entryOf (Some entry) = Some (Some a) →
  nonEmpty (link entry) = true ∧ link a = link entry ∧
  sent a = VBool (truthy (sent entry)) ∧
  sentAt a = (if isString (sentAt entry) then sentAt entry else VNull) ∧
  publishedAtMs a =
    (if Number_isFinite (publishedAtMs entry) then publishedAtMs entry
     else match (if truthy (publishedAt entry)
                 then Date_parse (publishedAt entry) else None) with
          | Some n => VNum n
          | None => VNull
          end).
Proof.
  unfold loadEntry. destruct (nonEmpty (link entry)) eqn:Hl; simpl; [|done].
  destruct (if isString (publishedAt entry) then _ else _) as [at_|]; [|done].
  intros [= <-]. simpl. split; [done|]. split; [done|]. split; [done|].
  split; [done|].
  destruct (Number_isFinite (publishedAtMs entry)) eqn:Hf; simpl.
  - by rewrite Hf.
  - destruct (truthy (publishedAt entry)); [|done].
    by destruct (Date_parse (publishedAt entry)).
Qed.

Lemma loadEntries_links entries articles :
  entriesOf entries = Some articles →
  link <$> articles =
    filter (λ s, nonEmpty s = true) (link <$> omap id entries).
Proof.
  revert articles. induction entries as [|entry r IH]; intros articles; simpl.
  - by intros [= <-].
  - destruct (entryOf entry) as [loaded|] eqn:He; [|done].
    destruct (entriesOf r) as [rest|]; [|done].
    specialize (IH rest eq_refl). intros [= <-].
    destruct entry as [entry|]; simpl.
    + destruct loaded as [a|].
      * apply loadEntry_kept in He as (Hl & Ha & _).
        rewrite fmap_cons, filter_cons_True by done. by rewrite Ha, IH.
      * rewrite filter_cons_False; [done|].
        unfold loadEntry in He. destruct (nonEmpty (link entry)); [|done].
        simpl in He. by destruct (if isString _ then _ else _).
    + simpl in He. by injection He as <-.
Qed.

(** C8, amended. [loadDailyState] returns on every read: an exception
    in its [try] block leads to the empty state with [exists = false],
    and so do a key that is missing or holds the empty string, a value
    that does not parse and the JSON value [null]. Any other stored value
    without an array under [articles] yields the empty article list with
    [exists = true]. From an array, the records with a non-empty [link]
    are kept in their order and the others dropped; a kept record has
    [sent] turned into a boolean ([false] when absent), [sentAt] kept
    when it is a string and [null] otherwise, and [publishedAtMs] kept
    when finite and otherwise parsed from a truthy [publishedAt], [null]
    when that fails. *)
Theorem loader_never_throws_and_normalizes :
  (∀ read, load_try read = None → load read = (false, [])) ∧
  load KvThrows = (false, []) ∧
  load (KvValue None) = (false, []) ∧
  load (KvValue (Some EmptyString)) = (false, []) ∧
  (∀ raw, JSON_parse raw = None → load (KvValue (Some raw)) = (false, [])) ∧
  (∀ raw, JSON_parse raw = Some DocNull → load (KvValue (Some raw)) = (false, [])) ∧
  (∀ raw, nonEmpty raw = true → JSON_parse raw = Some DocNoArticles →
     load (KvValue (Some raw)) = (true, [])) ∧
  (∀ raw entries, nonEmpty raw = true → JSON_parse raw = Some (DocArticles entries) →
     (entriesOf entries = None → load (KvValue (Some raw)) = (false, [])) ∧
     (∀ articles, entriesOf entries = Some articles →
        load (KvValue (Some raw)) = (true, articles) ∧
        link <$> articles =
          filter (λ s, nonEmpty s = true) (link <$> omap id entries))) ∧
  entryOf None = Some None ∧
  (∀ entry, nonEmpty (link entry) = false → entryOf (Some entry) = Some None) ∧
  (∀ entry a, entryOf (Some entry) = Some (Some a) →
     nonEmpty (link entry) = true ∧ link a = link entry ∧
     sent a = VBool (truthy (sent entry)) ∧
     (sent entry = VUndef → sent a = VBool false) ∧
     sentAt a = (if isString (sentAt entry) then sentAt entry else VNull) ∧
     (sentAt entry = VUndef → sentAt a = VNull) ∧
     publishedAtMs a =
       (if Number_isFinite (publishedAtMs entry) then publishedAtMs entry
        else match (if truthy (publishedAt entry)
                    then Date_parse (publishedAt entry) else None) with
             | Some n => VNum n
             | None => VNull
             end)).
Proof.
  unfold loadDailyState.
  split; [by intros read ->|]. split; [done|]. split; [done|]. split; [done|].
  split; [|split; [|split; [|split; [|split; [done|split]]]]].
  - intros raw Hp. simpl. destruct (nonEmpty raw); simpl; [|done]. by rewrite Hp.
  - intros raw Hp. simpl. destruct (nonEmpty raw); simpl; [|done]. by rewrite Hp.
  - intros raw Hr Hp. simpl. by rewrite Hr, Hp.
  - intros raw entries Hr Hp. simpl. rewrite Hr, Hp. simpl. split.
    + by intros ->.
    + intros articles He. rewrite He. split; [done|].
      by apply loadEntries_links.
  - intros entry Hl. unfold loadEntry. by rewrite Hl.
  - intros entry a He. apply loadEntry_kept in He as (H1 & H2 & H3 & H4 & H5).
    split; [done|]. split; [done|]. split; [done|].
    split; [by intros Hs; rewrite H3, Hs|]. split; [done|].
    split; [by intros Hs; rewrite H4, Hs|]. done.
Qed.
End LoaderFacts.

(** ** Test mode *)

Section NewestLast.
Import NewsMonitor.
Variable Date_getTime : string → option Z.

Local Abbreviation cmpD := (compareDate Date_getTime).
Local Abbreviation validD := (validDate Date_getTime).
Local Abbreviation noLater := (datedNoLater Date_getTime).

Lemma compareDate_total a b : (cmpD a b ≤ 0 ∨ cmpD b a ≤ 0)%Z.
Proof.
  unfold compareDate.
  destruct (Date_getTime (date a)), (Date_getTime (date b)); lia.
Qed.

Lemma sorted_dates_strongly l :
  Forall validD l → Sorted (leBy cmpD) l → StronglySorted noLater l.
Proof.
  intros Hv Hs. induction Hs as [|a l Hl IH Ha]; [constructor|].
  apply Forall_cons in Hv as [[x Hx] Hv].
  specialize (IH Hv). constructor; [done|].
  destruct Ha as [|b l Hab]; [constructor|].
  apply Forall_cons in Hv as [[y Hy] Hv].
  assert (Hxy : (x ≤ y)%Z).
  { unfold leBy, compareDate in Hab. rewrite Hx, Hy in Hab. lia. }
  constructor; [by exists x, y|].
  apply StronglySorted_inv in IH as [_ Hb].
  eapply Forall_impl; [done|]. simpl.
  intros c (y' & z & Hy' & Hz & Hyz). exists x, z.
  rewrite Hy in Hy'. simplify_eq. split; [done|]. split; [done|]. lia.
Qed.

(** The last article of the sorted array is dated no earlier than any
    article of the array. *)
Lemma last_sorted_is_newest l a :
  Forall validD l → last (sortBy cmpD l) = Some a →
  ∀ b, b ∈ l → noLater b a.
Proof.
  intros Hv Hlast b Hb.
  assert (Hp : sortBy cmpD l ≡ₚ l) by apply sortBy_Permutation.
  assert (Hs : StronglySorted noLater (sortBy cmpD l)).
  { apply sorted_dates_strongly; [by rewrite Hp|].
    apply sortBy_Sorted, compareDate_total. }
  apply last_Some in Hlast as [init Hinit]. rewrite Hinit in Hs, Hp.
  rewrite <-Hp in Hb. apply elem_of_app in Hb as [Hb | Hb].
  - eapply StronglySorted_app_1_elem_of; [done | done | left].
  - apply list_elem_of_singleton in Hb as ->.
    rewrite Forall_forall in Hv.
    destruct (Hv a) as [x Hx]; [rewrite <-Hp; apply elem_of_app; right; left|].
    exists x, x. split; [done|]. split; [done|]. lia.
Qed.
End NewestLast.

Section TestMode.
Import NewsMonitor.
Variable Date_parse : Val → option Z.
Variable Date_toISOString : Val → option string.
Variable localeCompare : string → string → Z.
Variable Date_getTime : string → option Z.
Variable sortByDate : list NewsArticle → list NewsArticle.
Variable sink : nat → Article → Outcome.
Variable newsSink : nat → NewsArticle → bool.
Variable clock : nat → string.

(** What the engine's sort does in any case: it permutes the array; and
    what it does with the consistent comparator of parsable dates. *)
Hypothesis sort_permutes : ∀ l, sortByDate l ≡ₚ l.
Hypothesis sort_stable : ∀ l,
  Forall (validDate Date_getTime) l →
  sortByDate l = sortBy (compareDate Date_getTime) l.

Local Abbreviation merge := (mergeArticles Date_parse Date_toISOString localeCompare).
Local Abbreviation cycle :=
  (processSource Date_parse Date_toISOString localeCompare sink clock).
Local Abbreviation monitor := (processFFXIVNews sortByDate newsSink clock).

(** C9, amended. Test mode sets the send limit of [processRSS] to 1: at
    most one article is handed to the sink, and every other article is
    left as reconciliation left it. In test mode the news monitor, when
    something is new, processes one article, the last of the new
    articles as the sort leaves them, which is dated no earlier than any
    new article when all their dates parse, and calls the sink at most
    once. When a snapshot exists the monitor does not write the snapshot
    in test mode; on a first run (no snapshot) it writes the full id
    list even in test mode and calls no sink. *)
Theorem test_mode_limits_delivery :
  sendLimitOf true = 1 ∧
  (∀ exists_ stateArticles sentMap dirty parsedItems merged hasChanges,
     merge stateArticles parsedItems = Some (merged, hasChanges) →
     ∃ r, cycle true exists_ stateArticles sentMap dirty parsedItems = Some r ∧
          length (cr_calls r) ≤ 1 ∧
          ∀ i, i ∉ cr_calls r →
               cr_articles r !! i =
                 (markPreviouslySentArticles merged sentMap).1 !! i) ∧
  (∀ allArticles previousIds sentMap0,
     (monitor true allArticles previousIds sentMap0 = None ↔
      newArticlesOf allArticles previousIds = []) ∧
     ∀ r, monitor true allArticles previousIds sentMap0 = Some r →
     ∃ a, mr_processed r = [a] ∧
          last (sortByDate (newArticlesOf allArticles previousIds)) = Some a ∧
          a ∈ newArticlesOf allArticles previousIds ∧
          (Forall (validDate Date_getTime) (newArticlesOf allArticles previousIds) →
           ∀ b, b ∈ newArticlesOf allArticles previousIds →
                datedNoLater Date_getTime b a) ∧
          length (mr_calls r) ≤ 1 ∧
          (previousIds ≠ [] → mr_snapshotWrite r = None) ∧
          (previousIds = [] →
             mr_snapshotWrite r = Some (id <$> allArticles) ∧ mr_calls r = [])).
Proof.
  split; [done|]. split.
  - intros exists_ stateArticles sentMap dirty parsedItems merged hasChanges Hm.
    destruct (processSource_unfold _ _ _ sink clock true exists_ _ sentMap dirty
                _ _ _ Hm) as (r & Hr & Hcalls & Harts & _).
    exists r. split; [done|].
    set (marked := (markPreviouslySentArticles merged sentMap).1) in *.
    split.
    + destruct (deliverLoop_calls_take sink clock (take 1 (unsentQueue marked))
                  (mkLoopState marked sentMap dirty 0 false [] false)
                  (toSend_bound marked 1)) as [n Hn].
      change (sendLimitOf true) with 1 in Hcalls.
      rewrite Hcalls, Hn. simpl. rewrite !length_take. lia.
    + intros i Hi. rewrite Harts. rewrite Hcalls in Hi.
      by rewrite deliverLoop_untouched.
  - intros allArticles previousIds sentMap0.
    unfold processFFXIVNews. fold (newArticlesOf allArticles previousIds).
    set (new := newArticlesOf allArticles previousIds).
    case_bool_decide as Hlen.
    { split; [|done]. split; [|done]. intros _. by destruct new. }
    split.
    { destruct (foldl _ _ _). split; [done|]. intros Hnew.
      rewrite Hnew in Hlen. done. }
    intros r.
    assert (Hp : sortByDate new ≡ₚ new) by apply sort_permutes.
    assert (Hpos : 0 < length (sortByDate new)).
    { rewrite Hp. lia. }
    rewrite (bool_decide_eq_true_2 _ Hpos). simpl.
    destruct (last (sortByDate new)) as [a|] eqn:Hlast.
    2:{ apply last_None in Hlast. rewrite Hlast in Hpos. simpl in Hpos. lia. }
    assert (Hin : a ∈ new).
    { rewrite <-Hp. apply last_Some in Hlast as [init ->].
      apply elem_of_app. right. left. }
    assert (Hnewest : Forall (validDate Date_getTime) new →
              ∀ b, b ∈ new → datedNoLater Date_getTime b a).
    { intros Hv. rewrite (sort_stable _ Hv) in Hlast.
      by apply (last_sorted_is_newest _ _ _ Hv). }
    simpl. unfold processStep.
    destruct previousIds as [|p ps]; simpl.
    + intros [= <-]. simpl. exists a.
      split; [done|]. split; [done|]. split; [done|]. split; [done|].
      split; [lia|]. done.
    + destruct (newsSink 0 a); intros [= <-]; simpl;
        (exists a; split; [done|]; split; [done|]; split; [done|];
         split; [done|]; split; [lia|]; done).
Qed.
End TestMode.
(** ** Sample runs *)

Lemma codeUnitCompare_le s t : (codeUnitCompare s t ≤ 0)%Z ↔ String.le s t.
Proof.
  unfold codeUnitCompare, String.le, String.leb.
  destruct (String.compare s t); simpl; split; (done || lia).
Qed.

Lemma codeUnitCompare_total s t :
  (codeUnitCompare s t ≤ 0 ∨ codeUnitCompare t s ≤ 0)%Z.
Proof. rewrite !codeUnitCompare_le. apply (total String.le). Qed.

Lemma codeUnitCompare_trans s t u :
  (codeUnitCompare s t ≤ 0 → codeUnitCompare t u ≤ 0 → codeUnitCompare s u ≤ 0)%Z.
Proof. rewrite !codeUnitCompare_le. apply transitivity. Qed.

(** Two candidates, no prior state, limit 5: both are delivered, oldest
    first, and both end sent. *)
Example scenario_two_candidates :
  (λ r, (cr_calls r, cr_dailyWrite r)) <$>
    processRSS sampleParse sampleISO codeUnitCompare acceptEach sampleClock
      false false [] [] [candB; candA]
  = Some ([0; 1], Some [sentA; sentB]).
Proof. vm_compute. reflexivity. Qed.

(** A sent article reported again unchanged: nothing changes, nothing is
    delivered, nothing is written. *)
Example scenario_unchanged_candidate :
  mergeArticles sampleParse sampleISO codeUnitCompare [sentA] [candA]
    = Some ([sentA], false) ∧
  (λ r, (cr_calls r, cr_dailyWrite r, cr_sentWrite r)) <$>
    processRSS sampleParse sampleISO codeUnitCompare acceptEach sampleClock
      false true [sentA] ledgerA [candA]
  = Some ([], None, None).
Proof. split; vm_compute; reflexivity. Qed.

(** Limit 1 and three unsent articles: the oldest is delivered and the
    other two stay unsent. The limit 1 is the one of test mode, so in test
    mode [processRSS] hands the oldest unsent article to the sink. *)
Example scenario_limit_one :
  (λ r, (cr_calls r, cr_articles r)) <$>
    processRSS sampleParse sampleISO codeUnitCompare acceptEach sampleClock
      true true [unsentC; unsentA; unsentB] [] []
  = Some ([0], [sentA; unsentB; unsentC]).
Proof. vm_compute. reflexivity. Qed.

(** A bucket rotation: the article delivered in the first cycle comes back
    as a candidate for an empty bucket, and the second cycle marks it sent
    from the sent map without calling the sink. *)
Example scenario_bucket_rotation :
  (λ r, (cr_calls r, cr_sentWrite r)) <$>
    processRSS sampleParse sampleISO codeUnitCompare acceptEach sampleClock
      false false [] [] [candA]
  = Some ([0], Some ledgerA) ∧
  (λ r, (cr_calls r, cr_dailyWrite r)) <$>
    processRSS sampleParse sampleISO codeUnitCompare acceptEach sampleClock
      false false [] ledgerA [candA]
  = Some ([], Some [sentA]).
Proof. split; vm_compute; reflexivity. Qed.

Lemma ledger_reconciliation_witness :
  [unsentA] !! 0 = Some unsentA ∧
  truthy (sent unsentA) = false ∧
  getArticleIdentity unsentA = Some "https://example.com/a"%string ∧
  map_get (hashIdentifier "https://example.com/a") ledgerA =
    Some (mkSentEntry "2024-01-05T00:00:00.000Z" (Some "https://example.com/a"%string)) ∧
  ∃ a', (markPreviouslySentArticles [unsentA] ledgerA).1 !! 0 = Some a' ∧
        sent a' = VBool true ∧
        sentAt a' = VStr "2024-01-05T00:00:00.000Z".
Proof.
  assert (H1 : [unsentA] !! 0 = Some unsentA) by reflexivity.
  assert (H2 : truthy (sent unsentA) = false) by reflexivity.
  assert (H3 : getArticleIdentity unsentA = Some "https://example.com/a"%string)
    by reflexivity.
  assert (H4 : map_get (hashIdentifier "https://example.com/a") ledgerA =
    Some (mkSentEntry "2024-01-05T00:00:00.000Z" (Some "https://example.com/a"%string)))
    by (vm_compute; reflexivity).
  split; [exact H1|]. split; [exact H2|]. split; [exact H3|]. split; [exact H4|].
  destruct (ledger_reconciliation_marks_without_delivery sampleParse sampleISO
              codeUnitCompare acceptEach sampleClock [unsentA] ledgerA) as (H & _ & _).
  destruct (H 0 unsentA _ _ H1 H2 H3 H4) as (a' & Ha & Hs & _ & Hat & _).
  exists a'. split; [exact Ha|]. split; [exact Hs|].
  apply Hat; reflexivity.
Defined.

Lemma merge_idempotent_witness :
  Forall msOk [sentA] ∧
  Forall wfCandidate [candB; candA] ∧
  distinctLinks [candB; candA] ∧
  mergeArticles sampleParse sampleISO codeUnitCompare [sentA] [candB; candA]
    = Some ([sentA; unsentB], true) ∧
  mergeArticles sampleParse sampleISO codeUnitCompare [sentA; unsentB] [candB; candA]
    = Some ([sentA; unsentB], false).
Proof.
  assert (H1 : Forall msOk [sentA]).
  { repeat constructor. }
  assert (H2 : Forall wfCandidate [candB; candA]).
  { repeat constructor. }
  assert (H3 : distinctLinks [candB; candA]).
  { unfold distinctLinks.
    change (NoDup ["https://example.com/b"; "https://example.com/a"]%string).
    apply NoDup_cons. split; [|apply NoDup_singleton].
    intros Hin%list_elem_of_singleton. discriminate Hin. }
  assert (H4 : mergeArticles sampleParse sampleISO codeUnitCompare [sentA] [candB; candA]
                 = Some ([sentA; unsentB], true)).
  { vm_compute. reflexivity. }
  split; [exact H1|]. split; [exact H2|]. split; [exact H3|]. split; [exact H4|].
  exact (merge_idempotent_for_distinct_links sampleParse sampleISO codeUnitCompare
           codeUnitCompare_total _ _ _ _ H1 H2 H3 H4).
Defined.

(** C2 as stated fails when a link comes twice with two titles: the second
    merge puts the first title back and then the second, and reports
    changes. *)
Lemma merge_twice_repeated_link_changes :
  mergeArticles sampleParse sampleISO codeUnitCompare [] [candA; candA']
    = Some ([tracked "https://example.com/a" "A2" "2024-01-01T00:00:00.000Z"
               1704067200000 (VBool false) VNull], true) ∧
  mergeArticles sampleParse sampleISO codeUnitCompare
    [tracked "https://example.com/a" "A2" "2024-01-01T00:00:00.000Z"
       1704067200000 (VBool false) VNull] [candA; candA']
    = Some ([tracked "https://example.com/a" "A2" "2024-01-01T00:00:00.000Z"
               1704067200000 (VBool false) VNull], true).
Proof. split; vm_compute; reflexivity. Qed.


Lemma sampleLocaleCompare_total s t :
  (sampleLocaleCompare s t ≤ 0 ∨ sampleLocaleCompare t s ≤ 0)%Z.
Proof. apply codeUnitCompare_total. Qed.

Lemma sampleLocaleCompare_trans s t u :
  (sampleLocaleCompare s t ≤ 0 → sampleLocaleCompare t u ≤ 0 →
   sampleLocaleCompare s u ≤ 0)%Z.
Proof. apply codeUnitCompare_trans. Qed.

Lemma sample_links_apart :
  linksSetApart sampleLocaleCompare [unsentZ; unsentB; unsentC].
Proof.
  intros a b Ha Hb H1 H2.
  repeat (apply elem_of_cons in Ha as [-> | Ha]);
    try (by apply elem_of_nil in Ha);
    repeat (apply elem_of_cons in Hb as [-> | Hb]);
    try (by apply elem_of_nil in Hb); try reflexivity;
    exfalso; first [by vm_compute in H1 | by vm_compute in H2].
Qed.

Lemma merged_order_witness :
  mergeArticles sampleParse sampleISO sampleLocaleCompare [unsentC] [candB; candZ]
    = Some ([unsentZ; unsentB; unsentC], true) ∧
  mergeArticles sampleParse sampleISO sampleLocaleCompare [unsentB] [candZ; candC]
    = Some ([unsentZ; unsentB; unsentC], true) ∧
  linksSetApart sampleLocaleCompare [unsentZ; unsentB; unsentC] ∧
  StronglySorted (mayPrecede sampleLocaleCompare) [unsentZ; unsentB; unsentC] ∧
  NoDup (link <$> [unsentZ; unsentB; unsentC]) ∧
  sortBy (compareArticles sampleLocaleCompare) [unsentC; unsentB; unsentZ]
    = [unsentZ; unsentB; unsentC].
Proof.
  assert (H1 : mergeArticles sampleParse sampleISO sampleLocaleCompare
                 [unsentC] [candB; candZ]
               = Some ([unsentZ; unsentB; unsentC], true))
    by (vm_compute; reflexivity).
  assert (H2 : mergeArticles sampleParse sampleISO sampleLocaleCompare
                 [unsentB] [candZ; candC]
               = Some ([unsentZ; unsentB; unsentC], true))
    by (vm_compute; reflexivity).
  pose proof sample_links_apart as H3.
  split; [exact H1|]. split; [exact H2|]. split; [exact H3|].
  destruct (merged_order_is_total_and_deterministic sampleParse sampleISO
              sampleLocaleCompare sampleLocaleCompare_total
              sampleLocaleCompare_trans) as (H & Hsort & _).
  destruct (H _ _ _ _ H1) as (Hs & Hn & _).
  split; [exact Hs|]. split; [exact Hn|].
  assert (Hp : [unsentZ; unsentB; unsentC] ≡ₚ [unsentC; unsentB; unsentZ]).
  { exact (Permutation_rev [unsentZ; unsentB; unsentC]). }
  rewrite <-(Hsort _ _ Hp Hn H3). vm_compute. reflexivity.
Defined.

(** C4 as stated fails on two links that [localeCompare] holds equal:
    the merged articles are the same whichever candidate comes first,
    and the array follows the order of the input. *)
Lemma merged_order_follows_input_order :
  link unsentA ≠ link unsentAshy ∧
  sampleLocaleCompare (link unsentA) (link unsentAshy) = 0%Z ∧
  mergeArticles sampleParse sampleISO sampleLocaleCompare [] [candA; candAshy]
    = Some ([unsentA; unsentAshy], true) ∧
  mergeArticles sampleParse sampleISO sampleLocaleCompare [] [candAshy; candA]
    = Some ([unsentAshy; unsentA], true) ∧
  [unsentA; unsentAshy] ≡ₚ [unsentAshy; unsentA] ∧
  [unsentA; unsentAshy] ≠ [unsentAshy; unsentA].
Proof.
  split; [discriminate|]. split; [vm_compute; reflexivity|].
  split; [vm_compute; reflexivity|]. split; [vm_compute; reflexivity|].
  split; [apply Permutation_swap | discriminate].
Qed.





Lemma repeatChar_length n c : String.length (repeatChar n c) = n.
Proof. induction n as [|n IH]; simpl; [done | by rewrite IH]. Qed.

Lemma ledgerOf_keys n : NoDup (ledgerOf n).*1.
Proof.
  unfold ledgerOf. rewrite <-list_fmap_compose.
  apply NoDup_fmap_2_strong; [|apply NoDup_seq].
  intros i j _ _ Heq. simpl in Heq.
  apply (f_equal String.length) in Heq. simpl in Heq.
  rewrite !repeatChar_length in Heq. lia.
Qed.

Lemma ledgerOf_valid n : Forall (validEntry sampleParse) (ledgerOf n).
Proof.
  unfold ledgerOf. apply Forall_fmap, Forall_forall. intros i _.
  by exists 1704240000000%Z.
Qed.

Lemma ledgerOf_size n : map_size (ledgerOf n) = n.
Proof. unfold ledgerOf, map_size. by rewrite length_fmap, length_seq. Qed.

Lemma ledger_pruning_witness :
  NoDup (ledgerOf 550).*1 ∧
  Forall (validEntry sampleParse) (ledgerOf 550) ∧
  map_size (ledgerOf 550) = MAX_SENT_MAP_SIZE + 50 ∧
  map_size (pruneSentMap sampleParse (ledgerOf 550)).1 = MAX_SENT_MAP_SIZE.
Proof.
  pose proof (ledgerOf_keys 550) as H1.
  pose proof (ledgerOf_valid 550) as H2.
  pose proof (ledgerOf_size 550) as H3.
  split; [exact H1|]. split; [exact H2|]. split; [exact H3|].
  destruct (ledger_pruning_by_capacity_or_age sampleParse (ledgerOf 550) H1)
    as (_ & _ & H & _).
  exact (H H2 H3).
Defined.

(** C6 as stated fails in three ways. The FFXIV RSS worker drops an entry
    with an unparsable [sentAt] from a map far under the cap; the
    multi-source worker drops an entry older than two days from a map
    under the cap, and leaves 501 recent entries all in place. *)
Lemma pruning_is_not_by_capacity_alone :
  pruneSentMap sampleParse garbledLedger = ([], true) ∧
  pruneSentMap_multi sampleParse 1704412800000 staleLedger = ([], true) ∧
  map_size (pruneSentMap_multi sampleParse 1704412800000 (ledgerOf 501)).1 = 501.
Proof. split; [|split]; vm_compute; reflexivity. Qed.

Lemma loader_witness :
  nonEmpty "[]" = true ∧
  sampleJSON "[]" = Some DocNoArticles ∧
  loadDailyState sampleParse sampleISO sampleJSON (KvValue (Some "[]"%string))
    = (true, []) ∧
  loadDailyState sampleParse sampleISO sampleJSON (KvValue (Some "oops"%string))
    = (false, []).
Proof.
  assert (H1 : nonEmpty "[]" = true) by reflexivity.
  assert (H2 : sampleJSON "[]" = Some DocNoArticles) by reflexivity.
  assert (H3 : sampleJSON "oops" = None) by reflexivity.
  split; [exact H1|]. split; [exact H2|].
  destruct (loader_never_throws_and_normalizes sampleParse sampleISO sampleJSON)
    as (_ & _ & _ & _ & Hbad & _ & Hshape & _).
  split; [exact (Hshape _ H1 H2) | exact (Hbad _ H3)].
Defined.

(** C8 as stated fails on a stored value that parses but has no article
    array: the loader answers [exists = true]. *)
Lemma loader_wrong_shape_exists :
  loadDailyState sampleParse sampleISO sampleJSON (KvValue (Some "{}"%string))
    = (true, []).
Proof. reflexivity. Qed.

Lemma sampleSort_permutes l : sampleSortByDate l ≡ₚ l.
Proof. apply sortBy_Permutation. Qed.

Lemma sampleSort_stable l :
  Forall (validDate sampleGetTime) l →
  sampleSortByDate l = sortBy (NewsMonitor.compareDate sampleGetTime) l.
Proof. done. Qed.

Lemma test_mode_witness :
  (∀ l, sampleSortByDate l ≡ₚ l) ∧
  (∀ l, Forall (validDate sampleGetTime) l →
        sampleSortByDate l = sortBy (NewsMonitor.compareDate sampleGetTime) l) ∧
  Forall (validDate sampleGetTime) (newArticlesOf [news2; news1] ["100"%string]) ∧
  ∃ r, NewsMonitor.processFFXIVNews sampleSortByDate acceptAll sampleClock true
         [news2; news1] ["100"%string] [] = Some r ∧
       NewsMonitor.mr_processed r = [news2] ∧
       datedNoLater sampleGetTime news1 news2 ∧
       length (NewsMonitor.mr_calls r) ≤ 1 ∧
       NewsMonitor.mr_snapshotWrite r = None.
Proof.
  assert (H1 : ∀ l, sampleSortByDate l ≡ₚ l) by exact sampleSort_permutes.
  assert (H2 : ∀ l, Forall (validDate sampleGetTime) l →
                    sampleSortByDate l
                    = sortBy (NewsMonitor.compareDate sampleGetTime) l)
    by exact sampleSort_stable.
  assert (H3 : Forall (validDate sampleGetTime)
                 (newArticlesOf [news2; news1] ["100"%string])).
  { repeat constructor; by eexists. }
  split; [exact H1|]. split; [exact H2|]. split; [exact H3|].
  destruct (NewsMonitor.processFFXIVNews sampleSortByDate acceptAll sampleClock true
              [news2; news1] ["100"%string] []) as [r|] eqn:E;
    [|vm_compute in E; discriminate E].
  exists r. split; [reflexivity|].
  destruct (test_mode_limits_delivery sampleParse sampleISO codeUnitCompare
              sampleGetTime sampleSortByDate acceptEach acceptAll sampleClock H1 H2)
    as (_ & _ & H).
  destruct (H [news2; news1] ["100"%string] []) as [_ Hrun].
  destruct (Hrun r E) as (a & Hp & Hlast & _ & Hnewest & Hcalls & Hsnap & _).
  assert (Ha : a = news2).
  { vm_compute in Hlast. by injection Hlast as <-. }
  subst a. split; [exact Hp|].
  split; [apply (Hnewest H3); right; left|].
  split; [exact Hcalls|].
  apply Hsnap. discriminate.
Defined.

(** C9 as stated fails on a first run: in test mode the monitor still
    writes the snapshot of every current id, so the articles it did not
    process are never new again. *)
Lemma test_mode_first_run_writes_snapshot :
  (λ r, (NewsMonitor.mr_calls r, NewsMonitor.mr_snapshotWrite r)) <$>
    NewsMonitor.processFFXIVNews sampleSortByDate acceptAll sampleClock true
      [news2; news1] [] []
  = Some ([], Some ["102"; "101"]%string).
Proof. vm_compute. reflexivity. Qed.

(** * More properties *)


(** ** The hash key *)

Lemma hashLoop_range value hash :
  (0 ≤ hash < 2 ^ 32)%Z → (0 ≤ hashLoop value hash < 2 ^ 32)%Z.
Proof.
  revert hash. induction value as [|c r IH]; intros hash Hh; simpl; [done|].
  apply IH. unfold ushr0, to_uint32. apply Z.mod_pos_bound. lia.
Qed.

Lemma hexDigit_ok d :
  (0 ≤ d < 16)%Z →
  lowerHexDigit (hexDigit d) = true ∧ hexDigitValue (hexDigit d) = d.
Proof.
  intros Hd.
  assert (Hcases : d ∈ [0;1;2;3;4;5;6;7;8;9;10;11;12;13;14;15]%Z).
  { repeat (rewrite elem_of_cons). lia. }
  repeat (apply elem_of_cons in Hcases as [-> | Hcases]; [by vm_compute|]).
  by apply elem_of_nil in Hcases.
Qed.

Lemma append_cons c r t : String.append (String c r) t = String c (String.append r t).
Proof. reflexivity. Qed.

Lemma append_nil_r t : String.append t EmptyString = t.
Proof. induction t as [|c r IH]; [done | by rewrite append_cons, IH]. Qed.

Lemma append_snoc s d acc :
  String.append s (String d acc)
  = String.append (String.append s (String d EmptyString)) acc.
Proof. induction s as [|c r IH]; [done | by rewrite !append_cons, IH]. Qed.

Lemma string_length_append s t :
  String.length (String.append s t) = String.length s + String.length t.
Proof. induction s as [|c r IH]; [done | rewrite append_cons; simpl; by rewrite IH]. Qed.

Lemma allChars_append p s t :
  allChars p (String.append s t) = allChars p s && allChars p t.
Proof.
  induction s as [|c r IH]; [done|]. rewrite append_cons. simpl. rewrite IH.
  by rewrite andb_assoc.
Qed.

Lemma fromHex_append s t acc :
  fromHex (String.append s t) acc = fromHex t (fromHex s acc).
Proof.
  revert acc. induction s as [|c r IH]; intros acc; [done|].
  rewrite append_cons. simpl. apply IH.
Qed.

(** [toString16_aux] writes between one and [fuel] digits of [n] in front
    of [acc]. *)
Lemma toString16_aux_digits fuel n acc :
  (1 ≤ fuel)%nat → (0 ≤ n < 16 ^ Z.of_nat fuel)%Z →
  ∃ digits, toString16_aux fuel n acc = String.append digits acc ∧
            (1 ≤ String.length digits ≤ fuel)%nat ∧
            allChars lowerHexDigit digits = true ∧
            ∀ v, fromHex digits v = (v * 16 ^ Z.of_nat (String.length digits) + n)%Z.
Proof.
  revert n acc. induction fuel as [|fuel IH]; intros n acc Hf Hn; [lia|].
  simpl toString16_aux.
  assert (Hd : (0 ≤ n mod 16 < 16)%Z) by (apply Z.mod_pos_bound; lia).
  destruct (hexDigit_ok _ Hd) as [Hhex Hval].
  destruct (n / 16 =? 0)%Z eqn:Hq.
  - apply Z.eqb_eq in Hq. exists (String (hexDigit (n mod 16)) EmptyString).
    split; [done|]. split; [simpl; lia|]. split; [simpl; by rewrite Hhex|].
    intros v. simpl. rewrite Hval.
    pose proof (Z.div_mod n 16). lia.
  - apply Z.eqb_neq in Hq.
    assert (Hn' : (0 ≤ n / 16 < 16 ^ Z.of_nat fuel)%Z).
    { split; [apply Z.div_pos; lia|].
      apply Z.div_lt_upper_bound; [lia|].
      replace (Z.of_nat (S fuel)) with (Z.of_nat fuel + 1)%Z in Hn by lia.
      rewrite Z.pow_add_r in Hn by lia. lia. }
    assert (Hfuel : (1 ≤ fuel)%nat).
    { destruct fuel; [|lia]. simpl in Hn'. lia. }
    destruct (IH (n / 16)%Z (String (hexDigit (n mod 16)) acc) Hfuel Hn')
      as (digits & Heq & Hlen & Hall & Hv).
    exists (String.append digits (String (hexDigit (n mod 16)) EmptyString)).
    split; [|split; [|split]].
    + rewrite Heq. apply append_snoc.
    + rewrite string_length_append. simpl. lia.
    + rewrite allChars_append, Hall. simpl. by rewrite Hhex.
    + intros v. rewrite fromHex_append, Hv. simpl. rewrite Hval.
      rewrite string_length_append. simpl.
      replace (Z.of_nat (String.length digits + 1))
        with (Z.of_nat (String.length digits) + 1)%Z by lia.
      rewrite Z.pow_add_r by lia.
      pose proof (Z.div_mod n 16). lia.
Qed.

Lemma fromHex_zeros n s :
  fromHex (String.append (repeatChar n "0") s) 0 = fromHex s 0.
Proof. induction n as [|n IH]; [done | simpl repeatChar; rewrite append_cons; apply IH]. Qed.

Lemma allChars_repeat (p : ascii → bool) n c :
  p c = true → allChars p (repeatChar n c) = true.
Proof. intros Hc. induction n as [|n IH]; simpl; [done | by rewrite Hc, IH]. Qed.

(** X1. For every input, [hashIdentifier] returns exactly eight lower-case
    hexadecimal digits, and they denote the 32-bit hash the loop computed:
    two identities get the same key exactly when their hashes agree. *)
Theorem hashIdentifier_is_eight_hex_digits (input : string) :
  String.length (hashIdentifier input) = 8 ∧
  allChars lowerHexDigit (hashIdentifier input) = true ∧
  fromHex (hashIdentifier input) 0 = hashLoop input 2166136261 ∧
  (0 ≤ hashLoop input 2166136261 < 2 ^ 32)%Z ∧
  ∀ other, hashIdentifier input = hashIdentifier other ↔
           hashLoop input 2166136261 = hashLoop other 2166136261.
Proof.
  assert (Hall : ∀ s, String.length (hashIdentifier s) = 8 ∧
    allChars lowerHexDigit (hashIdentifier s) = true ∧
    fromHex (hashIdentifier s) 0 = hashLoop s 2166136261 ∧
    (0 ≤ hashLoop s 2166136261 < 2 ^ 32)%Z).
  { intros s.
    assert (Hr : (0 ≤ hashLoop s 2166136261 < 2 ^ 32)%Z)
      by (apply hashLoop_range; lia).
    unfold hashIdentifier, toString16, padStart.
    destruct (toString16_aux_digits 8 (hashLoop s 2166136261) EmptyString)
      as (digits & Heq & Hlen & Hhex & Hv); [lia | simpl; lia |].
    rewrite Heq.
    rewrite append_nil_r. split; [|split; [|split; [|done]]].
    - rewrite string_length_append, repeatChar_length. lia.
    - rewrite allChars_append, Hhex, allChars_repeat; done.
    - rewrite fromHex_zeros, Hv. lia. }
  destruct (Hall input) as (H1 & H2 & H3 & H4).
  split; [done|]. split; [done|]. split; [done|]. split; [done|].
  intros other. destruct (Hall other) as (_ & _ & H3' & _). split.
  - intros Heq. rewrite <-H3, <-H3'. by rewrite Heq.
  - intros Heq. unfold hashIdentifier. by rewrite Heq.
Qed.

(** ** Identities *)

Lemma trimEnd_idempotent s : trimEnd (trimEnd s) = trimEnd s.
Proof.
  induction s as [|c r IH]; [done|]. simpl.
  destruct (isWhiteSpace c && negb (nonEmpty (trimEnd r))) eqn:E; [done|].
  simpl. by rewrite IH, E.
Qed.

Lemma trimStart_head s :
  trimStart s = EmptyString ∨
  ∃ c r, trimStart s = String c r ∧ isWhiteSpace c = false.
Proof.
  induction s as [|c r IH]; [by left|]. simpl.
  destruct (isWhiteSpace c) eqn:E; [done|]. right. by exists c, r.
Qed.

Lemma trimStart_trimEnd c r :
  isWhiteSpace c = false → trimStart (trimEnd (String c r)) = trimEnd (String c r).
Proof. intros E. simpl. rewrite E. simpl. by rewrite E. Qed.

Lemma trim_idempotent s : trim (trim s) = trim s.
Proof.
  unfold trim. destruct (trimStart_head s) as [-> | (c & r & -> & Hc)]; [done|].
  by rewrite trimStart_trimEnd, trimEnd_idempotent.
Qed.

Lemma identityOf_Some v i :
  identityOf v = Some i ↔ ∃ s, v = VStr s ∧ nonEmpty (trim s) = true ∧ i = trim s.
Proof.
  split.
  - destruct v as [| | | | |s]; try done. simpl.
    destruct (nonEmpty s) eqn:Hs; simpl; [|done].
    destruct (nonEmpty (trim s)) eqn:Ht; [|done].
    intros [= <-]. by exists s.
  - intros (s & -> & Ht & ->). simpl. rewrite Ht.
    destruct s; [done|]. done.
Qed.

Lemma identityOf_trim s : identityOf (VStr (trim s)) = identityOf (VStr s).
Proof.
  simpl. rewrite trim_idempotent.
  destruct s as [|c r]; [done|]. simpl nonEmpty at 3.
  by destruct (nonEmpty (trim (String c r))).
Qed.

(** X2. The identity [getArticleIdentity] returns is never blank and
    carries no white space at either end; it is the trimmed [guid] when
    that is a non-blank string and the trimmed [link] otherwise; and white
    space around the [guid] or the [link] does not change it, so it does
    not change the key under which the article is remembered. *)
Theorem identity_is_trimmed_guid_or_link (g l : Val) (i : string) :
  getIdentity g l = Some i →
  nonEmpty i = true ∧ trim i = i ∧
  (∀ s, g = VStr s → nonEmpty (trim s) = true → i = trim s) ∧
  (identityOf g = None → ∃ s, l = VStr s ∧ i = trim s) ∧
  (∀ s, g = VStr s → getIdentity (VStr (trim s)) l = Some i) ∧
  (∀ s, l = VStr s → getIdentity g (VStr (trim s)) = Some i).
Proof.
  unfold getIdentity. intros Hi.
  assert (Hsrc : ∃ s, nonEmpty (trim s) = true ∧ i = trim s).
  { destruct (identityOf g) as [i'|] eqn:Hg.
    - apply identityOf_Some in Hg as (s & _ & ? & ?). exists s. by simplify_eq.
    - apply identityOf_Some in Hi as (s & _ & ? & ?). by exists s. }
  destruct Hsrc as (s0 & Hne & ->).
  split; [done|]. split; [apply trim_idempotent|].
  split; [|split; [|split]].
  - intros s -> Hs.
    assert (Hg : identityOf (VStr s) = Some (trim s))
      by (apply identityOf_Some; by exists s).
    rewrite Hg in Hi. by simplify_eq.
  - intros Hg. rewrite Hg in Hi.
    apply identityOf_Some in Hi as (s & -> & _ & ?). by exists s.
  - intros s ->. by rewrite identityOf_trim.
  - intros s ->. by rewrite identityOf_trim.
Qed.

Lemma identity_is_trimmed_witness :
  getIdentity (VStr "  tag:1 ") (VStr "https://a/1") = Some "tag:1" ∧
  nonEmpty "tag:1" = true ∧ trim "tag:1" = "tag:1".
Proof.
  assert (H : getIdentity (VStr "  tag:1 ") (VStr "https://a/1") = Some "tag:1")
    by reflexivity.
  split; [exact H|].
  destruct (identity_is_trimmed_guid_or_link _ _ _ H) as (H1 & H2 & _).
  split; [exact H1 | exact H2].
Defined.

(** ** One record of the sent map *)

Lemma map_set_length {V} (m : list (string * V)) k v :
  length m ≤ length (map_set k v m) ≤ S (length m).
Proof.
  induction m as [|[k' v'] r IH]; simpl; [lia|].
  destruct (bool_decide (k' = k)); simpl; lia.
Qed.

Lemma map_set_same {V} (m : list (string * V)) k v :
  map_get k m = Some v → map_set k v m = m.
Proof.
  induction m as [|[k' v'] r IH]; simpl; [done|].
  destruct (bool_decide (k' = k)) eqn:E.
  - by intros [= ->].
  - intros H. by rewrite IH.
Qed.

Lemma setSentEntry_cases now (sentMap : SentMap) article identity :
  getArticleIdentity article = Some identity →
  let hash := hashIdentifier identity in
  let stamp := match sentAt article with VStr s => s | _ => now end in
  (entry_sentAt <$> map_get hash sentMap = Some stamp ∧
   setSentEntry now sentMap article = (sentMap, false)) ∨
  (entry_sentAt <$> map_get hash sentMap ≠ Some stamp ∧
   setSentEntry now sentMap article
   = (map_set hash (mkSentEntry stamp (Some identity)) sentMap, true)).
Proof.
  intros Hid hash stamp. unfold setSentEntry. rewrite Hid. fold hash stamp.
  destruct (map_get hash sentMap) as [prev|]; simpl; [|by right].
  destruct (bool_decide (entry_sentAt prev = stamp)) eqn:E.
  - apply bool_decide_eq_true_1 in E. left. by rewrite E.
  - apply bool_decide_eq_false_1 in E. right. split; [|done]. by intros [= ?].
Qed.

(** X3. [setSentEntry] on an article with an identity touches one key of
    the sent map, the hash of the identity: afterwards that key holds the
    article's [sentAt] (the clock reading when it is not a string), every
    other key answers as before, keys stay distinct and at most one is
    added; the returned flag is [true] exactly when the map is not the
    one passed in; and recording an article with a string [sentAt] a
    second time changes nothing and returns [false], at any clock
    reading. *)
Theorem setSentEntry_touches_one_key
    (now : string) (sentMap : SentMap) (article : Article) (identity : string) :
  getArticleIdentity article = Some identity →
  NoDup sentMap.*1 →
  let hash := hashIdentifier identity in
  let stamp := match sentAt article with VStr s => s | _ => now end in
  let sentMap' := (setSentEntry now sentMap article).1 in
  let changed := (setSentEntry now sentMap article).2 in
  entry_sentAt <$> map_get hash sentMap' = Some stamp ∧
  (∀ k, k ≠ hash → map_get k sentMap' = map_get k sentMap) ∧
  NoDup sentMap'.*1 ∧
  map_size sentMap ≤ map_size sentMap' ≤ S (map_size sentMap) ∧
  (changed = true ↔ sentMap' ≠ sentMap) ∧
  (changed = true → map_get hash sentMap' = Some (mkSentEntry stamp (Some identity))) ∧
  (∀ later, isString (sentAt article) = true →
     setSentEntry later sentMap' article = (sentMap', false)).
Proof.
  intros Hid Hnd hash stamp sentMap' changed.
  assert (Hagain : ∀ later m, isString (sentAt article) = true →
            entry_sentAt <$> map_get hash m = Some stamp →
            setSentEntry later m article = (m, false)).
  { intros later m Hstr Hm.
    destruct (setSentEntry_cases later m article identity Hid) as [[_ H] | [H _]];
      [done|].
    exfalso. apply H. fold hash. rewrite Hm. subst stamp.
    by destruct (sentAt article). }
  subst sentMap' changed.
  destruct (setSentEntry_cases now sentMap article identity Hid)
    as [[Hold ->] | [Hold ->]]; fold hash stamp in Hold |- *; simpl.
  - split; [done|]. split; [done|]. split; [done|]. split; [lia|].
    split; [split; [done | by intros H]|]. split; [done|].
    intros later Hstr. by apply Hagain.
  - split; [by rewrite map_get_set_eq|].
    split; [intros k Hk; by apply map_get_set_ne|].
    split; [by apply map_set_NoDup|].
    split; [apply map_set_length|].
    split; [|split; [by rewrite map_get_set_eq|]].
    + split; [|done]. intros _ Heq. apply Hold.
      rewrite <-Heq at 1. by rewrite map_get_set_eq.
    + intros later Hstr. apply Hagain; [done|]. by rewrite map_get_set_eq.
Qed.


Lemma setSentEntry_touches_one_key_witness :
  getArticleIdentity sentB = Some "https://example.com/b" ∧
  NoDup ledgerA.*1 ∧
  ∀ later,
    setSentEntry later (setSentEntry "2024-01-06T00:00:00.000Z" ledgerA sentB).1 sentB
    = ((setSentEntry "2024-01-06T00:00:00.000Z" ledgerA sentB).1, false).
Proof.
  assert (H1 : getArticleIdentity sentB = Some "https://example.com/b")
    by reflexivity.
  assert (H2 : NoDup ledgerA.*1).
  { change (NoDup [hashIdentifier "https://example.com/a"]). apply NoDup_singleton. }
  split; [exact H1|]. split; [exact H2|]. intros later.
  apply (setSentEntry_touches_one_key "2024-01-06T00:00:00.000Z" ledgerA sentB
           "https://example.com/b" H1 H2).
  reflexivity.
Defined.

(** ** Loading and saving the sent map *)

Lemma foldl_map_set_fresh {A V} (f : A → string * V) (acc : list (string * V))
    (l : list A) :
  NoDup (acc.*1 ++ (f <$> l).*1) →
  foldl (λ o he, map_set (f he).1 (f he).2 o) acc l = acc ++ (f <$> l).
Proof.
  revert acc. induction l as [|he l IH]; intros acc Hnd; simpl.
  - by rewrite app_nil_r.
  - rewrite fmap_cons in Hnd. simpl in Hnd.
    assert (Hfresh : (f he).1 ∉ acc.*1).
    { apply NoDup_app in Hnd as (_ & Hd & _). intros Hin.
      apply (Hd _ Hin). left. }
    rewrite map_set_absent by done.
    rewrite IH.
    + rewrite <-app_assoc. simpl. by destruct (f he).
    + rewrite fmap_app, <-app_assoc. simpl. done.
Qed.

Lemma loadSentStep_kept m he :
  loadSentStep m he =
    match keptRecord he.2 with Some e => map_set he.1 e m | None => m end.
Proof.
  unfold loadSentStep, keptRecord. destruct he.2 as [r|]; [|done].
  destruct (raw_sentAt r); try done. by destruct (nonEmpty s).
Qed.

Lemma keptRecord_wellFormed entry e :
  keptRecord entry = Some e ↔ ∃ r, entry = Some r ∧ wellFormedRecord r e.
Proof.
  unfold keptRecord, wellFormedRecord. split.
  - destruct entry as [r|]; [|done].
    destruct (raw_sentAt r) as [| | | | |s] eqn:Hs; try done.
    destruct (nonEmpty s) eqn:Hne; [|done].
    intros [= <-]. exists r. by rewrite Hs.
  - intros (r & -> & Hs & Hne & Hid). rewrite Hs, Hne.
    destruct e as [s i]. simpl in *. by rewrite Hid.
Qed.

Lemma keptEntry_Some hash r e :
  wellFormedRecord r e → keptEntry (hash, Some r) = Some (hash, e).
Proof.
  intros Hwf. unfold keptEntry. change ((hash, Some r).2) with (Some r).
  assert (Hr : keptRecord (Some r) = Some e)
    by (apply keptRecord_wellFormed; by exists r).
  by rewrite Hr.
Qed.

Lemma loadSentStep_NoDup entries (m : SentMap) :
  NoDup m.*1 → NoDup (foldl loadSentStep m entries).*1.
Proof.
  revert m. induction entries as [|he l IH]; intros m Hnd; simpl; [done|].
  apply IH. rewrite loadSentStep_kept.
  destruct (keptRecord he.2); [by apply map_set_NoDup | done].
Qed.

Lemma loadSentStep_Forall (P : string * SentEntry → Prop) entries (m : SentMap) :
  (∀ he e, he ∈ entries → keptRecord he.2 = Some e → P (he.1, e)) →
  Forall P m → Forall P (foldl loadSentStep m entries).
Proof.
  revert m. induction entries as [|he l IH]; intros m Hkept Hm; simpl; [done|].
  apply IH.
  - intros he' e Hin. apply Hkept. by right.
  - rewrite loadSentStep_kept. destruct (keptRecord he.2) as [e|] eqn:E; [|done].
    apply map_set_Forall; [done|]. apply Hkept; [left | done].
Qed.

Lemma loadSentStep_fresh entries (m : SentMap) :
  NoDup (m.*1 ++ entries.*1) →
  foldl loadSentStep m entries = m ++ omap keptEntry entries.
Proof.
  revert m. induction entries as [|he l IH]; intros m Hnd; simpl.
  - by rewrite app_nil_r.
  - rewrite fmap_cons in Hnd.
    assert (Hfresh : he.1 ∉ m.*1).
    { apply NoDup_app in Hnd as (_ & Hd & _). intros Hin. apply (Hd _ Hin). left. }
    rewrite loadSentStep_kept. unfold keptEntry at 1.
    destruct (keptRecord he.2) as [e|] eqn:E; simpl.
    + rewrite map_set_absent by done. rewrite IH.
      * by rewrite <-app_assoc.
      * rewrite fmap_app, <-app_assoc. done.
    + apply IH. apply NoDup_app in Hnd as (H1 & H2 & H3).
      apply NoDup_cons in H3 as [H3 H4].
      apply NoDup_app. split; [done|]. split; [|done].
      intros x Hx Hx'. apply (H2 x Hx). by right.
Qed.

Lemma omap_keptEntry_keys entries :
  (omap keptEntry entries).*1 `sublist_of` entries.*1.
Proof.
  induction entries as [|he l IH]; simpl; [done|].
  unfold keptEntry at 1. destruct (keptRecord he.2); simpl.
  - by apply sublist_skip.
  - by apply sublist_cons.
Qed.

Section LoadSentFacts.
Variable JSON_parse_sent : string → option SentDoc.

Local Abbreviation load := (loadSentMap JSON_parse_sent).

Lemma loadSentMap_cases read :
  load read = [] ∨
  ∃ raw entries, read = KvValue (Some raw) ∧ nonEmpty raw = true ∧
    JSON_parse_sent raw = Some (SentObject entries) ∧
    load read = foldl loadSentStep [] entries.
Proof.
  unfold loadSentMap. destruct read as [|[raw|]]; [by left | | by left].
  destruct (nonEmpty raw) eqn:Hne; simpl; [|by left].
  destruct (JSON_parse_sent raw) as [[|entries]|] eqn:Hp; [by left | | by left].
  right. by exists raw, entries.
Qed.

(** X4. [loadSentMap] returns a map for every read: the empty one when the
    key is missing or empty, the read throws, the text does not parse or
    does not hold an object. Its keys are distinct and every record has a
    non-empty [sentAt]; each record comes from a listed property whose
    value is an object with that string as [sentAt], with its [identity]
    when that is a string and none otherwise; and when the listed keys are
    distinct, as those of an object are, the map holds exactly the
    well-formed properties, in the order listed. *)
Theorem loadSentMap_keeps_wellformed_records (read : KvRead) :
  let sentMap := load read in
  NoDup sentMap.*1 ∧
  Forall hasSentAt sentMap ∧
  (sentMap ≠ [] →
     ∃ raw entries, read = KvValue (Some raw) ∧ nonEmpty raw = true ∧
                    JSON_parse_sent raw = Some (SentObject entries)) ∧
  (∀ raw entries,
     read = KvValue (Some raw) → nonEmpty raw = true →
     JSON_parse_sent raw = Some (SentObject entries) →
     (∀ hash e, map_get hash sentMap = Some e →
        ∃ r, (hash, Some r) ∈ entries ∧ wellFormedRecord r e) ∧
     (NoDup entries.*1 →
        sentMap.*1 `sublist_of` entries.*1 ∧
        ∀ hash r e, (hash, Some r) ∈ entries → wellFormedRecord r e →
                    map_get hash sentMap = Some e)).
Proof.
  intros sentMap. subst sentMap.
  destruct (loadSentMap_cases read) as [Hempty | (raw & entries & -> & Hne & Hp & Hl)].
  - rewrite Hempty. split; [constructor|]. split; [constructor|].
    split; [done|]. intros raw entries -> Hne Hp. split; [done|].
    intros Hnd. unfold loadSentMap in Hempty. rewrite Hne, Hp in Hempty.
    simpl in Hempty. rewrite loadSentStep_fresh in Hempty by done.
    simpl in Hempty. split; [apply sublist_nil_l|].
    intros hash r e Hin Hwf. exfalso.
    assert (Hk : (hash, e) ∈ omap keptEntry entries).
    { apply list_elem_of_omap. exists (hash, Some r). split; [done|].
      by apply keptEntry_Some. }
    rewrite Hempty in Hk. by apply elem_of_nil in Hk.
  - rewrite Hl.
    split; [apply loadSentStep_NoDup; constructor|].
    split.
    { apply loadSentStep_Forall; [|constructor].
      intros he e _ Hk. apply keptRecord_wellFormed in Hk as (r & _ & _ & H & _).
      done. }
    split; [intros _; by exists raw, entries|].
    intros raw' entries' [= <-] _ Hp'.
    assert (entries' = entries) as -> by congruence.
    split.
    + intros hash e Hget. apply map_get_Some_elem in Hget.
      assert (Hall : Forall (λ x, ∃ r, (x.1, Some r) ∈ entries ∧
                                   wellFormedRecord r x.2)
                       (foldl loadSentStep [] entries)).
      { apply loadSentStep_Forall; [|constructor].
        intros [k v] e' Hin Hk. simpl in *.
        apply keptRecord_wellFormed in Hk as (r & -> & Hwf). by exists r. }
      rewrite Forall_forall in Hall. apply (Hall _ Hget).
    + intros Hnd. rewrite loadSentStep_fresh by done. simpl.
      split; [apply omap_keptEntry_keys|].
      intros hash r e Hin Hwf. apply map_get_elem.
      * eapply sublist_NoDup; [exact Hnd | apply omap_keptEntry_keys].
      * apply list_elem_of_omap. exists (hash, Some r). split; [done|].
        by apply keptEntry_Some.
Qed.
End LoadSentFacts.

Lemma Object_entries_Permutation {V} (o : list (string * V)) : Object_entries o ≡ₚ o.
Proof.
  unfold Object_entries. rewrite sortBy_Permutation. apply filter_app_complement.
Qed.

Lemma Object_entries_plain {V} (o : list (string * V)) :
  Forall (λ kv, arrayIndex kv.1 = None) o → Object_entries o = o.
Proof.
  intros Hall. unfold Object_entries.
  assert (H1 : filter (λ kv : string * V, is_Some (arrayIndex kv.1)) o = []).
  { induction Hall as [|x l Hx _ IH]; [done|].
    rewrite filter_cons_False; [done|]. rewrite Hx. by intros [? ?]. }
  rewrite H1. simpl. apply filter_all.
  eapply Forall_impl; [done|]. simpl. intros x Hx. rewrite Hx. by intros [? ?].
Qed.

Lemma saveSentMap_object_id (sentMap : SentMap) :
  NoDup sentMap.*1 → saveSentMap_object sentMap = sentMap.
Proof.
  intros Hnd. unfold saveSentMap_object.
  rewrite (foldl_map_set_fresh (λ he, he) [] sentMap).
  - simpl. apply list_fmap_id.
  - simpl. by rewrite list_fmap_id.
Qed.

Lemma rawOfPair_keys (l : SentMap) : (rawOfPair <$> l).*1 = l.*1.
Proof. rewrite <-list_fmap_compose. by apply list_fmap_ext. Qed.

Lemma savedEntries_eq (sentMap : SentMap) :
  NoDup sentMap.*1 →
  savedEntries sentMap = Object_entries (rawOfPair <$> Object_entries sentMap).
Proof.
  intros Hnd. unfold savedEntries. rewrite saveSentMap_object_id by done.
  cbv zeta. f_equal.
  apply (foldl_map_set_fresh rawOfPair [] (Object_entries sentMap)).
  simpl. by rewrite rawOfPair_keys, Object_entries_Permutation.
Qed.

Lemma keptEntry_rawOfPair (l : SentMap) :
  omap keptEntry (rawOfPair <$> l) = filter hasSentAt l.
Proof.
  induction l as [|[k [s i]] l IH]; [done|].
  rewrite fmap_cons.
  change (omap keptEntry (rawOfPair (k, mkSentEntry s i) :: (rawOfPair <$> l)))
    with (match keptEntry (rawOfPair (k, mkSentEntry s i)) with
          | Some y => y :: omap keptEntry (rawOfPair <$> l)
          | None => omap keptEntry (rawOfPair <$> l)
          end).
  rewrite IH. unfold keptEntry, rawOfPair, hasSentAt. simpl.
  destruct (nonEmpty s) eqn:E; simpl.
  - rewrite filter_cons_True by done. by destruct i.
  - rewrite filter_cons_False; [done|]. simpl. by rewrite E.
Qed.

Section RoundTrip.
Variable JSON_parse_sent : string → option SentDoc.

(** X5. What [saveSentMap] writes, [loadSentMap] reads back: for a sent
    map with distinct keys the loaded map holds the records with a
    non-empty [sentAt], each with the [sentAt] and the [identity] it was
    saved with, and nothing else, so a map whose records all have a
    [sentAt] comes back with the same answers and the same size. The order
    of the records survives when no key is the decimal form of an array
    index; such keys are listed first by [Object.entries]. *)
Theorem sentMap_save_load_round_trip (raw : string) (sentMap : SentMap) :
  NoDup sentMap.*1 →
  nonEmpty raw = true →
  JSON_parse_sent raw = Some (SentObject (savedEntries sentMap)) →
  let loaded := loadSentMap JSON_parse_sent (KvValue (Some raw)) in
  loaded ≡ₚ filter hasSentAt sentMap ∧
  (∀ hash, map_get hash loaded = map_get hash (filter hasSentAt sentMap)) ∧
  (Forall hasSentAt sentMap →
     (∀ hash, map_get hash loaded = map_get hash sentMap) ∧
     map_size loaded = map_size sentMap) ∧
  (Forall (λ he, arrayIndex he.1 = None) sentMap → loaded = filter hasSentAt sentMap).
Proof.
  intros Hnd Hne Hp loaded. subst loaded. unfold loadSentMap.
  rewrite Hne, Hp. simpl.
  assert (Hkeys : NoDup (savedEntries sentMap).*1).
  { rewrite savedEntries_eq by done.
    by rewrite Object_entries_Permutation, rawOfPair_keys, Object_entries_Permutation. }
  rewrite loadSentStep_fresh by done. simpl.
  assert (Hperm : omap keptEntry (savedEntries sentMap) ≡ₚ filter hasSentAt sentMap).
  { rewrite savedEntries_eq by done.
    rewrite Object_entries_Permutation.
    rewrite <-keptEntry_rawOfPair.
    apply omap_Permutation, fmap_Permutation, Object_entries_Permutation. }
  assert (Hget : ∀ hash, map_get hash (omap keptEntry (savedEntries sentMap))
                         = map_get hash (filter hasSentAt sentMap)).
  { intros hash. apply map_get_Permutation; [|done]. by apply filter_keys_NoDup. }
  split; [done|]. split; [done|]. split.
  - intros Hall. rewrite (filter_all hasSentAt sentMap Hall) in Hperm, Hget.
    split; [done|]. unfold map_size. by rewrite Hperm.
  - intros Hplain. rewrite savedEntries_eq by done.
    rewrite (Object_entries_plain sentMap) by done.
    rewrite Object_entries_plain; [apply keptEntry_rawOfPair|].
    apply Forall_fmap. eapply Forall_impl; [done|]. done.
Qed.
End RoundTrip.

(** ** Pruning, again *)

Section PruneAgain.
Variable Date_parse : Val → option Z.

Local Abbreviation cmpS := (compareSentAt Date_parse).
Local Abbreviation valid := (validEntry Date_parse).
Local Abbreviation fresh := (freshEntry Date_parse).
Local Abbreviation prune := (pruneSentMap Date_parse).
Local Abbreviation prune_multi := (pruneSentMap_multi Date_parse).

Lemma filter_changed (P : string * SentEntry → Prop) `{!∀ x, Decision (P x)}
    (m : SentMap) :
  Exists (λ he, ¬ P he) m ↔ filter P m ≠ m.
Proof.
  split.
  - intros (x & Hx & Hbad)%Exists_exists Heq. rewrite <-Heq in Hx.
    by apply list_elem_of_filter in Hx as [? _].
  - intros Hne. destruct (decide (Exists (λ he, ¬ P he) m)) as [|Hno]; [done|].
    exfalso. apply Hne, filter_all. apply Forall_forall. intros x Hx.
    destruct (decide (P x)) as [|Hbad]; [done|].
    exfalso. apply Hno, Exists_exists. by exists x.
Qed.

Lemma pruneSentMap_large_flag (sentMap : SentMap) :
  NoDup sentMap.*1 →
  MAX_SENT_MAP_SIZE < map_size (filter valid sentMap) →
  (prune sentMap).2 = true.
Proof.
  intros Hnd Hsize. destruct (clean_loop Date_parse sentMap Hnd) as [H1 _].
  unfold pruneSentMap.
  destruct (foldl (cleanStep Date_parse) (sentMap, false) sentMap) as [m c].
  simpl in H1. subst m. by rewrite bool_decide_eq_true_2.
Qed.

Lemma pruneSentMap_large_size (sentMap : SentMap) :
  NoDup sentMap.*1 →
  MAX_SENT_MAP_SIZE < map_size (filter valid sentMap) →
  map_size (prune sentMap).1 = MAX_SENT_MAP_SIZE.
Proof.
  intros Hnd Hsize.
  pose proof (pruneSentMap_large Date_parse sentMap Hnd Hsize) as Hp.
  simpl in Hp. rewrite Hp.
  set (cleaned := filter valid sentMap) in *.
  set (sorted := sortBy cmpS cleaned) in *.
  set (n := map_size cleaned - MAX_SENT_MAP_SIZE) in *.
  assert (Hperm : sorted ≡ₚ cleaned) by apply sortBy_Permutation.
  assert (Hck : NoDup cleaned.*1) by (by apply filter_keys_NoDup).
  assert (Hsk : NoDup sorted.*1) by (by rewrite Hperm).
  assert (Hsn : NoDup sorted) by (by eapply NoDup_fmap_1).
  assert (Hpp : filter (λ he, he.1 ∉ (take n sorted).*1) cleaned ≡ₚ drop n sorted).
  { apply NoDup_Permutation.
    - apply (NoDup_fmap_1 fst). by apply filter_keys_NoDup.
    - eapply sublist_NoDup; [|apply sublist_drop]. done.
    - intros x. rewrite list_elem_of_filter.
      pose proof Hsn as Hsn'. rewrite <-(take_drop n sorted) in Hsn'.
      apply NoDup_app in Hsn' as (_ & Hdisj & _).
      split.
      + intros [Hout Hx]. rewrite <-Hperm, <-(take_drop n sorted) in Hx.
        apply elem_of_app in Hx as [Hx | Hx]; [|done].
        exfalso. apply Hout. apply list_elem_of_fmap. by exists x.
      + intros Hx. split.
        * intros (y & Hy1 & Hy)%list_elem_of_fmap.
          assert (x = y).
          { apply (NoDup_fmap_elem_inj fst sorted); [done | | | done].
            - by eapply subseteq_drop.
            - by eapply subseteq_take. }
          subst y. by apply (Hdisj x).
        * rewrite <-Hperm. by eapply subseteq_drop. }
  unfold map_size. rewrite Hpp, length_drop, Hperm.
  unfold n, map_size in *. lia.
Qed.

(** X6. [pruneSentMap] of the FFXIV RSS worker leaves a map within the
    capacity whose records all carry a parsable [sentAt], in the order
    they had; it returns [true] exactly when it removed something; and
    pruning the result again removes nothing and returns [false]. *)
Theorem pruneSentMap_settles (sentMap : SentMap) :
  NoDup sentMap.*1 →
  let pruned := (pruneSentMap Date_parse sentMap).1 in
  let mutated := (pruneSentMap Date_parse sentMap).2 in
  map_size pruned ≤ MAX_SENT_MAP_SIZE ∧
  Forall valid pruned ∧
  pruned `sublist_of` sentMap ∧
  (mutated = true ↔ pruned ≠ sentMap) ∧
  prune pruned = (pruned, false).
Proof.
  intros Hnd pruned mutated.
  assert (Hmain : map_size pruned ≤ MAX_SENT_MAP_SIZE ∧ Forall valid pruned ∧
                  pruned `sublist_of` sentMap ∧ (mutated = true ↔ pruned ≠ sentMap)).
  { subst pruned mutated.
    destruct (decide (map_size (filter valid sentMap) ≤ MAX_SENT_MAP_SIZE))
      as [Hsmall | Hlarge].
    - destruct (pruneSentMap_small Date_parse sentMap Hnd Hsmall) as [H1 H2].
      rewrite H1, H2. split; [done|].
      split; [apply Forall_forall; by intros x [? _]%list_elem_of_filter|].
      split; [apply sublist_filter|].
      rewrite <-filter_changed. done.
    - assert (Hsize : MAX_SENT_MAP_SIZE < map_size (filter valid sentMap)) by lia.
      pose proof (pruneSentMap_large_size sentMap Hnd Hsize) as Hn.
      pose proof (pruneSentMap_large_flag sentMap Hnd Hsize) as Hf.
      pose proof (pruneSentMap_large Date_parse sentMap Hnd Hsize) as Hp.
      simpl in Hp. rewrite Hf.
      split; [lia|]. rewrite Hp in Hn |- *.
      split.
      { apply Forall_forall.
        by intros x [_ [? _]%list_elem_of_filter]%list_elem_of_filter. }
      split; [etrans; apply sublist_filter|].
      split; [|done]. intros _ Heq. rewrite Heq in Hn.
      assert (map_size (filter valid sentMap) ≤ map_size sentMap)
        by apply length_filter.
      lia. }
  destruct Hmain as (Hsize & Hvalid & Hsub & Hflag).
  split; [done|]. split; [done|]. split; [done|]. split; [done|].
  assert (Hnd' : NoDup pruned.*1).
  { eapply sublist_NoDup; [exact Hnd|]. by apply fmap_sublist. }
  assert (Hc : filter valid pruned = pruned) by (by apply filter_all).
  destruct (pruneSentMap_small Date_parse pruned Hnd') as [H1 H2].
  { by rewrite Hc. }
  rewrite Hc in H1.
  destruct (prune pruned) as [m c]. simpl in H1, H2. subst m. f_equal.
  destruct c; [|done]. exfalso.
  assert (He : Exists (λ he, ¬ valid he) pruned) by (by apply H2).
  apply Exists_exists in He as (x & Hx & Hbad).
  rewrite Forall_forall in Hvalid. by apply Hbad, Hvalid.
Qed.

Lemma freshEntry_mono (cutoff cutoff' : Z) he :
  (cutoff ≤ cutoff')%Z → fresh cutoff' he → fresh cutoff he.
Proof.
  intros Hle (t & Ht & Hc). exists t. split; [done | lia].
Qed.

Lemma pruneSentMap_multi_eq (nowMs : Z) (sentMap : SentMap) :
  NoDup sentMap.*1 →
  (prune_multi nowMs sentMap).1 = filter (fresh (nowMs - 172800000)) sentMap ∧
  ((prune_multi nowMs sentMap).2 = true ↔
     Exists (λ he, ¬ fresh (nowMs - 172800000) he) sentMap).
Proof.
  intros Hnd. unfold pruneSentMap_multi.
  destruct (drop_loop_self
              (ageStep Date_parse (nowMs - SENT_MAP_TTL_SECONDS_multi * 1000))
              (λ he, ¬ fresh (nowMs - SENT_MAP_TTL_SECONDS_multi * 1000) he)
              sentMap (ageStep_eq Date_parse _) Hnd) as [H1 H2].
  split; [|exact H2]. rewrite H1. apply filter_not_not.
Qed.

(** X7. [pruneSentMap] of the multi-source worker keeps the records whose
    [sentAt] parses to a time within the last two days, in their order,
    and returns [true] exactly when it removed something. Pruning the
    result again at the same time removes nothing and returns [false],
    and pruning it at a later time gives what pruning the original map at
    that time gives. *)
Theorem pruneSentMap_multi_settles (nowMs : Z) (sentMap : SentMap) :
  NoDup sentMap.*1 →
  let pruned := (pruneSentMap_multi Date_parse nowMs sentMap).1 in
  let mutated := (pruneSentMap_multi Date_parse nowMs sentMap).2 in
  Forall (freshEntry Date_parse (nowMs - 172800000)) pruned ∧
  pruned `sublist_of` sentMap ∧
  (mutated = true ↔ pruned ≠ sentMap) ∧
  prune_multi nowMs pruned = (pruned, false) ∧
  (∀ later, (nowMs ≤ later)%Z →
     (prune_multi later pruned).1 = (prune_multi later sentMap).1).
Proof.
  intros Hnd pruned mutated. subst pruned mutated.
  destruct (pruneSentMap_multi_eq nowMs sentMap Hnd) as [H1 H2].
  rewrite H1, H2.
  assert (Hfresh : Forall (fresh (nowMs - 172800000))
                     (filter (fresh (nowMs - 172800000)) sentMap)).
  { apply Forall_forall. by intros x [? _]%list_elem_of_filter. }
  assert (Hnd' : NoDup (filter (fresh (nowMs - 172800000)) sentMap).*1)
    by (by apply filter_keys_NoDup).
  split; [done|]. split; [apply sublist_filter|].
  split; [apply filter_changed|]. split.
  - destruct (pruneSentMap_multi_eq nowMs _ Hnd') as [H3 H4].
    rewrite (filter_all _ _ Hfresh) in H3.
    destruct (prune_multi nowMs (filter (fresh (nowMs - 172800000)) sentMap))
      as [m c].
    simpl in H3, H4. subst m. f_equal. destruct c; [|done]. exfalso.
    assert (He : Exists (λ he, ¬ fresh (nowMs - 172800000) he)
                   (filter (fresh (nowMs - 172800000)) sentMap)) by (by apply H4).
    apply Exists_exists in He as (x & Hx & Hbad).
    rewrite Forall_forall in Hfresh. by apply Hbad, Hfresh.
  - intros later Hlater.
    destruct (pruneSentMap_multi_eq later _ Hnd') as [H3 _].
    destruct (pruneSentMap_multi_eq later _ Hnd) as [H5 _].
    rewrite H3, H5, list_filter_filter. apply list_filter_iff.
    intros x. split; [by intros [? _]|]. intros Hx. split; [done|].
    eapply freshEntry_mono; [|exact Hx]. lia.
Qed.
End PruneAgain.

(** ** [limitPlainText] *)

Lemma sliceTo_length n s : String.length (sliceTo n s) = min n (String.length s).
Proof.
  revert s. induction n as [|n IH]; intros [|c r]; simpl; try done.
  by rewrite IH.
Qed.

Lemma sliceTo_prefix n s : ∃ rest, s = String.append (sliceTo n s) rest.
Proof.
  revert s. induction n as [|n IH]; intros s.
  - exists s. by destruct s.
  - destruct s as [|c r]; [by exists EmptyString|].
    destruct (IH r) as [rest Hr]. exists rest. simpl sliceTo.
    rewrite append_cons. by rewrite <-Hr.
Qed.

Lemma trimEnd_prefix s : ∃ rest, s = String.append (trimEnd s) rest.
Proof.
  induction s as [|c r [rest Hr]]; [by exists EmptyString|]. simpl.
  destruct (isWhiteSpace c && negb (nonEmpty (trimEnd r))).
  - by exists (String c r).
  - exists rest. rewrite append_cons. by rewrite <-Hr.
Qed.

Lemma trimEnd_length s : String.length (trimEnd s) ≤ String.length s.
Proof.
  destruct (trimEnd_prefix s) as [rest Hr]. rewrite Hr at 2.
  rewrite string_length_append. lia.
Qed.

Lemma append_assoc s t u :
  String.append (String.append s t) u = String.append s (String.append t u).
Proof. induction s as [|c r IH]; [done | by rewrite !append_cons, IH]. Qed.

(** X8. For a positive limit the text [limitPlainText] returns never has
    more characters than the limit. A text within the limit is returned as
    it is. A longer one is cut: with a limit above three the result is a
    beginning of the text that does not end in white space, followed by
    three dots; with a limit of at most three it is that many dots. *)
Theorem limitPlainText_fits (text : string) (maxLength : Z) :
  (0 < maxLength)%Z →
  let out := limitPlainText text (VNum maxLength) in
  (Z.of_nat (String.length out) ≤ maxLength)%Z ∧
  ((Z.of_nat (String.length text) ≤ maxLength)%Z → out = text) ∧
  ((maxLength < Z.of_nat (String.length text))%Z → (3 < maxLength)%Z →
     ∃ kept rest, out = String.append kept "..." ∧
                  text = String.append kept rest ∧ trimEnd kept = kept) ∧
  ((maxLength < Z.of_nat (String.length text))%Z → (maxLength ≤ 3)%Z →
     out = repeatChar (Z.to_nat maxLength) ".").
Proof.
  intros Hpos out. subst out. unfold limitPlainText.
  rewrite (proj2 (Z.leb_gt _ _)) by lia.
  destruct (Z.of_nat (String.length text) <=? maxLength)%Z eqn:Hfit.
  - apply Z.leb_le in Hfit. split; [done|]. split; [done|]. split; intros; lia.
  - apply Z.leb_gt in Hfit.
    destruct (maxLength <=? 3)%Z eqn:Hsmall.
    + apply Z.leb_le in Hsmall. rewrite Z.max_r by lia.
      split; [rewrite repeatChar_length; lia|].
      split; [intros; lia|]. split; [intros; lia | done].
    + apply Z.leb_gt in Hsmall.
      split; [|split; [intros; lia | split; [|intros; lia]]].
      * rewrite string_length_append. simpl.
        pose proof (trimEnd_length (sliceTo (Z.to_nat (maxLength - 3)) text)) as Hl.
        rewrite sliceTo_length in Hl. lia.
      * intros _ _.
        destruct (sliceTo_prefix (Z.to_nat (maxLength - 3)) text) as [r1 H1].
        destruct (trimEnd_prefix (sliceTo (Z.to_nat (maxLength - 3)) text))
          as [r2 H2].
        exists (trimEnd (sliceTo (Z.to_nat (maxLength - 3)) text)),
               (String.append r2 r1).
        split; [done|]. split; [|apply trimEnd_idempotent].
        rewrite <-append_assoc. by rewrite <-H2.
Qed.

Lemma limitPlainText_fits_witness :
  (Z.of_nat (String.length (limitPlainText "a new   item arrives" (VNum 8))) ≤ 8)%Z ∧
  limitPlainText "a new   item arrives" (VNum 8) = "a new...".
Proof.
  split; [|reflexivity].
  apply (limitPlainText_fits "a new   item arrives" 8). lia.
Defined.

(** ** A cycle as a whole *)

Lemma map_set_keys {V} (m : list (string * V)) k v k' :
  k' ∈ (map_set k v m).*1 ↔ k' = k ∨ k' ∈ m.*1.
Proof.
  induction m as [|[k0 v0] r IH]; simpl.
  - rewrite list_elem_of_singleton. split; [by left | intros [?|H]; [done|]].
    by apply elem_of_nil in H.
  - destruct (bool_decide (k0 = k)) eqn:E.
    + apply bool_decide_eq_true_1 in E. subst k0. simpl.
      rewrite !elem_of_cons. tauto.
    + simpl. rewrite !elem_of_cons, IH. tauto.
Qed.

Lemma markArticle_link sentMap a : link (markArticle sentMap a).1 = link a.
Proof.
  unfold markArticle. destruct (truthy (sent a)); [done|].
  destruct (getArticleIdentity a) as [i|]; [|done].
  by destruct (map_get (hashIdentifier i) sentMap).
Qed.

Lemma markArticle_miss sentMap a :
  (markArticle sentMap a).2 = false → (markArticle sentMap a).1 = a.
Proof.
  unfold markArticle. destruct (truthy (sent a)); [done|].
  destruct (getArticleIdentity a) as [i|]; [|done].
  by destruct (map_get (hashIdentifier i) sentMap).
Qed.

Lemma mark_links articles sentMap :
  link <$> (markPreviouslySentArticles articles sentMap).1 = link <$> articles.
Proof.
  rewrite mark_articles, <-list_fmap_compose. apply list_fmap_ext.
  intros i a _. simpl. apply markArticle_link.
Qed.

Lemma mark_nothing articles sentMap :
  (markPreviouslySentArticles articles sentMap).2 = false →
  (markPreviouslySentArticles articles sentMap).1 = articles.
Proof.
  rewrite mark_flag, mark_articles. intros Hno.
  induction articles as [|a r IH]; [done|].
  simpl in Hno. apply orb_false_iff in Hno as [Ha Hr].
  rewrite fmap_cons. by rewrite markArticle_miss, IH.
Qed.

Section LoopInvariants.
Variable sink : nat → Article → Outcome.
Variable clock : nat → string.

Local Abbreviation step := (deliverStep sink clock).
Local Abbreviation next := (deliverNext sink clock).
Local Abbreviation loop := (deliverLoop sink clock).

Lemma deliverStep_links st ref :
  link <$> ls_articles (step st ref) = link <$> ls_articles st.
Proof.
  destruct (deliverStep_cases sink clock st ref)
    as [[_ ->] | [(a & _ & _ & ->) | [(a & Ha & _ & ->) | (a & _ & _ & ->)]]];
    [done | done | | done].
  simpl. rewrite list_fmap_insert. apply list_insert_id.
  by rewrite list_lookup_fmap, Ha.
Qed.

Lemma deliverLoop_links toSend st :
  link <$> ls_articles (loop toSend st) = link <$> ls_articles st.
Proof.
  revert st. induction toSend as [|ref l IH]; intros st; [done|].
  rewrite deliverLoop_cons, IH. unfold deliverNext.
  destruct (ls_threw st); [done | apply deliverStep_links].
Qed.

Lemma setSentEntry_unflagged now (sentMap : SentMap) article :
  (setSentEntry now sentMap article).2 = false →
  (setSentEntry now sentMap article).1 = sentMap.
Proof.
  destruct (getArticleIdentity article) as [identity|] eqn:Hid.
  - destruct (setSentEntry_cases now sentMap article identity Hid)
      as [[_ ->] | [_ ->]]; done.
  - by rewrite setSentEntry_no_identity.
Qed.

(** A map that is not flagged dirty at the end of the loop is the map the
    loop started with. *)
Lemma deliverLoop_clean toSend st :
  ls_sentMapDirty (loop toSend st) = false →
  ls_sentMapDirty st = false ∧ ls_sentMap (loop toSend st) = ls_sentMap st.
Proof.
  revert st. induction toSend as [|ref l IH]; intros st; [done|].
  rewrite deliverLoop_cons.
  intros Hc. apply IH in Hc as [Hd Hm]. rewrite Hm.
  unfold deliverNext in Hd |- *. destruct (ls_threw st); [done|].
  destruct (deliverStep_cases sink clock st ref)
    as [[_ Hs] | [(a & _ & _ & Hs) | [(a & _ & _ & Hs) | (a & _ & _ & Hs)]]];
    rewrite Hs in Hd |- *; simpl in *; try done.
  destruct (setSentEntry _ (ls_sentMap st) _) as [m c] eqn:E; simpl in *.
  destruct c; [done|]. split; [done|].
  change m with (m, false).1. rewrite <-E. apply setSentEntry_unflagged.
  by rewrite E.
Qed.

(** A loop that ends without a success changed no article, and none of
    the calls it made was accepted. *)
Lemma deliverLoop_no_success toSend st :
  ls_sendSuccess (loop toSend st) = false →
  ls_sendSuccess st = false ∧
  ls_articles (loop toSend st) = ls_articles st ∧
  ∀ k ref, ls_calls (loop toSend st) !! k = Some ref → length (ls_calls st) ≤ k →
    ∃ article, ls_articles st !! ref = Some article ∧ sink k article ≠ Accepted.
Proof.
  revert st. induction toSend as [|ref l IH]; intros st.
  - simpl. intros Hs. split; [done|]. split; [done|].
    intros k r Hk Hlen. apply lookup_lt_Some in Hk. lia.
  - rewrite deliverLoop_cons. unfold deliverNext.
    destruct (ls_threw st) eqn:Ht.
    { rewrite deliverLoop_stopped by done. intros Hs. split; [done|].
      split; [done|]. intros k r Hk Hlen. apply lookup_lt_Some in Hk. lia. }
    intros Hc. apply IH in Hc as (Hs & Ha & Hcalls). rewrite Ha.
    assert (Hcall : ∀ a k r,
              ls_articles st !! ref = Some a →
              sink (length (ls_calls st)) a ≠ Accepted →
              ls_calls (step st ref) = ls_calls st ++ [ref] →
              ls_articles (step st ref) = ls_articles st →
              ls_calls (loop l (step st ref)) !! k = Some r →
              length (ls_calls st) ≤ k →
              ∃ article, ls_articles st !! r = Some article ∧
                         sink k article ≠ Accepted).
    { intros a k r Hl Hrej Hst Hart Hk Hlen.
      destruct (decide (k = length (ls_calls st))) as [-> | Hne].
      - assert (Hr : r = ref).
        { pose proof (deliverLoop_calls_prefix sink clock l (step st ref)
                        (length (ls_calls st)) ref) as Hpre.
          rewrite Hpre in Hk; [congruence|].
          rewrite Hst, lookup_app_r by lia. by rewrite Nat.sub_diag. }
        subst r. by exists a.
      - destruct (Hcalls k r Hk) as (article & Hart' & Hno).
        { rewrite Hst, length_app. simpl. lia. }
        exists article. by rewrite <-Hart. }
    destruct (deliverStep_cases sink clock st ref)
      as [[_ Hst] | [(a & Hl & Hrej & Hst) | [(a & _ & _ & Hst) | (a & Hl & Hrej & Hst)]]].
    + rewrite Hst in Hs, Hcalls |- *. done.
    + split; [by rewrite Hst in Hs|]. split; [by rewrite Hst|].
      intros k r Hk Hlen. apply (Hcall a k r); try done.
      * by rewrite Hrej.
      * by rewrite Hst.
      * by rewrite Hst.
    + by rewrite Hst in Hs.
    + split; [by rewrite Hst in Hs|]. split; [by rewrite Hst|].
      intros k r Hk Hlen. apply (Hcall a k r); try done.
      * by rewrite Hrej.
      * by rewrite Hst.
      * by rewrite Hst.
Qed.
End LoopInvariants.

Section WholeCycle.
Variable Date_parse : Val → option Z.
Variable Date_toISOString : Val → option string.
Variable localeCompare : string → string → Z.
Variable sink : nat → Article → Outcome.
Variable clock : nat → string.

Local Abbreviation merge := (mergeArticles Date_parse Date_toISOString localeCompare).
Local Abbreviation seed := (seedMap Date_parse Date_toISOString).
Local Abbreviation cycle :=
  (processSource Date_parse Date_toISOString localeCompare sink clock).
Local Abbreviation loop := (deliverLoop sink clock).

(** [processSource] returns a result exactly when the merge does, and the
    result is read off the final state of the delivery loop. *)
Lemma processSource_result testMode exists_ stateArticles sentMap dirty
    parsedItems r :
  cycle testMode exists_ stateArticles sentMap dirty parsedItems = Some r →
  ∃ merged hasChanges,
    merge stateArticles parsedItems = Some (merged, hasChanges) ∧
    let marked := (markPreviouslySentArticles merged sentMap).1 in
    let flag := (markPreviouslySentArticles merged sentMap).2 in
    let toSend := take (sendLimitOf testMode) (unsentQueue marked) in
    let st := loop toSend (mkLoopState marked sentMap dirty 0 false [] false) in
    cr_calls r = ls_calls st ∧ cr_articles r = ls_articles st ∧
    cr_sentMap r = ls_sentMap st ∧
    cr_dailyWrite r =
      (if ls_threw st then None
       else if hasChanges || ls_sendSuccess st || flag || negb exists_
       then Some (ls_articles st) else None) ∧
    cr_sentWrite r =
      (if ls_threw st then None
       else if ls_sentMapDirty st then Some (ls_sentMap st) else None).
Proof.
  unfold processSource.
  destruct (merge stateArticles parsedItems) as [[merged hasChanges]|]; [|done].
  destruct (markPreviouslySentArticles merged sentMap) as [marked flag] eqn:E.
  intros [= <-]. exists merged, hasChanges. split; [done|].
  rewrite E. simpl. repeat split.
Qed.

(** The loop of a cycle was left by an exception exactly when one of its
    calls threw. *)
Lemma cycle_threw (marked : list Article) sentMap dirty limit :
  let toSend := take limit (unsentQueue marked) in
  let st := loop toSend (mkLoopState marked sentMap dirty 0 false [] false) in
  ls_threw st = true ↔ someCallThrew sink marked (ls_calls st).
Proof.
  intros toSend st.
  destruct (deliverLoop_trace sink clock toSend
              (mkLoopState marked sentMap dirty 0 false [] false))
    as (_ & H2 & H3); [apply toSend_NoDup | apply toSend_bound | done | done |].
  fold st in H2, H3. split; [exact H3|].
  intros (k & ref & a & Hk & Ha & Hs).
  destruct (H2 k ref Hk) as (a' & Ha' & Hout). simpl in Ha'.
  rewrite Ha in Ha'. simplify_eq. rewrite Hs in Hout. by destruct Hout as (_ & ? & _).
Qed.

(** X9. An article the daily state holds as sent is not handed to the sink
    again, whatever the feed reports under its link and whatever the sent
    map holds: the cycle ends with the article still in the array, sent,
    with its [sentAt], and no call of the cycle concerns its link. *)
Theorem sent_article_is_not_delivered_again
    testMode exists_ stateArticles sentMap dirty parsedItems r (a : Article) :
  processSource Date_parse Date_toISOString localeCompare sink clock
    testMode exists_ stateArticles sentMap dirty parsedItems = Some r →
  NoDup (link <$> stateArticles) →
  a ∈ stateArticles → nonEmpty (link a) = true → truthy (sent a) = true →
  (∃ e, e ∈ cr_articles r ∧ link e = link a ∧ sent e = VBool true ∧
        sentAt e = js_or (sentAt a) VNull) ∧
  ∀ ref article, ref ∈ cr_calls r → cr_articles r !! ref = Some article →
                 link article ≠ link a.
Proof.
  intros Hr Hnd Ha Hl Hsent.
  apply processSource_result in Hr
    as (merged & hasChanges & Hm & Hcalls & Harts & _).
  rewrite Hcalls, Harts. clear Hcalls Harts.
  pose proof (merge_links_NoDup _ _ _ _ _ _ _ Hm) as Hlinks.
  apply mergeArticles_unfold in Hm as (seeded & Hseed & -> & _).
  destruct (seedMap_lookup _ _ _ _ _ _ Hseed Hnd Ha Hl) as (e0 & Hn & Hg).
  apply normalizeArticle_fields in Hn as (_ & _ & _ & _ & Hs0 & Ha0).
  destruct (mergeItems_sent parsedItems seeded false _ _ Hg) as (e & He & Hs & Hsa).
  assert (Hk : keyed (mergeItems parsedItems (seeded, false)).1).
  { apply mergeItems_keyed. simpl. eapply seedMap_keyed; [done | apply keyed_nil]. }
  destruct (keyed_lookup _ _ _ Hk He) as [Hle _].
  set (merged := sortBy (compareArticles localeCompare)
                   (map_values (mergeItems parsedItems (seeded, false)).1)) in *.
  assert (Hin : e ∈ merged).
  { subst merged. rewrite sortBy_Permutation. by eapply map_get_values. }
  assert (Hes : sent e = VBool true).
  { rewrite Hs, Hs0. unfold Boolean. by rewrite Hsent. }
  apply list_elem_of_lookup in Hin as [i Hi].
  set (marked := (markPreviouslySentArticles merged sentMap).1).
  set (toSend := take (sendLimitOf testMode) (unsentQueue marked)).
  set (st0 := mkLoopState marked sentMap dirty 0 false [] false).
  assert (Hmi : marked !! i = Some e).
  { subst marked. rewrite mark_lookup, Hi. simpl.
    rewrite markArticle_sent_truthy; [done|]. by rewrite Hes. }
  assert (Hout : i ∉ toSend).
  { intros Hin. apply toSend_unsent in Hin as (a' & Ha' & Hu).
    rewrite Hmi in Ha'. simplify_eq. by rewrite Hes in Hu. }
  assert (Hfi : ls_articles (loop toSend st0) !! i = Some e).
  { by rewrite deliverLoop_other. }
  split.
  - exists e. split; [by eapply list_elem_of_lookup_2|].
    split; [done|]. split; [done|]. by rewrite Hsa, Ha0.
  - intros ref article Href Hart Heq.
    apply deliverLoop_calls_elem in Href as [Href | Href];
      [by apply elem_of_nil in Href|].
    apply Hout.
    assert (Hfl : NoDup (link <$> ls_articles (loop toSend st0))).
    { rewrite deliverLoop_links. simpl. subst marked. by rewrite mark_links. }
    assert (ref = i); [|by subst].
    eapply NoDup_lookup; [exact Hfl | |].
    + by rewrite list_lookup_fmap, Hart.
    + rewrite list_lookup_fmap, Hfi. simpl. congruence.
Qed.

(** X10. What a cycle changes, it writes, unless a call of the sink
    throws. The value written under either key is the final one. When a
    call throws, neither key is written, whatever the cycle did before.
    When no call throws and the sent map is not written, it is the map
    the cycle started with. When no call throws and the daily state is
    not written, the key existed, the merge reported no change and
    returned the array the cycle ends with, and every call to the sink
    was answered with a failure. *)
Theorem cycle_writes_what_it_changed
    testMode exists_ stateArticles sentMap dirty parsedItems r :
  processSource Date_parse Date_toISOString localeCompare sink clock
    testMode exists_ stateArticles sentMap dirty parsedItems = Some r →
  ∃ merged hasChanges,
    mergeArticles Date_parse Date_toISOString localeCompare
      stateArticles parsedItems = Some (merged, hasChanges) ∧
    let marked := (markPreviouslySentArticles merged sentMap).1 in
    (∀ written, cr_dailyWrite r = Some written → written = cr_articles r) ∧
    (∀ written, cr_sentWrite r = Some written → written = cr_sentMap r) ∧
    (someCallThrew sink marked (cr_calls r) →
       cr_dailyWrite r = None ∧ cr_sentWrite r = None) ∧
    (cr_sentWrite r = None →
       someCallThrew sink marked (cr_calls r) ∨
       (dirty = false ∧ cr_sentMap r = sentMap)) ∧
    (cr_dailyWrite r = None →
       someCallThrew sink marked (cr_calls r) ∨
       (exists_ = true ∧ hasChanges = false ∧ merged = cr_articles r ∧
        ∀ k ref, cr_calls r !! k = Some ref →
          ∃ article, cr_articles r !! ref = Some article ∧
                     sink k article = Refused)).
Proof.
  intros Hr.
  apply processSource_result in Hr
    as (merged & hasChanges & Hm & Hcalls & Harts & Hmap & Hdaily & Hsentw).
  exists merged, hasChanges. split; [done|]. cbv zeta.
  rewrite Hcalls, Harts, Hmap, Hdaily, Hsentw. clear Hcalls Harts Hmap Hdaily Hsentw.
  set (marked := (markPreviouslySentArticles merged sentMap).1).
  set (toSend := take (sendLimitOf testMode) (unsentQueue marked)).
  set (st0 := mkLoopState marked sentMap dirty 0 false [] false).
  pose proof (cycle_threw marked sentMap dirty (sendLimitOf testMode)) as Hthrew.
  cbv zeta in Hthrew. fold toSend st0 in Hthrew.
  destruct (ls_threw (loop toSend st0)) eqn:Ht.
  { split; [done|]. split; [done|]. split; [done|].
    split; intros _; left; by apply Hthrew. }
  assert (Hnot : ¬ someCallThrew sink marked (ls_calls (loop toSend st0))).
  { intros Hc. by apply Hthrew in Hc. }
  split; [|split; [|split; [done|split]]].
  - intros written. by destruct (_ || _ || _ || _); intros [= <-].
  - intros written. by destruct (ls_sentMapDirty _); intros [= <-].
  - destruct (ls_sentMapDirty (loop toSend st0)) eqn:Hd; [done|]. intros _.
    right. by apply deliverLoop_clean in Hd.
  - destruct (_ || _ || _ || _) eqn:Hw; [done|]. intros _. right.
    apply orb_false_iff in Hw as [Hw He].
    apply orb_false_iff in Hw as [Hw Hf].
    apply orb_false_iff in Hw as [Hc Hs].
    apply negb_false_iff in He. subst hasChanges.
    apply deliverLoop_no_success in Hs as (_ & Ha & Hrefused).
    apply mark_nothing in Hf. fold marked in Hf.
    rewrite Ha. simpl. rewrite Hf.
    split; [done|]. split; [done|]. split; [done|]. intros k ref Hk.
    destruct (Hrefused k ref Hk) as (article & Hart & Hno); [simpl; lia|].
    simpl in Hart. exists article. split; [by rewrite <-Hf|].
    destruct (sink k article) eqn:Hout; [done | done |].
    exfalso. apply Hnot. by exists k, ref, article.
Qed.
End WholeCycle.

(** ** The links of a merge *)

Section MergeLinks.
Variable Date_parse : Val → option Z.
Variable Date_toISOString : Val → option string.
Variable localeCompare : string → string → Z.

Local Abbreviation merge := (mergeArticles Date_parse Date_toISOString localeCompare).
Local Abbreviation seed := (seedMap Date_parse Date_toISOString).

Lemma seedMap_keys l m m' k :
  seed l m = Some m' →
  k ∈ m'.*1 ↔ k ∈ m.*1 ∨ (nonEmpty k = true ∧ k ∈ link <$> l).
Proof.
  revert m. induction l as [|a r IH]; intros m; simpl.
  - intros [= ->]. rewrite elem_of_nil. tauto.
  - rewrite elem_of_cons.
    destruct (nonEmpty (link a)) eqn:Hl; simpl.
    + destruct (normalizeArticle _ _ a) as [e|]; [|done].
      intros Hs. rewrite (IH _ Hs), map_set_keys. split.
      * intros [[-> | ?] | [? ?]]; auto.
      * intros [? | [? [-> | ?]]]; auto.
    + intros Hs. rewrite (IH _ Hs). split.
      * intros [? | [? ?]]; auto.
      * intros [? | [? [-> | ?]]]; auto. congruence.
Qed.

Lemma mergeItem_keys m c item k :
  k ∈ (mergeItem (m, c) item).1.*1 ↔
    k ∈ m.*1 ∨ (nonEmpty k = true ∧ k = link item).
Proof.
  unfold mergeItem. destruct (nonEmpty (link item)) eqn:Hl; simpl.
  - destruct (map_get (link item) m) as [existing|] eqn:Hg.
    + assert (Hin : link item ∈ m.*1).
      { apply dec_stable. intros Hout. apply map_get_None in Hout. congruence. }
      destruct (refresh existing item) as [next [|]]; simpl.
      * rewrite map_set_keys. split; [intros [-> | ?]; auto|].
        intros [? | [_ ->]]; auto.
      * split; [auto|]. intros [? | [_ ->]]; auto.
    + simpl. rewrite map_set_keys. split; [intros [-> | ?]; auto|].
      intros [? | [_ ->]]; auto.
  - split; [auto|]. intros [? | [? ->]]; [done | congruence].
Qed.

Lemma mergeItems_keys items m c k :
  k ∈ (mergeItems items (m, c)).1.*1 ↔
    k ∈ m.*1 ∨ (nonEmpty k = true ∧ k ∈ link <$> items).
Proof.
  revert m c. induction items as [|item r IH]; intros m c.
  - simpl. rewrite elem_of_nil. tauto.
  - change (mergeItems (item :: r) (m, c))
      with (mergeItems r (mergeItem (m, c) item)).
    destruct (mergeItem (m, c) item) as [m1 c1] eqn:E.
    rewrite IH. change m1 with (m1, c1).1. rewrite <-E, mergeItem_keys.
    rewrite fmap_cons, elem_of_cons. tauto.
Qed.

(** A link first met among the candidates is stored unsent and stays so
    through the rest of the loop. *)
Lemma mergeItems_new_unsent items m c k :
  nonEmpty k = true → k ∈ link <$> items →
  (∀ e, map_get k m = Some e → sent e = VBool false ∧ sentAt e = VNull) →
  ∃ e, map_get k (mergeItems items (m, c)).1 = Some e ∧
       sent e = VBool false ∧ sentAt e = VNull.
Proof.
  intros Hk. revert m c. induction items as [|item r IH]; intros m c Hin Hm.
  { by apply elem_of_nil in Hin. }
  change (mergeItems (item :: r) (m, c))
    with (mergeItems r (mergeItem (m, c) item)).
  assert (Hstep : ∀ e, map_get k (mergeItem (m, c) item).1 = Some e →
                       sent e = VBool false ∧ sentAt e = VNull).
  { intros e He. destruct (map_get k m) as [e0|] eqn:Hg.
    - destruct (mergeItem_sent m c item k e0 Hg) as (e' & He' & Hs & Ha).
      rewrite He in He'. simplify_eq. rewrite Hs, Ha. by apply Hm.
    - destruct (decide (link item = k)) as [Heq | Hne].
      + unfold mergeItem in He. rewrite Heq, Hk, Hg in He. simpl in He.
        rewrite map_get_set_eq in He. by simplify_eq.
      + rewrite mergeItem_lookup_other, Hg in He by done. done. }
  rewrite fmap_cons in Hin. apply elem_of_cons in Hin as [Heq | Hin].
  - assert (Hhere : ∃ e, map_get k (mergeItem (m, c) item).1 = Some e).
    { destruct (map_get k (mergeItem (m, c) item).1) as [e|] eqn:E; [by exists e|].
      exfalso. apply map_get_None in E. apply E, mergeItem_keys. by right. }
    destruct Hhere as [e1 He1].
    destruct (mergeItem (m, c) item) as [m1 c1]. simpl in *.
    destruct (mergeItems_sent r m1 c1 k e1 He1) as (e2 & He2 & Hs & Ha).
    exists e2. split; [done|]. rewrite Hs, Ha. by apply Hstep.
  - destruct (mergeItem (m, c) item) as [m1 c1]. simpl in *. by apply IH.
Qed.

(** X11. A merge neither drops nor invents an article: the links of the
    merged array are the non-empty links of the stored articles and of
    the candidates, each once. An article whose link is new comes out
    unsent, with no [sentAt]. *)
Theorem merge_keeps_every_link
    (existingArticles newItems merged : list Article) (hasChanges : bool) :
  mergeArticles Date_parse Date_toISOString localeCompare
    existingArticles newItems = Some (merged, hasChanges) →
  NoDup (link <$> merged) ∧
  (∀ k, k ∈ link <$> merged ↔
        nonEmpty k = true ∧
        (k ∈ link <$> existingArticles ∨ k ∈ link <$> newItems)) ∧
  (∀ item, item ∈ newItems → nonEmpty (link item) = true →
           link item ∉ link <$> existingArticles →
           ∃ e, e ∈ merged ∧ link e = link item ∧
                sent e = VBool false ∧ sentAt e = VNull).
Proof.
  intros Hm. split; [by eapply merge_links_NoDup|].
  apply mergeArticles_unfold in Hm as (seeded & Hseed & -> & _).
  assert (Hk : keyed (mergeItems newItems (seeded, false)).1).
  { apply mergeItems_keyed. simpl. eapply seedMap_keyed; [done | apply keyed_nil]. }
  split.
  - intros k. rewrite sortBy_Permutation, (keyed_links _ Hk).
    rewrite mergeItems_keys, (seedMap_keys _ _ _ _ Hseed).
    simpl. rewrite elem_of_nil. tauto.
  - intros item Hin Hl Hnew.
    assert (Hfresh : map_get (link item) seeded = None).
    { apply map_get_None. rewrite (seedMap_keys _ _ _ _ Hseed).
      simpl. rewrite elem_of_nil. tauto. }
    destruct (mergeItems_new_unsent newItems seeded false (link item) Hl)
      as (e & He & Hs & Ha).
    + apply list_elem_of_fmap. by exists item.
    + intros e He. congruence.
    + exists e. split; [|split; [|done]].
      * rewrite sortBy_Permutation. by eapply map_get_values.
      * by destruct (keyed_lookup _ _ _ Hk He).
Qed.
End MergeLinks.

(** ** The news monitor outside test mode *)

Lemma List_filter_filter {A} (f : A → bool) (P : A → Prop) `{!∀ x, Decision (P x)}
    (l : list A) :
  (∀ x, x ∈ l → f x = true ↔ P x) → List.filter f l = filter P l.
Proof.
  induction l as [|x r IH]; intros Hf; [done|]. simpl.
  assert (Hr : List.filter f r = filter P r).
  { apply IH. intros y Hy. apply Hf. by right. }
  destruct (f x) eqn:E.
  - rewrite filter_cons_True by (apply Hf; [left | done]). by rewrite Hr.
  - rewrite filter_cons_False; [done|]. intros Hp. apply Hf in Hp; [|left].
    congruence.
Qed.

Section MonitorRuns.
Import NewsMonitor.
Variable Date_getTime : string → option Z.
Variable sortByDate : list NewsArticle → list NewsArticle.
Variable newsSink : nat → NewsArticle → bool.
Variable clock : nat → string.

Local Abbreviation cmpD := (compareDate Date_getTime).
Local Abbreviation monitor := (processFFXIVNews sortByDate newsSink clock).
Local Abbreviation stepM := (processStep newsSink clock).

Lemma newArticlesOf_filter allArticles previousIds :
  newArticlesOf allArticles previousIds
  = filter (λ a, id a ∉ previousIds) allArticles.
Proof.
  unfold newArticlesOf. apply List_filter_filter. intros a Ha.
  unfold includes. rewrite bool_decide_eq_true.
  rewrite (List_filter_filter _ (λ x, x ∉ previousIds)).
  - rewrite list_elem_of_filter. split; [by intros [? _]|]. intros Hn.
    split; [done|]. apply list_elem_of_fmap. by exists a.
  - intros x _. rewrite negb_true_iff, bool_decide_eq_false. done.
Qed.

Lemma filter_none {A} (P : A → Prop) `{!∀ x, Decision (P x)} (l : list A) :
  Forall (λ x, ¬ P x) l → filter P l = [].
Proof.
  induction 1 as [|x r Hx _ IH]; [done|]. by rewrite filter_cons_False.
Qed.

(** The loop of a first run records every article and calls no sink. *)
Lemma first_run_loop l s k :
  let st := foldl (stepM true) (s, k) l in
  ms_calls st.1 = ms_calls s ∧
  (∀ key, key ∈ (ms_sentMap st.1).*1 ↔
          key ∈ (ms_sentMap s).*1 ∨ key ∈ id <$> l).
Proof.
  revert s k. induction l as [|a l IH]; intros s k; simpl.
  - split; [done|]. intros key. rewrite elem_of_nil. tauto.
  - destruct (IH (mkMonitorState (record clock k a (ms_sentMap s))
                    (S (ms_successCount s)) (ms_calls s)) (S k)) as [H1 H2].
    split; [done|]. intros key. rewrite H2. simpl. unfold record.
    rewrite map_set_keys, elem_of_cons. tauto.
Qed.

(** The loop of a later run calls the sink on every article in turn and
    records the ones it accepts, nothing else. *)
Lemma later_run_loop l s k :
  let st := foldl (stepM false) (s, k) l in
  ms_calls st.1 = ms_calls s ++ l ∧
  (∀ key, key ∈ (ms_sentMap st.1).*1 ↔
          key ∈ (ms_sentMap s).*1 ∨
          ∃ j a, l !! j = Some a ∧ id a = key ∧
                 newsSink (length (ms_calls s) + j) a = true) ∧
  (∀ key, (∀ j a, l !! j = Some a → id a = key →
                  newsSink (length (ms_calls s) + j) a = false) →
          map_get key (ms_sentMap st.1) = map_get key (ms_sentMap s)).
Proof.
  revert s k. induction l as [|a l IH]; intros s k.
  - simpl. split; [by rewrite app_nil_r|]. split; [|done].
    intros key. split; [by left|]. by intros [? | (j & b & ? & _)].
  - simpl foldl.
    assert (Hshift : ∀ j, length (ms_calls s) + 1 + j = length (ms_calls s) + S j)
      by (intros; lia).
    destruct (newsSink (length (ms_calls s)) a) eqn:Hs.
    + destruct (IH (mkMonitorState (record clock k a (ms_sentMap s))
                      (S (ms_successCount s)) (ms_calls s ++ [a])) (S k))
        as (H1 & H2 & H3).
      simpl in H1, H2, H3. rewrite length_app in H2, H3. simpl in H2, H3.
      split; [by rewrite H1, <-app_assoc|]. split.
      * intros key. rewrite H2. unfold record. rewrite map_set_keys. split.
        -- intros [[-> | ?] | (j & b & Hj & Hb & Hacc)].
           ++ right. exists 0, a. by rewrite Nat.add_0_r.
           ++ by left.
           ++ right. exists (S j), b. by rewrite <-Hshift.
        -- intros [? | (j & b & Hj & Hb & Hacc)]; [by left; right|].
           destruct j as [|j].
           ++ simpl in Hj. simplify_eq. by left; left.
           ++ right. exists j, b. by rewrite Hshift.
      * intros key Hkey. rewrite H3.
        -- unfold record. apply map_get_set_ne. intros Heq.
           specialize (Hkey 0 a eq_refl Heq). rewrite Nat.add_0_r in Hkey. congruence.
        -- intros j b Hj Hb. rewrite Hshift. by apply Hkey.
    + destruct (IH (mkMonitorState (ms_sentMap s) (ms_successCount s)
                      (ms_calls s ++ [a])) (S k)) as (H1 & H2 & H3).
      simpl in H1, H2, H3. rewrite length_app in H2, H3. simpl in H2, H3.
      split; [by rewrite H1, <-app_assoc|]. split.
      * intros key. rewrite H2. split.
        -- intros [? | (j & b & Hj & Hb & Hacc)]; [by left|].
           right. exists (S j), b. by rewrite <-Hshift.
        -- intros [? | (j & b & Hj & Hb & Hacc)]; [by left|].
           destruct j as [|j].
           ++ simpl in Hj. simplify_eq. rewrite Nat.add_0_r in Hacc. congruence.
           ++ right. exists j, b. by rewrite Hshift.
      * intros key Hkey. rewrite H3; [done|]. intros j b Hj Hb.
        rewrite Hshift. by apply Hkey.
Qed.

(** X13. On a run that finds a snapshot, the sent map of the monitor
    changes exactly at the ids of the articles the sink accepted: such an
    id is in the map afterwards, and an id no accepted call carries keeps
    the record it had, or none. *)
Theorem monitor_records_accepted_only
    (testMode : bool) (allArticles : list NewsArticle) (previousIds : list string)
    (sentMap0 : JsMap MonitorEntry) (r : MonitorResult) :
  processFFXIVNews sortByDate newsSink clock testMode
    allArticles previousIds sentMap0 = Some r →
  previousIds ≠ [] →
  (∀ k a, mr_calls r !! k = Some a → newsSink k a = true →
          id a ∈ (mr_sentMap r).*1) ∧
  (∀ key, (∀ k a, mr_calls r !! k = Some a → id a = key → newsSink k a = false) →
          map_get key (mr_sentMap r) = map_get key sentMap0).
Proof.
  unfold processFFXIVNews. fold (newArticlesOf allArticles previousIds).
  set (new := newArticlesOf allArticles previousIds).
  case_bool_decide as Hlen; [done|].
  intros Hr Hne.
  assert (Hfirst : bool_decide (length previousIds = 0) = false).
  { apply bool_decide_eq_false. by destruct previousIds. }
  rewrite Hfirst in Hr.
  set (todo := if testMode && bool_decide (0 < length (sortByDate new))
               then match last (sortByDate new) with
                    | Some a => [a] | None => [] end
               else sortByDate new) in *.
  pose proof (later_run_loop todo (mkMonitorState sentMap0 0 []) 0)
    as (H1 & H2 & H3).
  destruct (foldl _ _ todo) as [s k]. simplify_eq. simpl in *.
  rewrite H1. split.
  - intros k' a Hk Hacc. apply H2. right. by exists k', a.
  - intros key Hkey. by apply H3.
Qed.

Section SortContract.
(** What the engine's sort does in any case: it permutes the array; and
    what it does with the consistent comparator of parsable dates. *)
Hypothesis sort_permutes : ∀ l, sortByDate l ≡ₚ l.
Hypothesis sort_stable : ∀ l,
  Forall (validDate Date_getTime) l → sortByDate l = sortBy cmpD l.

(** X12. Outside test mode the monitor returns early, before any write,
    exactly when no article has an id that is missing from the snapshot.
    Otherwise it processes exactly the articles whose id is not in the
    snapshot, sorted by date when all their dates parse, and writes the
    ids of all current articles as the new snapshot whatever the sink
    answers. On a first run it calls no sink and records every article;
    on a later run it calls the sink once on each processed article, in
    that order. A run that starts from the snapshot just written finds
    nothing new, so an article the sink refused is not offered again. *)
Theorem monitor_run_replaces_snapshot
    (allArticles : list NewsArticle) (previousIds : list string)
    (sentMap0 : JsMap MonitorEntry) :
  (processFFXIVNews sortByDate newsSink clock false
     allArticles previousIds sentMap0 = None ↔
   filter (λ a, id a ∉ previousIds) allArticles = []) ∧
  (∀ r, processFFXIVNews sortByDate newsSink clock false
          allArticles previousIds sentMap0 = Some r →
     mr_snapshotWrite r = Some (id <$> allArticles) ∧
     mr_processed r ≡ₚ filter (λ a, id a ∉ previousIds) allArticles ∧
     (Forall (validDate Date_getTime)
        (filter (λ a, id a ∉ previousIds) allArticles) →
      Sorted (leBy cmpD) (mr_processed r)) ∧
     (previousIds = [] →
        mr_calls r = [] ∧
        ∀ a, a ∈ allArticles → id a ∈ (mr_sentMap r).*1) ∧
     (previousIds ≠ [] → mr_calls r = mr_processed r)) ∧
  (∀ sort' sink' clock' testMode' sentMap',
     processFFXIVNews sort' sink' clock' testMode' allArticles
       (id <$> allArticles) sentMap' = None).
Proof.
  unfold processFFXIVNews. fold (newArticlesOf allArticles previousIds).
  fold (newArticlesOf allArticles (id <$> allArticles)).
  rewrite !newArticlesOf_filter.
  set (new := filter (λ a, id a ∉ previousIds) allArticles).
  split; [|split].
  - case_bool_decide as Hlen.
    + split; [|done]. intros _. by destruct new.
    + destruct (foldl _ _ _). split; [done|]. intros Hnew. by rewrite Hnew in Hlen.
  - intros r. case_bool_decide as Hlen; [done|].
    rewrite andb_false_l.
    destruct (foldl _ _ _) as [s k] eqn:Hloop.
    intros [= <-]. simpl.
    split; [by rewrite orb_true_r|].
    split; [apply sort_permutes|].
    split.
    { intros Hv. rewrite (sort_stable _ Hv).
      apply sortBy_Sorted, compareDate_total. }
    split.
    + intros ->.
      pose proof (first_run_loop (sortByDate new) (mkMonitorState sentMap0 0 []) 0)
        as [H1 H2].
      simpl in Hloop. rewrite Hloop in H1, H2. simpl in H1, H2.
      split; [done|]. intros a Ha. apply H2. right.
      rewrite sort_permutes. apply list_elem_of_fmap. exists a. split; [done|].
      subst new. apply list_elem_of_filter. split; [apply not_elem_of_nil | done].
    + intros Hne.
      assert (Hfirst : bool_decide (length previousIds = 0) = false).
      { apply bool_decide_eq_false. by destruct previousIds. }
      rewrite Hfirst in Hloop.
      pose proof (later_run_loop (sortByDate new) (mkMonitorState sentMap0 0 []) 0)
        as [H1 _].
      rewrite Hloop in H1. done.
  - intros sort' sink' clock' testMode' sentMap'.
    rewrite filter_none; [done|].
    apply Forall_forall. intros a Ha Hn. apply Hn.
    apply list_elem_of_fmap. by exists a.
Qed.
End SortContract.
End MonitorRuns.

(** ** The sent map of the news monitor *)

(** Deleting the keys of one part of a map leaves the other part. *)
Lemma filter_out_keys {V} (m l1 l2 : list (string * V)) :
  NoDup m.*1 → l1 ++ l2 ≡ₚ m →
  filter (λ he, he.1 ∉ l1.*1) m ≡ₚ l2.
Proof.
  intros Hnd Hperm.
  assert (Hk : NoDup (l1 ++ l2).*1) by (by rewrite Hperm).
  assert (Hn : NoDup (l1 ++ l2)) by (by eapply NoDup_fmap_1).
  pose proof Hn as Hn'. apply NoDup_app in Hn' as (_ & Hdisj & Hn2).
  apply NoDup_Permutation; [| done |].
  - apply (NoDup_fmap_1 fst). by apply filter_keys_NoDup.
  - intros x. rewrite list_elem_of_filter, <-Hperm, elem_of_app. split.
    + intros [Hout [Hx | Hx]]; [|done].
      exfalso. apply Hout. apply list_elem_of_fmap. by exists x.
    + intros Hx. split; [|by right].
      intros (y & Hy1 & Hy)%list_elem_of_fmap.
      assert (x = y).
      { apply (NoDup_fmap_elem_inj fst (l1 ++ l2)); [done | | | done];
          apply elem_of_app; auto. }
      subst y. by apply (Hdisj x).
Qed.

Lemma filter_out_keys_r {V} (m l1 l2 : list (string * V)) :
  NoDup m.*1 → l1 ++ l2 ≡ₚ m →
  filter (λ he, he.1 ∉ l2.*1) m ≡ₚ l1.
Proof.
  intros Hnd Hperm. apply filter_out_keys; [done|].
  by rewrite (comm app).
Qed.

Section MonitorStoreFacts.
Import NewsMonitor.
Variable Date_getTime : string → option Z.

Local Abbreviation cmpN := (MonitorStore.compareNewestFirst Date_getTime).
Local Abbreviation pruneM := (MonitorStore.pruneSentMap Date_getTime).
Local Abbreviation saveM := (MonitorStore.saveSentMap Date_getTime).
Local Abbreviation validR := (validRecord Date_getTime).
Local Abbreviation noLaterR := (recordedNoLater Date_getTime).

Lemma compareNewestFirst_total a b : (cmpN a b ≤ 0 ∨ cmpN b a ≤ 0)%Z.
Proof.
  unfold MonitorStore.compareNewestFirst.
  destruct (Date_getTime (m_sentAt a.2)), (Date_getTime (m_sentAt b.2)); lia.
Qed.

Lemma sorted_newest_first l :
  Forall validR l → Sorted (leBy cmpN) l →
  StronglySorted (λ a b, noLaterR b a) l.
Proof.
  intros Hv Hs. induction Hs as [|a l Hl IH Ha]; [constructor|].
  apply Forall_cons in Hv as [[x Hx] Hv].
  specialize (IH Hv). constructor; [done|].
  destruct Ha as [|b l Hab]; [constructor|].
  apply Forall_cons in Hv as [[y Hy] Hv].
  assert (Hxy : (y ≤ x)%Z).
  { unfold leBy, MonitorStore.compareNewestFirst in Hab.
    rewrite Hx, Hy in Hab. lia. }
  constructor; [by exists y, x|].
  apply StronglySorted_inv in IH as [_ Hb].
  eapply Forall_impl; [done|]. simpl.
  intros c (z & y' & Hz & Hy' & Hzy). exists z, x.
  rewrite Hy in Hy'. simplify_eq. split; [done|]. split; [done|]. lia.
Qed.

Lemma monitor_prune_eq (sentMap : JsMap MonitorEntry) :
  NoDup sentMap.*1 →
  pruneM sentMap =
    filter (λ he, he.1 ∉ (drop MAX_SENT_MAP_SIZE (sortBy cmpN sentMap)).*1) sentMap ∧
  pruneM sentMap ≡ₚ take MAX_SENT_MAP_SIZE (sortBy cmpN sentMap).
Proof.
  intros Hnd. unfold MonitorStore.pruneSentMap.
  rewrite deleteKeys_filter by done. split; [done|].
  apply filter_out_keys_r; [done|].
  rewrite take_drop. apply sortBy_Permutation.
Qed.

(** X14. [saveSentMap] of the news monitor stores at most 500 records: a
    map within the capacity is stored as it is, a larger one is cut to
    exactly 500, in the order the records had. When every [sentAt]
    parses, each record kept was recorded no earlier than any record
    dropped. Saving what was saved drops nothing more. *)
Theorem monitor_sent_map_keeps_newest (sentMap : JsMap MonitorEntry) :
  NoDup sentMap.*1 →
  let saved := MonitorStore.saveSentMap Date_getTime sentMap in
  map_size saved = min (map_size sentMap) MAX_SENT_MAP_SIZE ∧
  saved `sublist_of` sentMap ∧
  (map_size sentMap ≤ MAX_SENT_MAP_SIZE → saved = sentMap) ∧
  (Forall validR sentMap →
     ∀ gone kept, gone ∈ sentMap → gone ∉ saved → kept ∈ saved →
                  noLaterR gone kept) ∧
  MonitorStore.saveSentMap Date_getTime saved = saved.
Proof.
  intros Hnd saved. subst saved.
  assert (Hsmall : ∀ m, map_size m ≤ MAX_SENT_MAP_SIZE → saveM m = m).
  { intros m Hm. unfold MonitorStore.saveSentMap.
    rewrite bool_decide_eq_false_2; [done | lia]. }
  destruct (decide (MAX_SENT_MAP_SIZE < map_size sentMap)) as [Hsize | Hsize].
  - assert (Hsave : saveM sentMap = pruneM sentMap).
    { unfold MonitorStore.saveSentMap. by rewrite bool_decide_eq_true_2. }
    rewrite Hsave.
    destruct (monitor_prune_eq sentMap Hnd) as [Heq Hperm].
    assert (Hp : sortBy cmpN sentMap ≡ₚ sentMap) by apply sortBy_Permutation.
    assert (Hlen : map_size (pruneM sentMap) = MAX_SENT_MAP_SIZE).
    { unfold map_size in *. rewrite Hperm, length_take, Hp. lia. }
    split; [unfold map_size in *; lia|].
    split; [rewrite Heq; apply sublist_filter|].
    split; [unfold map_size in *; lia|]. split.
    + intros Hvalid gone kept Hg Hgone Hkept.
      assert (Hsorted : StronglySorted (λ a b, noLaterR b a) (sortBy cmpN sentMap)).
      { apply sorted_newest_first; [by rewrite Hp|].
        apply sortBy_Sorted, compareNewestFirst_total. }
      rewrite <-(take_drop MAX_SENT_MAP_SIZE (sortBy cmpN sentMap)) in Hsorted.
      rewrite Hperm in Hkept.
      eapply (StronglySorted_app_1_elem_of _ _ _ _ _ Hsorted Hkept).
      rewrite <-Hp, <-(take_drop MAX_SENT_MAP_SIZE (sortBy cmpN sentMap)) in Hg.
      apply elem_of_app in Hg as [Hg | Hg]; [|done].
      exfalso. apply Hgone. by rewrite Hperm.
    + apply Hsmall. lia.
  - rewrite Hsmall by lia.
    split; [unfold map_size in *; lia|]. split; [done|]. split; [done|].
    split; [done|]. apply Hsmall. lia.
Qed.
End MonitorStoreFacts.

(** ** The PTT Lifeismoney worker *)

Section LifeismoneyFacts.
Import Lifeismoney.

Lemma mergeState_snoc items entries entry :
  mergeState items (entries ++ [entry]) = mergeEntry (mergeState items entries) entry.
Proof. unfold mergeState. by rewrite foldl_app. Qed.

Lemma mergeEntry_refreshed items entry :
  ∃ item, map_get (e_id entry) (mergeEntry items entry) = Some item ∧
          refreshedFrom (storedItem items (e_id entry)) entry item.
Proof.
  unfold mergeEntry. eexists. rewrite map_get_set_eq. split; [done|].
  by repeat split.
Qed.

Lemma refreshedFrom_again existing entry item entry' item' :
  refreshedFrom existing entry item → refreshedFrom item entry' item' →
  refreshedFrom existing entry' item'.
Proof.
  intros (_ & _ & _ & _ & _ & Hs & Ha) (H1 & H2 & H3 & H4 & H5 & Hs' & Ha').
  repeat (split; [done|]). split.
  - rewrite Hs', Hs. f_equal. apply bool_decide_ext. split.
    + intros [= H]. by apply bool_decide_eq_true in H.
    + intros H. by rewrite bool_decide_eq_true_2.
  - by rewrite Ha', Ha, js_or_null_idem.
Qed.

Lemma mergeState_spec (items : JsMap Item) (entries : list Entry) :
  let merged := mergeState items entries in
  (NoDup items.*1 → NoDup merged.*1) ∧
  (∀ key, key ∉ e_id <$> entries → map_get key merged = map_get key items) ∧
  (∀ key, key ∈ e_id <$> entries →
     ∃ entry item,
       last (filter (λ e, e_id e = key) entries) = Some entry ∧
       map_get key merged = Some item ∧
       refreshedFrom (storedItem items key) entry item).
Proof.
  induction entries as [|entry entries IH] using rev_ind; simpl.
  { split; [done|]. split; [done|]. intros key Hk. by apply elem_of_nil in Hk. }
  destruct IH as (IH1 & IH2 & IH3).
  rewrite mergeState_snoc. split; [|split].
  - intros Hnd. unfold mergeEntry. by apply map_set_NoDup, IH1.
  - intros key Hk. rewrite fmap_app, elem_of_app in Hk. simpl in Hk.
    rewrite list_elem_of_singleton in Hk.
    unfold mergeEntry. rewrite map_get_set_ne by (intros ?; apply Hk; auto).
    apply IH2. intros ?. apply Hk. auto.
  - intros key Hk. rewrite filter_app.
    destruct (decide (e_id entry = key)) as [Heq | Hne].
    + rewrite filter_cons_True, filter_nil by done.
      exists entry. rewrite last_snoc.
      destruct (mergeEntry_refreshed (mergeState items entries) entry)
        as (item & Hget & Href).
      rewrite Heq in Hget, Href. exists item. split; [done|]. split; [done|].
      destruct (decide (key ∈ e_id <$> entries)) as [Hin | Hout].
      * destruct (IH3 key Hin) as (entry0 & item0 & _ & Hget0 & Href0).
        unfold storedItem in Href at 1. rewrite Hget0 in Href. simpl in Href.
        by eapply refreshedFrom_again.
      * unfold storedItem in Href |- *. by rewrite (IH2 key Hout) in Href.
    + rewrite filter_cons_False, filter_nil, app_nil_r by done.
      rewrite fmap_app, elem_of_app in Hk. simpl in Hk.
      rewrite list_elem_of_singleton in Hk.
      destruct Hk as [Hk | Hk]; [|congruence].
      destruct (IH3 key Hk) as (entry0 & item0 & Hlast & Hget0 & Href0).
      exists entry0, item0. split; [done|]. split; [|done].
      unfold mergeEntry. by rewrite map_get_set_ne.
Qed.

(** An item [mergeState] leaves sent was stored as sent. *)
Lemma mergeState_sent items entries key item :
  map_get key (mergeState items entries) = Some item →
  truthy (i_sent item) = true ∨ i_sent (storedItem items key) ≠ VBool true.
Proof.
  intros Hget. destruct (mergeState_spec items entries) as (_ & H2 & H3).
  destruct (decide (key ∈ e_id <$> entries)) as [Hin | Hout].
  - destruct (H3 key Hin) as (entry & item' & _ & Hget' & Href).
    rewrite Hget in Hget'. simplify_eq.
    destruct Href as (_ & _ & _ & _ & _ & Hs & _). rewrite Hs.
    case_bool_decide; [by left | by right].
  - rewrite (H2 key Hout) in Hget. unfold storedItem. rewrite Hget. simpl.
    destruct (decide (i_sent item = VBool true)) as [-> | Hne]; [by left | by right].
Qed.

Lemma mergeState_stays_sent items entries key item :
  map_get key items = Some item → i_sent item = VBool true →
  ∃ item', map_get key (mergeState items entries) = Some item' ∧
           i_sent item' = VBool true.
Proof.
  intros Hget Hs. destruct (mergeState_spec items entries) as (_ & H2 & H3).
  destruct (decide (key ∈ e_id <$> entries)) as [Hin | Hout].
  - destruct (H3 key Hin) as (entry & item' & _ & Hget' & Href).
    exists item'. split; [done|].
    destruct Href as (_ & _ & _ & _ & _ & Hs' & _). rewrite Hs'.
    unfold storedItem. rewrite Hget. simpl. by rewrite bool_decide_eq_true_2.
  - exists item. by rewrite (H2 key Hout).
Qed.

(** X15. [mergeState] rewrites the items the entries name and no other.
    An item named by an entry carries the fields of the last entry with
    its id; its [sent] is [true] exactly when the stored [sent] was
    [true], and its [sentAt] is the stored one, or [null]. So an item
    stored as sent stays sent, and an item the state did not hold comes
    out unsent with no [sentAt]. Keys stay distinct. *)
Theorem mergeState_keeps_sent_state (items : JsMap Item) (entries : list Entry) :
  let merged := mergeState items entries in
  (NoDup items.*1 → NoDup merged.*1) ∧
  (∀ key, key ∉ e_id <$> entries → map_get key merged = map_get key items) ∧
  (∀ key, key ∈ e_id <$> entries →
     ∃ entry item,
       last (filter (λ e, e_id e = key) entries) = Some entry ∧
       map_get key merged = Some item ∧
       refreshedFrom (storedItem items key) entry item) ∧
  (∀ key item, map_get key items = Some item → i_sent item = VBool true →
     ∃ item', map_get key merged = Some item' ∧ i_sent item' = VBool true) ∧
  (∀ key, map_get key items = None → key ∈ e_id <$> entries →
     ∃ item', map_get key merged = Some item' ∧
              i_sent item' = VBool false ∧ i_sentAt item' = VNull).
Proof.
  intros merged. subst merged.
  destruct (mergeState_spec items entries) as (H1 & H2 & H3).
  split; [done|]. split; [done|]. split; [done|]. split.
  - intros key item Hget Hs. by eapply mergeState_stays_sent.
  - intros key Hnone Hin.
    destruct (H3 key Hin) as (entry & item & _ & Hget & Href).
    exists item. split; [done|].
    destruct Href as (_ & _ & _ & _ & _ & Hs & Ha).
    unfold storedItem in Hs, Ha. rewrite Hnone in Hs, Ha. simpl in Hs, Ha.
    by rewrite Hs, Ha.
Qed.

Lemma isCandidate_true item :
  isCandidate item = true ↔
    truthy (i_sent item) = false ∧ ∃ n, i_push item = VNum n ∧ (PUSH_THRESHOLD ≤ n)%Z.
Proof.
  unfold isCandidate. rewrite andb_true_iff, negb_true_iff. split.
  - intros [Hs Hp]. split; [done|].
    destruct (i_push item) as [| | |n| |]; try done.
    exists n. split; [done|]. apply negb_true_iff, Z.ltb_ge in Hp. done.
  - intros [Hs (n & -> & Hn)]. split; [done|].
    apply negb_true_iff, Z.ltb_ge. done.
Qed.

Lemma StronglySorted_take {A} (R : relation A) n l :
  StronglySorted R l → StronglySorted R (take n l).
Proof.
  intros Hs. revert n. induction Hs as [|x l Hl IH Hx]; intros [|n]; simpl;
    try constructor; [apply IH|].
  apply Forall_forall. intros y Hy. rewrite Forall_forall in Hx.
  apply Hx. by eapply subseteq_take.
Qed.

Section Selection.
Variable localeCompare : string → string → Z.
Hypothesis lc_total : ∀ s t, (localeCompare s t ≤ 0 ∨ localeCompare t s ≤ 0)%Z.

Local Abbreviation cmpP := (comparePush localeCompare).
Local Abbreviation select := (selectArticlesToSend localeCompare).

Lemma comparePush_total a b : (cmpP a b ≤ 0 ∨ cmpP b a ≤ 0)%Z.
Proof.
  unfold comparePush.
  destruct (i_push a.2) as [| | |x| |], (i_push b.2) as [| | |y| |]; try lia.
  repeat case_bool_decide; try lia. apply lc_total.
Qed.

Lemma sorted_by_push l :
  Forall (λ kv, isCandidate kv.2 = true) l → Sorted (leBy cmpP) l →
  StronglySorted pushNoLess l.
Proof.
  intros Hv Hs. induction Hs as [|a l Hl IH Ha]; [constructor|].
  apply Forall_cons in Hv as [(_ & x & Hx & _)%isCandidate_true Hv].
  specialize (IH Hv). constructor; [done|].
  destruct Ha as [|b l Hab]; [constructor|].
  apply Forall_cons in Hv as [(_ & y & Hy & _)%isCandidate_true Hv].
  assert (Hxy : (y ≤ x)%Z).
  { unfold leBy, comparePush in Hab. rewrite Hx, Hy in Hab.
    case_bool_decide; lia. }
  constructor; [by exists x, y|].
  apply StronglySorted_inv in IH as [_ Hb].
  eapply Forall_impl; [done|]. simpl.
  intros c (y' & z & Hy' & Hz & Hyz). exists x, z.
  rewrite Hy in Hy'. simplify_eq. split; [done|]. split; [done|]. lia.
Qed.

Lemma candidates_sorted (items : JsMap Item) :
  let sorted :=
    sortBy cmpP (List.filter (λ kv, isCandidate kv.2) (Object_entries items)) in
  sorted ≡ₚ filter (λ kv, isCandidate kv.2 = true) items ∧
  StronglySorted pushNoLess sorted.
Proof.
  intros sorted. subst sorted.
  rewrite (List_filter_filter _ (λ kv : string * Item, isCandidate kv.2 = true))
    by done.
  assert (Hp : sortBy cmpP (filter (λ kv : string * Item, isCandidate kv.2 = true)
                              (Object_entries items))
               ≡ₚ filter (λ kv, isCandidate kv.2 = true) items).
  { by rewrite sortBy_Permutation, Object_entries_Permutation. }
  split; [done|]. apply sorted_by_push.
  - rewrite Hp. apply Forall_forall. by intros x [? _]%list_elem_of_filter.
  - apply sortBy_Sorted, comparePush_total.
Qed.

Lemma select_eq (items : JsMap Item) testMode :
  let sorted :=
    sortBy cmpP (List.filter (λ kv, isCandidate kv.2) (Object_entries items)) in
  select items testMode = if testMode then take 1 sorted else sorted.
Proof.
  intros sorted. unfold selectArticlesToSend. fold sorted.
  destruct testMode; [|done]. simpl.
  case_bool_decide as Hlen; [done|]. destruct sorted; [done | simpl in Hlen; lia].
Qed.

Lemma select_candidates (items : JsMap Item) testMode :
  NoDup items.*1 →
  NoDup (select items testMode).*1 ∧
  (∀ key item, (key, item) ∈ select items testMode →
     map_get key items = Some item ∧ isCandidate item = true) ∧
  (testMode = false →
     ∀ key item, map_get key items = Some item → isCandidate item = true →
                 (key, item) ∈ select items testMode).
Proof.
  intros Hnd. rewrite select_eq.
  set (sorted := sortBy cmpP _).
  assert (Hperm : sorted ≡ₚ filter (λ kv, isCandidate kv.2 = true) items).
  { subst sorted.
    rewrite (List_filter_filter _ (λ kv : string * Item, isCandidate kv.2 = true))
      by done.
    by rewrite sortBy_Permutation, Object_entries_Permutation. }
  assert (Hin : ∀ key item, (key, item) ∈ sorted ↔
                  map_get key items = Some item ∧ isCandidate item = true).
  { intros key item. rewrite Hperm, list_elem_of_filter. simpl. split.
    - intros [Hc Hi]. split; [by apply map_get_elem | done].
    - intros [Hg Hc]. split; [done | by apply map_get_Some_elem]. }
  assert (Hkeys : NoDup sorted.*1).
  { rewrite Hperm. by apply filter_keys_NoDup. }
  split; [|split].
  - destruct testMode; [|done].
    eapply sublist_NoDup; [exact Hkeys|]. apply fmap_sublist, sublist_take.
  - intros key item Hsel. apply Hin.
    destruct testMode; [by eapply subseteq_take | done].
  - intros -> key item Hg Hc. by apply Hin.
Qed.

(** X16. [selectArticlesToSend] returns items of the state that are not
    sent and have a push count of at least 30, each once, the higher
    counts first. Outside test mode it returns every such item. In test
    mode it returns one item when there is any, and no candidate has a
    higher push count than that one. *)
Theorem selection_is_unsent_and_popular (items : JsMap Item) (testMode : bool) :
  NoDup items.*1 →
  let selected := selectArticlesToSend localeCompare items testMode in
  (∀ key item, (key, item) ∈ selected →
     map_get key items = Some item ∧ truthy (i_sent item) = false ∧
     ∃ n, i_push item = VNum n ∧ (30 ≤ n)%Z) ∧
  NoDup selected.*1 ∧
  StronglySorted pushNoLess selected ∧
  (testMode = false →
     ∀ key item, map_get key items = Some item → isCandidate item = true →
                 (key, item) ∈ selected) ∧
  (testMode = true →
     length selected ≤ 1 ∧
     ∀ key item, map_get key items = Some item → isCandidate item = true →
       ∃ top, selected = [top] ∧ pushNoLess top (key, item)).
Proof.
  intros Hnd selected. subst selected. rewrite select_eq.
  destruct (candidates_sorted items) as [Hperm Hsorted].
  set (sorted := sortBy cmpP _) in *.
  assert (Hin : ∀ key item, (key, item) ∈ sorted ↔
                  map_get key items = Some item ∧ isCandidate item = true).
  { intros key item. rewrite Hperm, list_elem_of_filter. simpl. split.
    - intros [Hc Hi]. split; [by apply map_get_elem | done].
    - intros [Hg Hc]. split; [done | by apply map_get_Some_elem]. }
  assert (Hkeys : NoDup sorted.*1).
  { rewrite Hperm. by apply filter_keys_NoDup. }
  assert (Hsub : ∀ key item,
            (key, item) ∈ (if testMode then take 1 sorted else sorted) →
            (key, item) ∈ sorted).
  { intros key item. destruct testMode; [apply subseteq_take | done]. }
  split; [|split; [|split; [|split]]].
  - intros key item [Hg Hc]%Hsub%Hin. split; [done|].
    by apply isCandidate_true in Hc.
  - destruct testMode; [|done].
    eapply sublist_NoDup; [exact Hkeys|]. apply fmap_sublist, sublist_take.
  - destruct testMode; [by apply StronglySorted_take | done].
  - intros -> key item Hg Hc. by apply Hin.
  - intros ->. split; [rewrite length_take; lia|].
    intros key item Hg Hc.
    assert (Hk : (key, item) ∈ sorted) by (by apply Hin).
    destruct sorted as [|top rest]; [by apply elem_of_nil in Hk|].
    exists top. split; [done|].
    apply StronglySorted_inv in Hsorted as [_ Hrest].
    apply elem_of_cons in Hk as [Heq | Hk].
    + subst top. apply isCandidate_true in Hc as (_ & n & Hn & _).
      exists n, n. simpl. split; [done|]. split; [done|]. lia.
    + rewrite Forall_forall in Hrest. by apply Hrest.
Qed.
End Selection.

Section LifeCycle.
Variable localeCompare : string → string → Z.
Variable sink : nat → Item → bool.
Variable clock : nat → string.

Local Abbreviation select := (selectArticlesToSend localeCompare).
Local Abbreviation stepL := (sendStep sink clock).
Local Abbreviation run := (processLifeismoney localeCompare sink clock).

Lemma sendStep_loop_calls sink' clock' (toSend : list (string * Item))
    (items : JsMap Item) (calls : list (string * Item)) :
  (foldl (sendStep sink' clock') (items, calls) toSend).2 = calls ++ toSend.
Proof.
  revert items calls. induction toSend as [|kv l IH]; intros items calls; simpl.
  - by rewrite app_nil_r.
  - unfold sendStep at 2. simpl.
    destruct (sink' (length calls) kv.2); rewrite IH, <-app_assoc; done.
Qed.

Lemma sendStep_loop (toSend : list (string * Item)) (items : JsMap Item)
    (calls : list (string * Item)) :
  NoDup toSend.*1 →
  let st := foldl stepL (items, calls) toSend in
  st.2 = calls ++ toSend ∧
  (∀ key, key ∉ toSend.*1 → map_get key st.1 = map_get key items) ∧
  (∀ j key item, toSend !! j = Some (key, item) →
     map_get key st.1 =
       if sink (length calls + j) item
       then Some (markSent item (clock (length calls + j)))
       else map_get key items).
Proof.
  revert items calls. induction toSend as [|[k0 i0] l IH]; intros items calls Hnd.
  { simpl. split; [by rewrite app_nil_r|]. split; [done|]. done. }
  rewrite fmap_cons in Hnd. apply NoDup_cons in Hnd as [Hk0 Hnd]. simpl in Hk0.
  simpl foldl. unfold sendStep at 2. simpl fst. simpl snd.
  set (items1 := if sink (length calls) i0
                 then map_set k0 (markSent i0 (clock (length calls))) items
                 else items).
  assert (Hst : (if sink (length calls) i0
                 then (map_set k0 (markSent i0 (clock (length calls))) items,
                       calls ++ [(k0, i0)])
                 else (items, calls ++ [(k0, i0)]))
                = (items1, calls ++ [(k0, i0)])).
  { subst items1. by destruct (sink (length calls) i0). }
  rewrite Hst. destruct (IH items1 (calls ++ [(k0, i0)]) Hnd) as (H1 & H2 & H3).
  rewrite length_app in H3. simpl in H3.
  assert (Hother : ∀ key, key ≠ k0 → map_get key items1 = map_get key items).
  { intros key Hne. subst items1. destruct (sink (length calls) i0); [|done].
    by apply map_get_set_ne. }
  split; [by rewrite H1, <-app_assoc|]. split.
  - intros key Hkey. rewrite fmap_cons, not_elem_of_cons in Hkey.
    destruct Hkey as [Hne Hkey]. simpl in Hne. rewrite H2 by done. by apply Hother.
  - intros [|j] key item Hj.
    + simpl in Hj. simplify_eq. rewrite Nat.add_0_r, H2 by done.
      subst items1. destruct (sink (length calls) item); [|done].
      apply map_get_set_eq.
    + simpl in Hj. rewrite (H3 j key item Hj).
      replace (length calls + 1 + j) with (length calls + S j) by lia.
      destruct (sink (length calls + S j) item); [done|].
      apply Hother. intros ->. apply Hk0. apply list_elem_of_fmap.
      exists (k0, item). split; [done|]. by eapply list_elem_of_lookup_2.
Qed.

Lemma sendStep_NoDup (toSend : list (string * Item)) (items : JsMap Item) calls :
  NoDup items.*1 → NoDup (foldl stepL (items, calls) toSend).1.*1.
Proof.
  revert items calls. induction toSend as [|kv l IH]; intros items calls Hnd;
    [done|].
  simpl. unfold sendStep at 2. simpl.
  destruct (sink (length calls) kv.2); apply IH; [by apply map_set_NoDup | done].
Qed.

(** X17. A run of the Lifeismoney worker calls the sink once on each
    selected item, in the order selected, and on no item that was stored
    as sent. An accepted item is written as sent with the time of the
    call, a refused one as it was selected, and every other item as
    [mergeState] left it; an item stored as sent is written as sent. *)
Theorem lifeismoney_run_sends_unsent_only
    (testMode : bool) (items : JsMap Item) (allEntries : list Entry) :
  NoDup items.*1 →
  let written :=
    (processLifeismoney localeCompare sink clock testMode items allEntries).1 in
  let calls :=
    (processLifeismoney localeCompare sink clock testMode items allEntries).2 in
  calls = selectArticlesToSend localeCompare (mergeState items allEntries) testMode ∧
  (∀ key item, (key, item) ∈ calls → i_sent (storedItem items key) ≠ VBool true) ∧
  (∀ j key item, calls !! j = Some (key, item) →
     map_get key written
     = Some (if sink j item then markSent item (clock j) else item)) ∧
  (∀ key, key ∉ calls.*1 →
     map_get key written = map_get key (mergeState items allEntries)) ∧
  (∀ key item, map_get key items = Some item → i_sent item = VBool true →
     ∃ item', map_get key written = Some item' ∧ i_sent item' = VBool true).
Proof.
  intros Hnd written calls. subst written calls. unfold processLifeismoney.
  set (merged := mergeState items allEntries).
  assert (Hmk : NoDup merged.*1) by (by apply mergeState_spec).
  destruct (select_candidates localeCompare merged testMode Hmk)
    as (Hsk & Hsel & _).
  destruct (sendStep_loop (select merged testMode) merged [] Hsk)
    as (H1 & H2 & H3).
  simpl in H1, H3. rewrite H1.
  split; [done|]. split; [|split; [|split]].
  - intros key item [Hget Hc]%Hsel.
    apply isCandidate_true in Hc as [Hs _].
    destruct (mergeState_sent _ _ _ _ Hget) as [Ht | Hne]; [congruence | done].
  - intros j key item Hj. rewrite (H3 j key item Hj).
    destruct (sink j item); [done|].
    apply Hsel. by eapply list_elem_of_lookup_2.
  - done.
  - intros key item Hget Hs.
    destruct (mergeState_stays_sent items allEntries key item Hget Hs)
      as (item' & Hget' & Hs').
    exists item'. split; [|done]. fold merged in Hget'. rewrite H2; [done|].
    intros (kv & Hk & Hin)%list_elem_of_fmap. destruct kv as [k i]. simpl in Hk.
    subst k. apply Hsel in Hin as [Hg Hc]. rewrite Hget' in Hg. simplify_eq.
    apply isCandidate_true in Hc as [Hc _]. by rewrite Hs' in Hc.
Qed.

(** X18. An item the sink refused stays unsent in the written state, and
    the next run outside test mode selects it again, whatever the sink
    and the clock of that run, as long as the board index no longer
    lists it; when it does, the item is judged on its new push count. *)
Theorem lifeismoney_refused_item_is_offered_again
    (testMode : bool) (items : JsMap Item) (allEntries : list Entry)
    (j : nat) (key : string) (item : Item) :
  NoDup items.*1 →
  (processLifeismoney localeCompare sink clock testMode items allEntries).2 !! j
    = Some (key, item) →
  sink j item = false →
  let written :=
    (processLifeismoney localeCompare sink clock testMode items allEntries).1 in
  map_get key written = Some item ∧
  truthy (i_sent item) = false ∧
  ∀ sink' clock' nextEntries,
    key ∉ e_id <$> nextEntries →
    (key, item) ∈ (processLifeismoney localeCompare sink' clock' false
                     written nextEntries).2.
Proof.
  intros Hnd Hj Hrefused written. subst written.
  unfold processLifeismoney in Hj |- *.
  set (merged := mergeState items allEntries) in *.
  assert (Hmk : NoDup merged.*1) by (by apply mergeState_spec).
  destruct (select_candidates localeCompare merged testMode Hmk)
    as (Hsk & Hsel & _).
  destruct (sendStep_loop (select merged testMode) merged [] Hsk)
    as (H1 & H2 & H3).
  simpl in H1, H3. rewrite H1 in Hj.
  assert (Hcand : map_get key merged = Some item ∧ isCandidate item = true).
  { apply Hsel. by eapply list_elem_of_lookup_2. }
  destruct Hcand as [Hget Hc].
  assert (Hw : map_get key (foldl stepL (merged, []) (select merged testMode)).1
               = Some item).
  { rewrite (H3 j key item Hj), Hrefused. done. }
  split; [done|]. split; [by apply isCandidate_true in Hc as [? _]|].
  intros sink' clock' nextEntries Hout.
  set (written := (foldl stepL (merged, []) (select merged testMode)).1) in *.
  assert (Hwk : NoDup written.*1) by (by apply sendStep_NoDup).
  set (merged' := mergeState written nextEntries).
  assert (Hmk' : NoDup merged'.*1) by (by apply mergeState_spec).
  destruct (select_candidates localeCompare merged' false Hmk')
    as (Hsk' & _ & Hall).
  pose proof (sendStep_loop_calls sink' clock' (select merged' false) merged' [])
    as Hcalls.
  simpl in Hcalls. rewrite Hcalls. apply Hall; [done| |done].
  subst merged'. destruct (mergeState_spec written nextEntries) as (_ & Hsame & _).
  by rewrite Hsame.
Qed.
End LifeCycle.
End LifeismoneyFacts.

(** ** The in-memory link cache *)

Section RecentLinkFacts.
Import RecentLinks.

Lemma purge_loop now (l c : JsMap Z) :
  NoDup c.*1 →
  foldl (λ c kv, if (RECENT_LINK_TTL_MS <? now - kv.2)%Z
                 then map_delete kv.1 c else c) c l
  = filter (λ he, he.1 ∉ (filter (λ kv, ¬ live now kv) l).*1) c.
Proof.
  revert c. induction l as [|kv l IH]; intros c Hnd; simpl.
  - symmetry. apply filter_all, Forall_forall. intros ? _. apply not_elem_of_nil.
  - destruct (RECENT_LINK_TTL_MS <? now - kv.2)%Z eqn:E.
    + apply Z.ltb_lt in E.
      rewrite filter_cons_True by (unfold live; lia). rewrite fmap_cons.
      rewrite IH by (rewrite map_delete_filter by done; by apply filter_keys_NoDup).
      rewrite map_delete_filter by done. rewrite list_filter_filter.
      apply list_filter_iff. intros x. rewrite not_elem_of_cons. tauto.
    + apply Z.ltb_ge in E.
      rewrite filter_cons_False by (unfold live; lia). by apply IH.
Qed.

Lemma purge_filter now (cache : JsMap Z) :
  NoDup cache.*1 → purge now cache = filter (live now) cache.
Proof.
  intros Hnd. unfold purge. rewrite purge_loop by done.
  apply filter_ext_elem. intros x Hx. split.
  - intros Hout. destruct (decide (live now x)) as [|Hbad]; [done|].
    exfalso. apply Hout. apply list_elem_of_fmap. exists x.
    split; [done|]. by apply list_elem_of_filter.
  - intros Hl (y & Hy1 & [Hyb Hy]%list_elem_of_filter)%list_elem_of_fmap.
    assert (x = y) by (by apply (NoDup_fmap_elem_inj fst cache)).
    by subst.
Qed.

Lemma map_get_filter {V} (P : string * V → Prop) `{!∀ x, Decision (P x)}
    (m : list (string * V)) k :
  NoDup m.*1 →
  map_get k (filter P m) =
    match map_get k m with
    | Some v => if decide (P (k, v)) then Some v else None
    | None => None
    end.
Proof.
  intros Hnd. destruct (map_get k m) as [v|] eqn:Hg.
  - apply map_get_Some_elem in Hg. destruct (decide (P (k, v))) as [Hp | Hp].
    + apply map_get_elem; [by apply filter_keys_NoDup|].
      by apply list_elem_of_filter.
    + apply map_get_None. intros (y & Hy1 & [Hyp Hy]%list_elem_of_filter)%list_elem_of_fmap.
      assert (y = (k, v)) as -> by (by apply (NoDup_fmap_elem_inj fst m)).
      done.
  - apply map_get_None. apply map_get_None in Hg. intros Hin. apply Hg.
    apply list_elem_of_fmap in Hin as (y & -> & [_ Hy]%list_elem_of_filter).
    apply list_elem_of_fmap. by exists y.
Qed.

Lemma isRecentlyProcessed_spec now link_ (cache : JsMap Z) :
  NoDup cache.*1 → nonEmpty link_ = true →
  let kept := filter (live now) cache in
  isRecentlyProcessed now link_ cache =
    match map_get link_ kept with
    | Some _ => (true, kept)
    | None => (false, kept ++ [(link_, now)])
    end.
Proof.
  intros Hnd Hl kept. unfold isRecentlyProcessed. rewrite Hl. simpl.
  rewrite purge_filter by done. fold kept.
  destruct (map_get link_ kept) eqn:Hg; [done|].
  rewrite map_set_absent; [done|]. by apply map_get_None.
Qed.

(** X19. [isRecentlyProcessed] answers [true] exactly when the cache holds
    the link with a time at most ten minutes old. It first drops every
    expired link; afterwards the cache holds the link, under the time it
    had on a hit and under the present time otherwise, and every other
    live link as before. A call with an empty link answers [false] and
    leaves the cache as it is. *)
Theorem isRecentlyProcessed_answers_live_links
    (now : Z) (link_ : string) (cache : JsMap Z) :
  NoDup cache.*1 →
  let recent := (isRecentlyProcessed now link_ cache).1 in
  let cache' := (isRecentlyProcessed now link_ cache).2 in
  (nonEmpty link_ = false → recent = false ∧ cache' = cache) ∧
  (nonEmpty link_ = true →
     (recent = true ↔
        ∃ t, map_get link_ cache = Some t ∧ (now - t ≤ 600000)%Z) ∧
     NoDup cache'.*1 ∧
     Forall (live now) cache' ∧
     (∃ t, map_get link_ cache' = Some t ∧
           if recent then map_get link_ cache = Some t else t = now) ∧
     (∀ other t, other ≠ link_ →
        map_get other cache' = Some t ↔
        map_get other cache = Some t ∧ (now - t ≤ 600000)%Z)).
Proof.
  intros Hnd recent cache'. subst recent cache'. split.
  { intros Hl. unfold isRecentlyProcessed. by rewrite Hl. }
  intros Hl. rewrite (isRecentlyProcessed_spec now link_ cache Hnd Hl).
  set (kept := filter (live now) cache).
  assert (Hkk : NoDup kept.*1) by (by apply filter_keys_NoDup).
  assert (Hlive : Forall (live now) kept).
  { apply Forall_forall. by intros x [? _]%list_elem_of_filter. }
  assert (Hget : ∀ k t, map_get k kept = Some t ↔
                        map_get k cache = Some t ∧ (now - t ≤ 600000)%Z).
  { intros k t. subst kept. rewrite map_get_filter by done.
    destruct (map_get k cache) as [v|]; [|by split; [|intros [? _]]].
    destruct (decide (live now (k, v))) as [Hv | Hv]; unfold live in Hv;
      simpl in Hv; change RECENT_LINK_TTL_MS with 600000%Z in Hv.
    - split; [by intros [= ->] | by intros [[= ->] _]].
    - split; [done|]. intros [[= ->] ?]. lia. }
  destruct (map_get link_ kept) as [t0|] eqn:Hk; simpl.
  - split; [|split; [done|split; [done|split]]].
    + split; [|done]. intros _. exists t0. by apply Hget.
    + exists t0. split; [done|]. by apply Hget in Hk as [? _].
    + intros other t _. apply Hget.
  - split; [|split; [|split; [|split]]].
    + split; [done|]. intros (t & Ht). apply Hget in Ht. congruence.
    + rewrite <-map_set_absent by (by apply map_get_None).
      by apply map_set_NoDup.
    + apply Forall_app. split; [done|]. constructor; [|constructor].
      unfold live. simpl. change RECENT_LINK_TTL_MS with 600000%Z. lia.
    + exists now. split; [|done].
      rewrite <-map_set_absent by (by apply map_get_None).
      apply map_get_set_eq.
    + intros other t Hne.
      rewrite <-map_set_absent by (by apply map_get_None).
      rewrite map_get_set_ne by done. apply Hget.
Qed.

(** X20. A link that was not in the cache is withheld for ten minutes
    from the call that recorded it: asked again at a later time, the
    answer is [true] up to ten minutes after the first call and [false]
    after that. *)
Theorem recent_link_is_withheld_for_ten_minutes
    (first later : Z) (link_ : string) (cache : JsMap Z) :
  NoDup cache.*1 → nonEmpty link_ = true →
  (isRecentlyProcessed first link_ cache).1 = false →
  let cache' := (isRecentlyProcessed first link_ cache).2 in
  (isRecentlyProcessed later link_ cache').1
  = bool_decide (later - first ≤ 600000)%Z.
Proof.
  intros Hnd Hl. rewrite (isRecentlyProcessed_spec first link_ cache Hnd Hl).
  set (kept := filter (live first) cache).
  assert (Hkk : NoDup kept.*1) by (by apply filter_keys_NoDup).
  destruct (map_get link_ kept) eqn:Hk; [done|]. intros _. simpl.
  assert (Hnd' : NoDup (kept ++ [(link_, first)]).*1).
  { rewrite <-map_set_absent by (by apply map_get_None). by apply map_set_NoDup. }
  rewrite (isRecentlyProcessed_spec later link_ _ Hnd' Hl).
  rewrite map_get_filter by done.
  rewrite <-map_set_absent by (by apply map_get_None).
  rewrite map_get_set_eq.
  destruct (decide (live later (link_, first))) as [Hv | Hv]; unfold live in Hv;
    simpl in Hv; change RECENT_LINK_TTL_MS with 600000%Z in Hv; simpl.
  - by rewrite bool_decide_eq_true_2.
  - by rewrite bool_decide_eq_false_2.
Qed.

Lemma freshStep_eq clock fresh (cache : JsMap Z) k item :
  NoDup cache.*1 →
  let kept := filter (live (clock k)) cache in
  freshStep clock (fresh, cache, k) item =
    if negb (nonEmpty (link item)) then (fresh, cache, k)
    else match map_get (link item) kept with
         | Some _ => (fresh, kept, S k)
         | None => (fresh ++ [item], map_set (link item) (clock k) kept, S k)
         end.
Proof.
  intros Hnd kept. unfold freshStep.
  destruct (nonEmpty (link item)) eqn:Hl; simpl; [|done].
  rewrite (isRecentlyProcessed_spec (clock k) (link item) cache Hnd Hl).
  fold kept. destruct (map_get (link item) kept) eqn:Hg; [done|].
  rewrite map_set_absent; [done|]. by apply map_get_None.
Qed.

Section Pass.
Variable clock : nat → Z.
Hypothesis clock_window : ∀ i j, i ≤ j → (clock j - clock i ≤ 600000)%Z.

Lemma kept_lookup (cache : JsMap Z) k l t :
  NoDup cache.*1 → map_get l cache = Some t → (clock k - t ≤ 600000)%Z →
  map_get l (filter (live (clock k)) cache) = Some t.
Proof.
  intros Hnd Hg Ht. rewrite map_get_filter, Hg by done.
  rewrite decide_True; [done|]. unfold live. simpl.
  change RECENT_LINK_TTL_MS with 600000%Z. lia.
Qed.

Lemma freshStep_loop items fresh (cache : JsMap Z) k :
  NoDup cache.*1 → NoDup (link <$> fresh) →
  (∀ a, a ∈ fresh → ∃ i, i < k ∧ map_get (link a) cache = Some (clock i)) →
  let st := foldl (freshStep clock) (fresh, cache, k) items in
  NoDup st.1.2.*1 ∧ NoDup (link <$> st.1.1) ∧
  (∀ a, a ∈ st.1.1 → ∃ i, map_get (link a) st.1.2 = Some (clock i)) ∧
  ∃ extra, st.1.1 = fresh ++ extra ∧ extra `sublist_of` items ∧
    Forall (λ a, nonEmpty (link a) = true) extra ∧
    ∀ l t, map_get l cache = Some t → (∀ j, clock j - t ≤ 600000)%Z →
           Forall (λ a, link a ≠ l) extra.
Proof.
  revert fresh cache k. induction items as [|item items IH];
    intros fresh cache k Hnd Hfresh Hcached.
  { simpl. split; [done|]. split; [done|]. split.
    - intros a Ha. destruct (Hcached a Ha) as (i & _ & Hi). by exists i.
    - exists []. rewrite app_nil_r. by repeat split. }
  cbv zeta.
  change (foldl (freshStep clock) (fresh, cache, k) (item :: items))
    with (foldl (freshStep clock) (freshStep clock (fresh, cache, k) item) items).
  rewrite freshStep_eq by done.
  set (kept := filter (live (clock k)) cache).
  assert (Hkk : NoDup kept.*1) by (by apply filter_keys_NoDup).
  assert (Hkept : ∀ a, a ∈ fresh →
            ∃ i, i < S k ∧ map_get (link a) kept = Some (clock i)).
  { intros a Ha. destruct (Hcached a Ha) as (i & Hi & Hg). exists i.
    split; [lia|]. apply kept_lookup; [done | done |]. apply clock_window. lia. }
  destruct (nonEmpty (link item)) eqn:Hl; simpl.
  2:{ destruct (IH fresh cache k Hnd Hfresh Hcached)
        as (H1 & H2 & H3 & extra & H4 & H5 & H6 & H7).
      split; [done|]. split; [done|]. split; [done|].
      exists extra. split; [done|]. split; [by apply sublist_cons|]. done. }
  destruct (map_get (link item) kept) as [t0|] eqn:Hg.
  - destruct (IH fresh kept (S k) Hkk Hfresh Hkept)
      as (H1 & H2 & H3 & extra & H4 & H5 & H6 & H7).
    split; [done|]. split; [done|]. split; [done|].
    exists extra. split; [done|]. split; [by apply sublist_cons|].
    split; [done|]. intros l t Hlt Hlive. apply (H7 l t); [|done].
    by apply kept_lookup.
  - set (cache1 := map_set (link item) (clock k) kept).
    assert (Hnew : ∀ a, a ∈ fresh → link a ≠ link item).
    { intros a Ha Heq. destruct (Hkept a Ha) as (i & _ & Hi). congruence. }
    destruct (IH (fresh ++ [item]) cache1 (S k)) as
      (H1 & H2 & H3 & extra & H4 & H5 & H6 & H7).
    + by apply map_set_NoDup.
    + rewrite fmap_app. apply NoDup_app. split; [done|]. split.
      * intros x Hx Hx'. apply list_elem_of_singleton in Hx'. subst x.
        apply list_elem_of_fmap in Hx as (a & Ha1 & Ha). by apply (Hnew a).
      * apply NoDup_singleton.
    + intros a [Ha | Ha%list_elem_of_singleton]%elem_of_app.
      * destruct (Hkept a Ha) as (i & Hi & Hgi). exists i. split; [done|].
        subst cache1. rewrite map_get_set_ne; [done|]. intros Heq.
        by apply (Hnew a).
      * subst a. exists k. split; [lia|]. apply map_get_set_eq.
    + split; [done|]. split; [done|]. split; [done|].
      exists (item :: extra). split; [by rewrite H4, <-app_assoc|].
      split; [by apply sublist_skip|]. split; [by constructor|].
      intros l t Hlt Hlive.
      assert (Hk : map_get l kept = Some t) by (by apply kept_lookup).
      assert (Hne : link item ≠ l) by congruence.
      constructor; [done|]. apply (H7 l t); [|done].
      subst cache1. by rewrite map_get_set_ne.
Qed.

Lemma sendFresh_prefix (throws : nat → Article → bool) (l : list Article) :
  ∃ rest, l = sendFresh throws l ++ rest ∧
          ((∀ k a, throws k a = false) → rest = []).
Proof.
  unfold sendFresh.
  assert (Hstop : ∀ l calls,
            foldl (λ (st : list Article * bool) item,
                     if st.2 then st
                     else (st.1 ++ [item], throws (length st.1) item))
                  (calls, true) l = (calls, true)).
  { intros l'. induction l' as [|a l' IH]; intros calls; [done | apply IH]. }
  assert (Hgen : ∀ l calls, ∃ rest,
            calls ++ l =
              (foldl (λ (st : list Article * bool) item,
                        if st.2 then st
                        else (st.1 ++ [item], throws (length st.1) item))
                     (calls, false) l).1 ++ rest ∧
            ((∀ k a, throws k a = false) → rest = [])).
  { intros l'. induction l' as [|a l' IH]; intros calls.
    - exists []. simpl. by rewrite !app_nil_r.
    - simpl. destruct (throws (length calls) a) eqn:Ht.
      + rewrite Hstop. simpl. exists l'. split; [by rewrite <-app_assoc|].
        intros Hno. by rewrite Hno in Ht.
      + destruct (IH (calls ++ [a])) as (rest & H1 & H2).
        exists rest. split; [|done]. by rewrite <-H1, <-app_assoc. }
  destruct (Hgen l []) as (rest & H1 & H2). by exists rest.
Qed.

(** X21. A pass of the stateless worker that takes no more than ten
    minutes sends no link twice: the items sent are items of the feed, in
    feed order, with non-empty and pairwise distinct links, at most one in
    test mode, and each of their links is in the cache afterwards, under
    the time of its check. An item whose link the cache held with a time
    that stays within ten minutes throughout the pass is not sent. *)
Theorem pass_sends_no_link_twice
    (throws : nat → Article → bool) (testMode : bool) (items : list Article)
    (cache : JsMap Z) :
  NoDup cache.*1 →
  let sentItems := (processRSS clock throws testMode items cache).1 in
  let cache' := (processRSS clock throws testMode items cache).2 in
  NoDup (link <$> sentItems) ∧
  sentItems `sublist_of` items ∧
  Forall (λ a, nonEmpty (link a) = true) sentItems ∧
  (testMode = true → length sentItems ≤ 1) ∧
  NoDup cache'.*1 ∧
  (∀ a, a ∈ sentItems → ∃ i, map_get (link a) cache' = Some (clock i)) ∧
  (∀ a t, map_get (link a) cache = Some t → (∀ j, clock j - t ≤ 600000)%Z →
          a ∉ sentItems).
Proof.
  intros Hnd sentItems cache'. subst sentItems cache'.
  unfold processRSS, freshItems.
  set (todo := if testMode && bool_decide (1 < length items)
               then take 1 items else items).
  assert (Hsub : todo `sublist_of` items).
  { subst todo. destruct (testMode && _); [apply sublist_take | done]. }
  assert (Hone : testMode = true → length todo ≤ 1).
  { intros ->. subst todo. simpl. case_bool_decide; [rewrite length_take|]; lia. }
  destruct (freshStep_loop todo [] cache 0 Hnd) as
    (H1 & H2 & H3 & extra & H4 & H5 & H6 & H7).
  { constructor. }
  { intros a Ha. by apply elem_of_nil in Ha. }
  destruct (foldl (freshStep clock) ([], cache, 0) todo) as [[fresh cache1] k1].
  simpl in H1, H2, H3, H4. subst fresh. simpl.
  destruct (sendFresh_prefix throws extra) as (rest & Hrest & _).
  assert (Hss : sendFresh throws extra `sublist_of` extra).
  { pose proof (sublist_inserts_r rest _ _
                  (reflexivity (sendFresh throws extra))) as Hss.
    by rewrite <-Hrest in Hss. }
  clear Hrest. set (sentItems := sendFresh throws extra) in *.
  split; [eapply sublist_NoDup; [exact H2 | by apply fmap_sublist]|].
  split; [by do 2 (etrans; [done|])|].
  split.
  { apply Forall_forall. intros a Ha. rewrite Forall_forall in H6.
    apply H6. by eapply elem_of_sublist. }
  split.
  { intros Ht. apply sublist_length in H5, Hss. specialize (Hone Ht). lia. }
  split; [done|]. split.
  - intros a Ha. apply H3. by eapply elem_of_sublist.
  - intros a t Ha Hlive Hin. specialize (H7 _ _ Ha Hlive).
    rewrite Forall_forall in H7. apply (H7 a); [|done].
    by eapply elem_of_sublist.
Qed.
End Pass.
End RecentLinkFacts.

(** ** [processAllRSS] *)

Lemma compareTime_total a b : (compareTime a b ≤ 0 ∨ compareTime b a ≤ 0)%Z.
Proof. unfold compareTime. destruct (sortTime a), (sortTime b); lia. Qed.

Lemma compareTime_timeNoLater a b : leBy compareTime a b ↔ timeNoLater a b.
Proof.
  unfold leBy, compareTime, timeNoLater.
  destruct (sortTime a), (sortTime b); lia.
Qed.

Lemma leBy_compareTime_trans : Transitive (leBy compareTime).
Proof.
  intros a b c. rewrite !compareTime_timeNoLater. apply timeNoLater_trans.
Qed.

Lemma sendAllStep_stopped sink l calls count :
  foldl (sendAllStep sink) (calls, count, true) l = (calls, count, true).
Proof. induction l as [|a l IH]; [done | apply IH]. Qed.

Lemma sendAll_loop (sink : nat → Article → Outcome) l calls count :
  let st := foldl (sendAllStep sink) (calls, count, false) l in
  ∃ made rest,
    l = made ++ rest ∧ st.1.1 = calls ++ made ∧
    count ≤ st.1.2 ≤ count + length made ∧
    ((∀ k a, sink k a ≠ Threw) → rest = []) ∧
    ((∀ k a, sink k a = Accepted) → st.1.2 = count + length l) ∧
    (rest ≠ [] → ∃ a, last made = Some a ∧
                      sink (length calls + length made - 1) a = Threw).
Proof.
  revert calls count. induction l as [|a l IH]; intros calls count.
  { exists [], []. simpl. rewrite app_nil_r. repeat split; try lia; done. }
  simpl foldl. destruct (sink (length calls) a) eqn:Hs.
  - destruct (IH (calls ++ [a]) (S count)) as (made & rest & H1 & H2 & H3 & H4 & H5 & H6).
    rewrite length_app in H6. simpl in H6.
    exists (a :: made), rest. simpl.
    split; [by rewrite H1|]. split; [by rewrite H2, <-app_assoc|].
    split; [lia|]. split; [done|]. split.
    + intros Hall. rewrite (H5 Hall). lia.
    + intros Hr. destruct (H6 Hr) as (b & Hb & Hthrew).
      exists b. split.
      * destruct made; [done|]. by rewrite <-Hb.
      * destruct made as [|c made]; [done|].
        replace (length calls + S (length (c :: made)) - 1)
          with (length calls + 1 + length (c :: made) - 1) by lia.
        done.
  - destruct (IH (calls ++ [a]) count) as (made & rest & H1 & H2 & H3 & H4 & H5 & H6).
    rewrite length_app in H6. simpl in H6.
    exists (a :: made), rest. simpl.
    split; [by rewrite H1|]. split; [by rewrite H2, <-app_assoc|].
    split; [lia|]. split; [done|]. split.
    + intros Hall. rewrite Hall in Hs. done.
    + intros Hr. destruct (H6 Hr) as (b & Hb & Hthrew).
      exists b. split.
      * destruct made; [done|]. by rewrite <-Hb.
      * destruct made as [|c made]; [done|].
        replace (length calls + S (length (c :: made)) - 1)
          with (length calls + 1 + length (c :: made) - 1) by lia.
        done.
  - rewrite sendAllStep_stopped. simpl.
    exists [a], l. simpl. split; [done|]. split; [done|]. split; [lia|].
    split; [intros Hno; by destruct (Hno (length calls) a)|]. split.
    + intros Hall. rewrite Hall in Hs. done.
    + intros _. exists a. split; [done|].
      by replace (length calls + 1 - 1) with (length calls) by lia.
Qed.

(** X22. [processAllRSS] hands the parsed items to the sink in the order
    of their time, oldest first, the items without a finite time last,
    each once, whatever was sent before, until a call throws: when no
    call throws, the calls are all the parsed items; otherwise they stop
    at the call that threw. The count of successes is at most the number
    of calls, and it is the number of items when the sink accepts
    everything. *)
Theorem processAllRSS_sends_every_item
    (sink : nat → Article → Outcome) (parsedItems : list Article) :
  let calls := (processAllRSS sink parsedItems).1 in
  let successCount := (processAllRSS sink parsedItems).2 in
  ∃ rest,
    calls ++ rest ≡ₚ parsedItems ∧
    StronglySorted timeNoLater (calls ++ rest) ∧
    ((∀ k a, sink k a ≠ Threw) → rest = []) ∧
    (rest ≠ [] → ∃ a, last calls = Some a ∧ sink (length calls - 1) a = Threw) ∧
    successCount ≤ length calls ∧
    ((∀ k a, sink k a = Accepted) → successCount = length parsedItems).
Proof.
  intros calls successCount. subst calls successCount. unfold processAllRSS.
  destruct (sendAll_loop sink (sortBy compareTime parsedItems) [] 0)
    as (made & rest & H1 & H2 & H3 & H4 & H5 & H6).
  destruct (foldl (sendAllStep sink) ([], 0, false) (sortBy compareTime parsedItems))
    as [[calls count] stopped].
  simpl in H2, H3, H5, H6 |- *. subst calls.
  assert (Hp : sortBy compareTime parsedItems ≡ₚ parsedItems)
    by apply sortBy_Permutation.
  exists rest. rewrite <-H1.
  split; [done|]. split; [|split; [done | split; [done | split; [lia|]]]].
  - apply (StronglySorted_iff (leBy compareTime)).
    + apply compareTime_timeNoLater.
    + apply (@Sorted_StronglySorted _ _ leBy_compareTime_trans).
      apply sortBy_Sorted, compareTime_total.
  - intros Hall. rewrite (H5 Hall). by rewrite Hp.
Qed.

(** ** The link marks of the first RSS worker *)

Section LinkMarkFacts.
Import LinkMarks.
Variable encodeURIComponent : string → string.
Variable get_ok : string → bool.
Variable put_ok : string → bool.
Variable sink : nat → Article → Outcome.

Local Abbreviation keyOf := (buildCacheKey encodeURIComponent).
Local Abbreviation marked := (hasProcessedLink encodeURIComponent get_ok).
Local Abbreviation mark := (markLinkProcessed encodeURIComponent put_ok).
Local Abbreviation stepK := (LinkMarks.sendStep encodeURIComponent put_ok sink).
Local Abbreviation runM :=
  (LinkMarks.processRSS encodeURIComponent get_ok put_ok sink).

Lemma markLinkProcessed_marks kv l :
  get_ok (keyOf l) = true → put_ok (keyOf l) = true → marked (mark kv l) l = true.
Proof.
  intros Hg Hp. unfold hasProcessedLink, markLinkProcessed.
  by rewrite Hg, Hp, map_get_set_eq.
Qed.

Lemma markLinkProcessed_keeps kv l l' :
  marked kv l' = true → marked (mark kv l) l' = true.
Proof.
  unfold hasProcessedLink, markLinkProcessed. intros Hm.
  destruct (put_ok (keyOf l)); [|done].
  destruct (get_ok (keyOf l')); [|done].
  destruct (decide (keyOf l = keyOf l')) as [Heq | Hne].
  - by rewrite Heq, map_get_set_eq.
  - by rewrite map_get_set_ne.
Qed.

Lemma markLinkProcessed_other kv l l' :
  keyOf l ≠ keyOf l' → marked (mark kv l) l' = marked kv l'.
Proof.
  intros Hne. unfold hasProcessedLink, markLinkProcessed.
  destruct (put_ok (keyOf l)); [|done]. by rewrite map_get_set_ne.
Qed.

Lemma mark_loop_stopped l calls (kv : JsMap string) :
  foldl stepK (calls, kv, true) l = (calls, kv, true).
Proof. induction l as [|a l IH]; [done | apply IH]. Qed.

Lemma mark_loop (l : list Article) calls (kv : JsMap string) :
  let st := foldl stepK (calls, kv, false) l in
  (∃ made rest, l = made ++ rest ∧ st.1.1 = calls ++ made ∧
                ((∀ k a, sink k a ≠ Threw) → rest = [])) ∧
  (∀ l', marked kv l' = true → marked st.1.2 l' = true) ∧
  (∀ k a, st.1.1 !! (length calls + k) = Some a →
          sink (length calls + k) a = Accepted →
          get_ok (keyOf (link a)) = true → put_ok (keyOf (link a)) = true →
          marked st.1.2 (link a) = true) ∧
  (∀ l', (∀ k a, st.1.1 !! (length calls + k) = Some a →
                 sink (length calls + k) a = Accepted →
                 keyOf (link a) ≠ keyOf l') →
         marked st.1.2 l' = marked kv l').
Proof.
  revert calls kv. induction l as [|a l IH]; intros calls kv.
  { simpl. split; [exists [], []; simpl; rewrite app_nil_r; by repeat split|].
    split; [done|]. split; [|done].
    intros k a Hk. apply lookup_lt_Some in Hk. lia. }
  simpl foldl.
  assert (Hshift : ∀ k, length calls + 1 + k = length calls + S k)
    by (intros; lia).
  assert (Hhead : ∀ st' : list Article * JsMap string * bool,
            (∃ made rest, l = made ++ rest ∧
                            st'.1.1 = (calls ++ [a]) ++ made ∧
                            ((∀ k a, sink k a ≠ Threw) → rest = [])) →
            st'.1.1 !! (length calls + 0) = Some a).
  { intros st' (made & rest & _ & -> & _). rewrite <-app_assoc.
    rewrite lookup_app_r by lia. rewrite Nat.add_0_r, Nat.sub_diag. done. }
  destruct (sink (length calls) a) eqn:Hs.
  - destruct (IH (calls ++ [a]) (mark kv (link a))) as (H1 & H2 & H3 & H4).
    rewrite length_app in H3, H4. simpl in H3, H4.
    pose proof (Hhead _ H1) as H0.
    split; [|split; [|split]].
    + destruct H1 as (made & rest & -> & H1 & Hr). exists (a :: made), rest.
      split; [done|]. split; [by rewrite H1, <-app_assoc | done].
    + intros l' Hl'. by apply H2, markLinkProcessed_keeps.
    + intros [|k] b Hk Hb Hg Hp.
      * rewrite H0 in Hk. simplify_eq. by apply H2, markLinkProcessed_marks.
      * apply (H3 k b); [by rewrite Hshift | by rewrite Hshift | done | done].
    + intros l' Hl'. rewrite H4.
      * apply markLinkProcessed_other. apply (Hl' 0 a H0).
        by rewrite Nat.add_0_r.
      * intros k b Hk Hb. rewrite Hshift in Hk, Hb. by apply (Hl' (S k) b).
  - destruct (IH (calls ++ [a]) kv) as (H1 & H2 & H3 & H4).
    rewrite length_app in H3, H4. simpl in H3, H4.
    pose proof (Hhead _ H1) as H0.
    split; [|split; [done | split]].
    + destruct H1 as (made & rest & -> & H1 & Hr). exists (a :: made), rest.
      split; [done|]. split; [by rewrite H1, <-app_assoc | done].
    + intros [|k] b Hk Hb Hg Hp.
      * rewrite H0 in Hk. simplify_eq. rewrite Nat.add_0_r in Hb. congruence.
      * apply (H3 k b); [by rewrite Hshift | by rewrite Hshift | done | done].
    + intros l' Hl'. apply H4. intros k b Hk Hb.
      rewrite Hshift in Hk, Hb. by apply (Hl' (S k) b).
  - rewrite mark_loop_stopped. simpl.
    split; [|split; [done | split]].
    + exists [a], l. split; [done|]. split; [done|].
      intros Hno. by destruct (Hno (length calls) a).
    + intros k b Hk Hb Hg Hp. destruct k as [|k].
      * rewrite lookup_app_r in Hk by lia.
        rewrite Nat.add_0_r, Nat.sub_diag in Hk. simpl in Hk. simplify_eq.
        rewrite Nat.add_0_r in Hb. congruence.
      * apply lookup_lt_Some in Hk. rewrite length_app in Hk. simpl in Hk. lia.
    + done.
Qed.

(** X23. The first RSS worker hands to the sink items of the feed that
    have a link no mark was read for, in feed order, at most one in test
    mode, and all of them outside test mode unless a call throws. A link
    marked before is marked afterwards; the link of an accepted item is
    marked afterwards when the namespace takes the write and gives the
    read; the mark of a link none of whose items was accepted is as it
    was, so a refused item is offered again on the next run. *)
Theorem marked_link_is_not_sent_again
    (testMode : bool) (items : list Article) (kv : JsMap string) :
  let calls :=
    (LinkMarks.processRSS encodeURIComponent get_ok put_ok sink testMode items kv).1 in
  let kv' :=
    (LinkMarks.processRSS encodeURIComponent get_ok put_ok sink testMode items kv).2 in
  calls `sublist_of` items ∧
  (∀ a, a ∈ calls → nonEmpty (link a) = true ∧ marked kv (link a) = false) ∧
  (testMode = false → (∀ k a, sink k a ≠ Threw) →
     ∀ a, a ∈ items → nonEmpty (link a) = true → marked kv (link a) = false →
          a ∈ calls) ∧
  (testMode = true → length calls ≤ 1) ∧
  (∀ l, marked kv l = true → marked kv' l = true) ∧
  (∀ k a, calls !! k = Some a → sink k a = Accepted →
          get_ok (keyOf (link a)) = true → put_ok (keyOf (link a)) = true →
          marked kv' (link a) = true) ∧
  (∀ l, (∀ k a, calls !! k = Some a → sink k a = Accepted →
                keyOf (link a) ≠ keyOf l) →
        marked kv' l = marked kv l).
Proof.
  intros calls kv'. subst calls kv'. unfold LinkMarks.processRSS.
  set (todo := if testMode && bool_decide (1 < length items)
               then take 1 items else items).
  set (P := λ item : Article,
              nonEmpty (link item) = true ∧ marked kv (link item) = false).
  rewrite (List_filter_filter _ P).
  2:{ intros x _. unfold P. rewrite andb_true_iff, negb_true_iff. done. }
  destruct (mark_loop (filter P todo) [] kv) as (H1 & H2 & H3 & H4).
  destruct (foldl stepK ([], kv, false) (filter P todo)) as [[calls kv'] stopped].
  simpl in H1, H2, H3, H4 |- *.
  destruct H1 as (made & rest & Hsplit & -> & Hrest).
  assert (Hsub : todo `sublist_of` items).
  { subst todo. destruct (testMode && _); [apply sublist_take | done]. }
  assert (Hmade : made `sublist_of` filter P todo).
  { rewrite Hsplit. by apply sublist_inserts_r. }
  split.
  { etrans; [exact Hmade|]. etrans; [apply sublist_filter | exact Hsub]. }
  split.
  { intros a Ha. eapply elem_of_sublist in Ha; [|exact Hmade].
    by apply list_elem_of_filter in Ha as [? _]. }
  split; [|split; [|split; [done | split; [done | done]]]].
  - intros -> Hno a Ha Hl Hm. rewrite (Hrest Hno), app_nil_r in Hsplit.
    rewrite <-Hsplit. apply list_elem_of_filter. by split.
  - intros ->. apply sublist_length in Hmade. subst todo. simpl in *.
    etrans; [exact Hmade|]. etrans; [apply length_filter|].
    case_bool_decide; [rewrite length_take|]; lia.
Qed.
End LinkMarkFacts.

(** ** The news API worker *)

(** A sorted list is strongly sorted when the order is transitive on the
    elements the list holds. *)
Lemma Sorted_StronglySorted_on {A} (R : relation A) (P : A → Prop) (l : list A) :
  (∀ a b c, P a → P b → P c → R a b → R b c → R a c) →
  Forall P l → Sorted R l → StronglySorted R l.
Proof.
  intros Htrans Hp Hs. induction Hs as [|a l Hl IH Ha]; [constructor|].
  apply Forall_cons in Hp as [Hpa Hp]. specialize (IH Hp).
  constructor; [done|].
  destruct Ha as [|b l Hab]; [constructor|].
  apply Forall_cons in Hp as [Hpb Hp].
  constructor; [done|].
  apply StronglySorted_inv in IH as [_ Hb].
  rewrite Forall_forall in Hb, Hp. apply Forall_forall. intros c Hc.
  apply (Htrans a b c); auto.
Qed.

Section NewsApiFacts.
Import NewsApi.
Variable parseInt : string → option Z.
Variable defaultCategory : string.

Local Abbreviation clean := (cleanItem parseInt defaultCategory).
Local Abbreviation stepU := (uniqueStep parseInt defaultCategory).
Local Abbreviation cmpN := (compareNews parseInt).
Local Abbreviation before := (newsBefore parseInt).

Lemma cleanItem_id r : n_id (clean r) = trim (r_id r).
Proof. done. Qed.

Lemma uniqueStep_keyed raw (m : JsMap NewsItem) :
  NoDup m.*1 → Forall (λ kv, n_id kv.2 = kv.1) m →
  NoDup (foldl stepU m raw).*1 ∧
  Forall (λ kv, n_id kv.2 = kv.1) (foldl stepU m raw).
Proof.
  revert m. induction raw as [|r raw IH]; intros m Hnd Hk; [done|].
  simpl. apply IH; unfold uniqueStep;
    destruct (map_get (n_id (clean r)) m); try done.
  - by apply map_set_NoDup.
  - by apply map_set_Forall.
Qed.

(** The item [uniqueMap] holds under an id is the first raw item with that
    id. *)
Lemma uniqueStep_lookup raw (m : JsMap NewsItem) k :
  map_get k (foldl stepU m raw) =
    match map_get k m with
    | Some v => Some v
    | None => clean <$> head (filter (λ r, trim (r_id r) = k) raw)
    end.
Proof.
  revert m. induction raw as [|r raw IH]; intros m.
  { simpl. by destruct (map_get k m). }
  simpl foldl. rewrite IH. unfold uniqueStep. rewrite cleanItem_id.
  destruct (decide (trim (r_id r) = k)) as [Heq | Hne].
  - rewrite filter_cons_True by done. simpl. rewrite Heq.
    destruct (map_get k m) as [v|] eqn:Hg; [by rewrite Hg|].
    by rewrite map_get_set_eq.
  - rewrite filter_cons_False by done.
    destruct (map_get (trim (r_id r)) m); [done|].
    by rewrite map_get_set_ne.
Qed.

Lemma compareNews_total a b : (cmpN a b ≤ 0 ∨ cmpN b a ≤ 0)%Z.
Proof.
  unfold compareNews.
  destruct (n_isTop a), (n_isTop b); simpl; try lia.
  all: destruct (parseInt (n_id a)), (parseInt (n_id b)); lia.
Qed.

Lemma compareNews_before a b :
  is_Some (parseInt (n_id a)) → is_Some (parseInt (n_id b)) →
  leBy cmpN a b ↔ before a b.
Proof.
  intros [x Hx] [y Hy]. unfold leBy, compareNews, newsBefore. rewrite Hx, Hy.
  destruct (n_isTop a), (n_isTop b); simpl.
  - split.
    + intros Hle. split; [done|]. intros _. exists x, y.
      split; [done|]. split; [done|]. lia.
    + intros [_ H]. destruct (H eq_refl) as (x' & y' & ? & ? & ?). simplify_eq. lia.
  - split; [|lia]. intros _. split; [done|]. intros ?. done.
  - split; [lia|]. intros [H _]. by specialize (H eq_refl).
  - split.
    + intros Hle. split; [done|]. intros _. exists x, y.
      split; [done|]. split; [done|]. lia.
    + intros [_ H]. destruct (H eq_refl) as (x' & y' & ? & ? & ?). simplify_eq. lia.
Qed.

Lemma newsBefore_trans a b c :
  is_Some (parseInt (n_id a)) → is_Some (parseInt (n_id b)) →
  is_Some (parseInt (n_id c)) →
  before a b → before b c → before a c.
Proof.
  intros [x Hx] [y Hy] [z Hz] [Hab1 Hab2] [Hbc1 Hbc2]. split; [auto|].
  intros Hac. exists x, z. split; [done|]. split; [done|].
  assert (Hb : n_isTop a = n_isTop b ∧ n_isTop b = n_isTop c).
  { destruct (n_isTop a), (n_isTop b), (n_isTop c); auto;
      try discriminate Hac; try (by specialize (Hab1 eq_refl));
      try (by specialize (Hbc1 eq_refl)). }
  destruct Hb as [Hb1 Hb2].
  destruct (Hab2 Hb1) as (x' & y' & ? & ? & ?).
  destruct (Hbc2 Hb2) as (y'' & z' & ? & ? & ?). simplify_eq. lia.
Qed.

Lemma sorted_news l :
  Forall (λ i, is_Some (parseInt (n_id i))) l →
  StronglySorted before (sortBy cmpN l).
Proof.
  intros Hp.
  assert (Hp' : Forall (λ i, is_Some (parseInt (n_id i))) (sortBy cmpN l))
    by (by rewrite sortBy_Permutation).
  apply (Sorted_StronglySorted_on _ (λ i, is_Some (parseInt (n_id i)))).
  - intros a b c. apply newsBefore_trans.
  - done.
  - assert (Hs : Sorted (leBy cmpN) (sortBy cmpN l))
      by apply sortBy_Sorted, compareNews_total.
    revert Hp' Hs. generalize (sortBy cmpN l). intros l' Hp' Hs.
    induction Hs as [|a l' Hl IH Ha]; [constructor|].
    apply Forall_cons in Hp' as [Hpa Hp']. constructor; [by apply IH|].
    destruct Ha as [|b l' Hab]; constructor.
    apply Forall_cons in Hp' as [Hpb _]. by apply compareNews_before.
Qed.

Lemma timeline_is_deduplicated_ids (rawItems : list RawItem) :
  NoDup (n_id <$> timelineOf parseInt defaultCategory rawItems) ∧
  length (timelineOf parseInt defaultCategory rawItems) ≤ MAX_ITEMS.
Proof.
  unfold timelineOf.
  set (unique := foldl stepU [] rawItems).
  destruct (uniqueStep_keyed rawItems []) as [Hnd Hkeyed];
    [constructor | constructor |]. fold unique in Hnd, Hkeyed.
  assert (Hids : n_id <$> map_values unique = unique.*1).
  { unfold map_values. clear -Hkeyed.
    induction Hkeyed as [|[k v] l Hk _ IH]; [done|].
    rewrite !fmap_cons. simpl in *. by rewrite Hk, IH. }
  assert (Hp : sortBy cmpN (map_values unique) ≡ₚ map_values unique)
    by apply sortBy_Permutation.
  set (sorted := sortBy cmpN (map_values unique)) in *.
  split.
  - assert (Hsub : (if bool_decide (MAX_ITEMS < length sorted)
                    then take MAX_ITEMS sorted else sorted) `sublist_of` sorted).
    { case_bool_decide; [apply sublist_take | done]. }
    eapply sublist_NoDup; [|by apply fmap_sublist]. by rewrite Hp, Hids.
  - case_bool_decide; [rewrite length_take|]; lia.
Qed.

(** X24. The timeline [processData] builds holds every id once, at most
    500 items, and each item is the cleaned form of the first raw item
    with its id; when the ids are numbers, as [parseHtml] leaves them,
    the pinned items come first and within the pinned and the other
    items the higher number comes first. Up to 500 distinct ids, no
    id is lost. *)
Theorem timeline_is_deduplicated_and_ordered (rawItems : list RawItem) :
  let timeline := timelineOf parseInt defaultCategory rawItems in
  NoDup (n_id <$> timeline) ∧
  length timeline ≤ MAX_ITEMS ∧
  (∀ item, item ∈ timeline →
     ∃ before_ r after_,
       rawItems = before_ ++ r :: after_ ∧ item = cleanItem parseInt defaultCategory r ∧
       Forall (λ p, trim (r_id p) ≠ trim (r_id r)) before_) ∧
  (length (foldl (uniqueStep parseInt defaultCategory) [] rawItems) ≤ MAX_ITEMS →
     ∀ r, r ∈ rawItems → trim (r_id r) ∈ n_id <$> timeline) ∧
  (Forall (λ r, is_Some (parseInt (trim (r_id r)))) rawItems →
     StronglySorted (newsBefore parseInt) timeline).
Proof.
  intros timeline. subst timeline. unfold timelineOf.
  set (unique := foldl stepU [] rawItems).
  destruct (uniqueStep_keyed rawItems []) as [Hnd Hkeyed];
    [constructor | constructor |]. fold unique in Hnd, Hkeyed.
  assert (Hids : n_id <$> map_values unique = unique.*1).
  { unfold map_values. clear -Hkeyed.
    induction Hkeyed as [|[k v] l Hk _ IH]; [done|].
    rewrite !fmap_cons. simpl in *. by rewrite Hk, IH. }
  assert (Hp : sortBy cmpN (map_values unique) ≡ₚ map_values unique)
    by apply sortBy_Permutation.
  assert (Hlookup : ∀ item, item ∈ map_values unique →
            ∃ before_ r after_,
              rawItems = before_ ++ r :: after_ ∧ item = clean r ∧
              Forall (λ p, trim (r_id p) ≠ trim (r_id r)) before_).
  { intros item Hin. unfold map_values in Hin.
    apply list_elem_of_fmap in Hin as ([k v] & -> & Hin). simpl.
    apply (map_get_elem _ _ _ Hnd) in Hin.
    unfold unique in Hin. rewrite uniqueStep_lookup in Hin. simpl in Hin.
    destruct (head (filter (λ r, trim (r_id r) = k) rawItems)) as [r|] eqn:Hh;
      [|done].
    simpl in Hin. simplify_eq. clear -Hh.
    induction rawItems as [|p raw IH]; [done|].
    destruct (decide (trim (r_id p) = k)) as [Heq | Hne].
    - rewrite filter_cons_True in Hh by done. simpl in Hh. simplify_eq.
      exists [], r, raw. by repeat split.
    - rewrite filter_cons_False in Hh by done.
      destruct (IH Hh) as (pre & r' & post & -> & Hr & Hpre).
      exists (p :: pre), r', post. split; [done|]. split; [done|].
      constructor; [|done]. intros Hp. apply Hne. rewrite Hp.
      apply (f_equal n_id) in Hr. rewrite cleanItem_id in Hr.
      assert (Hk : trim (r_id r) = k).
      { apply head_Some_elem_of in Hh.
        by apply list_elem_of_filter in Hh as [? _]. }
      rewrite cleanItem_id in Hr. congruence. }
  set (sorted := sortBy cmpN (map_values unique)) in *.
  assert (Hsub : (if bool_decide (MAX_ITEMS < length sorted)
                  then take MAX_ITEMS sorted else sorted) `sublist_of` sorted).
  { case_bool_decide; [apply sublist_take | done]. }
  split; [|split; [|split; [|split]]].
  - eapply sublist_NoDup; [|by apply fmap_sublist]. by rewrite Hp, Hids.
  - case_bool_decide; [rewrite length_take|]; lia.
  - intros item Hin. apply Hlookup. rewrite <-Hp. by eapply elem_of_sublist.
  - intros Hsmall r Hr.
    assert (Hlen : length sorted = length unique).
    { rewrite Hp. unfold map_values. by rewrite length_fmap. }
    rewrite bool_decide_eq_false_2 by lia.
    rewrite Hp, Hids.
    apply dec_stable. intros Hout. apply map_get_None in Hout.
    unfold unique in Hout. rewrite uniqueStep_lookup in Hout. simpl in Hout.
    destruct (head (filter (λ r0, trim (r_id r0) = trim (r_id r)) rawItems))
      eqn:Hh; [done|].
    apply head_None in Hh.
    assert (Hin : r ∈ filter (λ r0, trim (r_id r0) = trim (r_id r)) rawItems)
      by (by apply list_elem_of_filter).
    rewrite Hh in Hin. by apply elem_of_nil in Hin.
  - intros Hparse.
    assert (Hs : StronglySorted before sorted).
    { apply sorted_news. apply Forall_forall. intros item Hin.
      destruct (Hlookup item Hin) as (pre & r & post & -> & -> & _).
      rewrite cleanItem_id. rewrite Forall_forall in Hparse. apply Hparse.
      apply elem_of_app. right. left. }
    case_bool_decide; [by apply StronglySorted_take | done].
Qed.
End NewsApiFacts.

Section GroupFacts.
Import NewsApi.
Variable protoHas : string → bool.

Local Abbreviation loop := (groupLoop protoHas).
Local Abbreviation step := (groupStep protoHas).

Lemma groupStep_Some (g g' : JsMap (list NewsItem)) item :
  step g item = Some g' →
  g' = map_set (n_category item)
         (default [] (map_get (n_category item) g) ++ [item]) g ∧
  (map_get (n_category item) g = None → protoHas (n_category item) = false).
Proof.
  unfold groupStep. destruct (map_get (n_category item) g) as [l|].
  - by intros [= <-].
  - destruct (protoHas (n_category item)); [done|]. by intros [= <-].
Qed.

Lemma groupLoop_lookup (timeline : list NewsItem) (g g' : JsMap (list NewsItem)) c :
  loop g timeline = Some g' →
  map_get c g' =
    match map_get c g, filter (λ i, n_category i = c) timeline with
    | Some l, f => Some (l ++ f)
    | None, [] => None
    | None, f => Some f
    end.
Proof.
  revert g. induction timeline as [|item timeline IH]; intros g.
  { simpl. intros [= <-]. destruct (map_get c g); [by rewrite app_nil_r | done]. }
  simpl. destruct (step g item) as [g1|] eqn:Hstep; [|done].
  intros Hloop. rewrite (IH _ Hloop).
  apply groupStep_Some in Hstep as [-> _].
  destruct (decide (n_category item = c)) as [Heq | Hne].
  - rewrite filter_cons_True by done. rewrite Heq.
    rewrite map_get_set_eq.
    destruct (map_get c g) as [l|] eqn:Hg; simpl.
    + by rewrite <-app_assoc.
    + done.
  - rewrite filter_cons_False by done. by rewrite map_get_set_ne.
Qed.

Lemma groupLoop_NoDup (timeline : list NewsItem) (g g' : JsMap (list NewsItem)) :
  loop g timeline = Some g' → NoDup g.*1 → NoDup g'.*1.
Proof.
  revert g. induction timeline as [|item timeline IH]; intros g.
  { simpl. by intros [= <-]. }
  simpl. destruct (step g item) as [g1|] eqn:Hstep; [|done].
  intros Hloop Hnd. apply (IH _ Hloop).
  apply groupStep_Some in Hstep as [-> _]. by apply map_set_NoDup.
Qed.

Lemma concat_map_set_snoc (g : JsMap (list NewsItem)) c l x :
  map_get c g = Some l →
  concat (map_values (map_set c (l ++ [x]) g)) ≡ₚ x :: concat (map_values g).
Proof.
  unfold map_values. induction g as [|[k v] g IH]; [done|]. simpl.
  destruct (bool_decide (k = c)) eqn:E.
  - intros [= ->]. simpl. rewrite <-app_assoc. simpl.
    by rewrite <-Permutation_middle.
  - intros Hg. simpl. rewrite (IH Hg). by rewrite <-Permutation_middle.
Qed.

Lemma groupLoop_concat (timeline : list NewsItem) (g g' : JsMap (list NewsItem)) :
  loop g timeline = Some g' →
  concat (map_values g') ≡ₚ concat (map_values g) ++ timeline.
Proof.
  revert g. induction timeline as [|item timeline IH]; intros g.
  { simpl. intros [= <-]. by rewrite app_nil_r. }
  simpl. destruct (step g item) as [g1|] eqn:Hstep; [|done].
  intros Hloop. rewrite (IH _ Hloop).
  apply groupStep_Some in Hstep as [-> _].
  destruct (map_get (n_category item) g) as [l|] eqn:Hg; simpl.
  - rewrite concat_map_set_snoc by done. by rewrite <-Permutation_middle.
  - rewrite map_set_absent by (by apply map_get_None).
    unfold map_values. rewrite fmap_app, concat_app. simpl.
    by rewrite ?app_nil_r, <-app_assoc.
Qed.

(** The grouping throws exactly when it meets an inherited name. *)
Lemma groupLoop_None (timeline : list NewsItem) (g : JsMap (list NewsItem)) :
  Forall (λ k, protoHas k = false) g.*1 →
  loop g timeline = None ↔
  Exists (λ item, protoHas (n_category item) = true) timeline.
Proof.
  revert g. induction timeline as [|item timeline IH]; intros g Hg.
  { simpl. split; [done|]. by intros ?%Exists_nil. }
  simpl. rewrite Exists_cons. unfold groupStep.
  destruct (map_get (n_category item) g) as [l|] eqn:Hget.
  - assert (Hp : protoHas (n_category item) = false).
    { apply map_get_Some_elem in Hget. rewrite Forall_forall in Hg.
      apply Hg. apply list_elem_of_fmap. by exists (n_category item, l). }
    rewrite IH.
    + split; [by right|]. intros [Ht | Ht]; [congruence | done].
    + apply Forall_forall. intros k Hk. apply map_set_keys in Hk.
      rewrite Forall_forall in Hg. destruct Hk as [-> | Hk]; auto.
  - destruct (protoHas (n_category item)) eqn:Hp.
    + split; [by left | done].
    + rewrite IH.
      * split; [by right|]. intros [Ht | Ht]; [done | done].
      * apply Forall_forall. intros k Hk. apply map_set_keys in Hk.
        rewrite Forall_forall in Hg. destruct Hk as [-> | Hk]; auto.
Qed.

Lemma processData_Some (parseInt : string → option Z) (defaultCategory : string)
    (now : string) (rawItems : list RawItem) (data : NewsData) :
  processData parseInt defaultCategory protoHas now rawItems = Some data →
  d_timeline data = timelineOf parseInt defaultCategory rawItems ∧
  m_total_count (d_meta data) = length (d_timeline data) ∧
  loop [] (d_timeline data) = Some (d_categories data).
Proof.
  unfold processData.
  destruct (groupLoop protoHas [] (timelineOf parseInt defaultCategory rawItems))
    as [grouped|] eqn:Hloop; [|done].
  by intros [= <-].
Qed.

Lemma categories_lookup (timeline : list NewsItem) (categories : JsMap (list NewsItem)) c :
  loop [] timeline = Some categories →
  map_get c categories =
    match filter (λ i, n_category i = c) timeline with
    | [] => None
    | f => Some f
    end.
Proof. intros Hloop. by rewrite (groupLoop_lookup _ _ _ _ Hloop). Qed.

(** X25. [processData] throws exactly when the category of an item of
    the timeline is a name the prototype defines. Otherwise its grouping
    is a partition of the timeline: the group stored under a category is
    the timeline's items of that category in timeline order, and is not
    empty; category names are distinct; every item is in the group of
    its category; and the groups together hold exactly the items of the
    timeline, so [total_count] is their number. *)
Theorem categories_partition_the_timeline
    (parseInt : string → option Z) (defaultCategory : string) (now : string)
    (rawItems : list RawItem) :
  (processData parseInt defaultCategory protoHas now rawItems = None ↔
   Exists (λ item, protoHas (n_category item) = true)
     (timelineOf parseInt defaultCategory rawItems)) ∧
  ∀ data, processData parseInt defaultCategory protoHas now rawItems = Some data →
    NoDup (d_categories data).*1 ∧
    (∀ c items, map_get c (d_categories data) = Some items →
       items = filter (λ i, n_category i = c) (d_timeline data) ∧ items ≠ []) ∧
    (∀ item, item ∈ d_timeline data →
       ∃ items, map_get (n_category item) (d_categories data) = Some items ∧
                item ∈ items) ∧
    concat (map_values (d_categories data)) ≡ₚ d_timeline data ∧
    m_total_count (d_meta data) = length (concat (map_values (d_categories data))).
Proof.
  split.
  { rewrite <-(groupLoop_None _ []) by constructor. unfold processData.
    by destruct (groupLoop protoHas [] (timelineOf parseInt defaultCategory rawItems)). }
  intros data (_ & Hcount & Hloop)%processData_Some.
  pose proof (groupLoop_concat _ _ _ Hloop) as Hcat. simpl in Hcat.
  split; [by apply (groupLoop_NoDup _ _ _ Hloop); constructor|].
  split; [|split; [|split; [done | by rewrite Hcat]]].
  - intros c items. rewrite (categories_lookup _ _ _ Hloop).
    destruct (filter (λ i, n_category i = c) (d_timeline data)) eqn:Hf; [done|].
    by intros [= <-].
  - intros item Hin. rewrite (categories_lookup _ _ _ Hloop).
    assert (Hf : item ∈ filter (λ i, n_category i = n_category item) (d_timeline data))
      by (by apply list_elem_of_filter).
    destruct (filter (λ i, n_category i = n_category item) (d_timeline data)) eqn:E.
    + by apply elem_of_nil in Hf.
    + by eexists.
Qed.

(** X26. The articles the news monitor collects from the stored
    categories, in whatever order the stored object lists them, are the
    items of the timeline, each once: no id comes twice, and every
    article has the id, the date and the category of its item. *)
Theorem monitor_collects_each_item_once
    (parseInt : string → option Z) (defaultCategory : string) (now : string)
    (rawItems : list RawItem) (data : NewsData) (stored : JsMap (list NewsItem)) :
  processData parseInt defaultCategory protoHas now rawItems = Some data →
  stored ≡ₚ d_categories data →
  let allArticles := collectAllArticles stored in
  NoDup (NewsMonitor.id <$> allArticles) ∧
  NewsMonitor.id <$> allArticles ≡ₚ n_id <$> d_timeline data ∧
  (∀ a, a ∈ allArticles →
     ∃ item, item ∈ d_timeline data ∧ NewsMonitor.id a = n_id item ∧
             NewsMonitor.date a = n_date item ∧
             NewsMonitor.category a = n_category item ∧
             NewsMonitor.news_title a = VStr (n_title item)).
Proof.
  intros (Htl & _ & Hloop)%processData_Some Hstored allArticles.
  subst allArticles.
  assert (Hperm : Object_entries stored ≡ₚ d_categories data).
  { by rewrite Object_entries_Permutation. }
  assert (Hids : NewsMonitor.id <$> collectAllArticles stored
                 ≡ₚ n_id <$> d_timeline data).
  { unfold collectAllArticles.
    transitivity (n_id <$> concat (map_values (d_categories data)));
      [|by rewrite (groupLoop_concat _ _ _ Hloop)].
    unfold map_values. rewrite <-Hperm.
    generalize (Object_entries stored). intros l.
    induction l as [|[c items] l IH]; [done|].
    rewrite !fmap_cons. simpl. rewrite !fmap_app, IH.
    f_equiv. rewrite <-list_fmap_compose.
    by rewrite (list_fmap_ext (NewsMonitor.id ∘ _) n_id items). }
  assert (Hnd : NoDup (n_id <$> d_timeline data)).
  { rewrite Htl.
    by destruct (timeline_is_deduplicated_ids parseInt defaultCategory rawItems). }
  split; [by rewrite Hids|]. split; [done|].
  intros a Ha. unfold collectAllArticles in Ha.
  apply list_elem_of_In, in_concat in Ha as (group & Hgroup & Ha).
  apply list_elem_of_In in Hgroup, Ha.
  apply list_elem_of_fmap in Hgroup as ([c items] & -> & Hin). simpl in Ha.
  apply list_elem_of_fmap in Ha as (item & -> & Hitem). simpl.
  rewrite Hperm in Hin.
  assert (Hget : map_get c (d_categories data) = Some items).
  { apply map_get_elem; [|done]. by apply (groupLoop_NoDup _ _ _ Hloop); constructor. }
  rewrite (categories_lookup _ _ _ Hloop) in Hget.
  destruct (filter (λ i, n_category i = c) (d_timeline data)) eqn:Hf; [done|].
  simplify_eq. rewrite <-Hf in Hitem.
  apply list_elem_of_filter in Hitem as [Hc Hitem].
  exists item. by repeat split.
Qed.
End GroupFacts.

(** ** The date of a news item *)

Section DateFacts.
Import NewsApi.

Lemma splitOn_noSlash s : noSlash s = true → splitOn "/" s = [s].
Proof.
  unfold noSlash. induction s as [|c r IH]; [done|]. simpl.
  intros [Hc Hr]%andb_true_iff. rewrite (IH Hr).
  destruct (bool_decide (c = "/"%char)); done.
Qed.

Lemma splitOn_append s t :
  noSlash s = true →
  splitOn "/" (String.append s (String "/" t)) = s :: splitOn "/" t.
Proof.
  unfold noSlash. induction s as [|c r IH]; [done|].
  intros [Hc Hr]%andb_true_iff. rewrite append_cons.
  change (splitOn "/" (String c (String.append r (String "/" t))))
    with (if bool_decide (c = "/"%char)
          then EmptyString :: splitOn "/" (String.append r (String "/" t))
          else match splitOn "/" (String.append r (String "/" t)) with
               | part :: parts => String c part :: parts
               | [] => [String c EmptyString]
               end).
  rewrite (IH Hr). by destruct (bool_decide (c = "/"%char)).
Qed.

(** X27. The date normalisation of [processData] turns a date written as
    year, month and day separated by two slashes into the three parts
    joined by hyphens, month and day padded to two digits with zeros,
    and leaves every text without a slash as it is. *)
Theorem normalizeDate_pads_month_and_day (year month day : string) :
  noSlash year = true → noSlash month = true → noSlash day = true →
  normalizeDate
    (String.append year (String "/" (String.append month (String "/" day))))
  = String.append year
      (String.append "-"
         (String.append (padStart 2 "0" month)
            (String.append "-" (padStart 2 "0" day)))) ∧
  (2 ≤ String.length (padStart 2 "0" month)) ∧
  (2 ≤ String.length (padStart 2 "0" day)) ∧
  normalizeDate year = year.
Proof.
  intros Hy Hm Hd. split; [|split; [|split]].
  - unfold normalizeDate.
    rewrite splitOn_append by done. rewrite splitOn_append by done.
    rewrite splitOn_noSlash by done.
    by destruct year.
  - unfold padStart. rewrite string_length_append, repeatChar_length. lia.
  - unfold padStart. rewrite string_length_append, repeatChar_length. lia.
  - unfold normalizeDate. rewrite splitOn_noSlash by done. by destruct (nonEmpty year).
Qed.
End DateFacts.

(** ** The category filter of the news API worker *)

Section FilterFacts.
Import NewsApi.
Variable toLowerCase : string → string.
Variable protoHas : string → bool.

Lemma readCategory_key c :
  c ∈ CATEGORY_MAP.*1 →
  ∃ name, map_get c CATEGORY_MAP = Some name ∧
          readCategory protoHas c = Own name ∧ nonEmpty name = true.
Proof.
  unfold readCategory.
  intros Hc. simpl in Hc. repeat (apply elem_of_cons in Hc as [-> | Hc]);
    [by eexists .. |]. by apply elem_of_nil in Hc.
Qed.

Lemma readCategory_Own c name :
  readCategory protoHas c = Own name ↔ map_get c CATEGORY_MAP = Some name.
Proof.
  unfold readCategory. destruct (map_get c CATEGORY_MAP) as [n|].
  - split; congruence.
  - by destruct (protoHas c).
Qed.

Lemma readCategory_unknown c :
  negb (propertyTruthy (readCategory protoHas c)) = true ↔ unknownName protoHas c.
Proof.
  unfold unknownName. destruct (decide (c ∈ CATEGORY_MAP.*1)) as [Hin | Hout].
  - destruct (readCategory_key c Hin) as (name & _ & -> & Hname). simpl.
    rewrite Hname. split; [done | by intros [? _]].
  - unfold readCategory. apply map_get_None in Hout as Hget. rewrite Hget.
    destruct (protoHas c); simpl; split; try done. by intros [_ ?].
Qed.

Lemma includesName_spec requested item :
  includesName (readCategory protoHas <$> requested) (n_category item) = true ↔
  inRequested requested item.
Proof.
  unfold includesName, inRequested. rewrite existsb_exists, Exists_exists. split.
  - intros (p & Hp & Hname). apply list_elem_of_In, list_elem_of_fmap in Hp
      as (c & -> & Hc).
    exists c. split; [done|].
    destruct (readCategory protoHas c) as [name| |] eqn:Hr; try done.
    apply bool_decide_eq_true in Hname as <-. by apply readCategory_Own.
  - intros (c & Hc & Hget). exists (Own (n_category item)). split.
    + apply list_elem_of_In, list_elem_of_fmap. exists c. split; [|done].
      symmetry. by apply readCategory_Own.
    + by apply bool_decide_eq_true.
Qed.

(** The three ways [filterByCategory] goes on a stored answer. *)
Lemma filterByCategory_cases (data : Fetched) (categoryParam : string) :
  let requested := requestedCategoriesOf toLowerCase categoryParam in
  let unknown := filter (unknownName protoHas) requested in
  filterByCategory toLowerCase protoHas data categoryParam =
    if decide (requested = []) then Some InvalidParameter
    else if decide (unknown = []) then
      match data with
      | FetchedData d =>
          let chosen := filter (inRequested requested) (d_timeline d) in
          Some (Selected
                  (mkSelection (m_last_updated (d_meta d)) (length chosen)
                     (m_total_count (d_meta d)) (m_source (d_meta d))
                     (m_version (d_meta d)) requested chosen))
      | FetchedNothing => None
      end
    else Some (InvalidCategory unknown).
Proof.
  intros requested unknown. unfold filterByCategory. fold requested.
  rewrite (List_filter_filter _ (unknownName protoHas) requested)
    by (intros c _; apply readCategory_unknown).
  fold unknown.
  destruct (decide (requested = [])) as [Hreq | Hreq].
  { by rewrite Hreq. }
  rewrite bool_decide_eq_false_2 by (by destruct requested).
  destruct (decide (unknown = [])) as [Hun | Hun].
  - rewrite Hun. simpl. destruct data as [|d]; [done|].
    by rewrite (List_filter_filter _ (inRequested requested) (d_timeline d))
      by (intros item _; apply includesName_spec).
  - rewrite bool_decide_eq_true_2 by (destruct unknown; [done | simpl; lia]).
    done.
Qed.

(** X28. A request whose parameters are all keys of [CATEGORY_MAP] is
    answered, on stored data, with the items of the timeline whose
    category is the name of a requested parameter, in timeline order;
    [total_count] is their number and [filtered_from] the count of the
    stored data. Where there is no stored data the same request throws. *)
Theorem filterByCategory_selects_the_requested
    (d : NewsData) (categoryParam : string) :
  let requested := requestedCategoriesOf toLowerCase categoryParam in
  requested ≠ [] →
  Forall (λ c, c ∈ CATEGORY_MAP.*1) requested →
  (∃ s, filterByCategory toLowerCase protoHas (FetchedData d) categoryParam
        = Some (Selected s) ∧
     f_categories s = requested ∧
     f_data s = filter (inRequested requested) (d_timeline d) ∧
     f_data s `sublist_of` d_timeline d ∧
     (∀ item, item ∈ f_data s →
        ∃ c, c ∈ requested ∧
             map_get c CATEGORY_MAP = Some (n_category item)) ∧
     f_total_count s = length (f_data s) ∧
     f_filtered_from s = m_total_count (d_meta d)) ∧
  filterByCategory toLowerCase protoHas FetchedNothing categoryParam = None.
Proof.
  intros requested Hreq Hkeys.
  assert (Hun : filter (unknownName protoHas) requested = []).
  { apply filter_none. eapply Forall_impl; [exact Hkeys|].
    intros c Hc [Hout _]. done. }
  split.
  2: { rewrite filterByCategory_cases. fold requested.
       rewrite decide_False by done. by rewrite decide_True. }
  rewrite filterByCategory_cases. fold requested.
  rewrite decide_False by done. rewrite decide_True by done.
  eexists. split; [done|]. simpl.
  split; [done|]. split; [done|]. split; [apply sublist_filter|].
  split; [|done].
  intros item [Hin _]%list_elem_of_filter. unfold inRequested in Hin.
  by apply Exists_exists in Hin.
Qed.

(** X29. A request without a parameter is refused as a whole. Otherwise
    the parameters reported invalid are those that are neither keys of
    [CATEGORY_MAP] nor names the prototype defines, in the order of the
    request. A parameter the prototype defines is not reported: a request
    made of such parameters alone is answered with no item. *)
Theorem filterByCategory_reports_unknown_parameters
    (data : Fetched) (categoryParam : string) :
  let requested := requestedCategoriesOf toLowerCase categoryParam in
  let unknown := filter (unknownName protoHas) requested in
  (requested = [] →
     filterByCategory toLowerCase protoHas data categoryParam
     = Some InvalidParameter) ∧
  (unknown ≠ [] →
     filterByCategory toLowerCase protoHas data categoryParam
     = Some (InvalidCategory unknown) ∧
     unknown `sublist_of` requested ∧
     Forall (λ c, map_get c CATEGORY_MAP = None) unknown) ∧
  (requested ≠ [] →
   Forall (λ c, (c ∉ CATEGORY_MAP.*1) ∧ protoHas c = true) requested →
   ∀ d, data = FetchedData d →
     ∃ s, filterByCategory toLowerCase protoHas data categoryParam
          = Some (Selected s) ∧
          f_categories s = requested ∧ f_data s = [] ∧ f_total_count s = 0).
Proof.
  intros requested unknown. rewrite filterByCategory_cases.
  fold requested. fold unknown.
  split; [|split].
  - intros Hreq. by rewrite decide_True.
  - intros Hun.
    assert (Hreq : requested ≠ []).
    { intros Hreq. apply Hun. unfold unknown. by rewrite Hreq. }
    rewrite decide_False by done. rewrite decide_False by done.
    split; [done|]. split; [apply sublist_filter|].
    apply Forall_forall. intros c [[Hout _] _]%list_elem_of_filter.
    by apply map_get_None.
  - intros Hreq Hproto d ->.
    assert (Hun : unknown = []).
    { apply filter_none. eapply Forall_impl; [exact Hproto|].
      intros c [_ Hp] [_ Hq]. congruence. }
    rewrite decide_False by done. rewrite decide_True by done.
    assert (Hnone : filter (inRequested requested) (d_timeline d) = []).
    { apply filter_none. apply Forall_forall. intros item _ Hin.
      unfold inRequested in Hin. apply Exists_exists in Hin as (c & Hc & Hget).
      rewrite Forall_forall in Hproto. destruct (Hproto c Hc) as [Hout _].
      apply map_get_None in Hout. congruence. }
    eexists. split; [done|]. simpl. by rewrite Hnone.
Qed.
End FilterFacts.

(** ** From the categories to the filter *)

Section FilterOfProcessed.
Import NewsApi.
Variable parseInt : string → option Z.
Variable defaultCategory : string.
Variable toLowerCase : string → string.
Variable protoHas : string → bool.

(** X30. After [processData], a request for one category is answered
    with the group [categories] holds under the name of that category,
    and with no item when no such group is held. *)
Theorem one_category_request_answers_its_group
    (now : string) (rawItems : list RawItem) (data : NewsData)
    (categoryParam c name : string) :
  processData parseInt defaultCategory protoHas now rawItems = Some data →
  requestedCategoriesOf toLowerCase categoryParam = [c] →
  map_get c CATEGORY_MAP = Some name →
  ∃ s, filterByCategory toLowerCase protoHas (FetchedData data) categoryParam
       = Some (Selected s) ∧
       f_data s = default [] (map_get name (d_categories data)) ∧
       f_total_count s = length (default [] (map_get name (d_categories data))) ∧
       f_filtered_from s = length (d_timeline data).
Proof.
  intros (_ & Hcount & Hloop)%processData_Some Hreq Hname.
  rewrite filterByCategory_cases. rewrite Hreq.
  assert (Hun : filter (unknownName protoHas) [c] = []).
  { apply filter_none. constructor; [|constructor]. intros [Hout _].
    apply map_get_None in Hout. congruence. }
  rewrite decide_False by done. rewrite decide_True by done.
  assert (Hsel : filter (inRequested [c]) (d_timeline data)
                 = default [] (map_get name (d_categories data))).
  { rewrite (categories_lookup _ _ _ _ Hloop).
    transitivity (filter (λ i, n_category i = name) (d_timeline data)).
    - apply list_filter_iff. intros item. unfold inRequested.
      rewrite Exists_cons, Exists_nil. rewrite Hname. split.
      + intros [[= ->] | []]. done.
      + intros ->. by left.
    - by destruct (filter (λ i, n_category i = name) (d_timeline data)). }
  eexists. split; [done|]. simpl. rewrite Hsel. by rewrite Hcount.
Qed.
End FilterOfProcessed.

(** ** Sample runs of the further properties *)

Lemma hashIdentifier_witness :
  hashIdentifier EmptyString = "811c9dc5" ∧
  String.length (hashIdentifier "https://example.com/a") = 8.
Proof.
  split; [reflexivity|].
  by destruct (hashIdentifier_is_eight_hex_digits "https://example.com/a") as [H _].
Defined.

Lemma loadSentMap_witness :
  loadSentMap (sampleSentJSON sampleStored) (KvValue (Some "{..}"%string))
    = [("0badc0de"%string, mkSentEntry "2024-01-01T00:00:00.000Z" None)] ∧
  loadSentMap (sampleSentJSON sampleStored) (KvValue (Some "{"%string)) = [] ∧
  NoDup (loadSentMap (sampleSentJSON sampleStored) (KvValue (Some "{..}"%string))).*1.
Proof.
  split; [reflexivity|]. split; [reflexivity|].
  by destruct (loadSentMap_keeps_wellformed_records (sampleSentJSON sampleStored)
                 (KvValue (Some "{..}"%string))) as [H _].
Defined.

Lemma sentMap_round_trip_witness :
  NoDup mixedLedger.*1 ∧
  loadSentMap (sampleSentJSON (savedEntries mixedLedger)) (KvValue (Some "{..}"%string))
    = [("12345678"%string,
        mkSentEntry "2024-01-02T00:00:00.000Z" (Some "https://example.com/b"%string));
       ("0badc0de"%string, mkSentEntry "2024-01-01T00:00:00.000Z" None)] ∧
  loadSentMap (sampleSentJSON (savedEntries mixedLedger)) (KvValue (Some "{..}"%string))
    ≡ₚ filter hasSentAt mixedLedger.
Proof.
  assert (H1 : NoDup mixedLedger.*1).
  { change (NoDup ["0badc0de"; "12345678"]%string).
    apply NoDup_cons. split; [|apply NoDup_singleton].
    intros Hin%list_elem_of_singleton. discriminate Hin. }
  assert (H2 : nonEmpty "{..}" = true) by reflexivity.
  assert (H3 : sampleSentJSON (savedEntries mixedLedger) "{..}"
               = Some (SentObject (savedEntries mixedLedger))) by reflexivity.
  split; [exact H1|]. split; [vm_compute; reflexivity|].
  by destruct (sentMap_save_load_round_trip
                 (sampleSentJSON (savedEntries mixedLedger)) "{..}" mixedLedger
                 H1 H2 H3) as [H _].
Defined.

Lemma pruneSentMap_settles_witness :
  NoDup (ledgerOf 550).*1 ∧
  map_size (pruneSentMap sampleParse (ledgerOf 550)).1 ≤ MAX_SENT_MAP_SIZE ∧
  pruneSentMap sampleParse (pruneSentMap sampleParse (ledgerOf 550)).1
    = ((pruneSentMap sampleParse (ledgerOf 550)).1, false).
Proof.
  pose proof (ledgerOf_keys 550) as H1.
  split; [exact H1|].
  destruct (pruneSentMap_settles sampleParse (ledgerOf 550) H1)
    as (Hsize & _ & _ & _ & Hagain).
  split; [exact Hsize | exact Hagain].
Defined.

Lemma pruneSentMap_multi_witness :
  NoDup staleLedger.*1 ∧
  pruneSentMap_multi sampleParse 1704412800000 staleLedger = ([], true) ∧
  pruneSentMap_multi sampleParse 1704412800000
    (pruneSentMap_multi sampleParse 1704412800000 staleLedger).1
    = ((pruneSentMap_multi sampleParse 1704412800000 staleLedger).1, false).
Proof.
  assert (H1 : NoDup staleLedger.*1) by apply NoDup_singleton.
  split; [exact H1|]. split; [vm_compute; reflexivity|].
  by destruct (pruneSentMap_multi_settles sampleParse 1704412800000 staleLedger H1)
    as (_ & _ & _ & H & _).
Defined.

Lemma sent_article_witness :
  ∃ r, processSource sampleParse sampleISO codeUnitCompare acceptEach sampleClock
         false true [sentA] ledgerA false [candA'; candB] = Some r ∧
       cr_calls r = [1] ∧
       ∀ ref article, ref ∈ cr_calls r → cr_articles r !! ref = Some article →
                      link article ≠ link sentA.
Proof.
  destruct (processSource sampleParse sampleISO codeUnitCompare acceptEach sampleClock
              false true [sentA] ledgerA false [candA'; candB]) as [r|] eqn:E;
    [|vm_compute in E; discriminate E].
  exists r. split; [reflexivity|].
  assert (Hc : cr_calls r = [1]).
  { vm_compute in E. by injection E as <-. }
  split; [exact Hc|].
  assert (H2 : NoDup (link <$> [sentA])) by apply NoDup_singleton.
  assert (H3 : sentA ∈ [sentA]) by left.
  assert (H4 : nonEmpty (link sentA) = true) by reflexivity.
  assert (H5 : truthy (sent sentA) = true) by reflexivity.
  by destruct (sent_article_is_not_delivered_again sampleParse sampleISO
                 codeUnitCompare acceptEach sampleClock false true [sentA] ledgerA
                 false [candA'; candB] r sentA E H2 H3 H4 H5) as [_ H].
Defined.

Lemma cycle_writes_witness :
  (∃ r, processSource sampleParse sampleISO codeUnitCompare refuseEach sampleClock
          false true [unsentA] [] false [] = Some r ∧
        cr_dailyWrite r = None ∧
        cr_calls r = [0] ∧
        mergeArticles sampleParse sampleISO codeUnitCompare [unsentA] []
          = Some (cr_articles r, false) ∧
        refuseEach 0 unsentA = Refused) ∧
  (∃ r, processSource sampleParse sampleISO codeUnitCompare throwSecond sampleClock
          false true [unsentA; unsentB] [] false [] = Some r ∧
        someCallThrew throwSecond [unsentA; unsentB] (cr_calls r) ∧
        sent <$> cr_articles r !! 0 = Some (VBool true) ∧
        cr_dailyWrite r = None ∧ cr_sentWrite r = None).
Proof.
  split.
  - destruct (processSource sampleParse sampleISO codeUnitCompare refuseEach
                sampleClock false true [unsentA] [] false []) as [r|] eqn:E;
      [|vm_compute in E; discriminate E].
    exists r. split; [reflexivity|].
    assert (Hd : cr_dailyWrite r = None).
    { vm_compute in E. by injection E as <-. }
    assert (Hc : cr_calls r = [0]).
    { vm_compute in E. by injection E as <-. }
    split; [exact Hd|]. split; [exact Hc|].
    destruct (cycle_writes_what_it_changed sampleParse sampleISO codeUnitCompare
                refuseEach sampleClock false true [unsentA] [] false [] r E)
      as (merged & hasChanges & Hm & _ & _ & _ & _ & H).
    destruct (H Hd) as [Hthrew | (_ & -> & -> & Hcalls)].
    + destruct Hthrew as (k & ref & a & _ & _ & Hs). discriminate Hs.
    + split; [exact Hm | reflexivity].
  - destruct (processSource sampleParse sampleISO codeUnitCompare throwSecond
                sampleClock false true [unsentA; unsentB] [] false [])
      as [r|] eqn:E; [|vm_compute in E; discriminate E].
    exists r. split; [reflexivity|].
    assert (Hc : cr_calls r = [0; 1]).
    { vm_compute in E. by injection E as <-. }
    assert (Hs : sent <$> cr_articles r !! 0 = Some (VBool true)).
    { vm_compute in E. by injection E as <-. }
    assert (Ht : someCallThrew throwSecond [unsentA; unsentB] (cr_calls r)).
    { rewrite Hc. by exists 1, 1, unsentB. }
    split; [exact Ht|]. split; [exact Hs|].
    destruct (cycle_writes_what_it_changed sampleParse sampleISO codeUnitCompare
                throwSecond sampleClock false true [unsentA; unsentB] [] false [] r E)
      as (merged & hasChanges & Hm & _ & _ & H & _).
    apply H.
    assert (Hmerged : merged = [unsentA; unsentB]).
    { vm_compute in Hm. by injection Hm as <-. }
    rewrite Hmerged. exact Ht.
Defined.

Lemma merge_keeps_every_link_witness :
  mergeArticles sampleParse sampleISO codeUnitCompare [sentA] [candB; candA]
    = Some ([sentA; unsentB], true) ∧
  candB ∈ [candB; candA] ∧
  ∃ e, e ∈ [sentA; unsentB] ∧ link e = link candB ∧
       sent e = VBool false ∧ sentAt e = VNull.
Proof.
  assert (H1 : mergeArticles sampleParse sampleISO codeUnitCompare [sentA] [candB; candA]
                 = Some ([sentA; unsentB], true)) by (vm_compute; reflexivity).
  assert (H2 : candB ∈ [candB; candA]) by left.
  split; [exact H1|]. split; [exact H2|].
  destruct (merge_keeps_every_link sampleParse sampleISO codeUnitCompare
              _ _ _ _ H1) as (_ & _ & H).
  apply (H candB H2); [reflexivity|].
  change (link candB ∉ ["https://example.com/a"%string]).
  intros Hin%list_elem_of_singleton. discriminate Hin.
Defined.

Lemma monitor_run_witness :
  (∀ l, sampleSortByDate l ≡ₚ l) ∧
  (∀ l, Forall (validDate sampleGetTime) l →
        sampleSortByDate l = sortBy (NewsMonitor.compareDate sampleGetTime) l) ∧
  ∃ r, NewsMonitor.processFFXIVNews sampleSortByDate refuseAll sampleClock false
         [news2; news1] ["100"%string] [] = Some r ∧
       NewsMonitor.mr_calls r = [news1; news2] ∧
       NewsMonitor.mr_snapshotWrite r = Some ["102"; "101"]%string ∧
       NewsMonitor.processFFXIVNews sampleSortByDate acceptAll sampleClock false
         [news2; news1] ["102"; "101"]%string [] = None.
Proof.
  assert (H1 : ∀ l, sampleSortByDate l ≡ₚ l) by exact sampleSort_permutes.
  assert (H2 : ∀ l, Forall (validDate sampleGetTime) l →
                    sampleSortByDate l
                    = sortBy (NewsMonitor.compareDate sampleGetTime) l)
    by exact sampleSort_stable.
  split; [exact H1|]. split; [exact H2|].
  destruct (NewsMonitor.processFFXIVNews sampleSortByDate refuseAll sampleClock false
              [news2; news1] ["100"%string] []) as [r|] eqn:E;
    [|vm_compute in E; discriminate E].
  exists r. split; [reflexivity|].
  assert (Hc : NewsMonitor.mr_calls r = [news1; news2]).
  { vm_compute in E. by injection E as <-. }
  split; [exact Hc|].
  destruct (monitor_run_replaces_snapshot sampleGetTime sampleSortByDate refuseAll
              sampleClock H1 H2 [news2; news1] ["100"%string] [])
    as (_ & Hrun & Hnext).
  destruct (Hrun r E) as (Hs & _).
  split; [exact Hs|]. exact (Hnext sampleSortByDate acceptAll sampleClock false []).
Defined.

Lemma monitor_records_witness :
  ∃ r, NewsMonitor.processFFXIVNews sampleSortByDate refuseFirst sampleClock false
         [news2; news1] ["100"%string] [] = Some r ∧
       NewsMonitor.mr_calls r = [news1; news2] ∧
       "102"%string ∈ (NewsMonitor.mr_sentMap r).*1 ∧
       map_get "101" (NewsMonitor.mr_sentMap r) = None.
Proof.
  destruct (NewsMonitor.processFFXIVNews sampleSortByDate refuseFirst sampleClock false
              [news2; news1] ["100"%string] []) as [r|] eqn:E;
    [|vm_compute in E; discriminate E].
  exists r. split; [reflexivity|].
  assert (Hc : NewsMonitor.mr_calls r = [news1; news2]).
  { vm_compute in E. by injection E as <-. }
  split; [exact Hc|].
  assert (Hprev : ["100"%string] ≠ []) by discriminate.
  destruct (monitor_records_accepted_only sampleSortByDate refuseFirst sampleClock
              false [news2; news1] ["100"%string] [] r E Hprev) as [Hacc Hrest].
  split.
  - apply (Hacc 1 news2); [by rewrite Hc | reflexivity].
  - rewrite (Hrest "101"%string); [reflexivity|].
    rewrite Hc. intros [|[|k]] a Hk Hid; simpl in Hk; simplify_eq; reflexivity.
Defined.

Lemma monitor_sent_map_witness :
  NoDup monitorLedger.*1 ∧
  MonitorStore.saveSentMap sampleGetTime monitorLedger = monitorLedger.
Proof.
  assert (H1 : NoDup monitorLedger.*1) by apply NoDup_singleton.
  split; [exact H1|].
  destruct (monitor_sent_map_keeps_newest sampleGetTime monitorLedger H1)
    as (_ & _ & H & _).
  apply H. vm_compute. lia.
Defined.

Lemma mergeState_witness :
  Lifeismoney.mergeState [("M.1.A.001"%string, itemOld)] [entryNew; entryOld]
  = [("M.1.A.001"%string,
      Lifeismoney.mkItem "M.1.A.001"
        (VStr "https://www.ptt.cc/bbs/Lifeismoney/M.1.A.001.html")
        (VStr "old") (VStr "amy") (VNum 75) (VBool true)
        (VStr "2024-01-01T00:00:00.000Z"));
     ("M.2.A.002"%string, itemNew)] ∧
  NoDup (Lifeismoney.mergeState [("M.1.A.001"%string, itemOld)] [entryNew; entryOld]).*1.
Proof.
  split; [reflexivity|].
  destruct (mergeState_keeps_sent_state [("M.1.A.001"%string, itemOld)]
              [entryNew; entryOld]) as [H _].
  apply H. apply NoDup_singleton.
Defined.

Lemma selection_witness_lifeismoney :
  NoDup [("M.1.A.001"%string, itemOld); ("M.2.A.002"%string, itemNew)].*1 ∧
  Lifeismoney.selectArticlesToSend codeUnitCompare
    [("M.1.A.001"%string, itemOld); ("M.2.A.002"%string, itemNew)] false
  = [("M.2.A.002"%string, itemNew)] ∧
  StronglySorted pushNoLess
    (Lifeismoney.selectArticlesToSend codeUnitCompare
       [("M.1.A.001"%string, itemOld); ("M.2.A.002"%string, itemNew)] false).
Proof.
  assert (H1 : NoDup [("M.1.A.001"%string, itemOld);
                      ("M.2.A.002"%string, itemNew)].*1).
  { change (NoDup ["M.1.A.001"; "M.2.A.002"]%string).
    apply NoDup_cons. split; [|apply NoDup_singleton].
    intros Hin%list_elem_of_singleton. discriminate Hin. }
  split; [exact H1|]. split; [vm_compute; reflexivity|].
  by destruct (selection_is_unsent_and_popular codeUnitCompare codeUnitCompare_total
                 _ false H1) as (_ & _ & H & _).
Defined.

Lemma lifeismoney_run_witness :
  NoDup [("M.1.A.001"%string, itemOld)].*1 ∧
  (Lifeismoney.processLifeismoney codeUnitCompare acceptAll sampleClock false
     [("M.1.A.001"%string, itemOld)] [entryNew; entryOld]).2
  = [("M.2.A.002"%string, itemNew)] ∧
  ∃ item', map_get "M.1.A.001"
             (Lifeismoney.processLifeismoney codeUnitCompare acceptAll sampleClock
                false [("M.1.A.001"%string, itemOld)] [entryNew; entryOld]).1
           = Some item' ∧
           Lifeismoney.i_sent item' = VBool true.
Proof.
  assert (H1 : NoDup [("M.1.A.001"%string, itemOld)].*1) by apply NoDup_singleton.
  split; [exact H1|]. split; [vm_compute; reflexivity|].
  destruct (lifeismoney_run_sends_unsent_only codeUnitCompare acceptAll sampleClock
              false [("M.1.A.001"%string, itemOld)] [entryNew; entryOld] H1)
    as (_ & _ & _ & _ & H).
  apply (H "M.1.A.001"%string itemOld); reflexivity.
Defined.

Lemma lifeismoney_refused_witness :
  NoDup [("M.1.A.001"%string, itemOld)].*1 ∧
  (Lifeismoney.processLifeismoney codeUnitCompare refuseAll sampleClock false
     [("M.1.A.001"%string, itemOld)] [entryNew; entryOld]).2 !! 0
  = Some ("M.2.A.002"%string, itemNew) ∧
  ("M.2.A.002"%string, itemNew) ∈
    (Lifeismoney.processLifeismoney codeUnitCompare acceptAll sampleClock false
       (Lifeismoney.processLifeismoney codeUnitCompare refuseAll sampleClock false
          [("M.1.A.001"%string, itemOld)] [entryNew; entryOld]).1
       [entryOld]).2.
Proof.
  assert (H1 : NoDup [("M.1.A.001"%string, itemOld)].*1) by apply NoDup_singleton.
  assert (H2 : (Lifeismoney.processLifeismoney codeUnitCompare refuseAll sampleClock
                  false [("M.1.A.001"%string, itemOld)] [entryNew; entryOld]).2 !! 0
               = Some ("M.2.A.002"%string, itemNew)) by (vm_compute; reflexivity).
  assert (H3 : @refuseAll Lifeismoney.Item 0 itemNew = false) by reflexivity.
  split; [exact H1|]. split; [exact H2|].
  destruct (lifeismoney_refused_item_is_offered_again codeUnitCompare refuseAll
              sampleClock false [("M.1.A.001"%string, itemOld)]
              [entryNew; entryOld] 0 "M.2.A.002" itemNew H1 H2 H3) as (_ & _ & H).
  apply (H acceptAll sampleClock [entryOld]).
  change ("M.2.A.002"%string ∉ ["M.1.A.001"%string]).
  intros Hin%list_elem_of_singleton. discriminate Hin.
Defined.

Lemma isRecentlyProcessed_witness :
  NoDup sampleCache.*1 ∧
  RecentLinks.isRecentlyProcessed 1000 "https://example.com/a" sampleCache
    = (true, sampleCache) ∧
  RecentLinks.isRecentlyProcessed 700000 "https://example.com/a" sampleCache
    = (false, [("https://example.com/a"%string, 700000%Z)]) ∧
  Forall (live 700000)
    (RecentLinks.isRecentlyProcessed 700000 "https://example.com/a" sampleCache).2.
Proof.
  assert (H1 : NoDup sampleCache.*1) by apply NoDup_singleton.
  split; [exact H1|]. split; [reflexivity|]. split; [reflexivity|].
  destruct (isRecentlyProcessed_answers_live_links 700000 "https://example.com/a"
              sampleCache H1) as [_ H].
  by destruct (H eq_refl) as (_ & _ & Hl & _).
Defined.

Lemma recent_link_witness :
  NoDup sampleCache.*1 ∧
  (RecentLinks.isRecentlyProcessed 1000 "https://example.com/b" sampleCache).1 = false ∧
  (RecentLinks.isRecentlyProcessed 601001 "https://example.com/b"
     (RecentLinks.isRecentlyProcessed 1000 "https://example.com/b" sampleCache).2).1
  = bool_decide (601001 - 1000 ≤ 600000)%Z.
Proof.
  assert (H1 : NoDup sampleCache.*1) by apply NoDup_singleton.
  assert (H2 : nonEmpty "https://example.com/b" = true) by reflexivity.
  assert (H3 : (RecentLinks.isRecentlyProcessed 1000 "https://example.com/b"
                  sampleCache).1 = false) by reflexivity.
  split; [exact H1|]. split; [exact H3|].
  exact (recent_link_is_withheld_for_ten_minutes 1000 601001 "https://example.com/b"
           sampleCache H1 H2 H3).
Defined.

Lemma pass_witness :
  (∀ i j, i ≤ j → (sampleTicks j - sampleTicks i ≤ 600000)%Z) ∧
  NoDup sampleCache.*1 ∧
  (RecentLinks.processRSS sampleTicks neverThrows false [candB; candA; candB]
     sampleCache).1 = [candB] ∧
  NoDup (link <$> (RecentLinks.processRSS sampleTicks neverThrows false
                     [candB; candA; candB] sampleCache).1).
Proof.
  assert (H0 : ∀ i j, i ≤ j → (sampleTicks j - sampleTicks i ≤ 600000)%Z).
  { intros i j _. unfold sampleTicks. lia. }
  assert (H1 : NoDup sampleCache.*1) by apply NoDup_singleton.
  split; [exact H0|]. split; [exact H1|]. split; [reflexivity|].
  by destruct (pass_sends_no_link_twice sampleTicks H0 neverThrows false
                 [candB; candA; candB] sampleCache H1) as [H _].
Defined.

Lemma processAllRSS_witness :
  (∀ k a, acceptEvery k a = Accepted) ∧
  processAllRSS acceptEvery [candB; blankArticle; candA]
    = ([blankArticle; candA; candB], 3) ∧
  ∃ rest, (processAllRSS acceptEvery [candB; blankArticle; candA]).1 ++ rest
            ≡ₚ [candB; blankArticle; candA] ∧ rest = [].
Proof.
  assert (H1 : ∀ k a, acceptEvery k a = Accepted) by reflexivity.
  split; [exact H1|]. split; [vm_compute; reflexivity|].
  destruct (processAllRSS_sends_every_item acceptEvery [candB; blankArticle; candA])
    as (rest & Hp & _ & Hno & _).
  exists rest. split; [exact Hp|]. apply Hno. intros k a. by rewrite H1.
Defined.

Lemma marked_link_witness :
  (LinkMarks.processRSS sampleEncode always always acceptEvery false
     [candA; candB] sampleMarks).1 = [candB] ∧
  LinkMarks.hasProcessedLink sampleEncode always
    (LinkMarks.processRSS sampleEncode always always acceptEvery false
       [candA; candB] sampleMarks).2 (link candB) = true.
Proof.
  assert (H1 : (LinkMarks.processRSS sampleEncode always always acceptEvery false
                  [candA; candB] sampleMarks).1 = [candB]) by reflexivity.
  split; [exact H1|].
  destruct (marked_link_is_not_sent_again sampleEncode always always acceptEvery
              false [candA; candB] sampleMarks) as (_ & _ & _ & _ & _ & H & _).
  apply (H 0 candB); [by rewrite H1 | reflexivity | reflexivity | reflexivity].
Defined.

Lemma timeline_witness :
  Forall (λ r, is_Some (sampleParseInt (trim (NewsApi.r_id r)))) samplePages ∧
  length (foldl (NewsApi.uniqueStep sampleParseInt "公告") [] samplePages)
    ≤ NewsApi.MAX_ITEMS ∧
  NewsApi.timelineOf sampleParseInt "公告" samplePages
    = [item103; item102; item101] ∧
  StronglySorted (newsBefore sampleParseInt)
    (NewsApi.timelineOf sampleParseInt "公告" samplePages) ∧
  ∀ r, r ∈ samplePages →
    trim (NewsApi.r_id r)
    ∈ NewsApi.n_id <$> NewsApi.timelineOf sampleParseInt "公告" samplePages.
Proof.
  assert (H1 : Forall (λ r, is_Some (sampleParseInt (trim (NewsApi.r_id r))))
                 samplePages).
  { repeat constructor; by eexists. }
  assert (H2 : length (foldl (NewsApi.uniqueStep sampleParseInt "公告") []
                         samplePages) ≤ NewsApi.MAX_ITEMS).
  { change (3 ≤ 500). lia. }
  split; [exact H1|]. split; [exact H2|]. split; [vm_compute; reflexivity|].
  destruct (timeline_is_deduplicated_and_ordered sampleParseInt "公告" samplePages)
    as (_ & _ & _ & Hall & Hsorted).
  split; [exact (Hsorted H1) | exact (Hall H2)].
Defined.

Lemma categories_witness :
  NewsApi.processData sampleParseInt "公告" sampleProto sampleNow samplePages
    = Some sampleNews ∧
  concat (map_values (NewsApi.d_categories sampleNews))
    ≡ₚ NewsApi.d_timeline sampleNews ∧
  map_get "更新" (NewsApi.d_categories sampleNews) = Some [item102] ∧
  ([item102] = filter (λ i, NewsApi.n_category i = "更新")
                 (NewsApi.d_timeline sampleNews) ∧ [item102] ≠ []).
Proof.
  assert (H1 : NewsApi.processData sampleParseInt "公告" sampleProto sampleNow
                 samplePages = Some sampleNews) by (vm_compute; reflexivity).
  assert (H2 : map_get "更新" (NewsApi.d_categories sampleNews) = Some [item102])
    by reflexivity.
  split; [exact H1|].
  destruct (categories_partition_the_timeline sampleProto sampleParseInt "公告"
              sampleNow samplePages) as [_ Hdata].
  destruct (Hdata sampleNews H1) as (_ & Hgroup & _ & Hall & _).
  split; [exact Hall|]. split; [exact H2|]. exact (Hgroup _ _ H2).
Defined.

Lemma monitor_collects_witness :
  NewsApi.processData sampleParseInt "公告" sampleProto sampleNow samplePages
    = Some sampleNews ∧
  sampleStoredCategories ≡ₚ NewsApi.d_categories sampleNews ∧
  NewsMonitor.id <$> NewsApi.collectAllArticles sampleStoredCategories
    = ["101"; "103"; "102"] ∧
  NoDup (NewsMonitor.id <$> NewsApi.collectAllArticles sampleStoredCategories).
Proof.
  assert (H1 : NewsApi.processData sampleParseInt "公告" sampleProto sampleNow
                 samplePages = Some sampleNews) by (vm_compute; reflexivity).
  assert (H2 : sampleStoredCategories ≡ₚ NewsApi.d_categories sampleNews).
  { exact (Permutation_cons_append
             [("公告", [item103]); ("更新", [item102])] ("活動", [item101])). }
  split; [exact H1|]. split; [exact H2|]. split; [vm_compute; reflexivity|].
  by destruct (monitor_collects_each_item_once sampleProto sampleParseInt "公告"
                 sampleNow samplePages sampleNews sampleStoredCategories H1 H2)
    as [H _].
Defined.

Lemma normalizeDate_witness :
  noSlash "2025" = true ∧ noSlash "1" = true ∧ noSlash "5" = true ∧
  NewsApi.normalizeDate "2025/1/5" = "2025-01-05".
Proof.
  assert (H1 : noSlash "2025" = true) by reflexivity.
  assert (H2 : noSlash "1" = true) by reflexivity.
  assert (H3 : noSlash "5" = true) by reflexivity.
  split; [exact H1|]. split; [exact H2|]. split; [exact H3|].
  by destruct (normalizeDate_pads_month_and_day "2025" "1" "5" H1 H2 H3) as [H _].
Defined.

Lemma filterByCategory_witness :
  NewsApi.requestedCategoriesOf sampleLower " Event, ,UPDATE" = ["event"; "update"] ∧
  Forall (λ c, c ∈ NewsApi.CATEGORY_MAP.*1) ["event"; "update"] ∧
  ∃ s, NewsApi.filterByCategory sampleLower sampleProto
         (NewsApi.FetchedData sampleNews) " Event, ,UPDATE"
       = Some (NewsApi.Selected s) ∧
       NewsApi.f_data s = [item102; item101] ∧ NewsApi.f_total_count s = 2.
Proof.
  assert (H0 : NewsApi.requestedCategoriesOf sampleLower " Event, ,UPDATE"
               = ["event"; "update"]) by (vm_compute; reflexivity).
  assert (H1 : NewsApi.requestedCategoriesOf sampleLower " Event, ,UPDATE" ≠ [])
    by (rewrite H0; discriminate).
  assert (H2 : Forall (λ c, c ∈ NewsApi.CATEGORY_MAP.*1) ["event"; "update"]).
  { repeat constructor. }
  split; [exact H0|]. split; [exact H2|].
  assert (H2' : Forall (λ c, c ∈ NewsApi.CATEGORY_MAP.*1)
                  (NewsApi.requestedCategoriesOf sampleLower " Event, ,UPDATE"))
    by (rewrite H0; exact H2).
  destruct (filterByCategory_selects_the_requested sampleLower sampleProto
              sampleNews " Event, ,UPDATE" H1 H2')
    as [(s & Hs & _ & Hdata & _ & _ & Hcount & _) _].
  exists s. split; [exact Hs|]. rewrite Hcount, Hdata. rewrite H0.
  split; reflexivity.
Defined.

Lemma one_category_witness :
  NewsApi.processData sampleParseInt "公告" sampleProto sampleNow samplePages
    = Some sampleNews ∧
  NewsApi.requestedCategoriesOf sampleLower "UPDATE" = ["update"] ∧
  map_get "update" NewsApi.CATEGORY_MAP = Some "更新" ∧
  ∃ s, NewsApi.filterByCategory sampleLower sampleProto
         (NewsApi.FetchedData sampleNews) "UPDATE"
       = Some (NewsApi.Selected s) ∧
       NewsApi.f_data s = [item102].
Proof.
  assert (H1 : NewsApi.processData sampleParseInt "公告" sampleProto sampleNow
                 samplePages = Some sampleNews) by (vm_compute; reflexivity).
  assert (H2 : NewsApi.requestedCategoriesOf sampleLower "UPDATE" = ["update"])
    by (vm_compute; reflexivity).
  assert (H3 : map_get "update" NewsApi.CATEGORY_MAP = Some "更新") by reflexivity.
  split; [exact H1|]. split; [exact H2|]. split; [exact H3|].
  destruct (one_category_request_answers_its_group sampleParseInt "公告"
              sampleLower sampleProto sampleNow samplePages sampleNews
              "UPDATE" "update" "更新" H1 H2 H3) as (s & Hs & Hdata & _).
  exists s. split; [exact Hs|]. exact Hdata.
Defined.

Lemma unknown_parameters_witness :
  filter (unknownName sampleProto)
    (NewsApi.requestedCategoriesOf sampleLower "event,news,Constructor,sale")
    = ["news"; "sale"] ∧
  NewsApi.filterByCategory sampleLower sampleProto (NewsApi.FetchedData sampleNews)
    "event,news,Constructor,sale"
    = Some (NewsApi.InvalidCategory ["news"; "sale"]) ∧
  Forall (λ c, (c ∉ NewsApi.CATEGORY_MAP.*1) ∧ sampleProto c = true)
    (NewsApi.requestedCategoriesOf sampleLower "Constructor") ∧
  ∃ s, NewsApi.filterByCategory sampleLower sampleProto
         (NewsApi.FetchedData sampleNews) "Constructor"
       = Some (NewsApi.Selected s) ∧
       NewsApi.f_categories s = ["constructor"] ∧ NewsApi.f_data s = [].
Proof.
  assert (H0 : filter (unknownName sampleProto)
                 (NewsApi.requestedCategoriesOf sampleLower
                    "event,news,Constructor,sale")
               = ["news"; "sale"]) by (vm_compute; reflexivity).
  assert (H1 : filter (unknownName sampleProto)
                 (NewsApi.requestedCategoriesOf sampleLower
                    "event,news,Constructor,sale") ≠ [])
    by (rewrite H0; discriminate).
  assert (H2 : NewsApi.requestedCategoriesOf sampleLower "Constructor"
               = ["constructor"]) by (vm_compute; reflexivity).
  assert (H3 : NewsApi.requestedCategoriesOf sampleLower "Constructor" ≠ [])
    by (rewrite H2; discriminate).
  assert (H4 : Forall (λ c, (c ∉ NewsApi.CATEGORY_MAP.*1) ∧ sampleProto c = true)
                 (NewsApi.requestedCategoriesOf sampleLower "Constructor")).
  { rewrite H2. constructor; [|constructor]. split; [|reflexivity].
    intros Hin. simpl in Hin.
    repeat (apply elem_of_cons in Hin as [Hin | Hin]; [discriminate Hin|]).
    by apply elem_of_nil in Hin. }
  split; [exact H0|].
  destruct (filterByCategory_reports_unknown_parameters sampleLower sampleProto
              (NewsApi.FetchedData sampleNews) "event,news,Constructor,sale")
    as (_ & Hreport & _).
  destruct (Hreport H1) as (Hanswer & _).
  split; [by rewrite Hanswer, H0|]. split; [exact H4|].
  destruct (filterByCategory_reports_unknown_parameters sampleLower sampleProto
              (NewsApi.FetchedData sampleNews) "Constructor")
    as (_ & _ & Hproto).
  destruct (Hproto H3 H4 sampleNews eq_refl) as (s & Hs & Hcats & Hdata & _).
  exists s. split; [exact Hs|]. split; [by rewrite Hcats, H2 | exact Hdata].
Defined.
